(** * NeuralNet.py: layers, cost functions and the SGD driver

    A shallow embedding of [src/NeuralNet.py].

    - numpy's float arrays are idealised: an [ndarray] is a 2-D array of real
      numbers (every array the source builds is 2-D: [np.zeros((N,1))],
      [np.random.randn(N, N_p)]), with numpy's shape rules written out
      (inner dimensions for [np.dot], broadcasting for the elementwise
      operators, the stricter rule of the in-place operators).
    - arrays are Python objects: they live in a [heap] and the layers hold
      locations, so that [self.dB = upstream_gradient] shares an object and
      [self.dW_sum += self.dW] mutates one.
    - the methods run in a state-and-error monad; [exit()] is an outcome of
      its own, distinct from a raised exception.
    - the global random generator is made explicit: the draws of
      [np.random.randn] and the permutation of [random.shuffle] are
      arguments.
    - [calls] is a ghost trace: the driver records each layer-method
      invocation in it and no statement of the source reads it. *)

From Stdlib Require Import Reals Lra Lia ZArith List String Permutation.
From stdpp Require Import base option list.
Import ListNotations.

Local Open Scope nat_scope.

(* ====================================================================== *)
(** ** numpy arrays *)
(* ====================================================================== *)

(** A 2-D array: [shape = (nrows, ncols)], and [elt a i j] is [a[i][j]] for
    [i < nrows a] and [j < ncols a]. *)
Record ndarray := mk_ndarray { nrows : nat; ncols : nat; elt : nat -> nat -> R }.

Definition same_shape (a b : ndarray) : bool :=
  (nrows a =? nrows b) && (ncols a =? ncols b).

(** np.zeros((r, c)) *)
Definition np_zeros (r c : nat) : ndarray := mk_ndarray r c (fun _ _ => 0%R).

(** f(0) + f(1) + ... + f(n-1) *)
Fixpoint sum_upto (n : nat) (f : nat -> R) : R :=
  match n with
  | O => 0%R
  | S k => (sum_upto k f + f k)%R
  end.

(** np.dot(a, b) on 2-D arrays: the matrix product; ValueError ([None])
    when the inner dimensions differ. *)
Definition np_dot (a b : ndarray) : option ndarray :=
  if ncols a =? nrows b
  then Some (mk_ndarray (nrows a) (ncols b)
               (fun i j => sum_upto (ncols a) (fun k => (elt a i k * elt b k j)%R)))
  else None.

(** a.transpose() *)
Definition np_transpose (a : ndarray) : ndarray :=
  mk_ndarray (ncols a) (nrows a) (fun i j => elt a j i).

(** Broadcasting of one dimension: equal sizes, or one of them is 1. *)
Definition broadcast_dim (m n : nat) : option nat :=
  if m =? n then Some m
  else if m =? 1 then Some n
  else if n =? 1 then Some m
  else None.

(** The index read in a dimension of size [dim] for result index [i]. *)
Definition bidx (dim i : nat) : nat := if dim =? 1 then 0 else i.

(** An elementwise binary operator with broadcasting; ValueError ([None])
    when the shapes cannot be broadcast together. *)
Definition np_binop (f : R -> R -> R) (a b : ndarray) : option ndarray :=
  match broadcast_dim (nrows a) (nrows b), broadcast_dim (ncols a) (ncols b) with
  | Some r, Some c =>
      Some (mk_ndarray r c
              (fun i j => f (elt a (bidx (nrows a) i) (bidx (ncols a) j))
                            (elt b (bidx (nrows b) i) (bidx (ncols b) j))))
  | _, _ => None
  end.

Definition np_add : ndarray -> ndarray -> option ndarray := np_binop Rplus.
Definition np_subtract : ndarray -> ndarray -> option ndarray := np_binop Rminus.
Definition np_multiply : ndarray -> ndarray -> option ndarray := np_binop Rmult.

(** The in-place operators [a += b] and [a -= b]: the broadcast result has
    to have the shape of [a], numpy raises ValueError otherwise. The value
    is the new content of the object [a]. *)
Definition np_inplace (f : R -> R -> R) (a b : ndarray) : option ndarray :=
  match np_binop f a b with
  | Some c => if same_shape c a then Some c else None
  | None => None
  end.

Definition np_iadd : ndarray -> ndarray -> option ndarray := np_inplace Rplus.
Definition np_isub : ndarray -> ndarray -> option ndarray := np_inplace Rminus.

(** An elementwise function, and the operators with a Python scalar. *)
Definition np_map (f : R -> R) (a : ndarray) : ndarray :=
  mk_ndarray (nrows a) (ncols a) (fun i j => f (elt a i j)).

(** a / s, for a scalar [s] that is not zero (numpy gives [inf] or [nan]
    with a warning for a zero scalar, which real numbers do not have) *)
Definition np_div_scalar (a : ndarray) (s : R) : ndarray := np_map (fun v => (v / s)%R) a.
(** s * a *)
Definition np_scalar_mul (s : R) (a : ndarray) : ndarray := np_map (fun v => (s * v)%R) a.
(** a[:] = s *)
Definition np_fill (a : ndarray) (s : R) : ndarray := np_map (fun _ => s) a.
(** np.exp(a) *)
Definition np_exp : ndarray -> ndarray := np_map exp.
(** np.square(a) *)
Definition np_square : ndarray -> ndarray := np_map (fun v => (v * v)%R).
(** np.maximum(a, 0) *)
Definition np_maximum0 : ndarray -> ndarray := np_map (fun v => Rmax v 0).
(** a > 0; numpy multiplies a boolean array as the numbers 1.0 and 0.0 *)
Definition np_gt0 : ndarray -> ndarray :=
  np_map (fun v => if Rlt_dec 0 v then 1%R else 0%R).

(** np.sum(a): the sum of all entries. *)
Definition np_sum (a : ndarray) : R :=
  sum_upto (nrows a) (fun i => sum_upto (ncols a) (fun j => elt a i j)).

(** np.argmax(a): the index, in the flattened (row-major) array, of the
    first largest entry; ValueError on an array without entries. *)
Definition flat (a : ndarray) (k : nat) : R := elt a (k / ncols a) (k mod ncols a).

Definition np_argmax (a : ndarray) : option nat :=
  match nrows a * ncols a with
  | O => None
  | S n =>
      Some (fold_left (fun best k => if Rlt_dec (flat a best) (flat a k) then k else best)
              (seq 1 n) 0)
  end.

(* ====================================================================== *)
(** ** The state-and-error monad *)
(* ====================================================================== *)

(** A reference to an array object: its position in the heap. *)
Abbreviation loc := nat (only parsing).

(** The exceptions the modelled code can raise. [InvalidRef] is not a Python
    exception: it marks the use of a location outside the heap, which no
    Python run can hold. *)
Inductive exn :=
| ValueError | AttributeError | IndexError | TypeError | ZeroDivisionError
| InvalidRef.

(** What [print] writes. *)
Inductive out :=
| Print_str (s : string)
| Print_shape (w_cols x_rows : nat)
| Print_epoch_complete (j : nat)
| Print_epoch_test (j : nat) (correct n_test : nat) (train_cost test_cost : R).

(** A layer-method invocation made by the driver, with the index of the
    layer in [self.layers]. *)
Inductive call :=
| Call_forward (layer : nat)
| Call_backward (layer : nat)
| Call_update (layer : nat) (mini_batch_size : nat) (eta : R).

Record world := mk_world {
  heap : list ndarray;
  stdout : list out;
  calls : list call
}.

Definition set_heap (h : list ndarray) (w : world) : world :=
  mk_world h (stdout w) (calls w).

(** The result of running a method on the object [self]: a normal return,
    a raised exception, or the termination of the program by [exit()]. Each
    carries the object and the world as they are at that point.

    [exit()] raises [SystemExit], which is not an [Exception]; the source
    has no [try] statement, so nothing between the call and the top of the
    program handles it, and the monad has no operation that does. *)
Inductive outcome (T X : Type) : Type :=
| Ok (x : X) (self : T) (w : world)
| Raise (e : exn) (self : T) (w : world)
| Exit (self : T) (w : world).
Arguments Ok {T X} x self w.
Arguments Raise {T X} e self w.
Arguments Exit {T X} self w.

Definition M (T X : Type) : Type := T -> world -> outcome T X.

#[global] Instance M_ret T : MRet (M T) := fun X x self w => Ok x self w.

#[global] Instance M_bind T : MBind (M T) := fun X Y k m self w =>
  match m self w with
  | Ok x self' w' => k x self' w'
  | Raise e self' w' => Raise e self' w'
  | Exit self' w' => Exit self' w'
  end.

Definition get_self {T} : M T T := fun self w => Ok self self w.
Definition modify_self {T} (f : T -> T) : M T unit := fun self w => Ok tt (f self) w.
Definition raise {T X} (e : exn) : M T X := fun self w => Raise e self w.
Definition py_exit {T X} : M T X := fun self w => Exit self w.

Definition print {T} (o : out) : M T unit := fun self w =>
  Ok tt self (mk_world (heap w) (stdout w ++ [o]) (calls w)).

Definition record_call {T} (c : call) : M T unit := fun self w =>
  Ok tt self (mk_world (heap w) (stdout w) (calls w ++ [c])).

(** A new array object. *)
Definition alloc {T} (a : ndarray) : M T loc := fun self w =>
  Ok (length (heap w)) self (set_heap (heap w ++ [a]) w).

(** The content of an array object. *)
Definition load {T} (l : loc) : M T ndarray := fun self w =>
  match heap w !! l with
  | Some a => Ok a self w
  | None => Raise InvalidRef self w
  end.

(** Overwriting the content of an array object. *)
Definition store {T} (l : loc) (a : ndarray) : M T unit := fun self w =>
  match heap w !! l with
  | Some _ => Ok tt self (set_heap (<[l := a]> (heap w)) w)
  | None => Raise InvalidRef self w
  end.

(** The result of a numpy operation, or its ValueError. *)
Definition np {T X} (r : option X) : M T X :=
  match r with
  | Some x => mret x
  | None => raise ValueError
  end.

(** target += source, on array objects *)
Definition iadd {T} (target source : loc) : M T unit :=
  t ← load target;
  s ← load source;
  r ← np (np_iadd t s);
  store target r.

(** target -= v, for a temporary value [v] *)
Definition isub_value {T} (target : loc) (v : ndarray) : M T unit :=
  t ← load target;
  r ← np (np_isub t v);
  store target r.

(** target[:] = s *)
Definition fill {T} (target : loc) (s : R) : M T unit :=
  t ← load target;
  store target (np_fill t s).

(** A for loop that threads a variable through its iterations. *)
Fixpoint for_each {T A B} (l : list A) (body : B -> A -> M T B) (b : B) : M T B :=
  match l with
  | [] => mret b
  | a :: l' => b' ← body b a; for_each l' body b'
  end.

(** Running a method of a component of [self]. *)
Definition embed {U T X} (inj : U -> T) (m : M U X) (u : U) : M T X := fun _ w =>
  match m u w with
  | Ok x u' w' => Ok x (inj u') w'
  | Raise e u' w' => Raise e (inj u') w'
  | Exit u' w' => Exit (inj u') w'
  end.

(* ====================================================================== *)
(** ** Layer classes *)
(* ====================================================================== *)

Module FullyConnectedLayer.

(** The attributes set by [__init__]; [activation] is absent ([None])
    until an assignment creates it (the driver assigns
    [self.layers[0].activation]). *)
Record t := mk {
  N : nat;
  N_p : nat;
  W : loc;
  dW : loc;
  B : loc;
  dB : loc;
  Z : loc;
  dW_sum : loc;
  dB_sum : loc;
  previous_layer_activations : loc;
  activation : option loc
}.

Definition set_dW (l : loc) (s : t) : t :=
  mk (N s) (N_p s) (W s) l (B s) (dB s) (Z s) (dW_sum s) (dB_sum s)
     (previous_layer_activations s) (activation s).
Definition set_dB (l : loc) (s : t) : t :=
  mk (N s) (N_p s) (W s) (dW s) (B s) l (Z s) (dW_sum s) (dB_sum s)
     (previous_layer_activations s) (activation s).
Definition set_Z (l : loc) (s : t) : t :=
  mk (N s) (N_p s) (W s) (dW s) (B s) (dB s) l (dW_sum s) (dB_sum s)
     (previous_layer_activations s) (activation s).
Definition set_previous_layer_activations (l : loc) (s : t) : t :=
  mk (N s) (N_p s) (W s) (dW s) (B s) (dB s) (Z s) (dW_sum s) (dB_sum s)
     l (activation s).
Definition set_activation (l : loc) (s : t) : t :=
  mk (N s) (N_p s) (W s) (dW s) (B s) (dB s) (Z s) (dW_sum s) (dB_sum s)
     (previous_layer_activations s) (Some l).

(** [__init__(layer_size, previous_layer_size)]; [randn_W] and [randn_B]
    are the draws of the two [np.random.randn] calls. *)
Definition init {T} (layer_size previous_layer_size : nat)
    (randn_W randn_B : nat -> nat -> R) : M T t :=
  lW ← alloc (np_div_scalar (mk_ndarray layer_size previous_layer_size randn_W) 10);
  ldW ← alloc (np_zeros layer_size previous_layer_size);
  lB ← alloc (np_div_scalar (mk_ndarray layer_size 1 randn_B) 10);
  ldB ← alloc (np_zeros layer_size 1);
  lZ ← alloc (np_zeros layer_size 1);
  ldW_sum ← alloc (np_zeros layer_size previous_layer_size);
  ldB_sum ← alloc (np_zeros layer_size 1);
  lprev ← alloc (np_zeros previous_layer_size 1);
  mret (mk layer_size previous_layer_size lW ldW lB ldB lZ ldW_sum ldB_sum lprev None).

Definition forward_propagation (previous_layer_activations : loc) : M t loc :=
  self ← get_self;
  w ← load (W self);
  x ← load previous_layer_activations;
  if negb (ncols w =? nrows x) then
    print (Print_str "mismatch between weight matrix columns and activation rows");;
    print (Print_shape (ncols w) (nrows x));;
    py_exit
  else
    wx ← np (np_dot w x);
    b ← load (B self);
    z ← np (np_add wx b);
    lZ ← alloc z;
    modify_self (set_Z lZ);;
    modify_self (set_previous_layer_activations previous_layer_activations);;
    self ← get_self;
    mret (Z self).

Definition backward_propagation (upstream_gradient : loc) : M t loc :=
  self ← get_self;
  g ← load upstream_gradient;
  a ← load (previous_layer_activations self);
  dw ← np (np_dot g (np_transpose a));
  ldW ← alloc dw;
  modify_self (set_dW ldW);;
  iadd (dW_sum self) ldW;;
  modify_self (set_dB upstream_gradient);;
  iadd (dB_sum self) upstream_gradient;;
  w ← load (W self);
  g ← load upstream_gradient;
  r ← np (np_dot (np_transpose w) g);
  alloc r.

Definition update_parameters (mini_batch_size : nat) (eta : R) : M t unit :=
  self ← get_self;
  s ← load (dW_sum self);
  isub_value (W self) (np_scalar_mul eta (np_div_scalar s (INR mini_batch_size)));;
  s ← load (dB_sum self);
  isub_value (B self) (np_scalar_mul eta (np_div_scalar s (INR mini_batch_size)));;
  fill (dW_sum self) 0;;
  fill (dB_sum self) 0.

End FullyConnectedLayer.

Module SigmoidLayer.

Record t := mk { N : nat; activation : loc }.

Definition set_activation (l : loc) (s : t) : t := mk (N s) l.

(** [__init__(layer_size)] *)
Definition init {T} (layer_size : nat) : M T t :=
  l ← alloc (np_zeros layer_size 1);
  mret (mk layer_size l).

Definition forward_propagation (weighted_sum : loc) : M t loc :=
  x ← load weighted_sum;
  l ← alloc (np_map (fun v => (1 / (1 + exp (- v)))%R) x);
  modify_self (set_activation l);;
  self ← get_self;
  mret (activation self).

Definition backward_propagation (upstream_gradient : loc) : M t loc :=
  self ← get_self;
  a ← load (activation self);
  sigmoid_prime ← np (np_multiply a (np_map (fun v => (1 - v)%R) a));
  g ← load upstream_gradient;
  r ← np (np_multiply sigmoid_prime g);
  alloc r.

Definition update_parameters (mini_batch_size : nat) (eta : R) : M t unit := mret tt.

End SigmoidLayer.

Module ReluLayer.

Record t := mk { N : nat; activation : loc }.

Definition set_activation (l : loc) (s : t) : t := mk (N s) l.

(** [__init__(layer_size)] *)
Definition init {T} (layer_size : nat) : M T t :=
  l ← alloc (np_zeros layer_size 1);
  mret (mk layer_size l).

Definition forward_propagation (weighted_sum : loc) : M t loc :=
  x ← load weighted_sum;
  l ← alloc (np_maximum0 x);
  modify_self (set_activation l);;
  self ← get_self;
  mret (activation self).

Definition backward_propagation (upstream_gradient : loc) : M t loc :=
  self ← get_self;
  a ← load (activation self);
  g ← load upstream_gradient;
  r ← np (np_multiply (np_gt0 a) g);
  alloc r.

Definition update_parameters (mini_batch_size : nat) (eta : R) : M t unit := mret tt.

End ReluLayer.

Module SoftmaxLayer.

Record t := mk { N : nat; activation : loc }.

Definition set_activation (l : loc) (s : t) : t := mk (N s) l.

(** [__init__(layer_size)] *)
Definition init {T} (layer_size : nat) : M T t :=
  l ← alloc (np_zeros layer_size 1);
  mret (mk layer_size l).

Definition forward_propagation (weighted_sum : loc) : M t loc :=
  x ← load weighted_sum;
  l ← alloc (np_div_scalar (np_exp x) (np_sum (np_exp x)));
  modify_self (set_activation l);;
  self ← get_self;
  mret (activation self).

Definition backward_propagation (upstream_gradient : loc) : M t loc :=
  mret upstream_gradient.

Definition update_parameters (mini_batch_size : nat) (eta : R) : M t unit := mret tt.

End SoftmaxLayer.

(** The input layer has no propagation methods. *)
Module InputLayer.

Record t := mk { N : nat; activation : loc }.

Definition set_activation (l : loc) (s : t) : t := mk (N s) l.

(** [__init__(layer_size)] *)
Definition init {T} (layer_size : nat) : M T t :=
  l ← alloc (np_zeros layer_size 1);
  mret (mk layer_size l).

Definition update_parameters (mini_batch_size : nat) (eta : R) : M t unit := mret tt.

End InputLayer.

(* ====================================================================== *)
(** ** Cost functions *)
(* ====================================================================== *)

(** Each takes the contents of the two arrays; [None] is numpy's ValueError
    for shapes that cannot be broadcast together. *)

Definition quadratic_cost (expected_output activation : ndarray) : option R :=
  d ← np_subtract expected_output activation;
  Some (1 / 2 * np_sum (np_square d))%R.

Definition quadratic_cost_prime (expected_output activation : ndarray) : option ndarray :=
  np_subtract activation expected_output.

Definition cross_entropy_cost_prime_SM (expected_output activation : ndarray)
  : option ndarray :=
  np_subtract activation expected_output.

(** np.log(a), for positive entries (numpy gives [-inf] or [nan] with a
    warning for the others, which real numbers do not have) *)
Definition np_log : ndarray -> ndarray := np_map ln.

Definition cross_entropy_cost (expected_output activation : ndarray) : option R :=
  p ← np_multiply expected_output (np_log activation);
  Some (- np_sum p)%R.

(* ====================================================================== *)
(** ** The driver class *)
(* ====================================================================== *)

(** An element of [self.layers]. *)
Inductive Layer :=
| FullyConnected (l : FullyConnectedLayer.t)
| Sigmoid (l : SigmoidLayer.t)
| Relu (l : ReluLayer.t)
| Softmax (l : SoftmaxLayer.t)
| Input (l : InputLayer.t).

(** Attribute access and method lookup on a layer object. A method lookup
    gives [None] for a class without the method (AttributeError). *)
Module Layer.

(** layer.activation *)
Definition get_activation : M Layer loc := fun self w =>
  match self with
  | FullyConnected l =>
      match FullyConnectedLayer.activation l with
      | Some a => Ok a self w
      | None => Raise AttributeError self w
      end
  | Sigmoid l => Ok (SigmoidLayer.activation l) self w
  | Relu l => Ok (ReluLayer.activation l) self w
  | Softmax l => Ok (SoftmaxLayer.activation l) self w
  | Input l => Ok (InputLayer.activation l) self w
  end.

(** layer.activation = a *)
Definition set_activation (a : loc) : M Layer unit :=
  modify_self (fun self =>
    match self with
    | FullyConnected l => FullyConnected (FullyConnectedLayer.set_activation a l)
    | Sigmoid l => Sigmoid (SigmoidLayer.set_activation a l)
    | Relu l => Relu (ReluLayer.set_activation a l)
    | Softmax l => Softmax (SoftmaxLayer.set_activation a l)
    | Input l => Input (InputLayer.set_activation a l)
    end).

Definition forward_propagation (x : loc) (self : Layer) : option (M Layer loc) :=
  match self with
  | FullyConnected l =>
      Some (embed FullyConnected (FullyConnectedLayer.forward_propagation x) l)
  | Sigmoid l => Some (embed Sigmoid (SigmoidLayer.forward_propagation x) l)
  | Relu l => Some (embed Relu (ReluLayer.forward_propagation x) l)
  | Softmax l => Some (embed Softmax (SoftmaxLayer.forward_propagation x) l)
  | Input _ => None
  end.

Definition backward_propagation (g : loc) (self : Layer) : option (M Layer loc) :=
  match self with
  | FullyConnected l =>
      Some (embed FullyConnected (FullyConnectedLayer.backward_propagation g) l)
  | Sigmoid l => Some (embed Sigmoid (SigmoidLayer.backward_propagation g) l)
  | Relu l => Some (embed Relu (ReluLayer.backward_propagation g) l)
  | Softmax l => Some (embed Softmax (SoftmaxLayer.backward_propagation g) l)
  | Input _ => None
  end.

Definition update_parameters (mini_batch_size : nat) (eta : R) (self : Layer)
  : option (M Layer unit) :=
  match self with
  | FullyConnected l =>
      Some (embed FullyConnected
              (FullyConnectedLayer.update_parameters mini_batch_size eta) l)
  | Sigmoid l =>
      Some (embed Sigmoid (SigmoidLayer.update_parameters mini_batch_size eta) l)
  | Relu l => Some (embed Relu (ReluLayer.update_parameters mini_batch_size eta) l)
  | Softmax l =>
      Some (embed Softmax (SoftmaxLayer.update_parameters mini_batch_size eta) l)
  | Input l => Some (embed Input (InputLayer.update_parameters mini_batch_size eta) l)
  end.

(** layer.method(...): the lookup, then the call, which the trace records. *)
Definition invoke {X} (c : call) (method : Layer -> option (M Layer X)) : M Layer X :=
  fun self w =>
    match method self with
    | Some m => (record_call c;; m) self w
    | None => Raise AttributeError self w
    end.

End Layer.

(** A training sample: the input array and the expected output array. *)
Definition sample : Type := loc * loc.

(** [l[i]] for a Python index, counted from the end when negative. *)
Definition py_index (len : nat) (i : Z) : option nat :=
  if (0 <=? i)%Z then
    (if (i <? Z.of_nat len)%Z then Some (Z.to_nat i) else None)
  else
    (if (- Z.of_nat len <=? i)%Z then Some (Z.to_nat (Z.of_nat len + i)) else None).

(** [range(start, stop, step)]; ValueError for a zero step. *)
Definition py_range (start stop step : Z) : option (list Z) :=
  if (step =? 0)%Z then None
  else
    let count :=
      if (0 <? step)%Z then Z.to_nat ((stop - start + step - 1) / step)
      else Z.to_nat ((start - stop - step - 1) / (- step)) in
    Some (map (fun i => (start + Z.of_nat i * step)%Z) (seq 0 count)).

(** [l[lo:hi]]: negative bounds count from the end, and both are clamped to
    the list. *)
Definition py_slice {A} (l : list A) (lo hi : Z) : list A :=
  let len := Z.of_nat (length l) in
  let clamp i := Z.to_nat (Z.min len (Z.max 0 (if (i <? 0)%Z then len + i else i)%Z)) in
  firstn (clamp hi - clamp lo) (skipn (clamp lo) l).

(** [[training_data[k:k+mini_batch_size] for k in range(0, n, mini_batch_size)]] *)
Definition mini_batches (training_data : list sample) (n : nat) (mini_batch_size : Z)
  : option (list (list sample)) :=
  ks ← py_range 0 (Z.of_nat n) mini_batch_size;
  Some (map (fun k => py_slice training_data k (k + mini_batch_size)) ks).

(** The truth value of the optional argument [test_data]. *)
Definition truthy (test_data : option (list sample)) : bool :=
  match test_data with
  | Some (_ :: _) => true
  | _ => false
  end.

Module Network.

Record t := mk {
  cost : ndarray -> ndarray -> option R;
  cost_prime : ndarray -> ndarray -> option ndarray;
  cost_points : list R;
  cost_points_test : list R;
  is_SM_CE : bool;
  layers : list Layer;
  prev_layer_size : nat
}.

Definition set_layers (ls : list Layer) (s : t) : t :=
  mk (cost s) (cost_prime s) (cost_points s) (cost_points_test s) (is_SM_CE s)
     ls (prev_layer_size s).
Definition set_prev_layer_size (n : nat) (s : t) : t :=
  mk (cost s) (cost_prime s) (cost_points s) (cost_points_test s) (is_SM_CE s)
     (layers s) n.
Definition set_cost_points (ps : list R) (s : t) : t :=
  mk (cost s) (cost_prime s) ps (cost_points_test s) (is_SM_CE s)
     (layers s) (prev_layer_size s).
Definition set_cost_points_test (ps : list R) (s : t) : t :=
  mk (cost s) (cost_prime s) (cost_points s) ps (is_SM_CE s)
     (layers s) (prev_layer_size s).

(** [__init__(input_size, cost, cost_prime, is_SM_CE)] *)
Definition init {T} (input_size : nat)
    (cost : ndarray -> ndarray -> option R)
    (cost_prime : ndarray -> ndarray -> option ndarray)
    (is_SM_CE : bool) : M T t :=
  IL ← InputLayer.init input_size;
  mret (mk cost cost_prime [] [] is_SM_CE [Input IL] input_size).

(** self.layers.append(layer); self.prev_layer_size = layer_size *)
Definition append_layer (layer : Layer) (layer_size : nat) : M t unit :=
  modify_self (fun self => set_layers (layers self ++ [layer]) self);;
  modify_self (set_prev_layer_size layer_size).

Definition add_fc_layer (layer_size : nat) (randn_W randn_B : nat -> nat -> R)
  : M t unit :=
  self ← get_self;
  l ← FullyConnectedLayer.init layer_size (prev_layer_size self) randn_W randn_B;
  append_layer (FullyConnected l) layer_size.

Definition add_sigmoid_layer (layer_size : nat) : M t unit :=
  l ← SigmoidLayer.init layer_size;
  append_layer (Sigmoid l) layer_size.

Definition add_relu_layer (layer_size : nat) : M t unit :=
  l ← ReluLayer.init layer_size;
  append_layer (Relu l) layer_size.

Definition add_softmax_layer (layer_size : nat) : M t unit :=
  l ← SoftmaxLayer.init layer_size;
  append_layer (Softmax l) layer_size.

(** The position of [self.layers[i]]; IndexError outside the list. *)
Definition layer_index (i : Z) : M t nat := fun self w =>
  match py_index (length (layers self)) i with
  | Some k => Ok k self w
  | None => Raise IndexError self w
  end.

(** Running [m] on the layer object at position [k]. *)
Definition on_layer {X} (k : nat) (m : M Layer X) : M t X := fun self w =>
  match layers self !! k with
  | Some layer =>
      embed (fun layer' => set_layers (<[k := layer']> (layers self)) self) m layer self w
  | None => Raise IndexError self w
  end.

Definition forward_pass (input_data : loc) : M t loc :=
  k ← layer_index 0;
  on_layer k (Layer.set_activation input_data);;
  self ← get_self;
  for_each (seq 1 (length (layers self) - 1))
    (fun output layer =>
       k ← layer_index (Z.of_nat layer);
       on_layer k (Layer.invoke (Call_forward k) (Layer.forward_propagation output)))
    input_data.

(** The loop of [backward_pass] over [range(first, len(self.layers))]. *)
Definition backward_loop (first : nat) (upstream_gradient : loc) : M t loc :=
  self ← get_self;
  for_each (seq first (length (layers self) - first))
    (fun upstream_gradient layer =>
       k ← layer_index (- Z.of_nat layer);
       on_layer k
         (Layer.invoke (Call_backward k) (Layer.backward_propagation upstream_gradient)))
    upstream_gradient.

(** self.cost_prime(expected_output, self.layers[-1].activation) *)
Definition first_upstream_gradient (expected_output : loc) : M t loc :=
  self ← get_self;
  k ← layer_index (-1);
  a ← on_layer k Layer.get_activation;
  expected ← load expected_output;
  activation ← load a;
  g ← np (cost_prime self expected activation);
  alloc g.

Definition backward_pass (expected_output : loc) : M t unit :=
  self ← get_self;
  if negb (is_SM_CE self) then
    upstream_gradient ← first_upstream_gradient expected_output;
    backward_loop 1 upstream_gradient;;
    mret tt
  else
    upstream_gradient ← first_upstream_gradient expected_output;
    backward_loop 2 upstream_gradient;;
    mret tt.

(** The first loop of [mini_batch_pass]: a forward and a backward pass for
    every sample. *)
Definition pass_samples (mini_batch : list sample) : M t unit :=
  for_each mini_batch
    (fun _ '(input, output) => forward_pass input;; backward_pass output) tt.

(** The second loop of [mini_batch_pass]. *)
Definition update_layers (mini_batch_size : nat) (eta : R) : M t unit :=
  self ← get_self;
  for_each (seq 1 (length (layers self) - 1))
    (fun _ layer =>
       k ← layer_index (Z.of_nat layer);
       on_layer k
         (Layer.invoke (Call_update k mini_batch_size eta)
            (Layer.update_parameters mini_batch_size eta)))
    tt.

Definition mini_batch_pass (eta : R) (mini_batch : list sample) : M t unit :=
  pass_samples mini_batch;;
  update_layers (length mini_batch) eta.

(** The cost loop of [stochastic_gradient_descent] over a data set. *)
Definition total_cost (data : list sample) : M t R :=
  for_each data
    (fun cost_amount '(input, output) =>
       activation ← forward_pass input;
       self ← get_self;
       expected ← load output;
       a ← load activation;
       c ← np (cost self expected a);
       mret (cost_amount + c)%R)
    0%R.

(** cost_amount / len(data); the amount of an empty data set is the
    integer 0, and its division by zero raises. *)
Definition mean_cost (cost_amount : R) (data : list sample) : M t R :=
  if length data =? 0 then raise ZeroDivisionError
  else mret (cost_amount / INR (length data))%R.

(** int(output[max_index] == 1): the row of a column array compared with
    1 is an array of one entry, which [int] converts. (The NumPy releases
    that convert no array of one dimension or more raise a TypeError here
    instead, for every row.) *)
Definition hit (output : ndarray) (max_index : nat) : M t nat :=
  if negb (max_index <? nrows output) then raise IndexError
  else if negb (ncols output =? 1) then raise TypeError
  else mret (if Req_dec_T (elt output max_index 0) 1 then 1 else 0).

Definition test_network (test_data : list sample) : M t nat :=
  test_results ← for_each test_data
    (fun results '(input, output) =>
       activation ← forward_pass input;
       a ← load activation;
       max_index ← np (np_argmax a);
       mret (results ++ [(max_index, output)]))
    [];
  for_each test_results
    (fun total '(max_index, output) =>
       o ← load output;
       h ← hit o max_index;
       mret (total + h))
    0.

(** The rest of an iteration of the main training loop, after the cost of
    the training data is recorded: the evaluation on the test data, if
    there is any, and the progress line. *)
Definition report (j : nat) (test_data : option (list sample))
    (training_data : list sample) (cost_amount : R) : M t unit :=
  if truthy test_data then
    let test_data := default [] test_data in
    cost_amount_test ← total_cost test_data;
    test_cost ← mean_cost cost_amount_test test_data;
    modify_self
      (fun self => set_cost_points_test (cost_points_test self ++ [test_cost]) self);;
    correct ← test_network test_data;
    train_cost ← mean_cost cost_amount training_data;
    test_cost ← mean_cost cost_amount_test test_data;
    print (Print_epoch_test j correct (length test_data) train_cost test_cost)
  else
    print (Print_epoch_complete j).

(** One iteration of the main training loop; [shuffle j] is the
    permutation [random.shuffle] applies in epoch [j]. The value is the
    training data in its new order. *)
Definition epoch (shuffle : nat -> list sample -> list sample)
    (n : nat) (mini_batch_size : Z) (eta : R) (test_data : option (list sample))
    (training_data : list sample) (j : nat) : M t (list sample) :=
  let training_data := shuffle j training_data in
  batches ← np (mini_batches training_data n mini_batch_size);
  for_each batches (fun _ mini_batch => mini_batch_pass eta mini_batch) tt;;
  cost_amount ← total_cost training_data;
  train_cost ← mean_cost cost_amount training_data;
  modify_self (fun self => set_cost_points (cost_points self ++ [train_cost]) self);;
  report j test_data training_data cost_amount;;
  mret training_data.

(** The plotting at the end is left out: it reads the two cost lists and
    changes nothing. *)
Definition stochastic_gradient_descent (shuffle : nat -> list sample -> list sample)
    (training_data : list sample) (epochs mini_batch_size : Z) (eta : R)
    (test_data : option (list sample)) : M t (list sample) :=
  let n := length training_data in
  for_each (seq 0 (Z.to_nat epochs))
    (epoch shuffle n mini_batch_size eta test_data)
    training_data.

End Network.

(* ====================================================================== *)
(** ** Specification vocabulary *)
(* ====================================================================== *)

(** The object and the world an outcome ends in. *)
Definition final_self {T X} (o : outcome T X) : T :=
  match o with Ok _ s _ | Raise _ s _ | Exit s _ => s end.

Definition final_world {T X} (o : outcome T X) : world :=
  match o with Ok _ _ w | Raise _ _ w | Exit _ w => w end.

(** The array object [l] holds an array of shape [(r, c)]. *)
Definition holds (w : world) (l : loc) (r c : nat) : Prop :=
  exists a, heap w !! l = Some a /\ nrows a = r /\ ncols a = c.

(** The output of the shape-mismatch branch of
    [FullyConnectedLayer.forward_propagation]. *)
Definition mismatch_report (w_cols x_rows : nat) : list out :=
  [Print_str "mismatch between weight matrix columns and activation rows";
   Print_shape w_cols x_rows].

Definition with_stdout (o : list out) (w : world) : world :=
  mk_world (heap w) (stdout w ++ o) (calls w).

(** An array given by its rows. *)
Definition of_rows (r c : nat) (rows : list (list R)) : ndarray :=
  mk_ndarray r c (fun i j => nth j (nth i rows []) 0%R).

(** *** A small concrete layer

    A fully connected layer with two neurons on three inputs, in a world
    that also holds an input vector (location 8) and an upstream gradient
    (location 9). *)
Definition demo_W : ndarray := of_rows 2 3 [[1; 2; 3]; [4; 5; 6]]%R.
Definition demo_B : ndarray := of_rows 2 1 [[1]; [-1]]%R.
Definition demo_x : ndarray := of_rows 3 1 [[1]; [0]; [2]]%R.
Definition demo_g : ndarray := of_rows 2 1 [[1]; [2]]%R.

Definition demo_world : world :=
  mk_world
    [demo_W; np_zeros 2 3; demo_B; np_zeros 2 1; np_zeros 2 1;
     np_zeros 2 3; np_zeros 2 1; demo_x; demo_x; demo_g]
    [] [].

Definition demo_fc : FullyConnectedLayer.t :=
  FullyConnectedLayer.mk 2 3 0 1 2 3 4 5 6 7 None.

Definition with_call (c : call) (w : world) : world :=
  mk_world (heap w) (stdout w) (calls w ++ [c]).

(** *** A small concrete ReLU layer

    Its activation (location 1) is the result of [forward_propagation] on
    the array at location 0; location 2 holds an upstream gradient. *)
Definition demo_pre : ndarray := of_rows 3 1 [[-2]; [0]; [3]]%R.
Definition demo_up : ndarray := of_rows 3 1 [[5]; [6]; [7]]%R.

Definition demo_relu_world : world :=
  mk_world [demo_pre; np_maximum0 demo_pre; demo_up] [] [].

Definition demo_relu : ReluLayer.t := ReluLayer.mk 3 1.

(** *** The builder

    A call of one of the four [add_..._layer] methods, and the construction
    of a network followed by a sequence of such calls. *)
Inductive builder_call :=
| Add_fc (layer_size : nat) (randn_W randn_B : nat -> nat -> R)
| Add_sigmoid (layer_size : nat)
| Add_relu (layer_size : nat)
| Add_softmax (layer_size : nat).

Definition call_size (c : builder_call) : nat :=
  match c with
  | Add_fc n _ _ | Add_sigmoid n | Add_relu n | Add_softmax n => n
  end.

Definition run_builder_call (c : builder_call) : M Network.t unit :=
  match c with
  | Add_fc n randn_W randn_B => Network.add_fc_layer n randn_W randn_B
  | Add_sigmoid n => Network.add_sigmoid_layer n
  | Add_relu n => Network.add_relu_layer n
  | Add_softmax n => Network.add_softmax_layer n
  end.

Definition build (input_size : nat)
    (cost : ndarray -> ndarray -> option R)
    (cost_prime : ndarray -> ndarray -> option ndarray)
    (is_SM_CE : bool) (cs : list builder_call) : M unit Network.t :=
  net ← Network.init input_size cost cost_prime is_SM_CE;
  embed (fun _ => tt)
    (for_each cs (fun _ c => run_builder_call c) tt;; get_self) net.

(** The width a layer declares: its number of neurons [N]. *)
Definition width (l : Layer) : nat :=
  match l with
  | FullyConnected l => FullyConnectedLayer.N l
  | Sigmoid l => SigmoidLayer.N l
  | Relu l => ReluLayer.N l
  | Softmax l => SoftmaxLayer.N l
  | Input l => InputLayer.N l
  end.

(** The width of the input a layer declares: [N_p] for a fully connected
    layer; an elementwise layer maps a vector to one of the same size, and
    its activation is created with [N] rows. *)
Definition input_width (l : Layer) : nat :=
  match l with
  | FullyConnected l => FullyConnectedLayer.N_p l
  | _ => width l
  end.

(** Every layer takes what the layer before it gives. *)
Definition widths_chained (ls : list Layer) : Prop :=
  forall i a b, ls !! i = Some a -> ls !! S i = Some b -> input_width b = width a.

(** The same, for the fully connected layers only. *)
Definition fc_widths_chained (ls : list Layer) : Prop :=
  forall i a fc,
    ls !! i = Some a -> ls !! S i = Some (FullyConnected fc) ->
    FullyConnectedLayer.N_p fc = width a.

(** The class a builder call appends. *)
Definition built_by (c : builder_call) (l : Layer) : Prop :=
  match c, l with
  | Add_fc _ _ _, FullyConnected _
  | Add_sigmoid _, Sigmoid _
  | Add_relu _, Relu _
  | Add_softmax _, Softmax _ => True
  | _, _ => False
  end.

(** What the builder maintains: the list is not empty, [prev_layer_size] is
    the width of its last layer, and each fully connected layer takes the
    width of the layer before it. *)
Definition builder_invariant (net : Network.t) : Prop :=
  (exists l, last (Network.layers net) = Some l
             /\ Network.prev_layer_size net = width l)
  /\ fc_widths_chained (Network.layers net).

(** *** Comparing two runs

    [add_calls c w] is the world [w] with the trace [c] in front of its
    own; [commutes f g m] says that running [m] on [f self] in [g w] gives
    the outcome of running it on [self] in [w], mapped through [f] and
    [g]. *)
Definition add_calls (c : list call) (w : world) : world :=
  mk_world (heap w) (stdout w) (c ++ calls w).

Definition clear_calls (w : world) : world := mk_world (heap w) (stdout w) [].

Definition map_outcome {T X} (f : T -> T) (g : world -> world) (o : outcome T X)
  : outcome T X :=
  match o with
  | Ok x s w => Ok x (f s) (g w)
  | Raise e s w => Raise e (f s) (g w)
  | Exit s w => Exit (f s) (g w)
  end.

Definition commutes {T X} (f : T -> T) (g : world -> world) (m : M T X) : Prop :=
  forall s w, m (f s) (g w) = map_outcome f g (m s w).

(** The same network object with another value of [is_SM_CE]. *)
Definition with_is_SM_CE (b : bool) (s : Network.t) : Network.t :=
  Network.mk (Network.cost s) (Network.cost_prime s) (Network.cost_points s)
    (Network.cost_points_test s) b (Network.layers s) (Network.prev_layer_size s).

(** How a run ended. *)
Inductive status (X : Type) : Type :=
| Returned (x : X)
| Raised (e : exn)
| Exited.
Arguments Returned {X} x.
Arguments Raised {X} e.
Arguments Exited {X}.

Definition status_of {T X} (o : outcome T X) : status X :=
  match o with
  | Ok x _ _ => Returned x
  | Raise e _ _ => Raised e
  | Exit _ _ => Exited
  end.

(** The iterations of [backward_loop] after the one for the last layer. *)
Definition backward_rest (net : Network.t) (upstream_gradient : loc) : M Network.t loc :=
  for_each (seq 2 (length (Network.layers net) - 2))
    (fun upstream_gradient layer =>
       k ← Network.layer_index (- Z.of_nat layer);
       Network.on_layer k
         (Layer.invoke (Call_backward k) (Layer.backward_propagation upstream_gradient)))
    upstream_gradient.

(** *** What a run may change

    [heap_frame S w w']: every array object of [w] is still there in [w']
    with the shape it had, and outside the locations [S] with the content
    it had. [trace_ext P w w']: the trace grew by calls that satisfy [P]. *)
Definition heap_frame (S : list loc) (w w' : world) : Prop :=
  (forall l a, heap w !! l = Some a ->
     exists a', heap w' !! l = Some a' /\ nrows a' = nrows a /\ ncols a' = ncols a)
  /\ (forall l a, l ∉ S -> heap w !! l = Some a -> heap w' !! l = Some a).

Definition trace_ext (P : call -> Prop) (w w' : world) : Prop :=
  exists ev, calls w' = calls w ++ ev /\ Forall P ev.

Definition world_step (S : list loc) (P : call -> Prop) (w w' : world) : Prop :=
  heap_frame S w w' /\ trace_ext P w w'.

(** [keeps key S P k0 m]: from an object whose fixed part [key self] is
    [k0], whatever way [m] ends, the fixed part is still [k0] and the world
    changed within [world_step S P]. *)
Definition keeps {T X} (key : T -> T) (S : list loc) (P : call -> Prop) (k0 : T)
    (m : M T X) : Prop :=
  forall s w, key s = k0 ->
    key (final_self (m s w)) = k0 /\ world_step S P w (final_world (m s w)).

(** The attributes of a layer that no method assigns: its class, its sizes
    and, for a fully connected layer, the four arrays it updates in place
    and never rebinds. The other attributes are blanked. *)
Definition fc_skeleton (l : FullyConnectedLayer.t) : FullyConnectedLayer.t :=
  FullyConnectedLayer.mk (FullyConnectedLayer.N l) (FullyConnectedLayer.N_p l)
    (FullyConnectedLayer.W l) 0 (FullyConnectedLayer.B l) 0 0
    (FullyConnectedLayer.dW_sum l) (FullyConnectedLayer.dB_sum l) 0 None.

Definition skeleton (l : Layer) : Layer :=
  match l with
  | FullyConnected l => FullyConnected (fc_skeleton l)
  | Sigmoid l => Sigmoid (SigmoidLayer.mk (SigmoidLayer.N l) 0)
  | Relu l => Relu (ReluLayer.mk (ReluLayer.N l) 0)
  | Softmax l => Softmax (SoftmaxLayer.mk (SoftmaxLayer.N l) 0)
  | Input l => Input (InputLayer.mk (InputLayer.N l) 0)
  end.

Definition net_skeleton (s : Network.t) : Network.t :=
  Network.set_layers (skeleton <$> Network.layers s) s.

(** The arrays the propagation methods write to in place. *)
Definition fc_sums (l : FullyConnectedLayer.t) : list loc :=
  [FullyConnectedLayer.dW_sum l; FullyConnectedLayer.dB_sum l].

Definition sums_of (l : Layer) : list loc :=
  match l with
  | FullyConnected l => fc_sums l
  | _ => []
  end.

Definition all_sums (s : Network.t) : list loc :=
  Network.layers s ≫= sums_of.

Definition is_update (c : call) : Prop :=
  match c with
  | Call_update _ _ _ => True
  | _ => False
  end.

Definition not_update (c : call) : Prop := ~ is_update c.

(** The body of [backward_pass] with its loop over
    [range(first, len(self.layers))]: [first] is 1 in the branch for
    [is_SM_CE == False] and 2 in the other. *)
Definition propagate_from (first : nat) (expected_output : loc) : M Network.t unit :=
  upstream_gradient ← Network.first_upstream_gradient expected_output;
  Network.backward_loop first upstream_gradient;;
  mret tt.

(** *** A small concrete network

    An input layer of two neurons, a fully connected layer of two neurons
    and a softmax layer, after a forward pass; location 10 holds an
    expected output. *)
Definition demo_net_world : world :=
  mk_world
    [of_rows 2 1 [[1]; [2]]%R;
     of_rows 2 2 [[1; 0]; [0; 1]]%R; np_zeros 2 2;
     of_rows 2 1 [[0]; [0]]%R; np_zeros 2 1;
     of_rows 2 1 [[1]; [2]]%R;
     np_zeros 2 2; np_zeros 2 1;
     of_rows 2 1 [[1]; [2]]%R;
     of_rows 2 1 [[1 / 4]; [3 / 4]]%R;
     of_rows 2 1 [[0]; [1]]%R]
    [] [].

Definition demo_net_fc : FullyConnectedLayer.t :=
  FullyConnectedLayer.mk 2 2 1 2 3 4 5 6 7 8 None.

Definition demo_net : Network.t :=
  Network.mk quadratic_cost cross_entropy_cost_prime_SM [] [] true
    [Input (InputLayer.mk 2 0); FullyConnected demo_net_fc;
     Softmax (SoftmaxLayer.mk 2 9)]
    2.

(** The content of a parameter array [p] after
    [p -= eta * (s / mini_batch_size)] with a sum array [s] of its shape. *)
Definition descended (p s : ndarray) (mini_batch_size : nat) (eta : R) : ndarray :=
  let step := np_scalar_mul eta (np_div_scalar s (INR mini_batch_size)) in
  mk_ndarray (nrows p) (ncols p)
    (fun i j => (elt p (bidx (nrows p) i) (bidx (ncols p) j)
                 - elt step (bidx (nrows p) i) (bidx (ncols p) j))%R).

(** *** Well-formed networks

    The arrays a layer is created with and only ever updates in place. *)
Definition owned (l : Layer) : list loc :=
  match l with
  | FullyConnected l =>
      [FullyConnectedLayer.W l; FullyConnectedLayer.B l;
       FullyConnectedLayer.dW_sum l; FullyConnectedLayer.dB_sum l]
  | _ => []
  end.

(** The shapes [__init__] gives the four arrays. *)
Definition fc_shapes (w : world) (fc : FullyConnectedLayer.t) : Prop :=
  holds w (FullyConnectedLayer.W fc) (FullyConnectedLayer.N fc) (FullyConnectedLayer.N_p fc)
  /\ holds w (FullyConnectedLayer.B fc) (FullyConnectedLayer.N fc) 1
  /\ holds w (FullyConnectedLayer.dW_sum fc)
       (FullyConnectedLayer.N fc) (FullyConnectedLayer.N_p fc)
  /\ holds w (FullyConnectedLayer.dB_sum fc) (FullyConnectedLayer.N fc) 1.

(** What the builder establishes and every method maintains: the arrays of
    the fully connected layers have their shapes, and they are pairwise
    different objects, within a layer and across layers. *)
Definition net_wf (net : Network.t) (w : world) : Prop :=
  (forall i fc, Network.layers net !! i = Some (FullyConnected fc) -> fc_shapes w fc)
  /\ NoDup (Network.layers net ≫= owned).

(** Every fully connected layer of [net] is at its place in [net'] with the
    same [W] and [B] objects, holding in [w'] what they hold in [w]. *)
Definition same_parameters (net : Network.t) (w : world) (net' : Network.t) (w' : world)
  : Prop :=
  forall i fc,
    Network.layers net !! i = Some (FullyConnected fc) ->
    exists fc',
      Network.layers net' !! i = Some (FullyConnected fc')
      /\ FullyConnectedLayer.W fc' = FullyConnectedLayer.W fc
      /\ FullyConnectedLayer.B fc' = FullyConnectedLayer.B fc
      /\ heap w' !! FullyConnectedLayer.W fc = heap w !! FullyConnectedLayer.W fc
      /\ heap w' !! FullyConnectedLayer.B fc = heap w !! FullyConnectedLayer.B fc.

(** From [w] to [w'], the layer [fc] took one gradient-descent step with
    its sums averaged over [m], and its sums were reset. *)
Definition fc_updated (m : nat) (eta : R) (fc : FullyConnectedLayer.t) (w w' : world)
  : Prop :=
  exists wa ba dws dbs wa' ba' dws' dbs',
    heap w !! FullyConnectedLayer.W fc = Some wa
    /\ heap w !! FullyConnectedLayer.B fc = Some ba
    /\ heap w !! FullyConnectedLayer.dW_sum fc = Some dws
    /\ heap w !! FullyConnectedLayer.dB_sum fc = Some dbs
    /\ heap w' !! FullyConnectedLayer.W fc = Some wa'
    /\ heap w' !! FullyConnectedLayer.B fc = Some ba'
    /\ heap w' !! FullyConnectedLayer.dW_sum fc = Some dws'
    /\ heap w' !! FullyConnectedLayer.dB_sum fc = Some dbs'
    /\ (forall i j, i < FullyConnectedLayer.N fc -> j < FullyConnectedLayer.N_p fc ->
          elt wa' i j
          = (elt wa i j - eta * (elt dws i j / INR m))%R)
    /\ (forall i, i < FullyConnectedLayer.N fc ->
          elt ba' i 0 = (elt ba i 0 - eta * (elt dbs i 0 / INR m))%R)
    /\ (forall i j, elt dws' i j = 0%R)
    /\ (forall i j, elt dbs' i j = 0%R).

(** One iteration of the second loop of [mini_batch_pass]. *)
Definition update_body (mini_batch_size : nat) (eta : R) (_ : unit) (layer : nat)
  : M Network.t unit :=
  k ← Network.layer_index (Z.of_nat layer);
  Network.on_layer k
    (Layer.invoke (Call_update k mini_batch_size eta)
       (Layer.update_parameters mini_batch_size eta)).

(** [stable proj m]: however [m] ends, the part [proj] of the object is
    what it was. *)
Definition stable {T A X} (proj : T -> A) (m : M T X) : Prop :=
  forall s w, proj (final_self (m s w)) = proj s.

(** *** A small training set for the network of the example *)
Definition demo_training_data : list sample := [(0, 10); (0, 10); (0, 10)].

(** A permutation standing for the shuffle: the reversal. *)
Definition demo_shuffle (j : nat) (l : list sample) : list sample := rev l.

(** *** Further vocabulary

    For further properties of the code. *)

(** [a] with [h] added to its entry [(k, l)]. *)
Definition perturb (a : ndarray) (k l : nat) (h : R) : ndarray :=
  mk_ndarray (nrows a) (ncols a)
    (fun i j => if (i =? k) && (j =? l) then (elt a i j + h)%R else elt a i j).

(** [ensures Q m]: when [m] returns, its value and the object satisfy [Q]. *)
Definition ensures {T X} (Q : X -> T -> Prop) (m : M T X) : Prop :=
  forall s w x s' w', m s w = Ok x s' w' -> Q x s'.

(** The array a layer's [forward_propagation] returned last: the attribute
    the method assigns and returns. *)
Definition forward_value (l : Layer) : option loc :=
  match l with
  | FullyConnected l => Some (FullyConnectedLayer.Z l)
  | Sigmoid l => Some (SigmoidLayer.activation l)
  | Relu l => Some (ReluLayer.activation l)
  | Softmax l => Some (SoftmaxLayer.activation l)
  | Input l => None
  end.

(** The body of the loop of [forward_pass]. *)
Definition forward_body (output : loc) (layer : nat) : M Network.t loc :=
  k ← Network.layer_index (Z.of_nat layer);
  Network.on_layer k
    (Layer.invoke (Call_forward k) (Layer.forward_propagation output)).

(** [appends proj Q m]: when [m] returns, the list [proj] of the world has
    grown by entries [ev] with [Q ev]; [silent proj m]: it has not grown. *)
Definition appends {T X E} (proj : world -> list E) (Q : list E -> Prop) (m : M T X)
  : Prop :=
  forall s w x s' w', m s w = Ok x s' w' -> exists ev, proj w' = proj w ++ ev /\ Q ev.

Definition silent {T X E} (proj : world -> list E) (m : M T X) : Prop :=
  appends proj (fun ev => ev = []) m.

(** The body of the loop of [backward_pass]. *)
Definition backward_body (upstream_gradient : loc) (layer : nat) : M Network.t loc :=
  k ← Network.layer_index (- Z.of_nat layer);
  Network.on_layer k
    (Layer.invoke (Call_backward k) (Layer.backward_propagation upstream_gradient)).

(** The arrays of all the fully connected layers of a network. *)
Definition all_owned (s : Network.t) : list loc := Network.layers s ≫= owned.

(** The part of a network no method of the driver changes after
    construction: the layers' skeletons, the cost functions, the flag and
    [prev_layer_size]. The two cost lists are blanked. *)
Definition blank_costs (s : Network.t) : Network.t :=
  Network.set_cost_points [] (Network.set_cost_points_test [] s).

Definition net_core (s : Network.t) : Network.t := blank_costs (net_skeleton s).

(** The trace records of the calls of [forward_propagation]. *)
Definition is_forward (c : call) : Prop :=
  match c with
  | Call_forward _ => True
  | _ => False
  end.

(** [grows proj Q m]: when [m] returns, the list [proj] of the object has
    grown by entries [ev] with [Q ev]. *)
Definition grows {T X E} (proj : T -> list E) (Q : list E -> Prop) (m : M T X) : Prop :=
  forall s w x s' w', m s w = Ok x s' w' -> exists ev, proj s' = proj s ++ ev /\ Q ev.

(** What [SoftmaxLayer.forward_propagation] stores for the input [z]. *)
Definition softmax_output (z : ndarray) : ndarray :=
  np_div_scalar (np_exp z) (np_sum (np_exp z)).

(** *** A network that ends in a fully connected layer *)
Definition demo_open_net : Network.t :=
  Network.mk quadratic_cost quadratic_cost_prime [] [] false
    [Input (InputLayer.mk 3 8); FullyConnected demo_fc] 2.

(** A one-hot expected output for two classes. *)
Definition demo_one_hot : ndarray := of_rows 2 1 [[0]; [1]]%R.

(** The layers that map an array to one of its shape. *)
Definition elementwise (l : Layer) : Prop :=
  match l with
  | Sigmoid _ | Relu _ | Softmax _ => True
  | _ => False
  end.

(** The calls of one sample in [mini_batch_pass]: the forward pass through
    the layers 1, 2, ..., then the backward pass through the layers
    [len - first], ..., 1. *)
Definition sample_trace (s : Network.t) : list call :=
  (Call_forward <$> seq 1 (length (Network.layers s) - 1))
  ++ (Call_backward
        <$> rev (seq 1 (length (Network.layers s)
                        - (if Network.is_SM_CE s then 2 else 1)))).

(** *** A network with an activation layer of the wrong size

    The fully connected layer of the example, a sigmoid layer declared with
    five neurons, and a fully connected layer made for five inputs
    (locations 10 and 11 hold its arrays). *)
Definition demo_mismatch_world : world :=
  mk_world (heap demo_world ++ [np_zeros 1 5; np_zeros 1 1]) [] [].

Definition demo_mismatch_fc : FullyConnectedLayer.t :=
  FullyConnectedLayer.mk 1 5 10 10 11 11 11 10 11 11 None.

Definition demo_mismatch_net : Network.t :=
  Network.mk quadratic_cost quadratic_cost_prime [] [] false
    [Input (InputLayer.mk 3 8); FullyConnected demo_fc;
     Sigmoid (SigmoidLayer.mk 5 11); FullyConnected demo_mismatch_fc]
    1.

(** *** Runs that return

    [shapes_kept w w']: every array object of [w] is there in [w'] with the
    shape it had. [returns m s w Q]: from the object [s] in the world [w],
    [m] returns, having kept the shapes of the arrays, with a value, an
    object and a world that satisfy [Q]. *)
Definition shapes_kept (w w' : world) : Prop :=
  forall l r c, holds w l r c -> holds w' l r c.

Definition returns {T X} (m : M T X) (s : T) (w : world)
    (Q : X -> T -> world -> Prop) : Prop :=
  exists x s' w', m s w = Ok x s' w' /\ shapes_kept w w' /\ Q x s' w'.

(** The array a layer's [backward_propagation] reads from the last forward
    pass (for the input layer, the array the driver assigned) is a column
    of the layer's size. [__init__] creates each of them so. *)
Definition layer_ready (w : world) (l : Layer) : Prop :=
  match l with
  | FullyConnected l =>
      holds w (FullyConnectedLayer.previous_layer_activations l)
        (FullyConnectedLayer.N_p l) 1
  | Sigmoid l => holds w (SigmoidLayer.activation l) (SigmoidLayer.N l) 1
  | Relu l => holds w (ReluLayer.activation l) (ReluLayer.N l) 1
  | Softmax l => holds w (SoftmaxLayer.activation l) (SoftmaxLayer.N l) 1
  | Input l => holds w (InputLayer.activation l) (InputLayer.N l) 1
  end.

Definition net_ready (net : Network.t) (w : world) : Prop :=
  forall i l, Network.layers net !! i = Some l -> layer_ready w l.

(** A cost function gives a number, and the derivative of a cost function
    an array of the shape of the activation, when the expected output has
    the shape of the activation. *)
Definition cost_defined (cost : ndarray -> ndarray -> option R) : Prop :=
  forall e a, nrows e = nrows a -> ncols e = ncols a -> is_Some (cost e a).

Definition gradient_shaped (cost_prime : ndarray -> ndarray -> option ndarray) : Prop :=
  forall e a, nrows e = nrows a -> ncols e = ncols a ->
    exists g, cost_prime e a = Some g /\ nrows g = nrows a /\ ncols g = ncols a.

(** A network that can be trained: the input layer comes first and only
    there, every layer takes what the layer before gives, the arrays of the
    fully connected layers have their shapes, the last layer is not a fully
    connected one, and the derivative of the cost keeps the shape. *)
Definition trainable (net : Network.t) (w : world) : Prop :=
  (exists il rest,
      Network.layers net = Input il :: rest
      /\ forall l il', l ∈ rest -> l <> Input il')
  /\ widths_chained (Network.layers net)
  /\ (forall i fc, Network.layers net !! i = Some (FullyConnected fc) -> fc_shapes w fc)
  /\ (forall fc, last (Network.layers net) <> Some (FullyConnected fc))
  /\ gradient_shaped (Network.cost_prime net).

(** A sample whose input is a column of the size of the first layer and
    whose expected output is a column of the size of the last layer. *)
Definition conforming (net : Network.t) (w : world) (smp : sample) : Prop :=
  exists first_layer last_layer,
    head (Network.layers net) = Some first_layer
    /\ last (Network.layers net) = Some last_layer
    /\ holds w smp.1 (width first_layer) 1
    /\ holds w smp.2 (width last_layer) 1.

(** The sizes the layers of a network are built with: the input size and
    the sizes of the builder calls. Every activation layer is added with
    the size of the layer before it. *)
Definition is_activation_call (c : builder_call) : Prop :=
  match c with
  | Add_fc _ _ _ => False
  | _ => True
  end.

Definition activation_sizes_match (input_size : nat) (cs : list builder_call) : Prop :=
  forall i c, cs !! i = Some c -> is_activation_call c ->
    (input_size :: (call_size <$> cs)) !! i = Some (call_size c).

(** *** What a network computes

    The function of a layer, with the parameters as the world [w] holds
    them, and the function of a list of layers: one after the other. The
    input layer has no function. *)
Definition layer_function (w : world) (l : Layer) (x : ndarray) : option ndarray :=
  match l with
  | FullyConnected l =>
      wa ← heap w !! FullyConnectedLayer.W l;
      ba ← heap w !! FullyConnectedLayer.B l;
      wx ← np_dot wa x;
      np_add wx ba
  | Sigmoid _ => Some (np_map (fun v => (1 / (1 + exp (- v)))%R) x)
  | Relu _ => Some (np_maximum0 x)
  | Softmax _ => Some (softmax_output x)
  | Input _ => None
  end.

Definition network_function (w : world) (ls : list Layer) (x : ndarray) : option ndarray :=
  foldl (fun acc l => acc ≫= layer_function w l) (Some x) ls.

(** The cost of a sample: the cost function on the expected output and on
    what the network computes for the input. The cost of a list of samples
    is the sum. *)
Definition sample_cost (w : world) (cost : ndarray -> ndarray -> option R)
    (ls : list Layer) (smp : sample) : option R :=
  xa ← heap w !! smp.1;
  ya ← heap w !! smp.2;
  a ← network_function w ls xa;
  cost ya a.

Definition data_cost (w : world) (cost : ndarray -> ndarray -> option R)
    (ls : list Layer) (data : list sample) : R :=
  foldr Rplus 0%R ((fun smp => default 0%R (sample_cost w cost ls smp)) <$> data).

(** *** The layer of the example with sums that are not zero

    The sums as four samples with the upstream gradient [demo_g] on the
    input [demo_x] leave them: four times [g.x^T] and four times [g]. *)
Definition demo_dW_sum : ndarray := of_rows 2 3 [[4; 0; 8]; [8; 0; 16]]%R.
Definition demo_dB_sum : ndarray := of_rows 2 1 [[4]; [8]]%R.

Definition demo_sums_world : world :=
  mk_world
    [demo_W; np_zeros 2 3; demo_B; np_zeros 2 1; np_zeros 2 1;
     demo_dW_sum; demo_dB_sum; demo_x; demo_x; demo_g]
    [] [].

(** *** A small network to train

    An input layer of two neurons, a fully connected layer of one neuron
    and a ReLU layer, with the quadratic cost. Two samples: [(0, 10)] has
    the input [(1, 1)] and the expected output [0], [(11, 12)] the input
    [(2, 0)] and the expected output [1]. *)
Definition demo_train_world : world :=
  mk_world
    [of_rows 2 1 [[1]; [1]]%R;
     of_rows 1 2 [[1; 0]]%R; np_zeros 1 2;
     of_rows 1 1 [[0]]%R; np_zeros 1 1;
     np_zeros 1 1;
     np_zeros 1 2; np_zeros 1 1;
     np_zeros 2 1;
     np_zeros 1 1;
     of_rows 1 1 [[0]]%R;
     of_rows 2 1 [[2]; [0]]%R;
     of_rows 1 1 [[1]]%R]
    [] [].

Definition demo_train_fc : FullyConnectedLayer.t :=
  FullyConnectedLayer.mk 1 2 1 2 3 4 5 6 7 8 None.

Definition demo_train_net : Network.t :=
  Network.mk quadratic_cost quadratic_cost_prime [] [] false
    [Input (InputLayer.mk 2 0); FullyConnected demo_train_fc;
     Relu (ReluLayer.mk 1 9)]
    1.

Definition sample_a : sample := (0, 10).
Definition sample_b : sample := (11, 12).

(** *** Arrays of finite floats

    The largest number a 64-bit float holds, and the arrays whose entries
    are within its range: no entry is an infinity. *)
Definition float_max : R := ((2 - / 2 ^ 52) * 2 ^ 1023)%R.

Definition finite_entries (a : ndarray) : Prop :=
  forall i j, i < nrows a -> j < ncols a -> (Rabs (elt a i j) <= float_max)%R.

(* ====================================================================== *)
(** ** The monad and the array operations *)
(* ====================================================================== *)

Lemma bind_unfold {T X Y} (m : M T X) (k : X -> M T Y) self w :
  (m ≫= k) self w =
  match m self w with
  | Ok x self' w' => k x self' w'
  | Raise e self' w' => Raise e self' w'
  | Exit self' w' => Exit self' w'
  end.
Proof. reflexivity. Qed.

Lemma bind_Ok {T X Y} (m : M T X) (k : X -> M T Y) self w x self' w' :
  m self w = Ok x self' w' -> (m ≫= k) self w = k x self' w'.
Proof. intros H. rewrite bind_unfold, H. reflexivity. Qed.

Lemma bind_Exit {T X Y} (m : M T X) (k : X -> M T Y) self w self' w' :
  m self w = Exit self' w' -> (m ≫= k) self w = Exit self' w'.
Proof. intros H. rewrite bind_unfold, H. reflexivity. Qed.

Lemma bind_Raise {T X Y} (m : M T X) (k : X -> M T Y) self w e self' w' :
  m self w = Raise e self' w' -> (m ≫= k) self w = Raise e self' w'.
Proof. intros H. rewrite bind_unfold, H. reflexivity. Qed.

Lemma bind_get_self {T Y} (k : T -> M T Y) self w :
  (get_self ≫= k) self w = k self self w.
Proof. reflexivity. Qed.

Lemma bind_modify_self {T Y} (f : T -> T) (k : unit -> M T Y) self w :
  (modify_self f ≫= k) self w = k tt (f self) w.
Proof. reflexivity. Qed.

Lemma bind_np_Some {T X Y} (x : X) (k : X -> M T Y) self w :
  (np (Some x) ≫= k) self w = k x self w.
Proof. reflexivity. Qed.

Lemma np_dot_conforming a b :
  ncols a = nrows b ->
  np_dot a b
  = Some (mk_ndarray (nrows a) (ncols b)
            (fun i j => sum_upto (ncols a) (fun k => (elt a i k * elt b k j)%R))).
Proof. intros H. unfold np_dot. rewrite H, Nat.eqb_refl. reflexivity. Qed.

Lemma broadcast_dim_same n : broadcast_dim n n = Some n.
Proof. unfold broadcast_dim. rewrite Nat.eqb_refl. reflexivity. Qed.

Lemma bidx_lt dim i : i < dim -> bidx dim i = i.
Proof.
  unfold bidx. intros H. destruct (Nat.eqb_spec dim 1); [lia | reflexivity].
Qed.

Lemma np_binop_same_shape f a b :
  nrows b = nrows a -> ncols b = ncols a ->
  np_binop f a b =
  Some (mk_ndarray (nrows a) (ncols a)
          (fun i j => f (elt a (bidx (nrows a) i) (bidx (ncols a) j))
                        (elt b (bidx (nrows a) i) (bidx (ncols a) j)))).
Proof.
  intros Hr Hc. unfold np_binop. rewrite Hr, Hc, !broadcast_dim_same. reflexivity.
Qed.

Lemma np_inplace_same_shape f a b :
  nrows b = nrows a -> ncols b = ncols a ->
  np_inplace f a b =
  Some (mk_ndarray (nrows a) (ncols a)
          (fun i j => f (elt a (bidx (nrows a) i) (bidx (ncols a) j))
                        (elt b (bidx (nrows a) i) (bidx (ncols a) j)))).
Proof.
  intros Hr Hc. unfold np_inplace. rewrite np_binop_same_shape by assumption.
  unfold same_shape. cbn. rewrite !Nat.eqb_refl. reflexivity.
Qed.

(** What an in-place operator stores has the shape of its target. *)
Lemma np_inplace_shape f a b c :
  np_inplace f a b = Some c -> nrows c = nrows a /\ ncols c = ncols a.
Proof.
  unfold np_inplace. destruct (np_binop f a b) as [d|]; [|discriminate].
  unfold same_shape. destruct (Nat.eqb_spec (nrows d) (nrows a)); [|discriminate].
  destruct (Nat.eqb_spec (ncols d) (ncols a)); [|discriminate].
  intros [= <-]. auto.
Qed.

(* ====================================================================== *)
(** ** FullyConnectedLayer.forward_propagation *)
(* ====================================================================== *)

Section FullyConnected_forward.
Import FullyConnectedLayer.
Local Open Scope R_scope.

Variables (self : FullyConnectedLayer.t) (w : world) (x : loc).
Variables (wa xa : ndarray).
Hypothesis HW : heap w !! W self = Some wa.
Hypothesis Hx : heap w !! x = Some xa.

Lemma forward_propagation_mismatch :
  ncols wa <> nrows xa ->
  forward_propagation x self w
  = Exit self (with_stdout (mismatch_report (ncols wa) (nrows xa)) w).
Proof using HW Hx.
  intros Hne. unfold forward_propagation.
  rewrite bind_unfold. cbn. rewrite bind_unfold. unfold load at 1. rewrite HW.
  rewrite bind_unfold. unfold load at 1. rewrite Hx.
  destruct (Nat.eqb_spec (ncols wa) (nrows xa)) as [E|_]; [contradiction|].
  unfold mbind, M_bind, print, py_exit, with_stdout, mismatch_report. cbn.
  rewrite <- app_assoc. reflexivity.
Qed.

Lemma forward_propagation_conforming :
  ncols wa = nrows xa ->
  forward_propagation x self w
  = (wx ← np (np_dot wa xa);
     b ← load (B self);
     z ← np (np_add wx b);
     lZ ← alloc z;
     modify_self (set_Z lZ);;
     modify_self (set_previous_layer_activations x);;
     self ← get_self;
     mret (Z self)) self w.
Proof using HW Hx.
  intros E. unfold forward_propagation.
  rewrite bind_unfold. cbn. rewrite bind_unfold. unfold load at 1. rewrite HW.
  rewrite bind_unfold. unfold load at 1. rewrite Hx.
  rewrite E, Nat.eqb_refl. reflexivity.
Qed.

Lemma forward_propagation_not_Exit :
  ncols wa = nrows xa ->
  forall self' w', forward_propagation x self w <> Exit self' w'.
Proof using HW Hx.
  intros E self' w'. rewrite (forward_propagation_conforming E).
  rewrite bind_unfold. destruct (np_dot wa xa) as [wx|]; cbn; [|discriminate].
  rewrite bind_unfold. unfold load at 1.
  destruct (heap w !! B self) as [b|]; [|discriminate].
  rewrite bind_unfold. destruct (np_add wx b) as [z|]; cbn; discriminate.
Qed.

End FullyConnected_forward.

(** C1. [forward_propagation(x)] on a column vector [x] with as many rows as
    [W] has columns returns a new array holding [W.x + B]: entry [i] is
    the sum over [k] of [W[i][k] * x[k]], plus [B[i]]. The layer's [Z] is
    that array, its [previous_layer_activations] is the object [x], and
    [W] and [B] are the same objects with the same contents. *)
Theorem fc_forward_propagation_spec
    (self : FullyConnectedLayer.t) (w : world) (x : loc) (wa ba xa : ndarray) :
  heap w !! FullyConnectedLayer.W self = Some wa ->
  heap w !! FullyConnectedLayer.B self = Some ba ->
  heap w !! x = Some xa ->
  nrows ba = nrows wa -> ncols ba = 1 ->
  nrows xa = ncols wa -> ncols xa = 1 ->
  exists r self' w' z,
    FullyConnectedLayer.forward_propagation x self w = Ok r self' w'
    /\ heap w' !! r = Some z
    /\ nrows z = nrows wa /\ ncols z = 1
    /\ (forall i, i < nrows wa ->
          elt z i 0
          = (sum_upto (ncols wa) (fun k => elt wa i k * elt xa k 0) + elt ba i 0)%R)
    /\ FullyConnectedLayer.Z self' = r
    /\ FullyConnectedLayer.previous_layer_activations self' = x
    /\ FullyConnectedLayer.W self' = FullyConnectedLayer.W self
    /\ FullyConnectedLayer.B self' = FullyConnectedLayer.B self
    /\ heap w' !! FullyConnectedLayer.W self = Some wa
    /\ heap w' !! FullyConnectedLayer.B self = Some ba.
Proof.
  intros HW HB Hx HBr HBc Hxr Hxc.
  rewrite (forward_propagation_conforming self w x wa xa HW Hx (eq_sym Hxr)).
  unfold np_dot. rewrite <- Hxr, Nat.eqb_refl.
  rewrite bind_unfold. cbn. rewrite bind_unfold. unfold load at 1. rewrite HB.
  unfold np_add, np_binop. cbn. rewrite HBr, broadcast_dim_same, Hxc, HBc. cbn.
  eexists _, _, _, _. split; [reflexivity|]. cbn.
  split; [rewrite lookup_app_r by lia; rewrite Nat.sub_diag; reflexivity|].
  split_and!; try reflexivity.
  - intros i Hi. cbn. rewrite bidx_lt by assumption. reflexivity.
  - rewrite lookup_app_l; [assumption|]. eapply lookup_lt_Some; eauto.
  - rewrite lookup_app_l; [assumption|]. eapply lookup_lt_Some; eauto.
Qed.

(** The layer of the example, applied to the input vector at location 8. *)
Lemma fc_forward_propagation_spec_witness :
  exists r self' w' z,
    FullyConnectedLayer.forward_propagation 8 demo_fc demo_world = Ok r self' w'
    /\ heap w' !! r = Some z
    /\ nrows z = 2 /\ ncols z = 1
    /\ (forall i, i < 2 ->
          elt z i 0
          = (sum_upto 3 (fun k => elt demo_W i k * elt demo_x k 0) + elt demo_B i 0)%R)
    /\ FullyConnectedLayer.Z self' = r
    /\ FullyConnectedLayer.previous_layer_activations self' = 8
    /\ FullyConnectedLayer.W self' = 0
    /\ FullyConnectedLayer.B self' = 2
    /\ heap w' !! 0 = Some demo_W
    /\ heap w' !! 2 = Some demo_B.
Proof.
  apply (fc_forward_propagation_spec demo_fc demo_world 8 demo_W demo_B demo_x);
    reflexivity.
Defined.

Lemma set_layers_id (net : Network.t) (i : nat) (layer : Layer) :
  Network.layers net !! i = Some layer ->
  Network.set_layers (<[i := layer]> (Network.layers net)) net = net.
Proof.
  intros H. rewrite list_insert_id by assumption. destruct net. reflexivity.
Qed.

(** C7. [forward_propagation] ends in [exit()] exactly when the column count
    of [W] differs from the row count of the input. On that path the
    diagnostic is printed, the layer and every array are as before, no
    continuation of the call runs, and the driver's call of the method
    ends the driver in the same way with the network as before. *)
Theorem fc_forward_propagation_fatal
    (self : FullyConnectedLayer.t) (w : world) (x : loc) (wa xa : ndarray) :
  heap w !! FullyConnectedLayer.W self = Some wa ->
  heap w !! x = Some xa ->
  ((exists self' w', FullyConnectedLayer.forward_propagation x self w = Exit self' w')
   <-> ncols wa <> nrows xa)
  /\ (ncols wa <> nrows xa ->
      let halted := with_stdout (mismatch_report (ncols wa) (nrows xa)) w in
      heap halted = heap w
      /\ FullyConnectedLayer.forward_propagation x self w = Exit self halted
      /\ (forall Y (k : loc -> M FullyConnectedLayer.t Y),
            (FullyConnectedLayer.forward_propagation x ≫= k) self w = Exit self halted)
      /\ (forall (net : Network.t) (i : nat) (c : call) Y (k : loc -> M Network.t Y),
            Network.layers net !! i = Some (FullyConnected self) ->
            (Network.on_layer i (Layer.invoke c (Layer.forward_propagation x)) ≫= k) net w
            = Exit net (with_stdout (mismatch_report (ncols wa) (nrows xa))
                          (with_call c w)))).
Proof.
  intros HW Hx. split.
  - split.
    + intros (self' & w' & HE).
      destruct (Nat.eq_dec (ncols wa) (nrows xa)) as [E|NE]; [|assumption].
      exfalso. exact (forward_propagation_not_Exit self w x wa xa HW Hx E _ _ HE).
    + intros NE. eexists _, _.
      apply (forward_propagation_mismatch self w x wa xa HW Hx NE).
  - intros NE halted. split; [reflexivity|].
    pose proof (forward_propagation_mismatch self w x wa xa HW Hx NE) as HE.
    split; [exact HE|]. split.
    + intros Y k. apply bind_Exit. exact HE.
    + intros net i c Y k Hi. apply bind_Exit.
      unfold Network.on_layer. rewrite Hi. unfold embed, Layer.invoke. cbn.
      rewrite bind_unfold. cbn. unfold embed. fold (with_call c w).
      rewrite (forward_propagation_mismatch self (with_call c w) x wa xa HW Hx NE).
      rewrite set_layers_id by assumption. reflexivity.
Qed.

(** The layer of the example has three input columns; the array at
    location 9 has two rows. *)
Lemma fc_forward_propagation_fatal_witness :
  ((exists self' w',
      FullyConnectedLayer.forward_propagation 9 demo_fc demo_world = Exit self' w')
   <-> 3 <> 2)
  /\ (3 <> 2 ->
      let halted := with_stdout (mismatch_report 3 2) demo_world in
      heap halted = heap demo_world
      /\ FullyConnectedLayer.forward_propagation 9 demo_fc demo_world
         = Exit demo_fc halted
      /\ (forall Y (k : loc -> M FullyConnectedLayer.t Y),
            (FullyConnectedLayer.forward_propagation 9 ≫= k) demo_fc demo_world
            = Exit demo_fc halted)
      /\ (forall (net : Network.t) (i : nat) (c : call) Y (k : loc -> M Network.t Y),
            Network.layers net !! i = Some (FullyConnected demo_fc) ->
            (Network.on_layer i (Layer.invoke c (Layer.forward_propagation 9)) ≫= k)
              net demo_world
            = Exit net (with_stdout (mismatch_report 3 2) (with_call c demo_world)))).
Proof.
  apply (fc_forward_propagation_fatal demo_fc demo_world 9 demo_W demo_g); reflexivity.
Defined.

(* ====================================================================== *)
(** ** Array objects *)
(* ====================================================================== *)

Lemma load_Ok {T} (l : loc) (a : ndarray) (self : T) w :
  heap w !! l = Some a -> load l self w = Ok a self w.
Proof. intros H. unfold load. rewrite H. reflexivity. Qed.

Lemma store_Ok {T} (l : loc) (a a0 : ndarray) (self : T) w :
  heap w !! l = Some a0 ->
  store l a self w = Ok tt self (set_heap (<[l := a]> (heap w)) w).
Proof. intros H. unfold store. rewrite H. reflexivity. Qed.

Lemma iadd_Ok {T} (target source : loc) (ta sa r : ndarray) (self : T) w :
  heap w !! target = Some ta -> heap w !! source = Some sa ->
  np_iadd ta sa = Some r ->
  iadd target source self w = Ok tt self (set_heap (<[target := r]> (heap w)) w).
Proof.
  intros Ht Hs Hr. unfold iadd.
  rewrite (bind_Ok _ _ _ _ _ _ _ (load_Ok _ _ _ _ Ht)).
  rewrite (bind_Ok _ _ _ _ _ _ _ (load_Ok _ _ _ _ Hs)).
  rewrite Hr. cbn. rewrite bind_unfold. cbn. eapply store_Ok; eauto.
Qed.

Lemma isub_value_Ok {T} (target : loc) (v ta r : ndarray) (self : T) w :
  heap w !! target = Some ta ->
  np_isub ta v = Some r ->
  isub_value target v self w = Ok tt self (set_heap (<[target := r]> (heap w)) w).
Proof.
  intros Ht Hr. unfold isub_value.
  rewrite (bind_Ok _ _ _ _ _ _ _ (load_Ok _ _ _ _ Ht)).
  rewrite Hr. cbn. rewrite bind_unfold. cbn. eapply store_Ok; eauto.
Qed.

Lemma fill_Ok {T} (target : loc) (s : R) (ta : ndarray) (self : T) w :
  heap w !! target = Some ta ->
  fill target s self w = Ok tt self (set_heap (<[target := np_fill ta s]> (heap w)) w).
Proof.
  intros Ht. unfold fill.
  rewrite (bind_Ok _ _ _ _ _ _ _ (load_Ok _ _ _ _ Ht)).
  eapply store_Ok; eauto.
Qed.

Lemma lookup_insert_other (h : list ndarray) (l l' : loc) (a : ndarray) :
  l <> l' -> <[l := a]> h !! l' = h !! l'.
Proof. intros H. apply list_lookup_insert_ne. assumption. Qed.

Lemma lookup_insert_same (h : list ndarray) (l : loc) (a a0 : ndarray) :
  h !! l = Some a0 -> <[l := a]> h !! l = Some a.
Proof. intros H. apply list_lookup_insert_eq. eapply lookup_lt_Some; eauto. Qed.

Lemma NoDup_4 (a b c d : loc) :
  NoDup [a; b; c; d] -> a <> b /\ a <> c /\ a <> d /\ b <> c /\ b <> d /\ c <> d.
Proof.
  intros H.
  apply NoDup_cons in H as [Ha H]. apply NoDup_cons in H as [Hb H].
  apply NoDup_cons in H as [Hc _].
  repeat setoid_rewrite not_elem_of_cons in Ha.
  repeat setoid_rewrite not_elem_of_cons in Hb.
  repeat setoid_rewrite not_elem_of_cons in Hc. tauto.
Qed.

(* ====================================================================== *)
(** ** FullyConnectedLayer.update_parameters *)
(* ====================================================================== *)

(** The run of [update_parameters], for any [mini_batch_size]: four
    in-place writes, in the order of the source. *)
Lemma fc_update_parameters_run
    (self : FullyConnectedLayer.t) (w : world) (m : nat) (eta : R)
    (wa ba dws dbs : ndarray) :
  heap w !! FullyConnectedLayer.W self = Some wa ->
  heap w !! FullyConnectedLayer.B self = Some ba ->
  heap w !! FullyConnectedLayer.dW_sum self = Some dws ->
  heap w !! FullyConnectedLayer.dB_sum self = Some dbs ->
  nrows dws = nrows wa -> ncols dws = ncols wa ->
  nrows dbs = nrows ba -> ncols dbs = ncols ba ->
  NoDup [FullyConnectedLayer.W self; FullyConnectedLayer.B self;
         FullyConnectedLayer.dW_sum self; FullyConnectedLayer.dB_sum self] ->
  FullyConnectedLayer.update_parameters m eta self w
  = Ok tt self
      (set_heap
         (<[FullyConnectedLayer.dB_sum self := np_fill dbs 0]>
            (<[FullyConnectedLayer.dW_sum self := np_fill dws 0]>
               (<[FullyConnectedLayer.B self := descended ba dbs m eta]>
                  (<[FullyConnectedLayer.W self := descended wa dws m eta]>
                     (heap w)))))
         w).
Proof.
  intros HW HB HdW HdB Hr1 Hc1 Hr2 Hc2 Hnd.
  apply NoDup_4 in Hnd as (nWB & nWdW & nWdB & nBdW & nBdB & ndWdB).
  unfold FullyConnectedLayer.update_parameters.
  rewrite bind_get_self.
  rewrite (bind_Ok _ _ _ _ _ _ _ (load_Ok _ _ _ _ HdW)).
  erewrite bind_Ok; cycle 1.
  { eapply isub_value_Ok; [exact HW|]. apply np_inplace_same_shape; assumption. }
  erewrite bind_Ok; cycle 1.
  { apply load_Ok. cbn. rewrite lookup_insert_other by assumption. exact HdB. }
  erewrite bind_Ok; cycle 1.
  { eapply isub_value_Ok.
    - cbn. rewrite lookup_insert_other by assumption. exact HB.
    - apply np_inplace_same_shape; assumption. }
  erewrite bind_Ok; cycle 1.
  { eapply fill_Ok. cbn. rewrite !lookup_insert_other by auto. exact HdW. }
  erewrite fill_Ok; cycle 1.
  { cbn. rewrite !lookup_insert_other by auto. exact HdB. }
  reflexivity.
Qed.

(** C3. [update_parameters(m, eta)] with positive [m] replaces the content of
    [W] by [W - eta * (dW_sum / m)] and the content of [B] by
    [B - eta * (dB_sum / m)], then sets every entry of [dW_sum] and of
    [dB_sum] to zero. The layer object keeps all its attributes, every
    other array is as before, and nothing is printed. *)
Theorem fc_update_parameters_spec
    (self : FullyConnectedLayer.t) (w : world) (m : nat) (eta : R)
    (wa ba dws dbs : ndarray) :
  0 < m ->
  heap w !! FullyConnectedLayer.W self = Some wa ->
  heap w !! FullyConnectedLayer.B self = Some ba ->
  heap w !! FullyConnectedLayer.dW_sum self = Some dws ->
  heap w !! FullyConnectedLayer.dB_sum self = Some dbs ->
  nrows dws = nrows wa -> ncols dws = ncols wa ->
  nrows dbs = nrows ba -> ncols dbs = ncols ba ->
  NoDup [FullyConnectedLayer.W self; FullyConnectedLayer.B self;
         FullyConnectedLayer.dW_sum self; FullyConnectedLayer.dB_sum self] ->
  exists w' wa' ba' dws' dbs',
    FullyConnectedLayer.update_parameters m eta self w = Ok tt self w'
    /\ heap w' !! FullyConnectedLayer.W self = Some wa'
    /\ heap w' !! FullyConnectedLayer.B self = Some ba'
    /\ heap w' !! FullyConnectedLayer.dW_sum self = Some dws'
    /\ heap w' !! FullyConnectedLayer.dB_sum self = Some dbs'
    /\ (nrows wa' = nrows wa /\ ncols wa' = ncols wa)
    /\ (forall i j, i < nrows wa -> j < ncols wa ->
          elt wa' i j = (elt wa i j - eta * (elt dws i j / INR m))%R)
    /\ (nrows ba' = nrows ba /\ ncols ba' = ncols ba)
    /\ (forall i j, i < nrows ba -> j < ncols ba ->
          elt ba' i j = (elt ba i j - eta * (elt dbs i j / INR m))%R)
    /\ (nrows dws' = nrows dws /\ ncols dws' = ncols dws)
    /\ (forall i j, elt dws' i j = 0%R)
    /\ (nrows dbs' = nrows dbs /\ ncols dbs' = ncols dbs)
    /\ (forall i j, elt dbs' i j = 0%R)
    /\ (forall l, l <> FullyConnectedLayer.W self -> l <> FullyConnectedLayer.B self ->
          l <> FullyConnectedLayer.dW_sum self -> l <> FullyConnectedLayer.dB_sum self ->
          heap w' !! l = heap w !! l)
    /\ length (heap w') = length (heap w)
    /\ stdout w' = stdout w /\ calls w' = calls w.
Proof.
  intros _ HW HB HdW HdB Hr1 Hc1 Hr2 Hc2 Hnd.
  rewrite (fc_update_parameters_run self w m eta wa ba dws dbs) by assumption.
  apply NoDup_4 in Hnd as (nWB & nWdW & nWdB & nBdW & nBdB & ndWdB).
  eexists _, _, _, _, _. split; [reflexivity|]. cbn.
  split.
  { rewrite !lookup_insert_other by auto. eapply lookup_insert_same; eauto. }
  split.
  { rewrite !lookup_insert_other by auto. eapply lookup_insert_same.
    rewrite lookup_insert_other by auto. eauto. }
  split.
  { rewrite !lookup_insert_other by auto. eapply lookup_insert_same.
    rewrite !lookup_insert_other by auto. eauto. }
  split.
  { eapply lookup_insert_same. rewrite !lookup_insert_other by auto. eauto. }
  split_and!; try reflexivity.
  - intros i j Hi Hj. cbn. rewrite !bidx_lt by assumption. reflexivity.
  - intros i j Hi Hj. cbn. rewrite !bidx_lt by assumption. reflexivity.
  - intros l n1 n2 n3 n4. rewrite !lookup_insert_other by auto. reflexivity.
  - rewrite !length_insert. reflexivity.
Qed.

(** The layer of the example after four samples with the gradient [(1, 2)]
    on the input [(1, 0, 2)]: a step of one half of the mean gradient
    changes every entry of [W] outside the middle column and both entries
    of [B], and the sums are zero afterwards. *)
Lemma fc_update_parameters_spec_witness :
  exists w' wa' ba' dws' dbs',
    FullyConnectedLayer.update_parameters 4 (1 / 2) demo_fc demo_sums_world
    = Ok tt demo_fc w'
    /\ heap w' !! 0 = Some wa' /\ heap w' !! 2 = Some ba'
    /\ heap w' !! 5 = Some dws' /\ heap w' !! 6 = Some dbs'
    /\ (elt wa' 0 0 = 1 / 2 /\ elt wa' 0 1 = 2 /\ elt wa' 0 2 = 2
        /\ elt wa' 1 0 = 3 /\ elt wa' 1 1 = 5 /\ elt wa' 1 2 = 4)%R
    /\ (elt ba' 0 0 = 1 / 2 /\ elt ba' 1 0 = -2)%R
    /\ (forall i j, elt dws' i j = 0%R)
    /\ (forall i j, elt dbs' i j = 0%R).
Proof.
  destruct (fc_update_parameters_spec demo_fc demo_sums_world 4 (1 / 2)
              demo_W demo_B demo_dW_sum demo_dB_sum)
    as (w' & wa' & ba' & dws' & dbs' & H & HW & HB & HdW & HdB & _ & HWv & _ & HBv & _
        & HdWv & _ & HdBv & _);
    try reflexivity.
  - lia.
  - compute_done.
  - exists w', wa', ba', dws', dbs'.
    split; [exact H|]. split; [exact HW|]. split; [exact HB|].
    split; [exact HdW|]. split; [exact HdB|].
    split; [|split; [|split; [exact HdWv | exact HdBv]]].
    + repeat split;
        match goal with
        | |- elt wa' ?i ?j = _ => rewrite (HWv i j) by (cbn; lia); cbn; lra
        end.
    + split;
        match goal with
        | |- elt ba' ?i ?j = _ => rewrite (HBv i j) by (cbn; lia); cbn; lra
        end.
Defined.

(* ====================================================================== *)
(** ** FullyConnectedLayer.backward_propagation *)
(* ====================================================================== *)

Lemma alloc_Ok {T} (a : ndarray) (self : T) w :
  alloc a self w = Ok (length (heap w)) self (set_heap (heap w ++ [a]) w).
Proof. reflexivity. Qed.

Lemma lookup_alloc_old (h : list ndarray) (a b : ndarray) (l : loc) :
  h !! l = Some a -> (h ++ [b]) !! l = Some a.
Proof. apply lookup_app_l_Some. Qed.

Lemma lookup_alloc_new (h : list ndarray) (b : ndarray) :
  (h ++ [b]) !! length h = Some b.
Proof. rewrite lookup_app_r by lia. rewrite Nat.sub_diag. reflexivity. Qed.

Lemma lookup_valid_ne (h : list ndarray) (a : ndarray) (l : loc) :
  h !! l = Some a -> l <> length h.
Proof. intros H%lookup_lt_Some. lia. Qed.

(** C2, as the code has it. For a layer whose arrays have the shapes of its
    class ([dW_sum] as the outer product, [dB_sum] as the gradient, [W] with
    one row per gradient entry) and an upstream gradient column vector [g]
    that is not one of the layer's two sum arrays,
    [backward_propagation(g)] binds [dW] to a new array holding the outer
    product of [g] and [previous_layer_activations], adds that product to
    the content of [dW_sum], binds [dB] to the object [g] itself, adds the
    content of [g] to [dB_sum], and returns a new array holding
    [W.transpose() . g]. The sums are increased from whatever they held;
    [W], [B] and [g] keep their contents and the remaining attributes are
    the same. *)
Theorem fc_backward_propagation_spec
    (self : FullyConnectedLayer.t) (w : world) (g : loc)
    (ga pa wa ba dws dbs : ndarray) :
  heap w !! g = Some ga ->
  heap w !! FullyConnectedLayer.previous_layer_activations self = Some pa ->
  heap w !! FullyConnectedLayer.W self = Some wa ->
  heap w !! FullyConnectedLayer.B self = Some ba ->
  heap w !! FullyConnectedLayer.dW_sum self = Some dws ->
  heap w !! FullyConnectedLayer.dB_sum self = Some dbs ->
  ncols ga = 1 -> ncols pa = 1 ->
  nrows dws = nrows ga -> ncols dws = nrows pa ->
  nrows dbs = nrows ga -> ncols dbs = 1 ->
  nrows wa = nrows ga ->
  FullyConnectedLayer.dW_sum self <> FullyConnectedLayer.dB_sum self ->
  g <> FullyConnectedLayer.dW_sum self -> g <> FullyConnectedLayer.dB_sum self ->
  FullyConnectedLayer.W self <> FullyConnectedLayer.dW_sum self ->
  FullyConnectedLayer.W self <> FullyConnectedLayer.dB_sum self ->
  FullyConnectedLayer.B self <> FullyConnectedLayer.dW_sum self ->
  FullyConnectedLayer.B self <> FullyConnectedLayer.dB_sum self ->
  exists r self' w' dwa dws' dbs' ra,
    FullyConnectedLayer.backward_propagation g self w = Ok r self' w'
    (* dW: a new array, the outer product *)
    /\ FullyConnectedLayer.dW self' = length (heap w)
    /\ heap w' !! FullyConnectedLayer.dW self' = Some dwa
    /\ (nrows dwa = nrows ga /\ ncols dwa = nrows pa)
    /\ (forall i j, i < nrows ga -> j < nrows pa ->
          elt dwa i j = (elt ga i 0 * elt pa j 0)%R)
    (* dW_sum: increased by the outer product, in place *)
    /\ heap w' !! FullyConnectedLayer.dW_sum self = Some dws'
    /\ (nrows dws' = nrows dws /\ ncols dws' = ncols dws)
    /\ (forall i j, i < nrows ga -> j < nrows pa ->
          elt dws' i j = (elt dws i j + elt ga i 0 * elt pa j 0)%R)
    (* dB: the object g *)
    /\ FullyConnectedLayer.dB self' = g
    /\ heap w' !! g = Some ga
    (* dB_sum: increased by g, in place *)
    /\ heap w' !! FullyConnectedLayer.dB_sum self = Some dbs'
    /\ (nrows dbs' = nrows dbs /\ ncols dbs' = ncols dbs)
    /\ (forall i, i < nrows ga -> elt dbs' i 0 = (elt dbs i 0 + elt ga i 0)%R)
    (* the value: a new array, W.transpose() . g *)
    /\ r = S (length (heap w))
    /\ heap w' !! r = Some ra
    /\ (nrows ra = ncols wa /\ ncols ra = 1)
    /\ (forall j, j < ncols wa ->
          elt ra j 0 = sum_upto (nrows wa) (fun i => elt wa i j * elt ga i 0)%R)
    (* the parameters and the other attributes *)
    /\ heap w' !! FullyConnectedLayer.W self = Some wa
    /\ heap w' !! FullyConnectedLayer.B self = Some ba
    /\ self' = FullyConnectedLayer.set_dB g
                 (FullyConnectedLayer.set_dW (length (heap w)) self).
Proof.
  intros Hg Hp HW HB HdW HdB Hgc Hpc Hr1 Hc1 Hr2 Hc2 HWr
         ndWdB ngdW ngdB nWdW nWdB nBdW nBdB.
  pose proof (lookup_valid_ne _ _ _ Hg) as Lg.
  pose proof (lookup_valid_ne _ _ _ HW) as LW.
  pose proof (lookup_valid_ne _ _ _ HB) as LB.
  pose proof (lookup_valid_ne _ _ _ HdW) as LdW.
  pose proof (lookup_valid_ne _ _ _ HdB) as LdB.
  unfold FullyConnectedLayer.backward_propagation.
  rewrite bind_get_self.
  rewrite (bind_Ok _ _ _ _ _ _ _ (load_Ok _ _ _ _ Hg)).
  rewrite (bind_Ok _ _ _ _ _ _ _ (load_Ok _ _ _ _ Hp)).
  rewrite (np_dot_conforming ga (np_transpose pa)) by (cbn; congruence).
  rewrite bind_np_Some.
  rewrite (bind_Ok _ _ _ _ _ _ _ (alloc_Ok _ _ _)).
  rewrite bind_modify_self.
  erewrite bind_Ok; cycle 1.
  { eapply iadd_Ok; cbn.
    - apply lookup_alloc_old. exact HdW.
    - apply lookup_alloc_new.
    - apply np_inplace_same_shape; cbn; congruence. }
  rewrite bind_modify_self.
  erewrite bind_Ok; cycle 1.
  { eapply iadd_Ok; cbn.
    - rewrite lookup_insert_other by auto. apply lookup_alloc_old. exact HdB.
    - rewrite lookup_insert_other by auto. apply lookup_alloc_old. exact Hg.
    - apply np_inplace_same_shape; cbn; congruence. }
  erewrite bind_Ok; cycle 1.
  { apply load_Ok. cbn. rewrite !lookup_insert_other by auto.
    apply lookup_alloc_old. exact HW. }
  erewrite bind_Ok; cycle 1.
  { apply load_Ok. cbn. rewrite !lookup_insert_other by auto.
    apply lookup_alloc_old. exact Hg. }
  rewrite (np_dot_conforming (np_transpose wa) ga) by (cbn; congruence).
  rewrite bind_np_Some, alloc_Ok.
  eexists _, _, _, _, _, _, _. split; [reflexivity|].
  cbn [heap set_heap FullyConnectedLayer.dW FullyConnectedLayer.dB
       FullyConnectedLayer.set_dW FullyConnectedLayer.set_dB].
  rewrite !length_insert, length_app. cbn [length].
  split; [reflexivity|].
  split.
  { apply lookup_alloc_old. rewrite !lookup_insert_other by auto.
    apply lookup_alloc_new. }
  split; [split; reflexivity|].
  split.
  { intros i j Hi Hj. cbn. rewrite Hgc. cbn. lra. }
  split.
  { apply lookup_alloc_old. rewrite lookup_insert_other by auto.
    eapply lookup_insert_same. apply lookup_alloc_old. exact HdW. }
  split; [split; reflexivity|].
  split.
  { intros i j Hi Hj. cbn. rewrite !bidx_lt by lia. rewrite Hgc. cbn. lra. }
  split; [reflexivity|].
  split.
  { apply lookup_alloc_old. rewrite !lookup_insert_other by auto.
    apply lookup_alloc_old. exact Hg. }
  split.
  { apply lookup_alloc_old. eapply lookup_insert_same.
    rewrite lookup_insert_other by auto. apply lookup_alloc_old. exact HdB. }
  split; [split; reflexivity|].
  split.
  { intros i Hi. cbn. rewrite !bidx_lt by lia. reflexivity. }
  split; [lia|].
  split.
  { replace (S (length (heap w))) with (length (heap w) + 1) by lia.
    rewrite lookup_app_r; rewrite ?length_insert, ?length_app; cbn [length]; [|lia].
    rewrite Nat.sub_diag. reflexivity. }
  split; [split; [reflexivity | exact Hgc]|].
  split.
  { intros j Hj. reflexivity. }
  split.
  { apply lookup_alloc_old. rewrite !lookup_insert_other by auto.
    apply lookup_alloc_old. exact HW. }
  split.
  { apply lookup_alloc_old. rewrite !lookup_insert_other by auto.
    apply lookup_alloc_old. exact HB. }
  reflexivity.
Qed.

(** The layer of the example and the gradient at location 9. *)
Lemma fc_backward_propagation_spec_witness :
  exists r self' w' dws' dbs',
    FullyConnectedLayer.backward_propagation 9 demo_fc demo_world = Ok r self' w'
    /\ heap w' !! 5 = Some dws'
    /\ (forall i j, i < 2 -> j < 3 -> elt dws' i j = (0 + elt demo_g i 0 * elt demo_x j 0)%R)
    /\ FullyConnectedLayer.dB self' = 9
    /\ heap w' !! 6 = Some dbs'
    /\ (forall i, i < 2 -> elt dbs' i 0 = (0 + elt demo_g i 0)%R)
    /\ heap w' !! 0 = Some demo_W
    /\ heap w' !! 2 = Some demo_B.
Proof.
  destruct (fc_backward_propagation_spec demo_fc demo_world 9
              demo_g demo_x demo_W demo_B (np_zeros 2 3) (np_zeros 2 1))
    as (r & self' & w' & dwa & dws' & dbs' & ra & H & _ & _ & _ & _ & HdW & _ & HdWv
        & HdB & _ & HdBs & _ & HdBv & _ & _ & _ & _ & HW & HB & _);
    try reflexivity; try (cbn; lia).
  exists r, self', w', dws', dbs'. repeat split; assumption.
Defined.

(** C2 as stated fails on "copied, not aliased": after the call, [dB] is the
    location that was passed as the upstream gradient, so a later write to
    that array is read back through [dB]. *)
Lemma fc_backward_propagation_dB_is_upstream_gradient :
  exists r self' w',
    FullyConnectedLayer.backward_propagation 9 demo_fc demo_world = Ok r self' w'
    /\ FullyConnectedLayer.dB self' = 9
    /\ heap w' !! FullyConnectedLayer.dB self' = Some demo_g
    /\ exists w'',
         store 9 (np_zeros 2 1) self' w' = Ok tt self' w''
         /\ heap w'' !! FullyConnectedLayer.dB self' = Some (np_zeros 2 1).
Proof.
  eexists _, _, _. split; [vm_compute; reflexivity|].
  split; [reflexivity|]. split; [reflexivity|].
  eexists. split; reflexivity.
Qed.

(* ====================================================================== *)
(** ** ReluLayer *)
(* ====================================================================== *)

(** [forward_propagation] stores the elementwise maximum with zero. *)
Lemma relu_forward_propagation_stores
    (self : ReluLayer.t) (w : world) (x : loc) (xa : ndarray) :
  heap w !! x = Some xa ->
  ReluLayer.forward_propagation x self w
  = Ok (length (heap w)) (ReluLayer.set_activation (length (heap w)) self)
       (set_heap (heap w ++ [np_maximum0 xa]) w)
  /\ forall i j, elt (np_maximum0 xa) i j = Rmax (elt xa i j) 0.
Proof.
  intros Hx. split; [|reflexivity].
  unfold ReluLayer.forward_propagation.
  rewrite (bind_Ok _ _ _ _ _ _ _ (load_Ok _ _ _ _ Hx)).
  rewrite (bind_Ok _ _ _ _ _ _ _ (alloc_Ok _ _ _)).
  reflexivity.
Qed.

(** C8. With the stored activation [a] the elementwise maximum of the last
    input [xa] with zero, [backward_propagation(g)] returns a new array
    with entries [g * (1 if a > 0 else 0)]: zero wherever the stored
    activation is exactly zero, that is for every zero or negative entry of
    the input, and the entry of [g] where the input is positive. The layer
    and the existing arrays are untouched. *)
Theorem relu_backward_propagation_spec
    (self : ReluLayer.t) (w : world) (g : loc) (a ga xa : ndarray) :
  heap w !! ReluLayer.activation self = Some a ->
  heap w !! g = Some ga ->
  nrows ga = nrows a -> ncols ga = ncols a ->
  (forall i j, elt a i j = Rmax (elt xa i j) 0) ->
  exists res,
    ReluLayer.backward_propagation g self w
    = Ok (length (heap w)) self (set_heap (heap w ++ [res]) w)
    /\ nrows res = nrows a /\ ncols res = ncols a
    /\ forall i j, i < nrows a -> j < ncols a ->
         elt res i j = (elt ga i j * (if Rlt_dec 0 (elt a i j) then 1 else 0))%R
         /\ (elt a i j = 0%R -> elt res i j = 0%R)
         /\ ((elt xa i j <= 0)%R -> elt res i j = 0%R)
         /\ ((0 < elt xa i j)%R -> elt res i j = elt ga i j).
Proof.
  intros Ha Hg Hr Hc Hmax.
  unfold ReluLayer.backward_propagation.
  rewrite bind_get_self.
  rewrite (bind_Ok _ _ _ _ _ _ _ (load_Ok _ _ _ _ Ha)).
  rewrite (bind_Ok _ _ _ _ _ _ _ (load_Ok _ _ _ _ Hg)).
  unfold np_multiply. rewrite np_binop_same_shape by (cbn; assumption).
  rewrite bind_np_Some, alloc_Ok.
  eexists. split; [reflexivity|]. split; [reflexivity|]. split; [reflexivity|].
  intros i j Hi Hj. cbn. rewrite !bidx_lt by assumption.
  specialize (Hmax i j). unfold Rmax in Hmax.
  destruct (Rlt_dec 0 (elt a i j)) as [Hpos|Hnpos];
    destruct (Rle_dec (elt xa i j) 0) as [Hle|Hgt]; repeat split; intros; lra.
Qed.

(** The ReLU layer of the example: the input entries -2, 0 and 3 give the
    gradient entries 0, 0 and 7. *)
Lemma relu_backward_propagation_spec_witness :
  exists res,
    ReluLayer.backward_propagation 2 demo_relu demo_relu_world
    = Ok 3 demo_relu (set_heap (heap demo_relu_world ++ [res]) demo_relu_world)
    /\ elt res 0 0 = 0%R /\ elt res 1 0 = 0%R /\ elt res 2 0 = 7%R.
Proof.
  destruct (relu_backward_propagation_spec demo_relu demo_relu_world 2
              (np_maximum0 demo_pre) demo_up demo_pre)
    as (res & H & _ & _ & Hv); try reflexivity.
  exists res. split; [exact H|].
  split; [|split].
  - apply (Hv 0 0); cbn; lra || lia.
  - apply (Hv 1 0); cbn; lra || lia.
  - destruct (Hv 2 0) as (_ & _ & _ & H3); cbn; try lia.
    rewrite H3; cbn; lra.
Defined.

(* ====================================================================== *)
(** ** The builder *)
(* ====================================================================== *)

(** One builder call appends one layer of the requested class and size; a
    fully connected layer takes the size of the layer before it as its
    input size. *)
Lemma run_builder_call_appends (c : builder_call) (net : Network.t) (w : world) :
  exists l w',
    run_builder_call c net w
    = Ok tt (Network.set_prev_layer_size (call_size c)
               (Network.set_layers (Network.layers net ++ [l]) net)) w'
    /\ width l = call_size c
    /\ built_by c l
    /\ (forall fc, l = FullyConnected fc ->
          FullyConnectedLayer.N_p fc = Network.prev_layer_size net).
Proof.
  destruct c; cbn [run_builder_call call_size].
  - eexists _, _. split; [reflexivity|]. cbn. split; [reflexivity|].
    split; [exact I|]. intros fc [= <-]. reflexivity.
  - eexists _, _. split; [reflexivity|]. cbn. split; [reflexivity|].
    split; [exact I|]. intros fc [=].
  - eexists _, _. split; [reflexivity|]. cbn. split; [reflexivity|].
    split; [exact I|]. intros fc [=].
  - eexists _, _. split; [reflexivity|]. cbn. split; [reflexivity|].
    split; [exact I|]. intros fc [=].
Qed.

Lemma fc_widths_chained_snoc (ls : list Layer) (a l : Layer) :
  last ls = Some a ->
  fc_widths_chained ls ->
  (forall fc, l = FullyConnected fc -> FullyConnectedLayer.N_p fc = width a) ->
  fc_widths_chained (ls ++ [l]).
Proof.
  intros Hlast Hch Hl i x fc Hi HSi.
  rewrite last_lookup in Hlast.
  assert (Hlen : length ls <> 0).
  { intros E. apply lookup_lt_Some in Hlast. lia. }
  destruct (Nat.lt_ge_cases (S i) (length ls)) as [Hlt|Hge].
  - rewrite lookup_app_l in Hi by lia. rewrite lookup_app_l in HSi by lia.
    eapply Hch; eauto.
  - assert (HSi' := HSi). apply lookup_lt_Some in HSi'.
    rewrite length_app in HSi'. cbn in HSi'.
    assert (E : S i = length ls) by lia.
    rewrite lookup_app_l in Hi by lia.
    rewrite E, lookup_app_r, Nat.sub_diag in HSi by lia. cbn in HSi.
    injection HSi as HSi.
    replace (Init.Nat.pred (length ls)) with i in Hlast by lia.
    rewrite Hi in Hlast. injection Hlast as ->.
    apply Hl. assumption.
Qed.

Lemma builder_invariant_step (c : builder_call) (net : Network.t) (w : world) :
  builder_invariant net ->
  exists l w',
    run_builder_call c net w
    = Ok tt (Network.set_prev_layer_size (call_size c)
               (Network.set_layers (Network.layers net ++ [l]) net)) w'
    /\ width l = call_size c /\ built_by c l
    /\ builder_invariant
         (Network.set_prev_layer_size (call_size c)
            (Network.set_layers (Network.layers net ++ [l]) net)).
Proof.
  intros [(a & Hlast & Hprev) Hch].
  destruct (run_builder_call_appends c net w) as (l & w' & Hrun & Hw & Hb & Hfc).
  exists l, w'. split; [exact Hrun|]. split; [exact Hw|]. split; [exact Hb|].
  split.
  - exists l. cbn. rewrite last_snoc. split; [reflexivity | symmetry; exact Hw].
  - cbn. eapply fc_widths_chained_snoc; eauto.
    intros fc Hl. rewrite (Hfc fc Hl). exact Hprev.
Qed.

Lemma builder_calls_append (cs : list builder_call) :
  forall (net : Network.t) (w : world),
    builder_invariant net ->
    exists net' w' new,
      for_each cs (fun _ c => run_builder_call c) tt net w = Ok tt net' w'
      /\ builder_invariant net'
      /\ Network.layers net' = Network.layers net ++ new
      /\ Forall2 (fun c l => built_by c l /\ width l = call_size c) cs new.
Proof.
  induction cs as [|c cs IH]; intros net w Hinv.
  - exists net, w, []. cbn. rewrite app_nil_r. repeat split; auto. apply Hinv. apply Hinv.
  - destruct (builder_invariant_step c net w Hinv) as (l & w1 & Hrun & Hw & Hb & Hinv1).
    destruct (IH _ w1 Hinv1) as (net' & w' & new & Hrest & Hinv' & Hls & Hall).
    exists net', w', (l :: new).
    split.
    { cbn [for_each]. rewrite (bind_Ok _ _ _ _ _ _ _ Hrun). exact Hrest. }
    split; [exact Hinv'|]. split.
    { rewrite Hls. cbn. rewrite <- app_assoc. reflexivity. }
    constructor; auto.
Qed.

(** C9, as the code has it. The builder never fails and appends one layer
    of the requested class and size per call after the input layer. Each
    fully connected layer declares as its input width the width of the
    layer before it; the size of an activation layer is the argument of
    its call, whatever the layer before it gives. *)
Theorem builder_chains_fc_widths
    (input_size : nat)
    (cost : ndarray -> ndarray -> option R)
    (cost_prime : ndarray -> ndarray -> option ndarray)
    (is_SM_CE : bool) (cs : list builder_call) (w : world) :
  exists net w',
    build input_size cost cost_prime is_SM_CE cs tt w = Ok net tt w'
    /\ length (Network.layers net) = S (length cs)
    /\ (exists il, Network.layers net !! 0 = Some (Input il)
                   /\ InputLayer.N il = input_size)
    /\ (forall i c, cs !! i = Some c ->
          exists l, Network.layers net !! S i = Some l
                    /\ built_by c l /\ width l = call_size c)
    /\ fc_widths_chained (Network.layers net).
Proof.
  set (il := InputLayer.mk input_size (length (heap w))).
  set (net0 := Network.mk cost cost_prime [] [] is_SM_CE [Input il] input_size).
  set (w0 := set_heap (heap w ++ [np_zeros input_size 1]) w).
  assert (Hinv : builder_invariant net0).
  { split.
    - exists (Input il). split; reflexivity.
    - intros i a fc Hi HSi. destruct i; discriminate. }
  destruct (builder_calls_append cs net0 w0 Hinv)
    as (net' & w' & new & Hrun & Hinv' & Hls & Hall).
  exists net', w'. split.
  { unfold build.
    rewrite (bind_Ok _ _ tt w net0 tt w0) by reflexivity.
    unfold embed. rewrite (bind_Ok _ _ _ _ _ _ _ Hrun). reflexivity. }
  cbn in Hls. split.
  { rewrite Hls. cbn. f_equal. symmetry. eapply Forall2_length; eauto. }
  split.
  { exists il. rewrite Hls. split; reflexivity. }
  split.
  { intros i c Hc. rewrite Hls. cbn.
    destruct (Forall2_lookup_l _ _ _ _ _ Hall Hc) as (l & Hl & Hb & Hw).
    exists l. auto. }
  apply Hinv'.
Qed.

(** C9 as stated fails for the activation layers: a sigmoid layer of size 5
    right after an input layer of size 2 is accepted as it is. *)
Lemma builder_accepts_mismatched_activation_layer :
  exists net w',
    build 2 quadratic_cost quadratic_cost_prime false [Add_sigmoid 5] tt
      (mk_world [] [] [])
    = Ok net tt w'
    /\ ~ widths_chained (Network.layers net).
Proof.
  eexists _, _. split; [reflexivity|].
  intros H. specialize (H 0 _ _ eq_refl eq_refl). cbn in H. discriminate.
Qed.

(* ====================================================================== *)
(** ** Runs that differ in the trace or in the flag *)
(* ====================================================================== *)

Section Commutes.
Context {T : Type} (f : T -> T) (c : list call).

Lemma commutes_mret {X} (x : X) : commutes f (add_calls c) (mret x).
Proof. intros s w. reflexivity. Qed.

Lemma commutes_bind {X Y} (m : M T X) (k : X -> M T Y) :
  commutes f (add_calls c) m ->
  (forall x, commutes f (add_calls c) (k x)) ->
  commutes f (add_calls c) (m ≫= k).
Proof.
  intros Hm Hk s w. rewrite !bind_unfold, Hm.
  destruct (m s w); cbn; [apply Hk | reflexivity | reflexivity].
Qed.

Lemma commutes_raise {X} (e : exn) : commutes f (add_calls c) (raise (X := X) e).
Proof. intros s w. reflexivity. Qed.

Lemma commutes_py_exit {X} : commutes f (add_calls c) (py_exit (X := X)).
Proof. intros s w. reflexivity. Qed.

Lemma commutes_print (o : out) : commutes f (add_calls c) (print o).
Proof. intros s w. reflexivity. Qed.

Lemma commutes_record_call (ev : call) : commutes f (add_calls c) (record_call ev).
Proof.
  intros s w. unfold record_call, add_calls. cbn. rewrite app_assoc. reflexivity.
Qed.

Lemma commutes_alloc (a : ndarray) : commutes f (add_calls c) (alloc a).
Proof. intros s w. reflexivity. Qed.

Lemma commutes_load (l : loc) : commutes f (add_calls c) (load l).
Proof. intros s w. unfold load. cbn. destruct (heap w !! l); reflexivity. Qed.

Lemma commutes_store (l : loc) (a : ndarray) : commutes f (add_calls c) (store l a).
Proof. intros s w. unfold store. cbn. destruct (heap w !! l); reflexivity. Qed.

Lemma commutes_np {X} (r : option X) : commutes f (add_calls c) (np r).
Proof. intros s w. destruct r; reflexivity. Qed.

Lemma commutes_modify_self (h : T -> T) :
  (forall s, h (f s) = f (h s)) -> commutes f (add_calls c) (modify_self h).
Proof. intros H s w. unfold modify_self. cbn. rewrite H. reflexivity. Qed.

Lemma commutes_get_self_bind {Y} (k : T -> M T Y) :
  (forall s0, commutes f (add_calls c) (k s0)) ->
  (forall s0, k (f s0) = k s0) ->
  commutes f (add_calls c) (get_self ≫= k).
Proof.
  intros Hk Hf s w. rewrite !bind_get_self, Hf. apply Hk.
Qed.

Lemma commutes_for_each {A B} (l : list A) (body : B -> A -> M T B) :
  (forall b a, commutes f (add_calls c) (body b a)) ->
  forall b, commutes f (add_calls c) (for_each l body b).
Proof.
  intros Hbody. induction l as [|a l IH]; intros b; cbn [for_each].
  - apply commutes_mret.
  - apply commutes_bind; [apply Hbody | apply IH].
Qed.

Lemma commutes_iadd (target source : loc) : commutes f (add_calls c) (iadd target source).
Proof.
  unfold iadd.
  apply commutes_bind; [apply commutes_load | intros t].
  apply commutes_bind; [apply commutes_load | intros s].
  apply commutes_bind; [apply commutes_np | intros r].
  apply commutes_store.
Qed.

End Commutes.

Lemma commutes_get_self {T} (c : list call) :
  commutes (fun s : T => s) (add_calls c) get_self.
Proof. intros s w. reflexivity. Qed.

Lemma commutes_embed {U T X} (inj : U -> T) (m : M U X) (u : U) (c : list call) :
  commutes (fun s => s) (add_calls c) m ->
  commutes (fun s => s) (add_calls c) (embed inj m u).
Proof.
  intros H s w. unfold embed. specialize (H u w). cbv beta in H. rewrite H.
  destruct (m u w); reflexivity.
Qed.

(** The steps of a proof that a method leaves the trace alone. *)
Ltac commutes_tac :=
  repeat first
    [ apply commutes_bind; [|intros ?]
    | apply commutes_mret
    | apply commutes_raise
    | apply commutes_py_exit
    | apply commutes_print
    | apply commutes_record_call
    | apply commutes_alloc
    | apply commutes_load
    | apply commutes_store
    | apply commutes_np
    | apply commutes_iadd
    | apply commutes_get_self
    | apply commutes_modify_self; reflexivity ].

Lemma commutes_fc_backward_propagation (g : loc) (c : list call) :
  commutes (fun s => s) (add_calls c) (FullyConnectedLayer.backward_propagation g).
Proof. unfold FullyConnectedLayer.backward_propagation. commutes_tac. Qed.

Lemma commutes_sigmoid_backward_propagation (g : loc) (c : list call) :
  commutes (fun s => s) (add_calls c) (SigmoidLayer.backward_propagation g).
Proof. unfold SigmoidLayer.backward_propagation. commutes_tac. Qed.

Lemma commutes_relu_backward_propagation (g : loc) (c : list call) :
  commutes (fun s => s) (add_calls c) (ReluLayer.backward_propagation g).
Proof. unfold ReluLayer.backward_propagation. commutes_tac. Qed.

Lemma commutes_softmax_backward_propagation (g : loc) (c : list call) :
  commutes (fun s => s) (add_calls c) (SoftmaxLayer.backward_propagation g).
Proof. unfold SoftmaxLayer.backward_propagation. commutes_tac. Qed.

Lemma commutes_layer_backward_propagation (g : loc) (c : list call)
    (self : Layer) (m : M Layer loc) :
  Layer.backward_propagation g self = Some m ->
  commutes (fun s => s) (add_calls c) m.
Proof.
  destruct self; cbn; intros [= <-]; apply commutes_embed.
  - apply commutes_fc_backward_propagation.
  - apply commutes_sigmoid_backward_propagation.
  - apply commutes_relu_backward_propagation.
  - apply commutes_softmax_backward_propagation.
Qed.

Lemma commutes_invoke {X} (ev : call) (method : Layer -> option (M Layer X))
    (c : list call) :
  (forall self m, method self = Some m -> commutes (fun s => s) (add_calls c) m) ->
  commutes (fun s => s) (add_calls c) (Layer.invoke ev method).
Proof.
  intros H s w. unfold Layer.invoke.
  destruct (method s) as [m|] eqn:E; [|reflexivity].
  apply (commutes_bind (fun s => s) c (record_call ev) (fun _ => m)).
  - apply commutes_record_call.
  - intros _. eapply H; eauto.
Qed.

Lemma commutes_get_activation (c : list call) :
  commutes (fun s => s) (add_calls c) Layer.get_activation.
Proof.
  intros s w. destruct s as [l| | | |]; cbn; try reflexivity.
  destruct (FullyConnectedLayer.activation l); reflexivity.
Qed.

Section Commutes_driver.
Context (b : bool) (c : list call).

Lemma commutes_layer_index (i : Z) :
  commutes (with_is_SM_CE b) (add_calls c) (Network.layer_index i).
Proof.
  intros s w. unfold Network.layer_index. cbn.
  destruct (py_index (length (Network.layers s)) i); reflexivity.
Qed.

Lemma commutes_on_layer {X} (k : nat) (m : M Layer X) :
  commutes (fun s => s) (add_calls c) m ->
  commutes (with_is_SM_CE b) (add_calls c) (Network.on_layer k m).
Proof.
  intros H s w. unfold Network.on_layer. cbn.
  destruct (Network.layers s !! k) as [layer|]; [|reflexivity].
  unfold embed. specialize (H layer w). cbv beta in H. rewrite H.
  destruct (m layer w); reflexivity.
Qed.

Lemma commutes_first_upstream_gradient (expected_output : loc) :
  commutes (with_is_SM_CE b) (add_calls c)
    (Network.first_upstream_gradient expected_output).
Proof.
  unfold Network.first_upstream_gradient.
  apply commutes_get_self_bind; [|reflexivity]. intros s0.
  apply commutes_bind; [apply commutes_layer_index | intros k].
  apply commutes_bind;
    [apply commutes_on_layer, commutes_get_activation | intros a].
  commutes_tac.
Qed.

Lemma commutes_backward_step (upstream_gradient : loc) (layer : nat) :
  commutes (with_is_SM_CE b) (add_calls c)
    (k ← Network.layer_index (- Z.of_nat layer);
     Network.on_layer k
       (Layer.invoke (Call_backward k) (Layer.backward_propagation upstream_gradient))).
Proof.
  apply commutes_bind; [apply commutes_layer_index | intros k].
  apply commutes_on_layer, commutes_invoke.
  intros self m. apply commutes_layer_backward_propagation.
Qed.

Lemma commutes_backward_loop (first : nat) (upstream_gradient : loc) :
  commutes (with_is_SM_CE b) (add_calls c)
    (Network.backward_loop first upstream_gradient).
Proof.
  unfold Network.backward_loop.
  apply commutes_get_self_bind; [|reflexivity]. intros s0.
  apply commutes_for_each. intros g layer. apply commutes_backward_step.
Qed.

End Commutes_driver.

(* ====================================================================== *)
(** ** Network.backward_pass: the two modes *)
(* ====================================================================== *)

Lemma add_calls_nil (w : world) : add_calls [] w = w.
Proof. destruct w. reflexivity. Qed.

Lemma add_calls_clear (w : world) : add_calls (calls w) (clear_calls w) = w.
Proof. destruct w. unfold add_calls, clear_calls. cbn. rewrite app_nil_r. reflexivity. Qed.

Lemma add_calls_with_call (ev : call) (w : world) :
  add_calls (calls w ++ [ev]) (clear_calls w) = with_call ev w.
Proof. unfold add_calls, clear_calls, with_call. cbn. rewrite app_nil_r. reflexivity. Qed.

(** Reading an attribute of a layer changes nothing. *)
Lemma on_layer_get_activation (k : nat) (net : Network.t) (w : world) :
  final_self (Network.on_layer k Layer.get_activation net w) = net
  /\ final_world (Network.on_layer k Layer.get_activation net w) = w.
Proof.
  unfold Network.on_layer.
  destruct (Network.layers net !! k) as [layer|] eqn:E; [|split; reflexivity].
  unfold embed.
  destruct layer as [l| | | |]; cbn;
    try (rewrite set_layers_id by assumption; split; reflexivity).
  destruct (FullyConnectedLayer.activation l); cbn;
    rewrite set_layers_id by assumption; split; reflexivity.
Qed.

(** The first gradient is a new array; the network object and the trace
    stay as they are. *)
Lemma first_upstream_gradient_final (expected_output : loc) (net : Network.t) (w : world) :
  final_self (Network.first_upstream_gradient expected_output net w) = net
  /\ calls (final_world (Network.first_upstream_gradient expected_output net w))
     = calls w.
Proof.
  unfold Network.first_upstream_gradient. rewrite !bind_get_self, !bind_unfold.
  unfold Network.layer_index.
  destruct (py_index (length (Network.layers net)) (-1)) as [k|]; [|split; reflexivity].
  rewrite !bind_unfold.
  destruct (on_layer_get_activation k net w) as [Hs Hw].
  destruct (Network.on_layer k Layer.get_activation net w) as [a s1 w1|e s1 w1|s1 w1];
    cbn in Hs, Hw; subst s1 w1; [|split; reflexivity|split; reflexivity].
  unfold mbind, M_bind, load, np.
  destruct (heap w !! expected_output) as [ea|]; [|split; reflexivity].
  destruct (heap w !! a) as [aa|]; [|split; reflexivity].
  destruct (Network.cost_prime net ea aa) as [g|]; split; reflexivity.
Qed.

Lemma backward_loop_2 (net : Network.t) (g : loc) (w : world) :
  Network.backward_loop 2 g net w = backward_rest net g net w.
Proof. reflexivity. Qed.

(** With a softmax layer at the end, the first iteration of the plain loop
    records its call and hands the gradient on. *)
Lemma backward_loop_1_softmax (net : Network.t) (sl : SoftmaxLayer.t) (g : loc) (w : world) :
  last (Network.layers net) = Some (Softmax sl) ->
  2 <= length (Network.layers net) ->
  Network.backward_loop 1 g net w
  = backward_rest net g net
      (with_call (Call_backward (length (Network.layers net) - 1)) w).
Proof.
  intros Hlast Hlen. rewrite last_lookup in Hlast.
  unfold Network.backward_loop, backward_rest. rewrite bind_get_self.
  replace (length (Network.layers net) - 1)
    with (S (length (Network.layers net) - 2)) at 1 by lia.
  cbn [seq for_each].
  erewrite bind_Ok; [reflexivity|].
  assert (Hidx : Network.layer_index (- Z.of_nat 1) net w
                 = Ok (length (Network.layers net) - 1) net w).
  { unfold Network.layer_index, py_index.
    destruct (Z.leb_spec 0 (- Z.of_nat 1)); [lia|].
    destruct (Z.leb_spec (- Z.of_nat (length (Network.layers net))) (- Z.of_nat 1)); [|lia].
    f_equal. lia. }
  rewrite (bind_Ok _ _ _ _ _ _ _ Hidx).
  unfold Network.on_layer.
  replace (length (Network.layers net) - 1)
    with (Init.Nat.pred (length (Network.layers net))) by lia.
  rewrite Hlast. unfold embed, Layer.invoke. cbn.
  unfold mbind, M_bind, record_call, embed, SoftmaxLayer.backward_propagation,
    mret, M_ret.
  rewrite set_layers_id by assumption. reflexivity.
Qed.

Lemma backward_loop_short (net : Network.t) (first : nat) (g : loc) (w : world) :
  length (Network.layers net) <= first ->
  Network.backward_loop first g net w = Ok g net w.
Proof.
  intros H. unfold Network.backward_loop. rewrite bind_get_self.
  replace (length (Network.layers net) - first) with 0 by lia. reflexivity.
Qed.

(* ====================================================================== *)
(** ** What the propagation methods may change *)
(* ====================================================================== *)

Lemma heap_frame_refl (S : list loc) (w : world) : heap_frame S w w.
Proof. split; eauto. Qed.

Lemma heap_frame_same (S : list loc) (w w' : world) :
  heap w' = heap w -> heap_frame S w w'.
Proof. intros H. unfold heap_frame. rewrite H. split; eauto. Qed.

Lemma heap_frame_trans (S : list loc) (w w1 w2 : world) :
  heap_frame S w w1 -> heap_frame S w1 w2 -> heap_frame S w w2.
Proof.
  intros [H1 H2] [H3 H4]. split.
  - intros l a Hl. destruct (H1 l a Hl) as (a1 & Hl1 & Hr & Hc).
    destruct (H3 l a1 Hl1) as (a2 & Hl2 & Hr2 & Hc2).
    exists a2. repeat split; congruence.
  - intros l a Hn Hl. eauto.
Qed.

Lemma heap_frame_weaken (S S' : list loc) (w w' : world) :
  (forall l, l ∈ S -> l ∈ S') -> heap_frame S w w' -> heap_frame S' w w'.
Proof. intros Hsub [H1 H2]. split; [exact H1|]. intros l a Hn. apply H2. auto. Qed.

Lemma trace_ext_refl (P : call -> Prop) (w : world) : trace_ext P w w.
Proof. exists []. rewrite app_nil_r. split; [reflexivity | constructor]. Qed.

Lemma trace_ext_same (P : call -> Prop) (w w' : world) :
  calls w' = calls w -> trace_ext P w w'.
Proof. intros H. exists []. rewrite app_nil_r. split; [exact H | constructor]. Qed.

Lemma trace_ext_trans (P : call -> Prop) (w w1 w2 : world) :
  trace_ext P w w1 -> trace_ext P w1 w2 -> trace_ext P w w2.
Proof.
  intros (e1 & H1 & F1) (e2 & H2 & F2). exists (e1 ++ e2). split.
  - rewrite H2, H1, app_assoc. reflexivity.
  - apply Forall_app. auto.
Qed.

Lemma world_step_refl S P w : world_step S P w w.
Proof. split; [apply heap_frame_refl | apply trace_ext_refl]. Qed.

Lemma world_step_trans S P w w1 w2 :
  world_step S P w w1 -> world_step S P w1 w2 -> world_step S P w w2.
Proof.
  intros [H1 H2] [H3 H4].
  split; [eapply heap_frame_trans | eapply trace_ext_trans]; eauto.
Qed.

Lemma world_step_weaken S S' P w w' :
  (forall l, l ∈ S -> l ∈ S') -> world_step S P w w' -> world_step S' P w w'.
Proof. intros Hsub [H1 H2]. split; [eapply heap_frame_weaken; eauto | exact H2]. Qed.

Lemma world_step_set_heap_alloc S P w a :
  world_step S P w (set_heap (heap w ++ [a]) w).
Proof.
  split; [|apply trace_ext_same; reflexivity]. split.
  - intros l b Hl. exists b. cbn. split; [apply lookup_app_l_Some; exact Hl | auto].
  - intros l b _ Hl. cbn. apply lookup_app_l_Some. exact Hl.
Qed.

Lemma world_step_set_heap_insert S P w t (old new : ndarray) :
  t ∈ S -> heap w !! t = Some old ->
  nrows new = nrows old -> ncols new = ncols old ->
  world_step S P w (set_heap (<[t := new]> (heap w)) w).
Proof.
  intros Hin Hold Hr Hc. split; [|apply trace_ext_same; reflexivity]. split.
  - intros l b Hl. cbn. destruct (Nat.eq_dec t l) as [->|Hne].
    + rewrite Hold in Hl. injection Hl as <-.
      exists new. split; [eapply lookup_insert_same; eauto|]. split; assumption.
    + exists b. rewrite lookup_insert_other by assumption. auto.
  - intros l b Hn Hl. cbn. rewrite lookup_insert_other; [exact Hl|].
    intros ->. contradiction.
Qed.

Section Keeps.
Context {T : Type} (key : T -> T) (S : list loc) (P : call -> Prop) (k0 : T).

Lemma keeps_mret {X} (x : X) : keeps key S P k0 (mret x).
Proof. intros s w Hk. split; [exact Hk | apply world_step_refl]. Qed.

Lemma keeps_bind {X Y} (m : M T X) (k : X -> M T Y) :
  keeps key S P k0 m -> (forall x, keeps key S P k0 (k x)) ->
  keeps key S P k0 (m ≫= k).
Proof.
  intros Hm Hk s w Hs. rewrite bind_unfold. specialize (Hm s w Hs).
  destruct (m s w) as [x s1 w1|e s1 w1|s1 w1]; cbn in Hm; [|exact Hm|exact Hm].
  destruct Hm as [Hs1 Hw1]. destruct (Hk x s1 w1 Hs1) as [Hs2 Hw2].
  split; [exact Hs2 | eapply world_step_trans; eauto].
Qed.

Lemma keeps_get_self_bind {Y} (k : T -> M T Y) :
  (forall s0, key s0 = k0 -> keeps key S P k0 (k s0)) ->
  keeps key S P k0 (get_self ≫= k).
Proof. intros Hk s w Hs. rewrite bind_get_self. apply Hk; assumption. Qed.

Lemma keeps_raise {X} (e : exn) : keeps key S P k0 (raise (X := X) e).
Proof. intros s w Hk. split; [exact Hk | apply world_step_refl]. Qed.

Lemma keeps_py_exit {X} : keeps key S P k0 (py_exit (X := X)).
Proof. intros s w Hk. split; [exact Hk | apply world_step_refl]. Qed.

Lemma keeps_print (o : out) : keeps key S P k0 (print o).
Proof.
  intros s w Hk. split; [exact Hk|].
  split; [apply heap_frame_same | apply trace_ext_same]; reflexivity.
Qed.

Lemma keeps_record_call (ev : call) : P ev -> keeps key S P k0 (record_call ev).
Proof.
  intros Hev s w Hk. split; [exact Hk|].
  split; [apply heap_frame_same; reflexivity|].
  exists [ev]. split; [reflexivity | repeat constructor; exact Hev].
Qed.

Lemma keeps_alloc (a : ndarray) : keeps key S P k0 (alloc a).
Proof. intros s w Hk. split; [exact Hk | apply world_step_set_heap_alloc]. Qed.

Lemma keeps_load (l : loc) : keeps key S P k0 (load l).
Proof.
  intros s w Hk. unfold load.
  destruct (heap w !! l); (split; [exact Hk | apply world_step_refl]).
Qed.

Lemma keeps_np {X} (r : option X) : keeps key S P k0 (np r).
Proof. intros s w Hk. destruct r; (split; [exact Hk | apply world_step_refl]). Qed.

Lemma keeps_modify_self (h : T -> T) :
  (forall s, key (h s) = key s) -> keeps key S P k0 (modify_self h).
Proof.
  intros H s w Hk. split; [cbn; rewrite H; exact Hk | apply world_step_refl].
Qed.

Lemma keeps_iadd (target source : loc) :
  target ∈ S -> keeps key S P k0 (iadd target source).
Proof.
  intros Hin s w Hk. unfold iadd, mbind, M_bind, load, np, store.
  destruct (heap w !! target) as [ta|] eqn:Et; [|split; [exact Hk | apply world_step_refl]].
  destruct (heap w !! source) as [sa|]; [|split; [exact Hk | apply world_step_refl]].
  destruct (np_iadd ta sa) as [r|] eqn:Er; cbn;
    [|split; [exact Hk | apply world_step_refl]].
  rewrite Et. cbn. split; [exact Hk|].
  destruct (np_inplace_shape _ _ _ _ Er) as [Hr Hc].
  eapply world_step_set_heap_insert; eauto.
Qed.

Lemma keeps_for_each {A B} (l : list A) (body : B -> A -> M T B) :
  (forall b a, a ∈ l -> keeps key S P k0 (body b a)) ->
  forall b, keeps key S P k0 (for_each l body b).
Proof.
  induction l as [|a l IH]; intros Hbody b; cbn [for_each].
  - apply keeps_mret.
  - apply keeps_bind.
    + apply Hbody. left.
    + intros b'. apply IH. intros b0 a0 Hin. apply Hbody. right. exact Hin.
Qed.

End Keeps.

Lemma keeps_get_self {T} (key : T -> T) S P k0 : keeps key S P k0 get_self.
Proof. intros s w Hk. split; [exact Hk | apply world_step_refl]. Qed.

Lemma keeps_embed {U T X} (keyU : U -> U) (keyT : T -> T) S P
    (inj : U -> T) (m : M U X) (u : U) (kU : U) (kT : T) :
  keyU u = kU ->
  keeps keyU S P kU m ->
  (forall u', keyU u' = kU -> keyT (inj u') = kT) ->
  keeps keyT S P kT (embed inj m u).
Proof.
  intros Hu Hm Hinj s w _. unfold embed. destruct (Hm u w Hu) as [Hk Hw].
  destruct (m u w); cbn in *; split; auto.
Qed.

(** The steps of a proof that a method without in-place writes keeps the
    fixed part of its object. *)
Ltac keeps_tac :=
  repeat first
    [ apply keeps_bind; [|intros ?]
    | apply keeps_mret
    | apply keeps_raise
    | apply keeps_py_exit
    | apply keeps_print
    | apply keeps_alloc
    | apply keeps_load
    | apply keeps_np
    | apply keeps_get_self
    | apply keeps_modify_self; intros ?; reflexivity
    | match goal with |- keeps _ _ _ _ (if ?b then _ else _) => destruct b end ].

Section Keeps_layers.
Context (P : call -> Prop).

Lemma keeps_fc_forward_propagation (x : loc) (k0 : FullyConnectedLayer.t) :
  keeps fc_skeleton (fc_sums k0) P k0 (FullyConnectedLayer.forward_propagation x).
Proof. unfold FullyConnectedLayer.forward_propagation. keeps_tac. Qed.

Lemma keeps_fc_backward_propagation (g : loc) (k0 : FullyConnectedLayer.t) :
  keeps fc_skeleton (fc_sums k0) P k0 (FullyConnectedLayer.backward_propagation g).
Proof.
  unfold FullyConnectedLayer.backward_propagation.
  apply keeps_get_self_bind. intros s0 Hs0.
  assert (HdW : FullyConnectedLayer.dW_sum s0 ∈ fc_sums k0).
  { rewrite <- Hs0. cbn. left. }
  assert (HdB : FullyConnectedLayer.dB_sum s0 ∈ fc_sums k0).
  { rewrite <- Hs0. cbn. right. left. }
  apply keeps_bind; [apply keeps_load | intros ga].
  apply keeps_bind; [apply keeps_load | intros pa].
  apply keeps_bind; [apply keeps_np | intros dw].
  apply keeps_bind; [apply keeps_alloc | intros ldW].
  apply keeps_bind; [apply keeps_modify_self; intros ?; reflexivity | intros _].
  apply keeps_bind; [apply keeps_iadd; exact HdW | intros _].
  apply keeps_bind; [apply keeps_modify_self; intros ?; reflexivity | intros _].
  apply keeps_bind; [apply keeps_iadd; exact HdB | intros _].
  keeps_tac.
Qed.

Lemma keeps_sigmoid_forward_propagation (x : loc) (k0 : SigmoidLayer.t) :
  keeps (fun l => SigmoidLayer.mk (SigmoidLayer.N l) 0) [] P k0
    (SigmoidLayer.forward_propagation x).
Proof. unfold SigmoidLayer.forward_propagation. keeps_tac. Qed.

Lemma keeps_sigmoid_backward_propagation (g : loc) (k0 : SigmoidLayer.t) :
  keeps (fun l => SigmoidLayer.mk (SigmoidLayer.N l) 0) [] P k0
    (SigmoidLayer.backward_propagation g).
Proof. unfold SigmoidLayer.backward_propagation. keeps_tac. Qed.

Lemma keeps_relu_forward_propagation (x : loc) (k0 : ReluLayer.t) :
  keeps (fun l => ReluLayer.mk (ReluLayer.N l) 0) [] P k0
    (ReluLayer.forward_propagation x).
Proof. unfold ReluLayer.forward_propagation. keeps_tac. Qed.

Lemma keeps_relu_backward_propagation (g : loc) (k0 : ReluLayer.t) :
  keeps (fun l => ReluLayer.mk (ReluLayer.N l) 0) [] P k0
    (ReluLayer.backward_propagation g).
Proof. unfold ReluLayer.backward_propagation. keeps_tac. Qed.

Lemma keeps_softmax_forward_propagation (x : loc) (k0 : SoftmaxLayer.t) :
  keeps (fun l => SoftmaxLayer.mk (SoftmaxLayer.N l) 0) [] P k0
    (SoftmaxLayer.forward_propagation x).
Proof. unfold SoftmaxLayer.forward_propagation. keeps_tac. Qed.

Lemma keeps_softmax_backward_propagation (g : loc) (k0 : SoftmaxLayer.t) :
  keeps (fun l => SoftmaxLayer.mk (SoftmaxLayer.N l) 0) [] P k0
    (SoftmaxLayer.backward_propagation g).
Proof. unfold SoftmaxLayer.backward_propagation. keeps_tac. Qed.

Lemma sums_of_skeleton (l : Layer) : sums_of (skeleton l) = sums_of l.
Proof. destruct l; reflexivity. Qed.

Lemma keeps_layer_forward_propagation (x : loc) (self : Layer) (m : M Layer loc) :
  Layer.forward_propagation x self = Some m ->
  keeps skeleton (sums_of self) P (skeleton self) m.
Proof.
  destruct self as [l|l|l|l|l]; cbn; intros [= <-].
  - eapply (keeps_embed fc_skeleton skeleton); [reflexivity| |].
    + apply (keeps_fc_forward_propagation x (fc_skeleton l)).
    + intros u' Hu. cbn. rewrite Hu. reflexivity.
  - eapply (keeps_embed (fun l => SigmoidLayer.mk (SigmoidLayer.N l) 0) skeleton);
      [reflexivity | apply keeps_sigmoid_forward_propagation |].
    intros u' Hu. cbn. rewrite Hu. reflexivity.
  - eapply (keeps_embed (fun l => ReluLayer.mk (ReluLayer.N l) 0) skeleton);
      [reflexivity | apply keeps_relu_forward_propagation |].
    intros u' Hu. cbn. rewrite Hu. reflexivity.
  - eapply (keeps_embed (fun l => SoftmaxLayer.mk (SoftmaxLayer.N l) 0) skeleton);
      [reflexivity | apply keeps_softmax_forward_propagation |].
    intros u' Hu. cbn. rewrite Hu. reflexivity.
Qed.

Lemma keeps_layer_backward_propagation (g : loc) (self : Layer) (m : M Layer loc) :
  Layer.backward_propagation g self = Some m ->
  keeps skeleton (sums_of self) P (skeleton self) m.
Proof.
  destruct self as [l|l|l|l|l]; cbn; intros [= <-].
  - eapply (keeps_embed fc_skeleton skeleton); [reflexivity| |].
    + apply (keeps_fc_backward_propagation g (fc_skeleton l)).
    + intros u' Hu. cbn. rewrite Hu. reflexivity.
  - eapply (keeps_embed (fun l => SigmoidLayer.mk (SigmoidLayer.N l) 0) skeleton);
      [reflexivity | apply keeps_sigmoid_backward_propagation |].
    intros u' Hu. cbn. rewrite Hu. reflexivity.
  - eapply (keeps_embed (fun l => ReluLayer.mk (ReluLayer.N l) 0) skeleton);
      [reflexivity | apply keeps_relu_backward_propagation |].
    intros u' Hu. cbn. rewrite Hu. reflexivity.
  - eapply (keeps_embed (fun l => SoftmaxLayer.mk (SoftmaxLayer.N l) 0) skeleton);
      [reflexivity | apply keeps_softmax_backward_propagation |].
    intros u' Hu. cbn. rewrite Hu. reflexivity.
Qed.

Lemma keeps_invoke {X} (ev : call) (method : Layer -> option (M Layer X)) (k0 : Layer) :
  P ev ->
  (forall self m, method self = Some m ->
     keeps skeleton (sums_of self) P (skeleton self) m) ->
  keeps skeleton (sums_of k0) P k0 (Layer.invoke ev method).
Proof.
  intros Hev Hm s w Hs. unfold Layer.invoke.
  destruct (method s) as [m|] eqn:E; [|split; [exact Hs | apply world_step_refl]].
  specialize (Hm s m E). rewrite Hs in Hm.
  rewrite <- sums_of_skeleton, Hs in Hm.
  apply (keeps_bind skeleton (sums_of k0) P k0 (record_call ev) (fun _ => m));
    [apply keeps_record_call; exact Hev | intros _; exact Hm | exact Hs].
Qed.

Lemma keeps_layer_get_activation (k0 : Layer) :
  keeps skeleton (sums_of k0) P k0 Layer.get_activation.
Proof.
  intros s w Hs. unfold Layer.get_activation.
  destruct s as [l| | | |]; try (split; [exact Hs | apply world_step_refl]).
  destruct (FullyConnectedLayer.activation l); (split; [exact Hs | apply world_step_refl]).
Qed.

Lemma keeps_layer_set_activation (a : loc) (k0 : Layer) :
  keeps skeleton (sums_of k0) P k0 (Layer.set_activation a).
Proof.
  unfold Layer.set_activation. apply keeps_modify_self. intros []; reflexivity.
Qed.

End Keeps_layers.

Section Keeps_driver.
Context (P : call -> Prop) (k0 : Network.t).

Lemma net_skeleton_layers (s : Network.t) :
  net_skeleton s = k0 -> Network.layers k0 = skeleton <$> Network.layers s.
Proof. intros <-. reflexivity. Qed.

Lemma net_skeleton_length (s : Network.t) :
  net_skeleton s = k0 -> length (Network.layers s) = length (Network.layers k0).
Proof. intros <-. cbn. rewrite length_fmap. reflexivity. Qed.

Lemma sums_of_in_all_sums (s : Network.t) (i : nat) (layer : Layer) (l : loc) :
  net_skeleton s = k0 -> Network.layers s !! i = Some layer ->
  l ∈ sums_of layer -> l ∈ all_sums k0.
Proof.
  intros Hs Hi Hl. unfold all_sums. rewrite (net_skeleton_layers s Hs).
  apply list_elem_of_bind. exists (skeleton layer). split.
  - rewrite sums_of_skeleton. exact Hl.
  - apply list_elem_of_fmap. exists layer. split; [reflexivity|].
    eapply list_elem_of_lookup_2; eauto.
Qed.

Lemma keeps_on_layer {X} (i : nat) (m : M Layer X) :
  (forall kl, keeps skeleton (sums_of kl) P kl m) ->
  keeps net_skeleton (all_sums k0) P k0 (Network.on_layer i m).
Proof.
  intros H s w Hs. unfold Network.on_layer.
  destruct (Network.layers s !! i) as [layer|] eqn:E;
    [|split; [exact Hs | apply world_step_refl]].
  unfold embed. destruct (H (skeleton layer) layer w eq_refl) as [Hk Hw].
  assert (Hnet : forall layer', skeleton layer' = skeleton layer ->
            net_skeleton
              (Network.set_layers (<[i := layer']> (Network.layers s)) s) = k0).
  { intros layer' Hl. unfold net_skeleton. cbn.
    rewrite list_fmap_insert, Hl, list_insert_id.
    - exact Hs.
    - rewrite list_lookup_fmap, E. reflexivity. }
  assert (Hstep : forall w', world_step (sums_of (skeleton layer)) P w w' ->
            world_step (all_sums k0) P w w').
  { intros w'. apply world_step_weaken. intros l Hl.
    rewrite sums_of_skeleton in Hl. eapply sums_of_in_all_sums; eauto. }
  destruct (m layer w); cbn in *; split; auto.
Qed.

Lemma keeps_layer_index_bind {X} (i : Z) (cont : nat -> M Network.t X) :
  (forall k, py_index (length (Network.layers k0)) i = Some k ->
     keeps net_skeleton (all_sums k0) P k0 (cont k)) ->
  keeps net_skeleton (all_sums k0) P k0 (Network.layer_index i ≫= cont).
Proof.
  intros H s w Hs. rewrite bind_unfold. unfold Network.layer_index.
  rewrite (net_skeleton_length s Hs).
  destruct (py_index (length (Network.layers k0)) i) as [k|] eqn:E.
  - apply (H k); [reflexivity | assumption].
  - split; [exact Hs | apply world_step_refl].
Qed.

Lemma py_index_of_nat (len layer : nat) (k : nat) :
  py_index len (Z.of_nat layer) = Some k -> k = layer /\ layer < len.
Proof.
  unfold py_index. destruct (Z.leb_spec 0 (Z.of_nat layer)); [|lia].
  destruct (Z.ltb_spec (Z.of_nat layer) (Z.of_nat len)); [|discriminate].
  intros [= <-]. lia.
Qed.

Lemma py_index_neg (len layer : nat) (k : nat) :
  0 < layer -> py_index len (- Z.of_nat layer) = Some k ->
  k = len - layer /\ layer <= len.
Proof.
  intros Hpos. unfold py_index. destruct (Z.leb_spec 0 (- Z.of_nat layer)); [lia|].
  destruct (Z.leb_spec (- Z.of_nat len) (- Z.of_nat layer)); [|discriminate].
  intros [= <-]. lia.
Qed.

Lemma keeps_forward_pass (input_data : loc) :
  (forall k, P (Call_forward k)) ->
  keeps net_skeleton (all_sums k0) P k0 (Network.forward_pass input_data).
Proof.
  intros HP. unfold Network.forward_pass.
  apply keeps_layer_index_bind. intros k _.
  apply keeps_bind.
  { apply keeps_on_layer. intros kl. apply keeps_layer_set_activation. }
  intros _. apply keeps_get_self_bind. intros s0 _.
  apply keeps_for_each. intros output layer _.
  apply keeps_layer_index_bind. intros k' _.
  apply keeps_on_layer. intros kl. apply keeps_invoke; [apply HP|].
  apply keeps_layer_forward_propagation.
Qed.

Lemma keeps_first_upstream_gradient (expected_output : loc) :
  keeps net_skeleton (all_sums k0) P k0
    (Network.first_upstream_gradient expected_output).
Proof.
  unfold Network.first_upstream_gradient.
  apply keeps_get_self_bind. intros s0 _.
  apply keeps_layer_index_bind. intros k _.
  apply keeps_bind.
  { apply keeps_on_layer. intros kl. apply keeps_layer_get_activation. }
  intros a. keeps_tac.
Qed.

(** The loop of [backward_pass] from [first] on calls the layers at the
    positions [len - layer] for [layer] in [range(first, len)]. *)
Lemma keeps_backward_loop (first : nat) (g : loc) :
  0 < first ->
  (forall k, 0 < k -> k + first <= length (Network.layers k0) -> P (Call_backward k)) ->
  keeps net_skeleton (all_sums k0) P k0 (Network.backward_loop first g).
Proof.
  intros Hfirst HP. unfold Network.backward_loop.
  apply keeps_get_self_bind. intros s0 Hs0.
  rewrite (net_skeleton_length s0 Hs0).
  apply keeps_for_each. intros upstream layer Hin.
  apply elem_of_seq in Hin.
  apply keeps_layer_index_bind. intros k Hk.
  apply py_index_neg in Hk as [-> Hle]; [|lia].
  apply keeps_on_layer. intros kl. apply keeps_invoke.
  - apply HP; lia.
  - apply keeps_layer_backward_propagation.
Qed.

Lemma keeps_backward_pass (expected_output : loc) :
  (forall k, P (Call_backward k)) ->
  keeps net_skeleton (all_sums k0) P k0 (Network.backward_pass expected_output).
Proof.
  intros HP. unfold Network.backward_pass.
  apply keeps_get_self_bind. intros s0 _.
  destruct (negb (Network.is_SM_CE s0)).
  - apply keeps_bind; [apply keeps_first_upstream_gradient | intros g].
    apply keeps_bind; [apply keeps_backward_loop; [lia | auto] | intros _].
    apply keeps_mret.
  - apply keeps_bind; [apply keeps_first_upstream_gradient | intros g].
    apply keeps_bind; [apply keeps_backward_loop; [lia | auto] | intros _].
    apply keeps_mret.
Qed.

Lemma keeps_pass_samples (mini_batch : list sample) :
  (forall k, P (Call_forward k)) -> (forall k, P (Call_backward k)) ->
  keeps net_skeleton (all_sums k0) P k0 (Network.pass_samples mini_batch).
Proof.
  intros HF HB. unfold Network.pass_samples.
  apply keeps_for_each. intros [] [input output] _.
  apply keeps_bind; [apply keeps_forward_pass; exact HF | intros _].
  apply keeps_backward_pass; exact HB.
Qed.

End Keeps_driver.

(* ====================================================================== *)
(** ** The combined softmax and cross-entropy mode *)
(* ====================================================================== *)

Lemma backward_pass_branch (expected_output : loc) (net : Network.t) (w : world) :
  Network.backward_pass expected_output net w
  = propagate_from (if Network.is_SM_CE net then 2 else 1) expected_output net w.
Proof.
  unfold Network.backward_pass. rewrite bind_get_self.
  destruct (Network.is_SM_CE net); reflexivity.
Qed.

Lemma with_is_SM_CE_id (s : Network.t) : with_is_SM_CE (Network.is_SM_CE s) s = s.
Proof. destruct s. reflexivity. Qed.

Lemma commutes_propagate_from (b : bool) (c : list call) (first : nat) (e : loc) :
  commutes (with_is_SM_CE b) (add_calls c) (propagate_from first e).
Proof.
  unfold propagate_from.
  apply commutes_bind; [apply commutes_first_upstream_gradient | intros g].
  apply commutes_bind; [apply commutes_backward_loop | intros _].
  apply commutes_mret.
Qed.

Lemma commutes_backward_rest (b : bool) (c : list call) (net : Network.t) (g : loc) :
  commutes (with_is_SM_CE b) (add_calls c) (backward_rest net g).
Proof.
  unfold backward_rest. apply commutes_for_each. intros g' layer.
  apply commutes_backward_step.
Qed.

(** Running the rest of the loop from a world is running it from the same
    world with an empty trace and putting the trace back in front. *)
Lemma backward_rest_from_trace (net : Network.t) (g : loc) (w : world) (c : list call) :
  backward_rest net g net (add_calls c (clear_calls w))
  = map_outcome (with_is_SM_CE (Network.is_SM_CE net)) (add_calls c)
      (backward_rest net g net (clear_calls w)).
Proof.
  pose proof (commutes_backward_rest (Network.is_SM_CE net) c net g net (clear_calls w))
    as E.
  rewrite with_is_SM_CE_id in E. exact E.
Qed.

Lemma keeps_backward_rest (net : Network.t) (g : loc) :
  keeps net_skeleton (all_sums (net_skeleton net))
    (fun c => c <> Call_backward (length (Network.layers net) - 1))
    (net_skeleton net) (backward_rest net g).
Proof.
  intros s w Hs.
  assert (Hlen : length (Network.layers s) = length (Network.layers net)).
  { rewrite (net_skeleton_length (net_skeleton net) s Hs). cbn.
    apply length_fmap. }
  assert (E : backward_rest net g s w = Network.backward_loop 2 g s w).
  { unfold backward_rest, Network.backward_loop. rewrite bind_get_self, Hlen.
    reflexivity. }
  rewrite E. apply (keeps_backward_loop _ (net_skeleton net) 2 g); [lia| |exact Hs].
  intros k Hk Hle. cbn in Hle. rewrite length_fmap in Hle.
  intros [= E']. lia.
Qed.

Lemma status_of_map_outcome {T X} (f : T -> T) (g : world -> world) (o : outcome T X) :
  status_of (map_outcome f g o) = status_of o.
Proof. destruct o; reflexivity. Qed.

Lemma final_self_map_outcome {T X} (f : T -> T) (g : world -> world) (o : outcome T X) :
  final_self (map_outcome f g o) = f (final_self o).
Proof. destruct o; reflexivity. Qed.

Lemma final_world_map_outcome {T X} (f : T -> T) (g : world -> world) (o : outcome T X) :
  final_world (map_outcome f g o) = g (final_world o).
Proof. destruct o; reflexivity. Qed.

(** On one and the same network that ends in a softmax layer, the loop from
    the last layer and the loop from the layer before it end alike, apart
    from the softmax layer's call in the trace. *)
Lemma propagate_from_softmax
    (net : Network.t) (sl : SoftmaxLayer.t) (e : loc) (w : world) :
  last (Network.layers net) = Some (Softmax sl) ->
  let o1 := propagate_from 1 e net w in
  let o2 := propagate_from 2 e net w in
  let ev := Call_backward (length (Network.layers net) - 1) in
  status_of o1 = status_of o2
  /\ final_self o1 = final_self o2
  /\ heap (final_world o1) = heap (final_world o2)
  /\ stdout (final_world o1) = stdout (final_world o2)
  /\ exists rest,
       calls (final_world o2) = calls w ++ rest
       /\ Forall (fun c => c <> ev) rest
       /\ (calls (final_world o1) = calls w ++ rest
           \/ calls (final_world o1) = calls w ++ ev :: rest).
Proof.
  intros Hlast o1 o2 ev. subst o1 o2. unfold propagate_from.
  rewrite !bind_unfold.
  destruct (first_upstream_gradient_final e net w) as [Hs Hc].
  destruct (Network.first_upstream_gradient e net w) as [g n1 w1|x n1 w1|n1 w1];
    cbn in Hs, Hc.
  - subst n1.
    destruct (le_lt_dec (length (Network.layers net)) 1) as [Hshort|Hlong].
    + rewrite !bind_unfold, !backward_loop_short by lia. cbn.
      repeat split. exists []. rewrite app_nil_r.
      split; [exact Hc|]. split; [constructor | left; exact Hc].
    + rewrite !bind_unfold.
      rewrite (backward_loop_1_softmax net sl g w1 Hlast) by lia.
      rewrite backward_loop_2. fold ev.
      assert (E1 : backward_rest net g net (with_call ev w1)
                   = map_outcome (with_is_SM_CE (Network.is_SM_CE net))
                       (add_calls (calls w1 ++ [ev]))
                       (backward_rest net g net (clear_calls w1))).
      { rewrite <- add_calls_with_call. apply backward_rest_from_trace. }
      assert (E2 : backward_rest net g net w1
                   = map_outcome (with_is_SM_CE (Network.is_SM_CE net))
                       (add_calls (calls w1))
                       (backward_rest net g net (clear_calls w1))).
      { etransitivity; [|apply backward_rest_from_trace].
        rewrite add_calls_clear. reflexivity. }
      rewrite E1, E2. clear E1 E2.
      destruct (keeps_backward_rest net g net (clear_calls w1) eq_refl)
        as [_ [_ (rest & Hrest & HP)]].
      cbn in Hrest. fold ev in HP.
      destruct (backward_rest net g net (clear_calls w1)) as [r n2 w2|x n2 w2|n2 w2];
        cbn in *; unfold mret, M_ret; cbn;
        (split_and!; try reflexivity; exists rest; subst rest; rewrite Hc;
         split; [reflexivity|]; split; [exact HP|]; right;
         rewrite <- app_assoc; reflexivity).
  - cbn. repeat split. exists []. rewrite app_nil_r.
    split; [exact Hc|]. split; [constructor | left; exact Hc].
  - cbn. repeat split. exists []. rewrite app_nil_r.
    split; [exact Hc|]. split; [constructor | left; exact Hc].
Qed.

Lemma keeps_propagate_from (P : call -> Prop) (k0 : Network.t) (first : nat) (e : loc) :
  0 < first -> (forall k, P (Call_backward k)) ->
  keeps net_skeleton (all_sums k0) P k0 (propagate_from first e).
Proof.
  intros Hfirst HP. unfold propagate_from.
  apply keeps_bind; [apply keeps_first_upstream_gradient | intros g].
  apply keeps_bind; [apply keeps_backward_loop; auto | intros _].
  apply keeps_mret.
Qed.

(** C4. For a network whose last layer is a softmax layer, [backward_pass]
    with the combined flag set and [backward_pass] with the flag unset end
    in the same way, with the same layer objects and the same content of
    every array, so with the same [dW_sum] and [dB_sum] in every fully
    connected layer. The combined mode never calls the softmax layer's
    [backward_propagation]; the other mode calls it first where there is a
    layer to propagate through, and that call returns its argument. The
    traces differ in that call only. *)
Theorem backward_pass_combined_equiv
    (net : Network.t) (w : world) (expected_output : loc) (sl : SoftmaxLayer.t) :
  last (Network.layers net) = Some (Softmax sl) ->
  let combined := Network.backward_pass expected_output (with_is_SM_CE true net) w in
  let plain := Network.backward_pass expected_output (with_is_SM_CE false net) w in
  let softmax_call := Call_backward (length (Network.layers net) - 1) in
  (forall g w0, SoftmaxLayer.backward_propagation g sl w0 = Ok g sl w0)
  /\ status_of combined = status_of plain
  /\ final_self combined = with_is_SM_CE true (final_self plain)
  /\ heap (final_world combined) = heap (final_world plain)
  /\ stdout (final_world combined) = stdout (final_world plain)
  /\ (forall i fc,
        Network.layers (final_self plain) !! i = Some (FullyConnected fc) ->
        Network.layers (final_self combined) !! i = Some (FullyConnected fc)
        /\ heap (final_world combined) !! FullyConnectedLayer.dW_sum fc
           = heap (final_world plain) !! FullyConnectedLayer.dW_sum fc
        /\ heap (final_world combined) !! FullyConnectedLayer.dB_sum fc
           = heap (final_world plain) !! FullyConnectedLayer.dB_sum fc)
  /\ exists rest,
       calls (final_world combined) = calls w ++ rest
       /\ Forall (fun c => c <> softmax_call) rest
       /\ (calls (final_world plain) = calls w ++ rest
           \/ calls (final_world plain) = calls w ++ softmax_call :: rest).
Proof.
  intros Hlast combined plain softmax_call.
  set (nT := with_is_SM_CE true net).
  assert (Hc : combined = propagate_from 2 expected_output nT w).
  { unfold combined. rewrite backward_pass_branch. reflexivity. }
  assert (Hp : plain = map_outcome (with_is_SM_CE false) (add_calls [])
                         (propagate_from 1 expected_output nT w)).
  { unfold plain. rewrite backward_pass_branch. cbn [Network.is_SM_CE with_is_SM_CE].
    rewrite <- (commutes_propagate_from false [] 1 expected_output nT w).
    rewrite add_calls_nil. reflexivity. }
  destruct (propagate_from_softmax nT sl expected_output w Hlast)
    as (Hst & Hself & Hheap & Hout & rest & Hrest & HP & Hcalls).
  assert (Hflag : Network.is_SM_CE
                    (final_self (propagate_from 2 expected_output nT w)) = true).
  { assert (Hkeeps : keeps net_skeleton (all_sums (net_skeleton nT)) (fun _ => True)
                         (net_skeleton nT) (propagate_from 2 expected_output)).
    { apply keeps_propagate_from; [lia | intros k; exact I]. }
    destruct (Hkeeps nT w eq_refl) as [Hk _].
    apply (f_equal Network.is_SM_CE) in Hk. exact Hk. }
  assert (Hfinal : final_self combined = with_is_SM_CE true (final_self plain)).
  { rewrite Hc, Hp, final_self_map_outcome, Hself.
    set (x := final_self (propagate_from 2 expected_output nT w)) in *.
    transitivity (with_is_SM_CE (Network.is_SM_CE x) x);
      [symmetry; apply with_is_SM_CE_id | rewrite Hflag; reflexivity]. }
  assert (Hh : heap (final_world combined) = heap (final_world plain)).
  { rewrite Hc, Hp, final_world_map_outcome. cbn. symmetry. exact Hheap. }
  split; [reflexivity|].
  split; [rewrite Hc, Hp, status_of_map_outcome; symmetry; exact Hst|].
  split; [exact Hfinal|].
  split; [exact Hh|].
  split; [rewrite Hc, Hp, final_world_map_outcome; cbn; symmetry; exact Hout|].
  split.
  { intros i fc Hi. rewrite Hfinal, Hh. cbn. auto. }
  exists rest. rewrite Hc, Hp, final_world_map_outcome. cbn.
  split; [exact Hrest|]. split; [exact HP | exact Hcalls].
Qed.

(** The network of the example: both modes return, and the traces are the
    call of the fully connected layer, after the call of the softmax layer
    in the plain mode. *)
Lemma backward_pass_combined_equiv_witness :
  let combined := Network.backward_pass 10 (with_is_SM_CE true demo_net) demo_net_world in
  let plain := Network.backward_pass 10 (with_is_SM_CE false demo_net) demo_net_world in
  status_of combined = Returned tt
  /\ status_of plain = Returned tt
  /\ heap (final_world combined) = heap (final_world plain)
  /\ calls (final_world combined) = [Call_backward 1]
  /\ calls (final_world plain) = [Call_backward 2; Call_backward 1].
Proof.
  destruct (backward_pass_combined_equiv demo_net demo_net_world 10
              (SoftmaxLayer.mk 2 9) eq_refl)
    as (_ & Hst & _ & Hheap & _).
  split; [reflexivity|]. split; [reflexivity|]. split; [exact Hheap|].
  split; reflexivity.
Defined.

(* ====================================================================== *)
(** ** Well-formed networks and the update loop *)
(* ====================================================================== *)

Lemma NoDup_bind_lookup {A B} (f : A -> list B) (l : list A) :
  NoDup (l ≫= f) ->
  (forall i a, l !! i = Some a -> NoDup (f a))
  /\ (forall i j a b x, i <> j -> l !! i = Some a -> l !! j = Some b ->
        x ∈ f a -> x ∉ f b).
Proof.
  induction l as [|a0 l IH]; cbn.
  - intros _. split; intros; discriminate.
  - intros H. apply NoDup_app in H as (H1 & H2 & H3).
    destruct (IH H3) as [IH1 IH2]. split.
    + intros [|i] a; cbn; [intros [= <-]; exact H1 | apply IH1].
    + intros [|i] [|j] a b x Hne; cbn; intros Ha Hb Hx.
      * lia.
      * injection Ha as <-. intros Hxb. apply (H2 x Hx).
        apply list_elem_of_bind. exists b. split; [exact Hxb|].
        eapply list_elem_of_lookup_2; eauto.
      * injection Hb as <-. intros Hxb. apply (H2 x Hxb).
        apply list_elem_of_bind. exists a. split; [exact Hx|].
        eapply list_elem_of_lookup_2; eauto.
      * eapply (IH2 i j); eauto.
Qed.

Lemma bind_owned_skeleton (l : list Layer) :
  (skeleton <$> l) ≫= owned = l ≫= owned.
Proof.
  induction l as [|a l IH]; [reflexivity|].
  cbn. rewrite IH. destruct a; reflexivity.
Qed.

Lemma skeleton_fc_inv (l : Layer) (fc : FullyConnectedLayer.t) :
  skeleton l = skeleton (FullyConnected fc) ->
  exists fc', l = FullyConnected fc' /\ fc_skeleton fc' = fc_skeleton fc.
Proof.
  destruct l as [fc'| | | |]; cbn; intros [=].
  exists fc'. split; [reflexivity|]. unfold fc_skeleton. congruence.
Qed.

(** The layer at a position of a network with the same skeleton. *)
Lemma net_skeleton_lookup_fc (net net' : Network.t) (i : nat) (fc : FullyConnectedLayer.t) :
  net_skeleton net' = net_skeleton net ->
  Network.layers net !! i = Some (FullyConnected fc) ->
  exists fc', Network.layers net' !! i = Some (FullyConnected fc')
              /\ fc_skeleton fc' = fc_skeleton fc.
Proof.
  intros Hsk Hi. apply (f_equal Network.layers) in Hsk. cbn in Hsk.
  assert (Hl : (skeleton <$> Network.layers net') !! i
               = Some (skeleton (FullyConnected fc))).
  { rewrite Hsk, list_lookup_fmap, Hi. reflexivity. }
  rewrite list_lookup_fmap in Hl.
  destruct (Network.layers net' !! i) as [l|]; [|discriminate].
  cbn in Hl. injection Hl as Hl.
  destruct (skeleton_fc_inv l fc Hl) as (fc' & -> & Hfc). eauto.
Qed.

Lemma holds_frame (S : list loc) (w w' : world) (l : loc) (r c : nat) :
  heap_frame S w w' -> holds w l r c -> holds w' l r c.
Proof.
  intros [H _] (a & Ha & Hr & Hc). destruct (H l a Ha) as (a' & Ha' & Hr' & Hc').
  exists a'. repeat split; congruence.
Qed.

Lemma fc_shapes_frame (S : list loc) (w w' : world) (fc fc' : FullyConnectedLayer.t) :
  heap_frame S w w' -> fc_skeleton fc' = fc_skeleton fc ->
  fc_shapes w fc -> fc_shapes w' fc'.
Proof.
  intros Hf Hsk (H1 & H2 & H3 & H4). unfold fc_skeleton in Hsk.
  injection Hsk as E1 E2 E3 E4 E5 E6. unfold fc_shapes.
  rewrite E1, E2, E3, E4, E5, E6.
  repeat split; eapply holds_frame; eauto.
Qed.

(** A run that keeps the skeleton and changes the world within a frame
    keeps the network well-formed. *)
Lemma net_wf_frame (S : list loc) (net net' : Network.t) (w w' : world) :
  net_skeleton net' = net_skeleton net -> heap_frame S w w' ->
  net_wf net w -> net_wf net' w'.
Proof.
  intros Hsk Hf [Hshapes Hnd]. split.
  - intros i fc' Hi.
    destruct (net_skeleton_lookup_fc net' net i fc' (eq_sym Hsk) Hi)
      as (fc & Hfc & Hfsk).
    eapply fc_shapes_frame; [exact Hf | symmetry; exact Hfsk | eauto].
  - rewrite <- bind_owned_skeleton.
    apply (f_equal Network.layers) in Hsk. cbn in Hsk. rewrite Hsk.
    rewrite bind_owned_skeleton. exact Hnd.
Qed.

(** The parameter arrays of a well-formed network are not among the
    arrays the propagation writes to. *)
Lemma parameters_not_sums (net : Network.t) (w : world) (i : nat)
    (fc : FullyConnectedLayer.t) (x : loc) :
  net_wf net w ->
  Network.layers net !! i = Some (FullyConnected fc) ->
  x = FullyConnectedLayer.W fc \/ x = FullyConnectedLayer.B fc ->
  x ∉ all_sums (net_skeleton net).
Proof.
  intros [_ Hnd] Hi Hx Hin.
  destruct (NoDup_bind_lookup owned _ Hnd) as [Hin1 Hout].
  unfold all_sums in Hin. cbn in Hin.
  apply list_elem_of_bind in Hin as (kl & Hxs & Hkl).
  apply list_elem_of_fmap in Hkl as (l & -> & Hl).
  rewrite sums_of_skeleton in Hxs.
  apply list_elem_of_lookup in Hl as (j & Hj).
  assert (Hown : x ∈ owned (FullyConnected fc)).
  { cbn. destruct Hx as [-> | ->]; [left | right; left]. }
  destruct (Nat.eq_dec i j) as [<-|Hne].
  - rewrite Hi in Hj. injection Hj as <-.
    specialize (Hin1 i _ Hi). cbn in Hin1.
    apply NoDup_4 in Hin1 as (n1 & n2 & n3 & n4 & n5 & n6).
    unfold sums_of, fc_sums in Hxs. rewrite !elem_of_cons in Hxs.
    destruct Hx as [-> | ->]; destruct Hxs as [E | [E | E]];
      try (inversion E; fail); congruence.
  - apply (Hout i j _ _ x Hne Hi Hj Hown).
    destruct l as [fc2| | | |]; unfold sums_of, fc_sums, owned in Hxs |- *;
      try (inversion Hxs; fail).
    rewrite !elem_of_cons in Hxs. rewrite !elem_of_cons.
    destruct Hxs as [E | [E | E]]; [right; right; left; exact E
                                   | right; right; right; left; exact E
                                   | inversion E].
Qed.

(** The per-sample loop, however it ends: the parameters are untouched, the
    network stays well-formed, and no [update_parameters] was called. *)
Lemma pass_samples_frame (net : Network.t) (w : world) (mini_batch : list sample) :
  net_wf net w ->
  let o := Network.pass_samples mini_batch net w in
  same_parameters net w (final_self o) (final_world o)
  /\ net_wf (final_self o) (final_world o)
  /\ trace_ext not_update w (final_world o)
  /\ net_skeleton (final_self o) = net_skeleton net.
Proof.
  intros Hwf o.
  destruct (keeps_pass_samples not_update (net_skeleton net) mini_batch
              ltac:(intros k H; exact H) ltac:(intros k H; exact H) net w eq_refl)
    as [Hk [Hf Ht]].
  fold o in Hk, Hf, Ht.
  split; [|split; [eapply net_wf_frame; eauto | split; [exact Ht | exact Hk]]].
  intros i fc Hi.
  destruct (net_skeleton_lookup_fc net (final_self o) i fc Hk Hi) as (fc' & Hi' & Hsk).
  exists fc'. split; [exact Hi'|].
  unfold fc_skeleton in Hsk. injection Hsk as _ _ EW EB _ _.
  split; [exact EW|]. split; [exact EB|].
  destruct Hwf as [Hshapes Hnd].
  destruct (Hshapes i fc Hi) as ((wa & HW & _) & (ba & HB & _) & _).
  destruct Hf as [_ Hsame]. split.
  - rewrite HW. apply Hsame; [|exact HW].
    eapply parameters_not_sums; [split; eauto | exact Hi | left; reflexivity].
  - rewrite HB. apply Hsame; [|exact HB].
    eapply parameters_not_sums; [split; eauto | exact Hi | right; reflexivity].
Qed.

Lemma layer_index_of_nat (net : Network.t) (w : world) (k : nat) :
  k < length (Network.layers net) ->
  Network.layer_index (Z.of_nat k) net w = Ok k net w.
Proof.
  intros H. unfold Network.layer_index, py_index.
  destruct (Z.leb_spec 0 (Z.of_nat k)); [|lia].
  destruct (Z.ltb_spec (Z.of_nat k) (Z.of_nat (length (Network.layers net)))); [|lia].
  rewrite Nat2Z.id. reflexivity.
Qed.

Lemma holds_insert (w : world) (t l : loc) (old new : ndarray) (r c : nat) :
  heap w !! t = Some old -> nrows new = nrows old -> ncols new = ncols old ->
  holds w l r c -> holds (set_heap (<[t := new]> (heap w)) w) l r c.
Proof.
  intros Hold Hr Hc (a & Ha & Har & Hac). cbn.
  destruct (Nat.eq_dec t l) as [->|Hne].
  - rewrite Hold in Ha. injection Ha as <-.
    exists new. split; [eapply lookup_insert_same; eauto|]. split; congruence.
  - exists a. unfold holds. cbn. rewrite lookup_insert_other by assumption. auto.
Qed.

Lemma descended_entry (p s : ndarray) (m : nat) (eta : R) (i j : nat) :
  i < nrows p -> j < ncols p ->
  elt (descended p s m eta) i j = (elt p i j - eta * (elt s i j / INR m))%R.
Proof. intros Hi Hj. cbn. rewrite !bidx_lt by assumption. reflexivity. Qed.

Lemma owned_fc_elem (fc : FullyConnectedLayer.t) (x : loc) :
  x ∈ owned (FullyConnected fc)
  <-> x = FullyConnectedLayer.W fc \/ x = FullyConnectedLayer.B fc
      \/ x = FullyConnectedLayer.dW_sum fc \/ x = FullyConnectedLayer.dB_sum fc.
Proof.
  unfold owned. rewrite !elem_of_cons, elem_of_nil. tauto.
Qed.

(** The iteration for a layer whose [update_parameters] does nothing. *)
Lemma update_step_plain (m : nat) (eta : R) (net : Network.t) (w : world) (k : nat)
    (l : Layer) :
  net_wf net w ->
  Network.layers net !! k = Some l ->
  (forall fc, l <> FullyConnected fc) ->
  Layer.invoke (Call_update k m eta) (Layer.update_parameters m eta) l w
  = Ok tt l (with_call (Call_update k m eta) w) ->
  exists w1,
    match Layer.invoke (Call_update k m eta) (Layer.update_parameters m eta) l w with
    | Ok x u' w' => Ok x (Network.set_layers (<[k := u']> (Network.layers net)) net) w'
    | Raise e u' w' =>
        Raise e (Network.set_layers (<[k := u']> (Network.layers net)) net) w'
    | Exit u' w' => Exit (Network.set_layers (<[k := u']> (Network.layers net)) net) w'
    end = Ok tt net w1
    /\ net_wf net w1
    /\ calls w1 = calls w ++ [Call_update k m eta]
    /\ stdout w1 = stdout w
    /\ (forall fc, l = FullyConnected fc -> fc_updated m eta fc w w1)
    /\ (forall x, x ∉ owned l -> heap w1 !! x = heap w !! x).
Proof.
  intros Hwf Hk Hnfc Hrun. rewrite Hrun, set_layers_id by assumption.
  eexists. split; [reflexivity|].
  split; [eapply net_wf_frame; [reflexivity | apply (heap_frame_same []); reflexivity
                                | exact Hwf]|].
  split; [reflexivity|]. split; [reflexivity|].
  split; [intros fc E; destruct (Hnfc fc E) | reflexivity].
Qed.

(** One iteration of the update loop on a well-formed network. *)
Lemma update_step (m : nat) (eta : R) (net : Network.t) (w : world) (k : nat) (l : Layer) :
  net_wf net w ->
  Network.layers net !! k = Some l ->
  exists w1,
    update_body m eta tt k net w = Ok tt net w1
    /\ net_wf net w1
    /\ calls w1 = calls w ++ [Call_update k m eta]
    /\ stdout w1 = stdout w
    /\ (forall fc, l = FullyConnected fc -> fc_updated m eta fc w w1)
    /\ (forall x, x ∉ owned l -> heap w1 !! x = heap w !! x).
Proof.
  intros Hwf Hk. pose proof Hwf as [Hsh Hnd].
  assert (Hlt : k < length (Network.layers net)) by (eapply lookup_lt_Some; eauto).
  unfold update_body.
  rewrite (bind_Ok _ _ _ _ _ _ _ (layer_index_of_nat net w k Hlt)).
  unfold Network.on_layer. rewrite Hk. unfold embed at 1.
  destruct l as [fc|sl|rl|sml|il].
  - destruct (Hsh k fc Hk)
      as ((wa & HW & HWr & HWc) & (ba & HB & HBr & HBc)
          & (dws & HdW & HdWr & HdWc) & (dbs & HdB & HdBr & HdBc)).
    destruct (NoDup_bind_lookup owned _ Hnd) as [Hown _].
    specialize (Hown k _ Hk). cbn [owned] in Hown.
    pose proof (NoDup_4 _ _ _ _ Hown) as (nWB & nWdW & nWdB & nBdW & nBdB & ndWdB).
    unfold Layer.invoke. cbn [Layer.update_parameters].
    rewrite bind_unfold. cbn [record_call]. unfold embed at 1.
    fold (with_call (Call_update k m eta) w).
    rewrite (fc_update_parameters_run fc (with_call (Call_update k m eta) w) m eta
               wa ba dws dbs) by (cbn; congruence || assumption).
    rewrite set_layers_id by assumption.
    eexists. split; [reflexivity|].
    assert (Hframe : heap_frame (owned (FullyConnected fc)) w
              (set_heap
                 (<[FullyConnectedLayer.dB_sum fc := np_fill dbs 0]>
                    (<[FullyConnectedLayer.dW_sum fc := np_fill dws 0]>
                       (<[FullyConnectedLayer.B fc := descended ba dbs m eta]>
                          (<[FullyConnectedLayer.W fc := descended wa dws m eta]>
                             (heap (with_call (Call_update k m eta) w))))))
                 (with_call (Call_update k m eta) w))).
    { split.
      - intros x a Hx. cbn.
        destruct (Nat.eq_dec x (FullyConnectedLayer.dB_sum fc)) as [->|n4].
        { rewrite HdB in Hx. injection Hx as <-. eexists. split.
          - eapply lookup_insert_same. rewrite !lookup_insert_other by auto. eauto.
          - split; reflexivity. }
        rewrite lookup_insert_other by auto.
        destruct (Nat.eq_dec x (FullyConnectedLayer.dW_sum fc)) as [->|n3].
        { rewrite HdW in Hx. injection Hx as <-. eexists. split.
          - eapply lookup_insert_same. rewrite !lookup_insert_other by auto. eauto.
          - split; reflexivity. }
        rewrite lookup_insert_other by auto.
        destruct (Nat.eq_dec x (FullyConnectedLayer.B fc)) as [->|n2].
        { rewrite HB in Hx. injection Hx as <-. eexists. split.
          - eapply lookup_insert_same. rewrite !lookup_insert_other by auto. eauto.
          - split; reflexivity. }
        rewrite lookup_insert_other by auto.
        destruct (Nat.eq_dec x (FullyConnectedLayer.W fc)) as [->|n1].
        { rewrite HW in Hx. injection Hx as <-. eexists. split.
          - eapply lookup_insert_same. eauto.
          - split; reflexivity. }
        rewrite lookup_insert_other by auto. eauto.
      - intros x a Hx Ha. rewrite owned_fc_elem in Hx. cbn.
        rewrite !lookup_insert_other by (intros E; apply Hx; subst x; auto 10). exact Ha. }
    split; [eapply net_wf_frame; [reflexivity | exact Hframe | exact Hwf]|].
    split; [reflexivity|]. split; [reflexivity|]. split.
    + intros fc0 [= <-].
      exists wa, ba, dws, dbs. eexists _, _, _, _. cbn.
      split; [exact HW|]. split; [exact HB|]. split; [exact HdW|]. split; [exact HdB|].
      split.
      { rewrite !lookup_insert_other by auto. eapply lookup_insert_same; eauto. }
      split.
      { rewrite !lookup_insert_other by auto. eapply lookup_insert_same.
        rewrite lookup_insert_other by auto. eauto. }
      split.
      { rewrite !lookup_insert_other by auto. eapply lookup_insert_same.
        rewrite !lookup_insert_other by auto. eauto. }
      split.
      { eapply lookup_insert_same. rewrite !lookup_insert_other by auto. eauto. }
      split.
      { intros i j Hi Hj. apply descended_entry; congruence. }
      split.
      { intros i Hi. apply descended_entry; [congruence | rewrite HBc; lia]. }
      split; reflexivity.
    + intros x Hx. rewrite owned_fc_elem in Hx. cbn.
      rewrite !lookup_insert_other by (intros E; apply Hx; subst x; auto 10). reflexivity.
  - apply update_step_plain; [assumption | assumption | intros fc [=] | reflexivity].
  - apply update_step_plain; [assumption | assumption | intros fc [=] | reflexivity].
  - apply update_step_plain; [assumption | assumption | intros fc [=] | reflexivity].
  - apply update_step_plain; [assumption | assumption | intros fc [=] | reflexivity].
Qed.

Lemma fc_updated_transport (m : nat) (eta : R) (fc : FullyConnectedLayer.t)
    (w0 w w' w1 : world) :
  (forall x, x ∈ owned (FullyConnected fc) -> heap w0 !! x = heap w !! x) ->
  (forall x, x ∈ owned (FullyConnected fc) -> heap w1 !! x = heap w' !! x) ->
  fc_updated m eta fc w w' -> fc_updated m eta fc w0 w1.
Proof.
  intros Hpre Hpost (wa & ba & dws & dbs & wa' & ba' & dws' & dbs'
                     & H1 & H2 & H3 & H4 & H5 & H6 & H7 & H8 & Hrest).
  exists wa, ba, dws, dbs, wa', ba', dws', dbs'.
  rewrite !Hpre, !Hpost by (apply owned_fc_elem; auto 10).
  repeat (split; [assumption|]). exact Hrest.
Qed.

(** The update loop over distinct positions of a well-formed network: it
    returns, records one call per position in order, leaves the layer
    objects as they are, and gives each fully connected layer at one of
    the positions its step. Arrays of other layers are untouched. *)
Lemma update_loop (m : nat) (eta : R) (net : Network.t) (idxs : list nat) :
  forall w,
    net_wf net w -> NoDup idxs ->
    (forall k, k ∈ idxs -> k < length (Network.layers net)) ->
    exists w',
      for_each idxs (update_body m eta) tt net w = Ok tt net w'
      /\ net_wf net w'
      /\ calls w' = calls w ++ ((fun k => Call_update k m eta) <$> idxs)
      /\ stdout w' = stdout w
      /\ (forall i fc, i ∈ idxs -> Network.layers net !! i = Some (FullyConnected fc) ->
            fc_updated m eta fc w w')
      /\ (forall x, (forall k l, k ∈ idxs -> Network.layers net !! k = Some l ->
                       x ∉ owned l) ->
            heap w' !! x = heap w !! x).
Proof.
  induction idxs as [|k idxs IH]; intros w Hwf Hnd Hlt.
  - exists w. cbn. rewrite app_nil_r. split_and!; auto.
    intros i fc Hi. inversion Hi.
  - apply NoDup_cons in Hnd as [Hk Hnd].
    assert (Hklt : k < length (Network.layers net)) by (apply Hlt; left).
    destruct (lookup_lt_is_Some_2 _ _ Hklt) as [l Hl].
    destruct (update_step m eta net w k l Hwf Hl)
      as (w1 & Hrun1 & Hwf1 & Hc1 & Ho1 & Hup1 & Hfr1).
    destruct (IH w1 Hwf1 Hnd) as (w' & Hrun & Hwf' & Hc & Ho & Hup & Hfr).
    { intros k' Hk'. apply Hlt. right. exact Hk'. }
    destruct Hwf as [_ Hsep].
    destruct (NoDup_bind_lookup owned _ Hsep) as [_ Hdisj].
    exists w'. split.
    { cbn [for_each]. rewrite (bind_Ok _ _ _ _ _ _ _ Hrun1). exact Hrun. }
    split; [exact Hwf'|]. split.
    { rewrite Hc, Hc1, <- app_assoc. reflexivity. }
    split; [congruence|]. split.
    + intros i fc Hi Hfc. apply elem_of_cons in Hi as [->|Hi].
      * rewrite Hl in Hfc. injection Hfc as ->.
        eapply (fc_updated_transport m eta fc w w w1 w');
          [reflexivity | | apply Hup1; reflexivity].
        intros x Hx. apply Hfr. intros k' l' Hk' Hl'.
        apply (Hdisj k k' (FullyConnected fc) l' x);
          [intros ->; contradiction | assumption..].
      * eapply (fc_updated_transport m eta fc w w1 w' w');
          [ | reflexivity | apply (Hup i); assumption].
        intros x Hx. symmetry. apply Hfr1.
        apply (Hdisj i k (FullyConnected fc) l x);
          [intros ->; contradiction | assumption..].
    + intros x Hx. rewrite Hfr, Hfr1; [reflexivity| |].
      * apply (Hx k l); [left | exact Hl].
      * intros k' l' Hk' Hl'. apply (Hx k' l'); [right; exact Hk' | exact Hl'].
Qed.

(** The second loop of [mini_batch_pass] on a well-formed network. *)
Lemma update_layers_spec (m : nat) (eta : R) (net : Network.t) (w : world) :
  net_wf net w ->
  exists w',
    Network.update_layers m eta net w = Ok tt net w'
    /\ net_wf net w'
    /\ calls w'
       = calls w ++ ((fun k => Call_update k m eta)
                       <$> seq 1 (length (Network.layers net) - 1))
    /\ stdout w' = stdout w
    /\ (forall i fc, 1 <= i -> Network.layers net !! i = Some (FullyConnected fc) ->
          fc_updated m eta fc w w').
Proof.
  intros Hwf.
  destruct (update_loop m eta net (seq 1 (length (Network.layers net) - 1)) w Hwf)
    as (w' & Hrun & Hwf' & Hc & Ho & Hup & _).
  { apply NoDup_seq. }
  { intros k Hk. apply elem_of_seq in Hk. lia. }
  exists w'. split; [exact Hrun|]. split; [exact Hwf'|]. split; [exact Hc|].
  split; [exact Ho|].
  intros i fc Hi Hfc. apply (Hup i); [|exact Hfc].
  apply elem_of_seq. apply lookup_lt_Some in Hfc. lia.
Qed.

(* ====================================================================== *)
(** ** Network.mini_batch_pass *)
(* ====================================================================== *)

Lemma for_each_app {T A B} (l1 l2 : list A) (body : B -> A -> M T B) (b : B) s w :
  for_each (l1 ++ l2) body b s w
  = (b' ← for_each l1 body b; for_each l2 body b') s w.
Proof.
  revert b s w. induction l1 as [|a l1 IH]; intros b s w; cbn [app for_each].
  - reflexivity.
  - rewrite !bind_unfold. destruct (body b a s w); cbn; [|reflexivity|reflexivity].
    rewrite IH. rewrite bind_unfold. reflexivity.
Qed.

Lemma demo_net_wf : net_wf demo_net demo_net_world.
Proof.
  split.
  - intros [|[|[|i]]] fc; cbn; intros [=]. subst fc.
    repeat split; eexists; (split; [reflexivity | split; reflexivity]).
  - cbn. compute_done.
Qed.

(** *** The builder makes well-formed networks *)

Lemma fc_init_run {T} (n p : nat) (randn_W randn_B : nat -> nat -> R)
    (self : T) (w : world) :
  let h := length (heap w) in
  FullyConnectedLayer.init n p randn_W randn_B self w
  = Ok (FullyConnectedLayer.mk n p h (h + 1) (h + 2) (h + 3) (h + 4) (h + 5) (h + 6)
          (h + 7) None)
       self
       (set_heap
          (heap w
           ++ [np_div_scalar (mk_ndarray n p randn_W) 10; np_zeros n p;
               np_div_scalar (mk_ndarray n 1 randn_B) 10; np_zeros n 1;
               np_zeros n 1; np_zeros n p; np_zeros n 1; np_zeros p 1])
          w).
Proof.
  intros h. unfold FullyConnectedLayer.init.
  unfold mbind, M_bind, mret, M_ret, alloc, set_heap. cbn.
  rewrite !length_app. cbn [length]. rewrite <- !app_assoc. cbn [app].
  fold h. rewrite <- !Nat.add_assoc. reflexivity.
Qed.

Lemma holds_alloc_old (w : world) (new : list ndarray) (l : loc) (r c : nat) :
  holds w l r c -> holds (set_heap (heap w ++ new) w) l r c.
Proof.
  intros (a & Ha & Hr & Hc). exists a. cbn.
  rewrite lookup_app_l by (eapply lookup_lt_Some; eassumption). auto.
Qed.

Lemma holds_alloc_new (w : world) (new : list ndarray) (k : nat) (a : ndarray)
    (r c : nat) :
  new !! k = Some a -> nrows a = r -> ncols a = c ->
  holds (set_heap (heap w ++ new) w) (length (heap w) + k) r c.
Proof.
  intros Hk <- <-. exists a. cbn. rewrite lookup_app_r by lia.
  replace (length (heap w) + k - length (heap w)) with k by lia. auto.
Qed.

Lemma append_plain_layer_wf (net : Network.t) (w : world) (l : Layer)
    (size : nat) (new : list ndarray) :
  owned l = [] ->
  net_wf net w ->
  Forall (fun x => x < length (heap w)) (Network.layers net ≫= owned) ->
  let net' := Network.set_prev_layer_size size
                (Network.set_layers (Network.layers net ++ [l]) net) in
  let w' := set_heap (heap w ++ new) w in
  net_wf net' w'
  /\ Forall (fun x => x < length (heap w')) (Network.layers net' ≫= owned).
Proof.
  intros Hl [Hshapes Hnd] Hbound net' w'. cbn.
  rewrite bind_app. cbn. rewrite Hl, !app_nil_r.
  split; [split|].
  - intros i fc Hi. cbn in Hi.
    apply lookup_app_Some in Hi as [Hi | [_ Hi]].
    + destruct (Hshapes i fc Hi) as (H1 & H2 & H3 & H4).
      repeat split; apply holds_alloc_old; assumption.
    + apply list_lookup_singleton_Some in Hi as [_ ->]. discriminate Hl.
  - cbn. rewrite bind_app. cbn. rewrite Hl, !app_nil_r. exact Hnd.
  - rewrite length_app. eapply Forall_impl; [exact Hbound|]. cbn. intros; lia.
Qed.

Lemma run_builder_call_wf (c : builder_call) (net : Network.t) (w : world) :
  net_wf net w ->
  Forall (fun x => x < length (heap w)) (Network.layers net ≫= owned) ->
  exists net' w',
    run_builder_call c net w = Ok tt net' w'
    /\ net_wf net' w'
    /\ Forall (fun x => x < length (heap w')) (Network.layers net' ≫= owned).
Proof.
  intros Hwf Hbound.
  destruct c as [n rW rB|n|n|n]; cbn [run_builder_call].
  - unfold Network.add_fc_layer. rewrite bind_get_self.
    rewrite (bind_Ok _ _ _ _ _ _ _ (fc_init_run n (Network.prev_layer_size net) rW rB net w)).
    eexists _, _. split; [reflexivity|].
    destruct Hwf as [Hshapes Hnd]. unfold net_wf. cbn.
    set (h := length (heap w)). rewrite !bind_app. cbn.
    split; [split|].
    + intros i fc Hi.
      apply lookup_app_Some in Hi as [Hi | [_ Hi]].
      * destruct (Hshapes i fc Hi) as (H1 & H2 & H3 & H4).
        repeat split; apply holds_alloc_old; assumption.
      * apply list_lookup_singleton_Some in Hi as [_ [= <-]]. cbn.
        replace h with (h + 0) at 1 by lia.
        repeat split.
        -- eapply (holds_alloc_new w _ 0); reflexivity.
        -- eapply (holds_alloc_new w _ 2); reflexivity.
        -- eapply (holds_alloc_new w _ 5); reflexivity.
        -- eapply (holds_alloc_new w _ 6); reflexivity.
    + apply NoDup_app. split; [exact Hnd|]. split.
      * intros x Hx Hx'. rewrite Forall_forall in Hbound. apply Hbound in Hx.
        fold h in Hx. apply list_elem_of_In in Hx'. cbn in Hx'. lia.
      * repeat (apply NoDup_cons;
                split; [intros Hx; apply list_elem_of_In in Hx; cbn in Hx; lia|]).
        apply NoDup_nil_2.
    + rewrite length_app. cbn [length]. apply Forall_app. split.
      * eapply Forall_impl; [exact Hbound|]. cbn. intros; lia.
      * fold h. repeat constructor; lia.
  - eexists _, _. split; [reflexivity|].
    apply (append_plain_layer_wf net w _ n [_]); auto.
  - eexists _, _. split; [reflexivity|].
    apply (append_plain_layer_wf net w _ n [_]); auto.
  - eexists _, _. split; [reflexivity|].
    apply (append_plain_layer_wf net w _ n [_]); auto.
Qed.

Lemma builder_calls_wf (cs : list builder_call) :
  forall (net : Network.t) (w : world),
    net_wf net w ->
    Forall (fun x => x < length (heap w)) (Network.layers net ≫= owned) ->
    exists net' w',
      for_each cs (fun _ c => run_builder_call c) tt net w = Ok tt net' w'
      /\ net_wf net' w'.
Proof.
  induction cs as [|c cs IH]; intros net w Hwf Hbound.
  - exists net, w. split; [reflexivity | exact Hwf].
  - destruct (run_builder_call_wf c net w Hwf Hbound) as (net1 & w1 & Hrun & Hwf1 & Hb1).
    destruct (IH net1 w1 Hwf1 Hb1) as (net' & w' & Hrest & Hwf').
    exists net', w'. split; [|exact Hwf'].
    cbn [for_each]. rewrite (bind_Ok _ _ _ _ _ _ _ Hrun). exact Hrest.
Qed.

(** X18. A network made by the constructor and any sequence of
    [add_..._layer] calls is well-formed: [W] and [dW_sum] of each fully
    connected layer have [N] rows and [N_p] columns, [B] and [dB_sum] have
    [N] rows and one column, and these arrays are pairwise different
    objects, within a layer and across layers. *)
Lemma build_net_wf (input_size : nat)
    (cost : ndarray -> ndarray -> option R)
    (cost_prime : ndarray -> ndarray -> option ndarray)
    (is_SM_CE : bool) (cs : list builder_call) (w : world) :
  exists net w',
    build input_size cost cost_prime is_SM_CE cs tt w = Ok net tt w'
    /\ net_wf net w'.
Proof.
  set (il := InputLayer.mk input_size (length (heap w))).
  set (net0 := Network.mk cost cost_prime [] [] is_SM_CE [Input il] input_size).
  set (w0 := set_heap (heap w ++ [np_zeros input_size 1]) w).
  assert (Hwf : net_wf net0 w0).
  { split.
    - intros [|i] fc Hi; discriminate.
    - apply NoDup_nil_2. }
  destruct (builder_calls_wf cs net0 w0 Hwf ltac:(constructor))
    as (net' & w' & Hrun & Hwf').
  exists net', w'. split; [|exact Hwf'].
  unfold build.
  rewrite (bind_Ok _ _ tt w net0 tt w0) by reflexivity.
  unfold embed. rewrite (bind_Ok _ _ _ _ _ _ _ Hrun). reflexivity.
Qed.

(** C5. On a well-formed network, after any number of the per-sample
    iterations of [mini_batch_pass], however the last of them ended, every
    fully connected layer has the [W] and [B] objects it had, with the
    contents they had, and no [update_parameters] was called. A failing
    sample ends the whole pass there. After the last sample the pass calls
    [update_parameters] once on each of the layers 1, 2, ... in order, the
    input layer at position 0 left out, and returns. *)
Theorem mini_batch_pass_synchronous
    (net : Network.t) (w : world) (eta : R) (mini_batch : list sample) :
  net_wf net w ->
  (forall processed remaining,
      mini_batch = processed ++ remaining ->
      let o := Network.pass_samples processed net w in
      Network.pass_samples mini_batch net w
      = (Network.pass_samples processed;; Network.pass_samples remaining) net w
      /\ same_parameters net w (final_self o) (final_world o)
      /\ exists ev, calls (final_world o) = calls w ++ ev /\ Forall not_update ev)
  /\ (status_of (Network.pass_samples mini_batch net w) <> Returned tt ->
      Network.mini_batch_pass eta mini_batch net w
      = Network.pass_samples mini_batch net w)
  /\ (forall net1 w1,
        Network.pass_samples mini_batch net w = Ok tt net1 w1 ->
        exists w2,
          Network.mini_batch_pass eta mini_batch net w = Ok tt net1 w2
          /\ calls w2
             = calls w1
               ++ ((fun k => Call_update k (length mini_batch) eta)
                     <$> seq 1 (length (Network.layers net) - 1))).
Proof.
  intros Hwf. split; [|split].
  - intros processed remaining -> o. split.
    { unfold Network.pass_samples. rewrite for_each_app. rewrite !bind_unfold.
      destruct (for_each processed _ tt net w) as [[] s1 w1| |]; reflexivity. }
    destruct (pass_samples_frame net w processed Hwf) as (Hsame & _ & Htrace & _).
    split; [exact Hsame | exact Htrace].
  - intros Hfail. unfold Network.mini_batch_pass. rewrite bind_unfold.
    destruct (Network.pass_samples mini_batch net w) as [[] s1 w1| |];
      [contradiction Hfail|..]; reflexivity.
  - intros net1 w1 Hrun.
    destruct (pass_samples_frame net w mini_batch Hwf) as (_ & Hwf1 & _ & Hsk).
    rewrite Hrun in Hwf1, Hsk. cbn in Hwf1, Hsk.
    destruct (update_layers_spec (length mini_batch) eta net1 w1 Hwf1)
      as (w2 & Hup & _ & Hcalls & _).
    exists w2. split.
    + unfold Network.mini_batch_pass. rewrite (bind_Ok _ _ _ _ _ _ _ Hrun). exact Hup.
    + rewrite Hcalls.
      apply (f_equal Network.layers) in Hsk. cbn in Hsk.
      apply (f_equal length) in Hsk. rewrite !length_fmap in Hsk.
      rewrite Hsk. reflexivity.
Qed.

(** The comparisons of real numbers that a computed run leaves open: each
    is settled by arithmetic, the innermost first. *)
Ltac settle_comparison :=
  match goal with
  | |- context [Rle_dec ?a ?b] =>
      lazymatch a with context [Rle_dec] => fail | context [Rlt_dec] => fail
                     | _ => idtac end;
      lazymatch b with context [Rle_dec] => fail | context [Rlt_dec] => fail
                     | _ => idtac end;
      destruct (Rle_dec a b); try (exfalso; lra)
  | |- context [Rlt_dec ?a ?b] =>
      lazymatch a with context [Rle_dec] => fail | context [Rlt_dec] => fail
                     | _ => idtac end;
      lazymatch b with context [Rle_dec] => fail | context [Rlt_dec] => fail
                     | _ => idtac end;
      destruct (Rlt_dec a b); try (exfalso; lra)
  end.

Ltac settle_reals := vm_compute; repeat settle_comparison; try lra.

(** The small network to train has its arrays. *)
Lemma demo_train_net_wf : net_wf demo_train_net demo_train_world.
Proof.
  split.
  - intros [|[|[|i]]] fc; cbn; intros [=]. subst fc.
    repeat split; eexists; (split; [reflexivity | split; reflexivity]).
  - cbn. compute_done.
Qed.

(** The network of the example and a batch of two samples. After the first
    sample the sums of the fully connected layer hold its gradient, and [W]
    and [B] are what they were; the updates come after the second sample,
    with the batch length 2. *)
Lemma mini_batch_pass_synchronous_witness :
  let o1 := Network.pass_samples [sample_b] demo_train_net demo_train_world in
  let o := Network.mini_batch_pass (1 / 10) [sample_b; sample_a]
             demo_train_net demo_train_world in
  (exists dws, heap (final_world o1) !! 6 = Some dws
               /\ elt dws 0 0 = 2%R /\ elt dws 0 1 = 0%R)
  /\ heap (final_world o1) !! 1 = heap demo_train_world !! 1
  /\ heap (final_world o1) !! 3 = heap demo_train_world !! 3
  /\ (exists ev, calls (final_world o1) = ev /\ Forall not_update ev)
  /\ status_of o = Returned tt
  /\ calls (final_world o)
     = [Call_forward 1; Call_forward 2; Call_backward 2; Call_backward 1;
        Call_forward 1; Call_forward 2; Call_backward 2; Call_backward 1;
        Call_update 1 2 (1 / 10); Call_update 2 2 (1 / 10)].
Proof.
  intros o1 o.
  destruct (mini_batch_pass_synchronous demo_train_net demo_train_world (1 / 10)
              [sample_b; sample_a] demo_train_net_wf) as (Hsplit & _ & Hupd).
  destruct (Hsplit [sample_b] [sample_a] eq_refl) as (_ & Hsame & (ev & Hev & Hnot)).
  fold o1 in Hsame, Hev.
  destruct (Hsame 1 demo_train_fc eq_refl) as (fc' & _ & _ & _ & HW & HB).
  assert (Hsums : exists dws, heap (final_world o1) !! 6 = Some dws
                              /\ elt dws 0 0 = 2%R /\ elt dws 0 1 = 0%R).
  { eexists. split; [vm_compute; reflexivity|]. split; settle_reals. }
  assert (Hsamples :
            status_of (Network.pass_samples [sample_b; sample_a]
                         demo_train_net demo_train_world)
            = Returned tt
            /\ calls (final_world
                        (Network.pass_samples [sample_b; sample_a]
                           demo_train_net demo_train_world))
               = [Call_forward 1; Call_forward 2; Call_backward 2; Call_backward 1;
                  Call_forward 1; Call_forward 2; Call_backward 2; Call_backward 1]).
  { vm_compute. split; reflexivity. }
  destruct (Network.pass_samples [sample_b; sample_a] demo_train_net demo_train_world)
    as [[] net1 w1| |] eqn:E; cbn in Hsamples;
    [|destruct Hsamples; discriminate|destruct Hsamples; discriminate].
  destruct Hsamples as [_ Hcalls1].
  destruct (Hupd net1 w1 eq_refl) as (w2 & Hrun & Hcalls).
  split; [exact Hsums|]. split; [exact HW|]. split; [exact HB|].
  split; [exists ev; split; [exact Hev | exact Hnot]|].
  unfold o. rewrite Hrun. split; [reflexivity|].
  cbn [final_world]. rewrite Hcalls, Hcalls1. reflexivity.
Defined.

(* ====================================================================== *)
(** ** The mini-batches of an epoch *)
(* ====================================================================== *)

(** The number of chunks of size [m] that cover [n] elements. *)
Lemma chunk_count_spec (n m : nat) :
  0 < m ->
  let c := (n + m - 1) / m in
  (n = 0 /\ c = 0) \/ (0 < n /\ 1 <= c /\ (c - 1) * m < n /\ n <= c * m).
Proof.
  intros Hm c.
  assert (H1 : m * c <= n + m - 1) by (apply Nat.Div0.mul_div_le).
  assert (H2 : n + m - 1 < m * S c) by (apply Nat.mul_succ_div_gt; lia).
  destruct n as [|n]; [left | right]; nia.
Qed.

Lemma py_range_chunks (n : nat) (mbs : Z) :
  (0 < mbs)%Z ->
  py_range 0 (Z.of_nat n) mbs
  = Some (map (fun i => (Z.of_nat (i * Z.to_nat mbs))%Z)
            (seq 0 ((n + Z.to_nat mbs - 1) / Z.to_nat mbs))).
Proof.
  intros Hpos. unfold py_range.
  destruct (Z.eqb_spec mbs 0); [lia|].
  destruct (Z.ltb_spec 0 mbs); [|lia].
  f_equal.
  replace (Z.to_nat ((Z.of_nat n - 0 + mbs - 1) / mbs))
    with ((n + Z.to_nat mbs - 1) / Z.to_nat mbs).
  - apply map_ext. intros i. lia.
  - apply Nat2Z.inj. rewrite Nat2Z.inj_div.
    rewrite !Z2Nat.id by (first [lia | apply Z.div_pos; lia]). f_equal; lia.
Qed.

Lemma py_slice_chunk {A} (l : list A) (k m : nat) :
  k <= length l ->
  py_slice l (Z.of_nat k) (Z.of_nat k + Z.of_nat m) = firstn m (skipn k l).
Proof.
  intros Hk. unfold py_slice.
  destruct (Z.ltb_spec (Z.of_nat k) 0); [lia|].
  destruct (Z.ltb_spec (Z.of_nat k + Z.of_nat m) 0); [lia|].
  replace (Z.to_nat (Z.min (Z.of_nat (length l)) (Z.max 0 (Z.of_nat k)))) with k by lia.
  set (hi := Z.to_nat (Z.min (Z.of_nat (length l))
                         (Z.max 0 (Z.of_nat k + Z.of_nat m)))).
  assert (Hhi : hi = Nat.min (length l) (k + m)) by (unfold hi; lia).
  destruct (Nat.le_ge_cases (k + m) (length l)) as [Hle|Hge].
  - replace (hi - k) with m by lia. reflexivity.
  - replace (hi - k) with (length l - k) by lia.
    rewrite <- (length_skipn k l).
    rewrite firstn_all. symmetry. apply firstn_all2. rewrite length_skipn. lia.
Qed.

(** The chunks [l[0:m], l[m:2m], ...] of a list, [c] of them. *)
Lemma chunks_shift {A} (l : list A) (m c : nat) :
  map (fun i => firstn m (skipn (i * m) l)) (seq 0 (S c))
  = firstn m l :: map (fun i => firstn m (skipn (i * m) (skipn m l))) (seq 0 c).
Proof.
  cbn [seq map]. f_equal. rewrite <- seq_shift, map_map.
  apply map_ext. intros i. rewrite skipn_skipn. f_equal. f_equal. lia.
Qed.

Lemma chunks_concat {A} (m c : nat) :
  forall l : list A,
    length l <= c * m ->
    concat (map (fun i => firstn m (skipn (i * m) l)) (seq 0 c)) = l.
Proof.
  induction c as [|c IH]; intros l Hlen.
  - destruct l; [reflexivity | cbn in Hlen; lia].
  - rewrite chunks_shift. cbn [concat]. rewrite IH.
    + apply firstn_skipn.
    + rewrite length_skipn. lia.
Qed.

Lemma chunk_length {A} (l : list A) (m i : nat) :
  length (firstn m (skipn (i * m) l)) = Nat.min m (length l - i * m).
Proof. rewrite length_firstn, length_skipn. reflexivity. Qed.

(** The list comprehension of [stochastic_gradient_descent] for a positive
    [mini_batch_size]. *)
Lemma mini_batches_chunks (training_data : list sample) (mbs : Z) :
  (0 < mbs)%Z ->
  mini_batches training_data (length training_data) mbs
  = Some (map (fun i => firstn (Z.to_nat mbs) (skipn (i * Z.to_nat mbs) training_data))
            (seq 0 ((length training_data + Z.to_nat mbs - 1) / Z.to_nat mbs))).
Proof.
  intros Hpos. unfold mini_batches. rewrite py_range_chunks by assumption.
  unfold mbind, option_bind. f_equal. rewrite map_map. apply map_ext_in. intros i Hi.
  apply in_seq in Hi.
  destruct (chunk_count_spec (length training_data) (Z.to_nat mbs) ltac:(lia))
    as [[Hn Hc] | (Hn & Hc & Hlo & Hhi)]; [lia|].
  pose proof (py_slice_chunk training_data (i * Z.to_nat mbs) (Z.to_nat mbs)) as E.
  rewrite Z2Nat.id in E by lia. apply E. nia.
Qed.

(** The mini-batches partition the training data into consecutive chunks
    of [mini_batch_size] samples, the last one holding what is left. *)
Lemma mini_batches_partition (training_data : list sample) (mbs : Z) :
  (0 < mbs)%Z ->
  let m := Z.to_nat mbs in
  let n := length training_data in
  exists batches,
    mini_batches training_data n mbs = Some batches
    /\ concat batches = training_data
    /\ length batches = (n + m - 1) / m
    /\ (forall i, i < length batches ->
          batches !! i = Some (firstn m (skipn (i * m) training_data)))
    /\ (forall i b, batches !! i = Some b ->
          0 < length b <= m /\ (S i < length batches -> length b = m))
    /\ (forall b, last batches = Some b ->
          length b = if n mod m =? 0 then m else n mod m).
Proof.
  intros Hpos m n.
  assert (Hm : 0 < m) by (unfold m; lia).
  set (f := fun i => firstn m (skipn (i * m) training_data)).
  set (c := (n + m - 1) / m).
  assert (Hlen : length (map f (seq 0 c)) = c) by (rewrite length_map, length_seq; reflexivity).
  assert (Hlook : forall i, i < c -> map f (seq 0 c) !! i = Some (f i)).
  { intros i Hi. change (map f (seq 0 c)) with (f <$> seq 0 c).
    rewrite list_lookup_fmap, lookup_seq_lt by assumption. reflexivity. }
  pose proof (chunk_count_spec n m Hm) as Hc. fold c in Hc. cbv zeta in Hc.
  exists (map f (seq 0 c)).
  split; [apply mini_batches_chunks; assumption|].
  split.
  { apply chunks_concat. fold n. destruct Hc as [[-> _] | (_ & _ & _ & H)]; lia. }
  split; [exact Hlen|].
  split; [rewrite Hlen; exact Hlook|].
  split.
  - intros i b Hi. rewrite Hlen.
    assert (Hic : i < c).
    { apply lookup_lt_Some in Hi. rewrite Hlen in Hi. exact Hi. }
    rewrite (Hlook i Hic) in Hi. injection Hi as <-.
    unfold f. rewrite chunk_length. fold n.
    destruct Hc as [[_ Hc0] | (Hn & Hc1 & Hlo & Hhi)]; [lia|].
    split; [nia | intros HS; nia].
  - intros b Hb. rewrite last_lookup, Hlen in Hb.
    destruct Hc as [[Hn0 Hc0] | (Hn & Hc1 & Hlo & Hhi)].
    { rewrite Hc0 in Hb. cbn in Hb. discriminate. }
    rewrite (Hlook (Init.Nat.pred c)) in Hb by lia. injection Hb as <-.
    unfold f. rewrite chunk_length. fold n.
    pose proof (Nat.div_mod_eq n m) as Hdiv.
    pose proof (Nat.mod_upper_bound n m ltac:(lia)) as Hmod.
    replace (Init.Nat.pred c) with (c - 1) by lia.
    clear Hlen Hlook. clearbody c f m n.
    generalize dependent (n / m). generalize dependent (n mod m).
    intros r Hmod q Hdiv.
    destruct (Nat.eqb_spec r 0) as [E|E].
    + assert (Hq : q = c).
      { assert (c - 1 < q) by (apply (Nat.mul_lt_mono_pos_r m); lia).
        assert (q <= c) by (apply (Nat.mul_le_mono_pos_r _ _ m); lia). lia. }
      subst q. nia.
    + assert (Hq : q = c - 1).
      { assert (q < c) by (apply (Nat.mul_lt_mono_pos_r m); lia).
        assert (c - 1 < S q) by (apply (Nat.mul_lt_mono_pos_r m); lia). lia. }
      subst q. nia.
Qed.

(* ====================================================================== *)
(** ** The attributes of the network the passes leave alone *)
(* ====================================================================== *)

Section Stable.
Context {T A : Type} (proj : T -> A).

Lemma stable_mret {X} (x : X) : stable proj (mret x).
Proof. intros s w. reflexivity. Qed.

Lemma stable_bind {X Y} (m : M T X) (k : X -> M T Y) :
  stable proj m -> (forall x, stable proj (k x)) -> stable proj (m ≫= k).
Proof.
  intros Hm Hk s w. rewrite bind_unfold. specialize (Hm s w).
  destruct (m s w) as [x s1 w1| |]; cbn in Hm |- *; [|exact Hm|exact Hm].
  rewrite Hk. exact Hm.
Qed.

Lemma stable_for_each {B C} (l : list B) (body : C -> B -> M T C) :
  (forall c b, stable proj (body c b)) -> forall c, stable proj (for_each l body c).
Proof.
  intros Hbody. induction l as [|b l IH]; intros c; cbn [for_each].
  - apply stable_mret.
  - apply stable_bind; [apply Hbody | apply IH].
Qed.

Lemma stable_get_self : stable proj get_self.
Proof. intros s w. reflexivity. Qed.

Lemma stable_raise {X} (e : exn) : stable proj (raise (X := X) e).
Proof. intros s w. reflexivity. Qed.

Lemma stable_print (o : out) : stable proj (print o).
Proof. intros s w. reflexivity. Qed.

Lemma stable_alloc (a : ndarray) : stable proj (alloc a).
Proof. intros s w. reflexivity. Qed.

Lemma stable_load (l : loc) : stable proj (load l).
Proof. intros s w. unfold load. destruct (heap w !! l); reflexivity. Qed.

Lemma stable_np {X} (r : option X) : stable proj (np r).
Proof. intros s w. destruct r; reflexivity. Qed.

Lemma stable_modify_self (h : T -> T) :
  (forall s, proj (h s) = proj s) -> stable proj (modify_self h).
Proof. intros H s w. apply H. Qed.

End Stable.

Lemma stable_layer_index {A} (proj : Network.t -> A) (i : Z) :
  stable proj (Network.layer_index i).
Proof.
  intros s w. unfold Network.layer_index.
  destruct (py_index (length (Network.layers s)) i); reflexivity.
Qed.

(** A method of a layer changes no other attribute of the network. *)
Lemma stable_on_layer {A X} (proj : Network.t -> A) (k : nat) (m : M Layer X) :
  (forall ls s, proj (Network.set_layers ls s) = proj s) ->
  stable proj (Network.on_layer k m).
Proof.
  intros H s w. unfold Network.on_layer.
  destruct (Network.layers s !! k) as [layer|]; [|reflexivity].
  unfold embed. destruct (m layer w); cbn; apply H.
Qed.

Ltac stable_tac :=
  repeat first
    [ apply stable_bind; [|intros ?]
    | apply stable_for_each; intros ? ?
    | apply stable_mret
    | apply stable_get_self
    | apply stable_raise
    | apply stable_print
    | apply stable_alloc
    | apply stable_load
    | apply stable_np
    | apply stable_layer_index
    | apply stable_on_layer; first [assumption | intros ? ?; reflexivity]
    | match goal with |- stable _ (let '(_, _) := ?p in _) => destruct p end
    | match goal with |- stable _ (if ?b then _ else _) => destruct b end ].

Section Stable_driver.
Context {A : Type} (proj : Network.t -> A).
Hypothesis proj_layers : forall ls s, proj (Network.set_layers ls s) = proj s.

Lemma stable_forward_pass (x : loc) : stable proj (Network.forward_pass x).
Proof using proj_layers. unfold Network.forward_pass. stable_tac. Qed.

Lemma stable_backward_pass (e : loc) : stable proj (Network.backward_pass e).
Proof using proj_layers.
  unfold Network.backward_pass, Network.first_upstream_gradient, Network.backward_loop.
  stable_tac.
Qed.

Lemma stable_mini_batch_pass (eta : R) (mini_batch : list sample) :
  stable proj (Network.mini_batch_pass eta mini_batch).
Proof using proj_layers.
  unfold Network.mini_batch_pass, Network.pass_samples, Network.update_layers.
  apply stable_bind.
  - apply stable_for_each. intros [] [input output].
    apply stable_bind; [apply stable_forward_pass | intros _; apply stable_backward_pass].
  - intros _. stable_tac.
Qed.

Lemma stable_total_cost (data : list sample) : stable proj (Network.total_cost data).
Proof using proj_layers.
  unfold Network.total_cost. apply stable_for_each. intros c [input output].
  apply stable_bind; [apply stable_forward_pass | intros a]. stable_tac.
Qed.

Lemma stable_mean_cost (c : R) (data : list sample) :
  stable proj (Network.mean_cost c data).
Proof. unfold Network.mean_cost. stable_tac. Qed.

Lemma stable_test_network (data : list sample) : stable proj (Network.test_network data).
Proof using proj_layers.
  unfold Network.test_network. apply stable_bind.
  - apply stable_for_each. intros c [input output].
    apply stable_bind; [apply stable_forward_pass | intros a]. stable_tac.
  - intros results. apply stable_for_each. intros c [max_index output].
    unfold Network.hit. stable_tac.
Qed.

End Stable_driver.

(** C10. When the samples of a batch have been processed, [mini_batch_pass]
    calls [update_parameters] of the layers 1, 2, ... with the number of
    samples of that batch as [mini_batch_size], so that, the batch not
    being empty, each fully connected layer's step is its sums divided by
    that number. For the last mini-batch of an epoch whose training-set
    size [n] is not a multiple of the nominal [mini_batch_size], that
    number is the remainder of [n], less than the nominal size. *)
Theorem mini_batch_pass_divides_by_batch_length
    (net : Network.t) (w : world) (eta : R) (mini_batch : list sample)
    (net1 : Network.t) (w1 : world) :
  net_wf net w ->
  Network.pass_samples mini_batch net w = Ok tt net1 w1 ->
  (exists w2,
      Network.mini_batch_pass eta mini_batch net w = Ok tt net1 w2
      /\ calls w2
         = calls w1
           ++ ((fun k => Call_update k (length mini_batch) eta)
                 <$> seq 1 (length (Network.layers net1) - 1))
      /\ (mini_batch <> [] ->
          forall i fc,
            1 <= i -> Network.layers net1 !! i = Some (FullyConnected fc) ->
            fc_updated (length mini_batch) eta fc w1 w2))
  /\ (forall (training_data : list sample) (mini_batch_size : Z) batches,
        (0 < mini_batch_size)%Z ->
        mini_batches training_data (length training_data) mini_batch_size
        = Some batches ->
        last batches = Some mini_batch ->
        length training_data mod Z.to_nat mini_batch_size <> 0 ->
        length mini_batch = length training_data mod Z.to_nat mini_batch_size
        /\ length mini_batch < Z.to_nat mini_batch_size).
Proof.
  intros Hwf Hrun. split.
  - destruct (pass_samples_frame net w mini_batch Hwf) as (_ & Hwf1 & _).
    rewrite Hrun in Hwf1. cbn in Hwf1.
    destruct (update_layers_spec (length mini_batch) eta net1 w1 Hwf1)
      as (w2 & Hup & _ & Hcalls & _ & Hstep).
    exists w2. split; [|split; [exact Hcalls | intros _; exact Hstep]].
    unfold Network.mini_batch_pass. rewrite (bind_Ok _ _ _ _ _ _ _ Hrun). exact Hup.
  - intros training_data mbs batches Hpos Hb Hlast Hrem.
    destruct (mini_batches_partition training_data mbs Hpos)
      as (batches' & Hb' & _ & _ & _ & _ & Hl).
    rewrite Hb in Hb'. injection Hb' as <-.
    specialize (Hl mini_batch Hlast).
    destruct (Nat.eqb_spec (length training_data mod Z.to_nat mbs) 0) as [E|_];
      [contradiction|].
    split; [exact Hl|]. rewrite Hl. apply Nat.mod_upper_bound. lia.
Qed.

(** The network of the example, and the two samples that five training
    samples leave for the last batch when the nominal size is three. The
    two gradients add up to [[3; 1]] for [W] and [2] for [B]; the step
    halves them: [W] goes from [[1; 0]] to [[17/20; -1/20]] and [B] from
    [0] to [-1/10] with the learning rate [1/10]. *)
Lemma mini_batch_pass_divides_by_batch_length_witness :
  exists net1 w1 w2 wa' ba',
    Network.pass_samples [sample_b; sample_a] demo_train_net demo_train_world
    = Ok tt net1 w1
    /\ Network.mini_batch_pass (1 / 10) [sample_b; sample_a]
         demo_train_net demo_train_world
       = Ok tt net1 w2
    /\ calls w2 = calls w1 ++ [Call_update 1 2 (1 / 10); Call_update 2 2 (1 / 10)]
    /\ heap w2 !! 1 = Some wa' /\ heap w2 !! 3 = Some ba'
    /\ (elt wa' 0 0 = 17 / 20 /\ elt wa' 0 1 = - 1 / 20 /\ elt ba' 0 0 = - 1 / 10)%R
    /\ mini_batches [sample_a; sample_a; sample_a; sample_b; sample_a] 5 3
       = Some [[sample_a; sample_a; sample_a]; [sample_b; sample_a]]
    /\ length [sample_b; sample_a] = 5 mod 3
    /\ length [sample_b; sample_a] < 3.
Proof.
  assert (Hsamples :
            status_of (Network.pass_samples [sample_b; sample_a]
                         demo_train_net demo_train_world)
            = Returned tt).
  { vm_compute. reflexivity. }
  assert (Hlayers :
            exists fc1,
              Network.layers
                (final_self (Network.pass_samples [sample_b; sample_a]
                               demo_train_net demo_train_world))
                !! 1 = Some (FullyConnected fc1)
              /\ length
                   (Network.layers
                      (final_self (Network.pass_samples [sample_b; sample_a]
                                     demo_train_net demo_train_world))) = 3
              /\ FullyConnectedLayer.N fc1 = 1 /\ FullyConnectedLayer.N_p fc1 = 2
              /\ FullyConnectedLayer.W fc1 = 1 /\ FullyConnectedLayer.B fc1 = 3
              /\ FullyConnectedLayer.dW_sum fc1 = 6
              /\ FullyConnectedLayer.dB_sum fc1 = 7).
  { eexists. split; [vm_compute; reflexivity|]. vm_compute. repeat split. }
  assert (Hsums :
            exists wa ba dws dbs,
              let w1 := final_world (Network.pass_samples [sample_b; sample_a]
                                       demo_train_net demo_train_world) in
              heap w1 !! 1 = Some wa /\ heap w1 !! 3 = Some ba
              /\ heap w1 !! 6 = Some dws /\ heap w1 !! 7 = Some dbs
              /\ (elt wa 0 0 = 1 /\ elt wa 0 1 = 0 /\ elt ba 0 0 = 0
                  /\ elt dws 0 0 = 3 /\ elt dws 0 1 = 1 /\ elt dbs 0 0 = 2)%R).
  { eexists _, _, _, _. cbv zeta.
    split; [vm_compute; reflexivity|]. split; [vm_compute; reflexivity|].
    split; [vm_compute; reflexivity|]. split; [vm_compute; reflexivity|].
    repeat split; settle_reals. }
  destruct (Network.pass_samples [sample_b; sample_a] demo_train_net demo_train_world)
    as [[] net1 w1| |] eqn:E; [|discriminate Hsamples|discriminate Hsamples].
  cbn [final_self final_world] in Hlayers, Hsums.
  destruct Hlayers as (fc1 & Hl & Hlen3 & HN & HNp & HW & HB & HdW & HdB).
  destruct Hsums as (wa & ba & dws & dbs & Hwa & Hba & Hdws & Hdbs
                     & Ea0 & Ea1 & Eb & Es0 & Es1 & Ed).
  destruct (mini_batch_pass_divides_by_batch_length demo_train_net demo_train_world
              (1 / 10) [sample_b; sample_a] net1 w1 demo_train_net_wf E)
    as [(w2 & Hrun & Hcalls & Hstep) Hlast].
  destruct (Hstep ltac:(discriminate) 1 fc1 ltac:(lia) Hl)
    as (wa0 & ba0 & dws0 & dbs0 & wa' & ba' & dws' & dbs'
        & Hwa0 & Hba0 & Hdws0 & Hdbs0 & Hwa' & Hba' & _ & _ & HWv & HBv & _ & _).
  rewrite HW, Hwa in Hwa0. injection Hwa0 as <-.
  rewrite HB, Hba in Hba0. injection Hba0 as <-.
  rewrite HdW, Hdws in Hdws0. injection Hdws0 as <-.
  rewrite HdB, Hdbs in Hdbs0. injection Hdbs0 as <-.
  rewrite HW in Hwa'. rewrite HB in Hba'. rewrite HN, HNp in HWv. rewrite HN in HBv.
  destruct (Hlast [sample_a; sample_a; sample_a; sample_b; sample_a] 3%Z
              [[sample_a; sample_a; sample_a]; [sample_b; sample_a]]
              ltac:(lia) ltac:(reflexivity) ltac:(reflexivity)
              ltac:(vm_compute; lia)) as [Hlen Hlt].
  exists net1, w1, w2, wa', ba'.
  split; [reflexivity|]. split; [exact Hrun|].
  split; [rewrite Hcalls, Hlen3; reflexivity|].
  split; [exact Hwa'|]. split; [exact Hba'|].
  split.
  { rewrite (HWv 0 0) by lia. rewrite (HWv 0 1) by lia. rewrite (HBv 0) by lia.
    rewrite Ea0, Ea1, Eb, Es0, Es1, Ed. cbn [length INR]. repeat split; lra. }
  split; [reflexivity|]. split; [exact Hlen | exact Hlt].
Defined.

(* ====================================================================== *)
(** ** One epoch of stochastic_gradient_descent *)
(* ====================================================================== *)

Lemma stable_report_cost_points (j : nat) (test_data : option (list sample))
    (training_data : list sample) (cost_amount : R) :
  stable Network.cost_points (Network.report j test_data training_data cost_amount).
Proof.
  unfold Network.report. destruct (truthy test_data); [|apply stable_print].
  apply stable_bind; [apply stable_total_cost; reflexivity | intros c].
  apply stable_bind; [apply stable_mean_cost | intros tc].
  apply stable_bind; [apply stable_modify_self; reflexivity | intros _].
  apply stable_bind; [apply stable_test_network; reflexivity | intros correct].
  apply stable_bind; [apply stable_mean_cost | intros c1].
  apply stable_bind; [apply stable_mean_cost | intros c2].
  apply stable_print.
Qed.

Lemma stable_batches_cost_points (eta : R) (batches : list (list sample)) :
  stable Network.cost_points
    (for_each batches (fun _ mini_batch => Network.mini_batch_pass eta mini_batch) tt).
Proof.
  apply stable_for_each. intros [] b. apply stable_mini_batch_pass. reflexivity.
Qed.

(* ====================================================================== *)
(** ** Sums of real numbers *)
(* ====================================================================== *)

Lemma sum_upto_ext (n : nat) (f g : nat -> R) :
  (forall i, i < n -> f i = g i) -> sum_upto n f = sum_upto n g.
Proof.
  induction n as [|n IH]; intros H; cbn; [reflexivity|].
  rewrite IH by (intros; apply H; lia). rewrite H by lia. reflexivity.
Qed.

Lemma sum_upto_nonneg (n : nat) (f : nat -> R) :
  (forall i, i < n -> (0 <= f i)%R) -> (0 <= sum_upto n f)%R.
Proof.
  induction n as [|n IH]; intros H; cbn; [lra|].
  specialize (IH ltac:(intros; apply H; lia)). specialize (H n ltac:(lia)). lra.
Qed.

Lemma sum_upto_pos (n : nat) (f : nat -> R) :
  0 < n -> (forall i, i < n -> (0 < f i)%R) -> (0 < sum_upto n f)%R.
Proof.
  intros Hn H. destruct n as [|n]; [lia|]. cbn.
  assert (0 <= sum_upto n f)%R.
  { apply sum_upto_nonneg. intros i Hi. apply Rlt_le, H. lia. }
  specialize (H n ltac:(lia)). lra.
Qed.

Lemma sum_upto_scale (n : nat) (f : nat -> R) (c : R) :
  sum_upto n (fun i => (f i * c)%R) = (sum_upto n f * c)%R.
Proof. induction n as [|n IH]; cbn; [lra|]. rewrite IH. lra. Qed.

Lemma sum_upto_zero (n : nat) (f : nat -> R) :
  (forall i, i < n -> f i = 0%R) -> sum_upto n f = 0%R.
Proof.
  induction n as [|n IH]; intros H; cbn; [reflexivity|].
  rewrite IH by (intros; apply H; lia). rewrite H by lia. lra.
Qed.

Lemma sum_upto_term_le (n : nat) (f : nat -> R) (k : nat) :
  k < n -> (forall i, i < n -> (0 <= f i)%R) -> (f k <= sum_upto n f)%R.
Proof.
  induction n as [|n IH]; intros Hk H; [lia|]. cbn.
  assert (0 <= sum_upto n f)%R by (apply sum_upto_nonneg; intros; apply H; lia).
  destruct (Nat.eq_dec k n) as [->|Hne].
  - lra.
  - specialize (IH ltac:(lia) ltac:(intros; apply H; lia)).
    specialize (H n ltac:(lia)). lra.
Qed.

(* ====================================================================== *)
(** ** The sigmoid and softmax layers *)
(* ====================================================================== *)

Lemma sigmoid_range (v : R) : (0 < 1 / (1 + exp (- v)) < 1)%R.
Proof.
  pose proof (exp_pos (- v)) as H.
  split.
  - apply Rdiv_lt_0_compat; lra.
  - apply (Rmult_lt_reg_r (1 + exp (- v))); [lra|].
    unfold Rdiv. rewrite Rmult_assoc, Rinv_l by lra. lra.
Qed.

Lemma sigmoid_prime_bound (s g : R) :
  (0 < s < 1)%R -> (Rabs (s * (1 - s) * g) <= Rabs g / 4)%R.
Proof.
  intros Hs. rewrite Rabs_mult.
  assert (H1 : (0 <= s * (1 - s) <= 1 / 4)%R).
  { split; [apply Rmult_le_pos; lra|].
    pose proof (Rle_0_sqr (s - 1 / 2)) as Hq. unfold Rsqr in Hq. lra. }
  rewrite (Rabs_right (s * (1 - s))) by lra.
  pose proof (Rabs_pos g) as Hg.
  apply Rle_trans with (1 / 4 * Rabs g)%R; [|lra].
  apply Rmult_le_compat_r; lra.
Qed.

(** X1. [SigmoidLayer.forward_propagation] on an array of any shape returns a
    new array of that shape, whatever the [N] of the layer, binds
    [activation] to it and leaves every existing array as it is; its
    entries are [1 / (1 + exp(-x))], from 0 to 1. The two bounds are not
    excluded: the floating-point result is 1 for a large [x] and 0 for a
    large [-x]. *)
Theorem sigmoid_forward_propagation_range
    (self : SigmoidLayer.t) (w : world) (x : loc) (xa : ndarray) :
  heap w !! x = Some xa ->
  exists a,
    SigmoidLayer.forward_propagation x self w
    = Ok (length (heap w)) (SigmoidLayer.set_activation (length (heap w)) self)
        (set_heap (heap w ++ [a]) w)
    /\ nrows a = nrows xa /\ ncols a = ncols xa
    /\ forall i j,
         elt a i j = (1 / (1 + exp (- elt xa i j)))%R
         /\ (0 <= elt a i j <= 1)%R.
Proof.
  intros Hx. eexists. split.
  { unfold SigmoidLayer.forward_propagation.
    rewrite (bind_Ok _ _ _ _ _ _ _ (load_Ok _ _ _ _ Hx)).
    rewrite (bind_Ok _ _ _ _ _ _ _ (alloc_Ok _ _ _)).
    reflexivity. }
  cbn. split; [reflexivity|]. split; [reflexivity|].
  intros i j. split; [reflexivity|].
  pose proof (sigmoid_range (elt xa i j)). lra.
Qed.

(** A sigmoid layer declared with seven neurons takes the three entries of
    the example array; the middle one, of 0, becomes a half. *)
Lemma sigmoid_forward_propagation_range_witness :
  exists a,
    SigmoidLayer.forward_propagation 0 (SigmoidLayer.mk 7 1) demo_relu_world
    = Ok 3 (SigmoidLayer.mk 7 3) (set_heap (heap demo_relu_world ++ [a]) demo_relu_world)
    /\ nrows a = 3 /\ ncols a = 1
    /\ (0 <= elt a 0 0 <= 1)%R
    /\ elt a 1 0 = (1 / 2)%R.
Proof.
  destruct (sigmoid_forward_propagation_range (SigmoidLayer.mk 7 1) demo_relu_world 0
              demo_pre eq_refl) as (a & Hrun & Hr & Hc & Hv).
  exists a. split; [exact Hrun|]. split; [exact Hr|]. split; [exact Hc|].
  split; [apply Hv|].
  destruct (Hv 1 0) as [-> _]. cbn. rewrite Ropp_0, exp_0. lra.
Defined.

(** X2. After [forward_propagation(x)], [backward_propagation(g)] of a
    sigmoid layer on a gradient of the shape of [x] returns a new array with
    the entries [s * (1 - s) * g] for [s = 1 / (1 + exp(-x))]; each is at
    most a quarter of the entry of [g] in absolute value. *)
Theorem sigmoid_backward_propagation_after_forward
    (self : SigmoidLayer.t) (w : world) (x g : loc) (xa ga : ndarray) :
  heap w !! x = Some xa ->
  heap w !! g = Some ga ->
  nrows ga = nrows xa -> ncols ga = ncols xa ->
  exists self' w' ra,
    (SigmoidLayer.forward_propagation x;; SigmoidLayer.backward_propagation g) self w
    = Ok (S (length (heap w))) self' w'
    /\ SigmoidLayer.activation self' = length (heap w)
    /\ heap w' !! S (length (heap w)) = Some ra
    /\ nrows ra = nrows xa /\ ncols ra = ncols xa
    /\ forall i j, i < nrows xa -> j < ncols xa ->
         let s := (1 / (1 + exp (- elt xa i j)))%R in
         elt ra i j = (s * (1 - s) * elt ga i j)%R
         /\ (Rabs (elt ra i j) <= Rabs (elt ga i j) / 4)%R.
Proof.
  intros Hx Hg Hr Hc.
  set (a := np_map (fun v => (1 / (1 + exp (- v)))%R) xa).
  set (w1 := set_heap (heap w ++ [a]) w).
  assert (Hfwd : SigmoidLayer.forward_propagation x self w
                 = Ok (length (heap w))
                     (SigmoidLayer.set_activation (length (heap w)) self) w1).
  { unfold SigmoidLayer.forward_propagation.
    rewrite (bind_Ok _ _ _ _ _ _ _ (load_Ok _ _ _ _ Hx)).
    rewrite (bind_Ok _ _ _ _ _ _ _ (alloc_Ok _ _ _)).
    reflexivity. }
  assert (Ha : heap w1 !! length (heap w) = Some a).
  { cbn. apply lookup_alloc_new. }
  assert (Hg1 : heap w1 !! g = Some ga).
  { cbn. apply lookup_alloc_old. exact Hg. }
  eexists _, _, _. split.
  { rewrite (bind_Ok _ _ _ _ _ _ _ Hfwd).
    unfold SigmoidLayer.backward_propagation.
    rewrite bind_get_self. cbn [SigmoidLayer.activation SigmoidLayer.set_activation].
    rewrite (bind_Ok _ _ _ _ _ _ _ (load_Ok _ _ _ _ Ha)).
    rewrite (np_binop_same_shape Rmult a (np_map (fun v => (1 - v)%R) a) eq_refl eq_refl
             : np_multiply _ _ = _).
    rewrite bind_np_Some.
    rewrite (bind_Ok _ _ _ _ _ _ _ (load_Ok _ _ _ _ Hg1)).
    match goal with
    | |- context [np_multiply ?p ga] =>
        rewrite (np_binop_same_shape Rmult p ga Hr Hc : np_multiply _ _ = _)
    end.
    rewrite bind_np_Some. rewrite alloc_Ok.
    cbn. rewrite length_app. cbn. replace (length (heap w) + 1) with (S (length (heap w))) by lia.
    reflexivity. }
  split; [reflexivity|]. split.
  { cbn. rewrite lookup_app_r by (rewrite length_app; cbn; lia).
    rewrite length_app. cbn.
    replace (S (length (heap w)) - (length (heap w) + 1)) with 0 by lia. reflexivity. }
  cbn. split; [reflexivity|]. split; [reflexivity|].
  intros i j Hi Hj. subst a. cbn.
  rewrite !(bidx_lt (nrows xa) i), !(bidx_lt (ncols xa) j) by lia.
  split; [reflexivity|]. apply sigmoid_prime_bound. apply sigmoid_range.
Qed.

(** The example array and the example gradient. *)
Lemma sigmoid_backward_propagation_after_forward_witness :
  exists self' w' ra,
    (SigmoidLayer.forward_propagation 0;; SigmoidLayer.backward_propagation 2)
      (SigmoidLayer.mk 3 1) demo_relu_world
    = Ok 4 self' w'
    /\ heap w' !! 4 = Some ra
    /\ (Rabs (elt ra 2 0) <= Rabs 7 / 4)%R.
Proof.
  destruct (sigmoid_backward_propagation_after_forward (SigmoidLayer.mk 3 1)
              demo_relu_world 0 2 demo_pre demo_up eq_refl eq_refl eq_refl eq_refl)
    as (self' & w' & ra & Hrun & _ & Hra & _ & _ & Hv).
  exists self', w', ra. split; [exact Hrun|]. split; [exact Hra|].
  apply (Hv 2 0); cbn; lia.
Defined.

Lemma np_sum_div_scalar (a : ndarray) (s : R) :
  np_sum (np_div_scalar a s) = (np_sum a / s)%R.
Proof.
  unfold np_sum, np_div_scalar, np_map. cbn. unfold Rdiv.
  rewrite <- sum_upto_scale. apply sum_upto_ext. intros i _.
  rewrite <- sum_upto_scale. reflexivity.
Qed.

Lemma np_sum_exp_pos (a : ndarray) :
  0 < nrows a -> 0 < ncols a -> (0 < np_sum (np_exp a))%R.
Proof.
  intros Hr Hc. unfold np_sum, np_exp, np_map. cbn.
  apply sum_upto_pos; [exact Hr|]. intros i _.
  apply sum_upto_pos; [exact Hc|]. intros j _. apply exp_pos.
Qed.

Lemma np_sum_term_le (a : ndarray) (i j : nat) :
  i < nrows a -> j < ncols a ->
  (forall i' j', (0 <= elt a i' j')%R) ->
  (elt a i j <= np_sum a)%R.
Proof.
  intros Hi Hj Hpos. unfold np_sum.
  apply Rle_trans with (sum_upto (ncols a) (fun j' => elt a i j')).
  - apply (sum_upto_term_le (ncols a) (fun j' => elt a i j') j Hj). intros; apply Hpos.
  - apply (sum_upto_term_le (nrows a) (fun i' => sum_upto (ncols a) (fun j' => elt a i' j')) i Hi).
    intros i' _. apply sum_upto_nonneg. intros; apply Hpos.
Qed.

(** X3. [SoftmaxLayer.forward_propagation] on an array with at least one
    entry, and entries of at most 300 in absolute value, stores
    [exp(x) / sum(exp(x))]: every entry is positive and at most 1, and the
    entries add up to 1, in exact arithmetic; in floating point, up to
    rounding. The bound keeps the exponentials and their quotients within
    the range of the floats: without it an exponential can overflow, and
    the quotient be undefined, or vanish, and the entry be 0. *)
Theorem softmax_forward_propagation_distribution
    (self : SoftmaxLayer.t) (w : world) (x : loc) (xa : ndarray) :
  heap w !! x = Some xa ->
  0 < nrows xa -> 0 < ncols xa ->
  (forall i j, i < nrows xa -> j < ncols xa -> (Rabs (elt xa i j) <= 300)%R) ->
  exists a,
    SoftmaxLayer.forward_propagation x self w
    = Ok (length (heap w)) (SoftmaxLayer.set_activation (length (heap w)) self)
        (set_heap (heap w ++ [a]) w)
    /\ nrows a = nrows xa /\ ncols a = ncols xa
    /\ (forall i j, elt a i j = (exp (elt xa i j) / np_sum (np_exp xa))%R)
    /\ (forall i j, (0 < elt a i j)%R)
    /\ (forall i j, i < nrows xa -> j < ncols xa -> (elt a i j <= 1)%R)
    /\ np_sum a = 1%R.
Proof.
  intros Hx Hr Hc _.
  pose proof (np_sum_exp_pos xa Hr Hc) as HS.
  set (a := np_div_scalar (np_exp xa) (np_sum (np_exp xa))).
  assert (Hsum : np_sum a = 1%R).
  { unfold a. rewrite np_sum_div_scalar. unfold Rdiv. apply Rinv_r. lra. }
  assert (Hpos : forall i j, (0 < elt a i j)%R).
  { intros i j. cbn. apply Rdiv_lt_0_compat; [apply exp_pos | exact HS]. }
  exists a. split.
  { unfold SoftmaxLayer.forward_propagation.
    rewrite (bind_Ok _ _ _ _ _ _ _ (load_Ok _ _ _ _ Hx)).
    rewrite (bind_Ok _ _ _ _ _ _ _ (alloc_Ok _ _ _)).
    reflexivity. }
  split; [reflexivity|]. split; [reflexivity|].
  split; [intros; reflexivity|]. split; [exact Hpos|]. split; [|exact Hsum].
  intros i j Hi Hj. rewrite <- Hsum.
  apply np_sum_term_le; [exact Hi | exact Hj |]. intros. apply Rlt_le, Hpos.
Qed.

(** The softmax of the example array, whose entries are -2, 0 and 3. *)
Lemma softmax_forward_propagation_distribution_witness :
  exists a,
    SoftmaxLayer.forward_propagation 0 (SoftmaxLayer.mk 3 1) demo_relu_world
    = Ok 3 (SoftmaxLayer.mk 3 3) (set_heap (heap demo_relu_world ++ [a]) demo_relu_world)
    /\ (0 < elt a 0 0 <= 1)%R
    /\ np_sum a = 1%R.
Proof.
  destruct (softmax_forward_propagation_distribution (SoftmaxLayer.mk 3 1)
              demo_relu_world 0 demo_pre eq_refl ltac:(cbn; lia) ltac:(cbn; lia))
    as (a & Hrun & _ & _ & _ & Hpos & Hle & Hsum).
  - intros [|[|[|i]]] [|j]; cbn; intros Hi Hj; try lia; apply Rabs_le; lra.
  - exists a. split; [exact Hrun|]. split; [|exact Hsum].
    split; [apply Hpos | apply Hle; cbn; lia].
Defined.

(* ====================================================================== *)
(** ** The cost functions and their gradients *)
(* ====================================================================== *)

Lemma broadcast_dim_comm (m n : nat) : broadcast_dim m n = broadcast_dim n m.
Proof.
  unfold broadcast_dim.
  destruct (Nat.eqb_spec m n) as [->|Hmn].
  - rewrite Nat.eqb_refl. reflexivity.
  - destruct (Nat.eqb_spec n m) as [E|_]; [congruence|].
    destruct (Nat.eqb_spec m 1) as [->|Hm], (Nat.eqb_spec n 1) as [->|Hn];
      congruence.
Qed.

Lemma np_sum_ext (a b : ndarray) :
  nrows a = nrows b -> ncols a = ncols b ->
  (forall i j, i < nrows a -> j < ncols a -> elt a i j = elt b i j) ->
  np_sum a = np_sum b.
Proof.
  intros Hr Hc H. unfold np_sum. rewrite <- Hr, <- Hc.
  apply sum_upto_ext. intros i Hi. apply sum_upto_ext. intros j Hj. auto.
Qed.

Lemma np_sum_square_nonneg (d : ndarray) : (0 <= np_sum (np_square d))%R.
Proof.
  unfold np_sum. apply sum_upto_nonneg. intros i _.
  apply sum_upto_nonneg. intros j _. cbn.
  pose proof (Rle_0_sqr (elt d i j)) as H. unfold Rsqr in H. exact H.
Qed.

Lemma float_max_lower : (1024 <= float_max)%R.
Proof.
  unfold float_max.
  assert (H1 : (1 <= 2 ^ 52)%R) by (apply pow_R1_Rle; lra).
  assert (H2 : (/ 2 ^ 52 <= 1)%R).
  { rewrite <- Rinv_1. apply Rinv_le_contravar; lra. }
  assert (H3 : (2 ^ 10 <= 2 ^ 1023)%R) by (apply Rle_pow; [lra | lia]).
  assert (H4 : (2 ^ 10 = 1024)%R) by (simpl; lra).
  nra.
Qed.

(** X6. On arrays of finite floats, [quadratic_cost] is never negative,
    whatever shapes are broadcast together; it takes its arguments in
    either order, failing for both orders or for none; and it is zero on
    two copies of an array. The arrays of this development hold such
    entries; an array with an infinite entry, whose difference with itself
    is undefined, and an array of integers, whose squares wrap around, are
    not among them. *)
Theorem quadratic_cost_properties (expected_output activation : ndarray) :
  finite_entries expected_output -> finite_entries activation ->
  (forall c, quadratic_cost expected_output activation = Some c -> (0 <= c)%R)
  /\ quadratic_cost expected_output activation
     = quadratic_cost activation expected_output
  /\ quadratic_cost activation activation = Some 0%R.
Proof.
  intros _ _. split; [|split].
  - unfold quadratic_cost. intros c.
    destruct (np_subtract expected_output activation) as [d|]; [|discriminate].
    cbn [mbind option_bind]. intros [= <-]. pose proof (np_sum_square_nonneg d). lra.
  - unfold quadratic_cost, np_subtract, np_binop.
    rewrite (broadcast_dim_comm (nrows activation)),
      (broadcast_dim_comm (ncols activation)).
    destruct (broadcast_dim (nrows expected_output) (nrows activation)) as [r|];
      [|reflexivity].
    destruct (broadcast_dim (ncols expected_output) (ncols activation)) as [c|];
      [|reflexivity].
    cbn. do 2 f_equal. apply sum_upto_ext. intros i _.
    apply sum_upto_ext. intros j _. ring.
  - unfold quadratic_cost, np_subtract.
    rewrite np_binop_same_shape by reflexivity. cbn [mbind option_bind]. f_equal.
    assert (E : np_sum (np_square
                  (mk_ndarray (nrows activation) (ncols activation)
                     (fun i j =>
                        (elt activation (bidx (nrows activation) i)
                           (bidx (ncols activation) j)
                         - elt activation (bidx (nrows activation) i)
                             (bidx (ncols activation) j))%R))) = 0%R).
    { unfold np_sum. cbn. apply sum_upto_zero. intros i _.
      apply sum_upto_zero. intros j _. ring. }
    rewrite E. lra.
Qed.

(** The two columns of the example, [[5; 6; 7]] expected and [[-2; 0; 3]]
    obtained: half of [49 + 36 + 16]. *)
Lemma quadratic_cost_properties_witness :
  quadratic_cost demo_up demo_pre = quadratic_cost demo_pre demo_up
  /\ quadratic_cost demo_pre demo_pre = Some 0%R
  /\ exists c, quadratic_cost demo_up demo_pre = Some c /\ (0 <= c)%R
               /\ c = (101 / 2)%R.
Proof.
  pose proof float_max_lower as Hmax.
  destruct (quadratic_cost_properties demo_up demo_pre) as (Hpos & Hsym & Hzero).
  - intros [|[|[|i]]] [|j]; cbn; intros Hi Hj; try lia; apply Rabs_le; lra.
  - intros [|[|[|i]]] [|j]; cbn; intros Hi Hj; try lia; apply Rabs_le; lra.
  - split; [exact Hsym|]. split; [exact Hzero|].
    eexists. split; [reflexivity|]. split; [apply Hpos; reflexivity|].
    vm_compute. lra.
Defined.

Lemma sum_upto_update (n : nat) (f f' : nat -> R) (k : nat) :
  k < n -> (forall i, i < n -> i <> k -> f' i = f i) ->
  sum_upto n f' = (sum_upto n f + (f' k - f k))%R.
Proof.
  induction n as [|n IH]; intros Hk H; [lia|]. cbn.
  destruct (Nat.eq_dec k n) as [->|Hne].
  - rewrite (sum_upto_ext n f' f) by (intros; apply H; lia). lra.
  - rewrite IH by (try lia; intros; apply H; lia).
    rewrite (H n) by lia. lra.
Qed.

Lemma np_sum_update (a a' : ndarray) (k l : nat) :
  nrows a' = nrows a -> ncols a' = ncols a ->
  k < nrows a -> l < ncols a ->
  (forall i j, i < nrows a -> j < ncols a -> (i, j) <> (k, l) -> elt a' i j = elt a i j) ->
  np_sum a' = (np_sum a + (elt a' k l - elt a k l))%R.
Proof.
  intros Hr Hc Hk Hl H. unfold np_sum. rewrite Hr, Hc.
  rewrite (sum_upto_update (nrows a)
             (fun i => sum_upto (ncols a) (fun j => elt a i j))
             (fun i => sum_upto (ncols a) (fun j => elt a' i j)) k Hk).
  - rewrite (sum_upto_update (ncols a) (fun j => elt a k j) (fun j => elt a' k j) l Hl).
    + lra.
    + intros j Hj Hne. apply H; [lia | lia | congruence].
  - intros i Hi Hne. apply sum_upto_ext. intros j Hj. apply H; [lia | lia | congruence].
Qed.

(** X7. [quadratic_cost_prime] is the gradient of [quadratic_cost] in the
    activation: for arrays of one shape, the cost as a function of what is
    added to one entry of the activation has, at zero, the derivative that
    [quadratic_cost_prime] gives at that entry. *)
Theorem quadratic_cost_prime_is_gradient
    (expected_output activation gradient : ndarray) (k l : nat) :
  nrows activation = nrows expected_output ->
  ncols activation = ncols expected_output ->
  k < nrows activation -> l < ncols activation ->
  quadratic_cost_prime expected_output activation = Some gradient ->
  (forall h, exists c,
      quadratic_cost expected_output (perturb activation k l h) = Some c)
  /\ derivable_pt_lim
       (fun h => default 0%R (quadratic_cost expected_output (perturb activation k l h)))
       0 (elt gradient k l).
Proof.
  intros Hr Hc Hk Hl Hg.
  unfold quadratic_cost_prime, np_subtract in Hg.
  rewrite np_binop_same_shape in Hg by congruence. injection Hg as <-.
  cbn [elt]. rewrite !bidx_lt by lia.
  assert (Hcost : forall h,
            quadratic_cost expected_output (perturb activation k l h)
            = Some (default 0%R (quadratic_cost expected_output activation)
                    + h * (elt activation k l - elt expected_output k l)
                    + h * h / 2)%R).
  { intros h. unfold quadratic_cost, np_subtract.
    rewrite !np_binop_same_shape by (cbn; congruence).
    cbn [mbind option_bind default]. unfold Datatypes.id. f_equal.
    match goal with
    | |- (_ * np_sum ?a')%R = (_ * np_sum ?a + _ + _)%R =>
        rewrite (np_sum_update a a' k l)
    end; cbn; try congruence; try lia.
    - rewrite !bidx_lt by lia. rewrite !Nat.eqb_refl. cbn. lra.
    - intros i j Hi Hj Hne. rewrite !bidx_lt by lia.
      destruct (Nat.eqb_spec i k) as [->|_], (Nat.eqb_spec j l) as [->|_];
        cbn; congruence. }
  split.
  { intros h. eexists. apply Hcost. }
  intros eps Heps. exists (mkposreal eps Heps). intros h Hh0 Hh. cbn in Hh.
  rewrite !Hcost. cbn [default from_option]. unfold Datatypes.id.
  generalize (default 0%R (quadratic_cost expected_output activation)). intros c.
  match goal with
  | |- (Rabs ?e < _)%R => replace e with (h / 2)%R by (field; exact Hh0)
  end.
  unfold Rdiv. rewrite Rabs_mult. rewrite (Rabs_right (/ 2)) by lra. lra.
Qed.

(** Two arrays of the example. *)
Lemma quadratic_cost_prime_is_gradient_witness :
  exists gradient,
    quadratic_cost_prime demo_g demo_B = Some gradient
    /\ derivable_pt_lim
         (fun h => default 0%R (quadratic_cost demo_g (perturb demo_B 1 0 h)))
         0 (elt gradient 1 0).
Proof.
  eexists. split; [reflexivity|].
  apply (quadratic_cost_prime_is_gradient demo_g demo_B _ 1 0);
    [reflexivity | reflexivity | cbn; lia | cbn; lia | reflexivity].
Defined.

Lemma sum_upto_plus (n : nat) (f g : nat -> R) :
  sum_upto n (fun i => (f i + g i)%R) = (sum_upto n f + sum_upto n g)%R.
Proof. induction n as [|n IH]; cbn; [lra|]. rewrite IH. lra. Qed.

Lemma sum_upto_opp (n : nat) (f : nat -> R) :
  sum_upto n (fun i => (- f i)%R) = (- sum_upto n f)%R.
Proof. induction n as [|n IH]; cbn; [lra|]. rewrite IH. lra. Qed.

(** The elementwise product of two arrays of the same shape. *)
Lemma np_sum_weighted_shift (e z : ndarray) (c : R) :
  sum_upto (nrows e)
    (fun i => sum_upto (ncols e) (fun j => (elt e i j * (elt z i j - c))%R))
  = (sum_upto (nrows e) (fun i => sum_upto (ncols e) (fun j => (elt e i j * elt z i j)%R))
     - np_sum e * c)%R.
Proof.
  unfold np_sum. rewrite <- sum_upto_scale.
  replace (sum_upto (nrows e)
             (fun i => sum_upto (ncols e) (fun j => elt e i j * elt z i j)) -
           sum_upto (nrows e) (fun i => sum_upto (ncols e) (fun j => elt e i j) * c))%R
    with (sum_upto (nrows e)
            (fun i => sum_upto (ncols e) (fun j => elt e i j * elt z i j)) +
          - sum_upto (nrows e) (fun i => sum_upto (ncols e) (fun j => elt e i j) * c))%R
    by lra.
  rewrite <- sum_upto_opp, <- sum_upto_plus. apply sum_upto_ext. intros i _.
  rewrite <- sum_upto_scale, <- sum_upto_opp, <- sum_upto_plus.
  apply sum_upto_ext. intros j _. ring.
Qed.

(** The cost of a softmax output in closed form. *)
Lemma cross_entropy_cost_softmax (e z : ndarray) :
  nrows z = nrows e -> ncols z = ncols e -> 0 < nrows z -> 0 < ncols z ->
  cross_entropy_cost e (softmax_output z)
  = Some (np_sum e * ln (np_sum (np_exp z))
          - sum_upto (nrows e)
              (fun i => sum_upto (ncols e) (fun j => (elt e i j * elt z i j)%R)))%R.
Proof.
  intros Hr Hc Hn Hm. pose proof (np_sum_exp_pos z Hn Hm) as HS.
  unfold cross_entropy_cost, np_multiply.
  rewrite np_binop_same_shape by (cbn; congruence).
  cbn [mbind option_bind]. f_equal.
  pose proof (np_sum_weighted_shift e z (ln (np_sum (np_exp z)))) as Hshift.
  match goal with
  | |- (- np_sum ?a = _)%R =>
      assert (E : np_sum a
                  = sum_upto (nrows e)
                      (fun i => sum_upto (ncols e)
                         (fun j => (elt e i j * (elt z i j - ln (np_sum (np_exp z))))%R)))
  end.
  { unfold np_sum at 1. cbn [nrows ncols elt].
    apply sum_upto_ext. intros i Hi. apply sum_upto_ext. intros j Hj.
    rewrite !bidx_lt by lia. cbn.
    unfold Rdiv. rewrite ln_mult, ln_Rinv, ln_exp; [ring | exact HS | apply exp_pos |].
    apply Rinv_0_lt_compat. exact HS. }
  rewrite E, Hshift. lra.
Qed.

Lemma derivable_pt_lim_ext (f g : R -> R) (x l : R) :
  (forall h, f h = g h) -> derivable_pt_lim g x l -> derivable_pt_lim f x l.
Proof.
  intros H Hg eps Heps. destruct (Hg eps Heps) as (delta & Hd).
  exists delta. intros h Hh0 Hh. rewrite !H. apply Hd; assumption.
Qed.

Section Calculus.
Local Open Scope R_scope.

(** The derivative of [h |-> E * ln (C + exp (zk + h)) - (A + ek * h)]. *)
Lemma log_sum_exp_derivative (E C zk A ek : R) :
  (0 <= C)%R ->
  derivable_pt_lim
    (fun h => E * ln (C + exp (zk + h)) - (A + ek * h))%R 0
    (E * (exp zk / (C + exp zk)) - ek)%R.
Proof.
  intros HC. pose proof (exp_pos zk) as Hz.
  assert (H1 : derivable_pt_lim (fct_cte zk + id)%F 0 (0 + 1)).
  { apply derivable_pt_lim_plus; [apply derivable_pt_lim_const | apply derivable_pt_lim_id]. }
  assert (H2 : derivable_pt_lim (comp exp (fct_cte zk + id)%F) 0
                 (exp ((fct_cte zk + id)%F 0) * (0 + 1))).
  { apply derivable_pt_lim_comp; [exact H1 | apply derivable_pt_lim_exp]. }
  assert (H3 : derivable_pt_lim (fct_cte C + comp exp (fct_cte zk + id)%F)%F 0
                 (0 + exp ((fct_cte zk + id)%F 0) * (0 + 1))).
  { apply derivable_pt_lim_plus; [apply derivable_pt_lim_const | exact H2]. }
  assert (Hpos : (0 < (fct_cte C + comp exp (fct_cte zk + id)%F)%F 0)%R).
  { unfold plus_fct, fct_cte, comp, id. pose proof (exp_pos (zk + 0)). lra. }
  assert (H4 : derivable_pt_lim
                 (comp ln (fct_cte C + comp exp (fct_cte zk + id)%F)%F) 0
                 (/ ((fct_cte C + comp exp (fct_cte zk + id)%F)%F 0)
                  * (0 + exp ((fct_cte zk + id)%F 0) * (0 + 1)))).
  { apply derivable_pt_lim_comp; [exact H3 | apply derivable_pt_lim_ln; exact Hpos]. }
  assert (H5 : derivable_pt_lim (fct_cte A + mult_real_fct ek id)%F 0 (0 + ek * 1)).
  { apply derivable_pt_lim_plus; [apply derivable_pt_lim_const|].
    apply derivable_pt_lim_scal, derivable_pt_lim_id. }
  pose proof (derivable_pt_lim_minus _ _ _ _ _
                (derivable_pt_lim_scal _ E _ _ H4) H5) as H6.
  unfold plus_fct, fct_cte, comp, id in H6.
  replace (E * (exp zk / (C + exp zk)) - ek)%R
    with (E * (/ (C + exp (zk + 0)) * (0 + exp (zk + 0) * (0 + 1))) - (0 + ek * 1))%R.
  - exact H6.
  - rewrite Rplus_0_r. field. lra.
Qed.

End Calculus.

(** X8. The shortcut of the combined mode. For an expected output whose
    entries add up to 1, [cross_entropy_cost_prime_SM] applied to the output
    of the softmax layer is the gradient, in the input [z] of the softmax
    layer, of [cross_entropy_cost] of that output: the derivative of the
    cost in what is added to one entry of [z] is the entry of
    [activation - expected_output]. *)
Theorem softmax_cross_entropy_gradient
    (expected_output z gradient : ndarray) (k l : nat) :
  nrows z = nrows expected_output -> ncols z = ncols expected_output ->
  k < nrows z -> l < ncols z ->
  np_sum expected_output = 1%R ->
  cross_entropy_cost_prime_SM expected_output (softmax_output z) = Some gradient ->
  (forall (self : SoftmaxLayer.t) (w : world) (x : loc),
      heap w !! x = Some z ->
      SoftmaxLayer.forward_propagation x self w
      = Ok (length (heap w)) (SoftmaxLayer.set_activation (length (heap w)) self)
          (set_heap (heap w ++ [softmax_output z]) w))
  /\ (forall h, exists c,
        cross_entropy_cost expected_output (softmax_output (perturb z k l h)) = Some c)
  /\ derivable_pt_lim
       (fun h => default 0%R
                   (cross_entropy_cost expected_output
                      (softmax_output (perturb z k l h))))
       0 (elt gradient k l).
Proof.
  intros Hr Hc Hk Hl Hone Hg.
  set (e := expected_output) in *.
  set (S0 := np_sum (np_exp z)).
  set (A := sum_upto (nrows e)
              (fun i => sum_upto (ncols e) (fun j => (elt e i j * elt z i j)%R))).
  set (C := (S0 - exp (elt z k l))%R).
  assert (HC : (0 <= C)%R).
  { unfold C, S0.
    pose proof (np_sum_term_le (np_exp z) k l Hk Hl
                  ltac:(intros; cbn; apply Rlt_le, exp_pos)) as H.
    cbn [np_exp np_map elt] in H. lra. }
  assert (Hcost : forall h,
            cross_entropy_cost e (softmax_output (perturb z k l h))
            = Some (1 * ln (C + exp (elt z k l + h)) - (A + elt e k l * h))%R).
  { intros h.
    rewrite (cross_entropy_cost_softmax e (perturb z k l h)) by (cbn; lia).
    rewrite Hone. f_equal. f_equal.
    - f_equal.
      rewrite (np_sum_update (np_exp z) (np_exp (perturb z k l h)) k l);
        try reflexivity; try assumption.
      + cbn [np_exp np_map elt perturb]. rewrite !Nat.eqb_refl. cbn [andb].
        unfold C, S0. f_equal. unfold np_exp. lra.
      + intros i j Hi Hj Hne. cbn.
        destruct (Nat.eqb_spec i k) as [->|_], (Nat.eqb_spec j l) as [->|_];
          cbn; congruence.
    - unfold A.
      pose proof (np_sum_update
                    (mk_ndarray (nrows e) (ncols e) (fun i j => (elt e i j * elt z i j)%R))
                    (mk_ndarray (nrows e) (ncols e)
                       (fun i j => (elt e i j * elt (perturb z k l h) i j)%R))
                    k l eq_refl eq_refl) as Hu.
      unfold np_sum in Hu. cbn [nrows ncols elt] in Hu. rewrite Hu.
      + cbn. rewrite !Nat.eqb_refl. cbn. lra.
      + lia.
      + lia.
      + intros i j Hi Hj Hne. cbn.
        destruct (Nat.eqb_spec i k) as [->|_], (Nat.eqb_spec j l) as [->|_];
          cbn; congruence. }
  split.
  { intros self w x Hx. unfold SoftmaxLayer.forward_propagation.
    rewrite (bind_Ok _ _ _ _ _ _ _ (load_Ok _ _ _ _ Hx)).
    rewrite (bind_Ok _ _ _ _ _ _ _ (alloc_Ok _ _ _)). reflexivity. }
  split.
  { intros h. eexists. apply Hcost. }
  unfold cross_entropy_cost_prime_SM, np_subtract in Hg.
  rewrite np_binop_same_shape in Hg by (cbn; congruence). injection Hg as <-.
  cbn [elt]. rewrite !bidx_lt by (cbn; lia).
  apply (derivable_pt_lim_ext _
           (fun h => (1 * ln (C + exp (elt z k l + h)) - (A + elt e k l * h))%R)).
  { intros h. rewrite Hcost. reflexivity. }
  replace (exp (elt z k l) / np_sum (np_exp z) - elt e k l)%R
    with (1 * (exp (elt z k l) / (C + exp (elt z k l))) - elt e k l)%R.
  - exact (log_sum_exp_derivative 1 C (elt z k l) A (elt e k l) HC).
  - fold S0. unfold C.
    replace (S0 - exp (elt z k l) + exp (elt z k l))%R with S0 by lra. lra.
Qed.

Lemma demo_one_hot_sum : np_sum demo_one_hot = 1%R.
Proof. unfold np_sum. cbn. lra. Qed.

(** A one-hot expected output and two logits. *)
Lemma softmax_cross_entropy_gradient_witness :
  exists gradient,
    cross_entropy_cost_prime_SM demo_one_hot (softmax_output demo_g) = Some gradient
    /\ derivable_pt_lim
         (fun h => default 0%R
                     (cross_entropy_cost demo_one_hot
                        (softmax_output (perturb demo_g 1 0 h))))
         0 (elt gradient 1 0).
Proof.
  eexists. split; [reflexivity|].
  apply (softmax_cross_entropy_gradient demo_one_hot demo_g _ 1 0);
    [reflexivity | reflexivity | cbn; lia | cbn; lia | exact demo_one_hot_sum
    | reflexivity].
Defined.

(* ====================================================================== *)
(** ** A training step of a fully connected layer *)
(* ====================================================================== *)

(** The run of [forward_propagation] on a conforming input. *)
Lemma fc_forward_propagation_run
    (self : FullyConnectedLayer.t) (w : world) (x : loc) (wa ba xa : ndarray) :
  heap w !! FullyConnectedLayer.W self = Some wa ->
  heap w !! FullyConnectedLayer.B self = Some ba ->
  heap w !! x = Some xa ->
  ncols wa = nrows xa -> nrows ba = nrows wa -> ncols ba = ncols xa ->
  FullyConnectedLayer.forward_propagation x self w
  = Ok (length (heap w))
      (FullyConnectedLayer.set_previous_layer_activations x
         (FullyConnectedLayer.set_Z (length (heap w)) self))
      (set_heap
         (heap w
          ++ [mk_ndarray (nrows wa) (ncols xa)
                (fun i j =>
                   (sum_upto (ncols wa)
                      (fun k => elt wa (bidx (nrows wa) i) k * elt xa k (bidx (ncols xa) j))
                    + elt ba (bidx (nrows wa) i) (bidx (ncols xa) j))%R)])
         w).
Proof.
  intros HW HB Hx Hin Hr Hc.
  rewrite (forward_propagation_conforming self w x wa xa HW Hx Hin).
  rewrite (np_dot_conforming wa xa Hin), bind_np_Some.
  rewrite (bind_Ok _ _ _ _ _ _ _ (load_Ok _ _ _ _ HB)).
  unfold np_add. rewrite np_binop_same_shape by (cbn; congruence).
  rewrite bind_np_Some. reflexivity.
Qed.

(** The run of [backward_propagation] on a conforming gradient that is not
    one of the two sum arrays. *)
Lemma fc_backward_propagation_run
    (self : FullyConnectedLayer.t) (w : world) (g : loc)
    (ga pa wa dws dbs : ndarray) :
  heap w !! g = Some ga ->
  heap w !! FullyConnectedLayer.previous_layer_activations self = Some pa ->
  heap w !! FullyConnectedLayer.W self = Some wa ->
  heap w !! FullyConnectedLayer.dW_sum self = Some dws ->
  heap w !! FullyConnectedLayer.dB_sum self = Some dbs ->
  ncols ga = 1 -> ncols pa = 1 ->
  nrows dws = nrows ga -> ncols dws = nrows pa ->
  nrows dbs = nrows ga -> ncols dbs = 1 ->
  nrows wa = nrows ga ->
  FullyConnectedLayer.dW_sum self <> FullyConnectedLayer.dB_sum self ->
  g <> FullyConnectedLayer.dW_sum self -> g <> FullyConnectedLayer.dB_sum self ->
  FullyConnectedLayer.W self <> FullyConnectedLayer.dW_sum self ->
  FullyConnectedLayer.W self <> FullyConnectedLayer.dB_sum self ->
  let dw := mk_ndarray (nrows ga) (nrows pa)
              (fun i j => sum_upto (ncols ga)
                            (fun k => elt ga i k * elt (np_transpose pa) k j)%R) in
  let dws' := mk_ndarray (nrows dws) (ncols dws)
                (fun i j => (elt dws (bidx (nrows dws) i) (bidx (ncols dws) j)
                             + elt dw (bidx (nrows dws) i) (bidx (ncols dws) j))%R) in
  let dbs' := mk_ndarray (nrows dbs) (ncols dbs)
                (fun i j => (elt dbs (bidx (nrows dbs) i) (bidx (ncols dbs) j)
                             + elt ga (bidx (nrows dbs) i) (bidx (ncols dbs) j))%R) in
  let r := mk_ndarray (ncols wa) (ncols ga)
             (fun i j => sum_upto (nrows wa)
                           (fun k => elt (np_transpose wa) i k * elt ga k j)%R) in
  FullyConnectedLayer.backward_propagation g self w
  = Ok (S (length (heap w)))
      (FullyConnectedLayer.set_dB g (FullyConnectedLayer.set_dW (length (heap w)) self))
      (set_heap
         (<[FullyConnectedLayer.dB_sum self := dbs']>
            (<[FullyConnectedLayer.dW_sum self := dws']> (heap w ++ [dw]))
          ++ [r])
         w).
Proof.
  intros Hg Hp HW HdW HdB Hgc Hpc Hr1 Hc1 Hr2 Hc2 HWr
         ndWdB ngdW ngdB nWdW nWdB dw dws' dbs' r.
  unfold FullyConnectedLayer.backward_propagation.
  rewrite bind_get_self.
  rewrite (bind_Ok _ _ _ _ _ _ _ (load_Ok _ _ _ _ Hg)).
  rewrite (bind_Ok _ _ _ _ _ _ _ (load_Ok _ _ _ _ Hp)).
  rewrite (np_dot_conforming ga (np_transpose pa)) by (cbn; congruence).
  rewrite bind_np_Some.
  rewrite (bind_Ok _ _ _ _ _ _ _ (alloc_Ok _ _ _)).
  rewrite bind_modify_self.
  erewrite bind_Ok; cycle 1.
  { eapply iadd_Ok; cbn.
    - apply lookup_alloc_old. exact HdW.
    - apply lookup_alloc_new.
    - apply np_inplace_same_shape; cbn; congruence. }
  rewrite bind_modify_self.
  erewrite bind_Ok; cycle 1.
  { eapply iadd_Ok; cbn.
    - rewrite lookup_insert_other by auto. apply lookup_alloc_old. exact HdB.
    - rewrite lookup_insert_other by auto. apply lookup_alloc_old. exact Hg.
    - apply np_inplace_same_shape; cbn; congruence. }
  erewrite bind_Ok; cycle 1.
  { apply load_Ok. cbn. rewrite !lookup_insert_other by auto.
    apply lookup_alloc_old. exact HW. }
  erewrite bind_Ok; cycle 1.
  { apply load_Ok. cbn. rewrite !lookup_insert_other by auto.
    apply lookup_alloc_old. exact Hg. }
  rewrite (np_dot_conforming (np_transpose wa) ga) by (cbn; congruence).
  rewrite bind_np_Some, alloc_Ok.
  cbn [heap set_heap]. rewrite !length_insert, length_app. cbn [length].
  replace (length (heap w) + 1) with (S (length (heap w))) by lia.
  reflexivity.
Qed.

(** X5. One training step of a fully connected layer: after
    [forward_propagation(x)], [backward_propagation(g)] and
    [update_parameters(m, eta)] with [m > 0], the weights are
    [W - eta * ((dW_sum + g . x^T) / m)], the biases are
    [B - eta * ((dB_sum + g) / m)] for the sums the layer started with, and
    both sums are zero. *)
Theorem fc_training_step
    (self : FullyConnectedLayer.t) (w : world) (x g : loc) (m : nat) (eta : R)
    (wa ba xa ga dws dbs : ndarray) :
  heap w !! FullyConnectedLayer.W self = Some wa ->
  heap w !! FullyConnectedLayer.B self = Some ba ->
  heap w !! FullyConnectedLayer.dW_sum self = Some dws ->
  heap w !! FullyConnectedLayer.dB_sum self = Some dbs ->
  heap w !! x = Some xa ->
  heap w !! g = Some ga ->
  ncols wa = nrows xa -> ncols xa = 1 ->
  nrows ba = nrows wa -> ncols ba = 1 ->
  nrows ga = nrows wa -> ncols ga = 1 ->
  nrows dws = nrows wa -> ncols dws = ncols wa ->
  nrows dbs = nrows ba -> ncols dbs = ncols ba ->
  NoDup [FullyConnectedLayer.W self; FullyConnectedLayer.B self;
         FullyConnectedLayer.dW_sum self; FullyConnectedLayer.dB_sum self] ->
  g <> FullyConnectedLayer.dW_sum self -> g <> FullyConnectedLayer.dB_sum self ->
  0 < m ->
  exists r self' w' wa' ba' dws' dbs',
    (FullyConnectedLayer.forward_propagation x;;
     r ← FullyConnectedLayer.backward_propagation g;
     FullyConnectedLayer.update_parameters m eta;;
     mret r) self w
    = Ok r self' w'
    /\ heap w' !! FullyConnectedLayer.W self' = Some wa'
    /\ heap w' !! FullyConnectedLayer.B self' = Some ba'
    /\ heap w' !! FullyConnectedLayer.dW_sum self' = Some dws'
    /\ heap w' !! FullyConnectedLayer.dB_sum self' = Some dbs'
    /\ (forall i j, i < nrows wa -> j < ncols wa ->
          elt wa' i j
          = (elt wa i j - eta * ((elt dws i j + elt ga i 0 * elt xa j 0) / INR m))%R)
    /\ (forall i, i < nrows wa ->
          elt ba' i 0 = (elt ba i 0 - eta * ((elt dbs i 0 + elt ga i 0) / INR m))%R)
    /\ (forall i j, elt dws' i j = 0%R)
    /\ (forall i j, elt dbs' i j = 0%R).
Proof.
  intros HW HB HdW HdB Hx Hg Hin Hxc Hbr Hbc Hgr Hgc Hdwr Hdwc Hdbr Hdbc Hnd ngdW ngdB Hm.
  pose proof (NoDup_4 _ _ _ _ Hnd) as (nWB & nWdW & nWdB & nBdW & nBdB & ndWdB).
  (* forward *)
  pose proof (fc_forward_propagation_run self w x wa ba xa HW HB Hx Hin Hbr
                ltac:(congruence)) as Hfwd.
  set (self1 := FullyConnectedLayer.set_previous_layer_activations x
                  (FullyConnectedLayer.set_Z (length (heap w)) self)) in *.
  match type of Hfwd with
  | _ = Ok _ _ ?v => set (w1 := v) in *
  end.
  assert (L1 : forall l a, heap w !! l = Some a -> heap w1 !! l = Some a).
  { intros l a H. cbn. apply lookup_alloc_old. exact H. }
  (* backward *)
  pose proof (fc_backward_propagation_run self1 w1 g ga xa wa dws dbs
                (L1 _ _ Hg) (L1 _ _ Hx) (L1 _ _ HW) (L1 _ _ HdW) (L1 _ _ HdB)
                Hgc Hxc ltac:(congruence) ltac:(congruence) ltac:(congruence)
                ltac:(congruence) ltac:(congruence) ndWdB ngdW ngdB nWdW nWdB) as Hbwd.
  cbv zeta in Hbwd.
  set (self2 := FullyConnectedLayer.set_dB g
                  (FullyConnectedLayer.set_dW (length (heap w1)) self1)) in *.
  match type of Hbwd with
  | _ = Ok _ _ (set_heap (<[_ := ?b]> (<[_ := ?a]> _) ++ _) _) =>
      set (dws2 := a) in *; set (dbs2 := b) in *
  end.
  match type of Hbwd with
  | _ = Ok _ _ ?v => set (w2 := v) in *
  end.
  assert (HW2 : heap w2 !! FullyConnectedLayer.W self2 = Some wa).
  { cbn. apply lookup_alloc_old. rewrite !lookup_insert_other by auto.
    apply lookup_alloc_old, lookup_alloc_old. exact HW. }
  assert (HB2 : heap w2 !! FullyConnectedLayer.B self2 = Some ba).
  { cbn. apply lookup_alloc_old. rewrite !lookup_insert_other by auto.
    apply lookup_alloc_old, lookup_alloc_old. exact HB. }
  assert (HdW2 : heap w2 !! FullyConnectedLayer.dW_sum self2 = Some dws2).
  { cbn. apply lookup_alloc_old. rewrite lookup_insert_other by auto.
    eapply lookup_insert_same. apply lookup_alloc_old, lookup_alloc_old. exact HdW. }
  assert (HdB2 : heap w2 !! FullyConnectedLayer.dB_sum self2 = Some dbs2).
  { cbn. apply lookup_alloc_old. eapply lookup_insert_same.
    rewrite lookup_insert_other by auto.
    apply lookup_alloc_old, lookup_alloc_old. exact HdB. }
  (* update *)
  pose proof (fc_update_parameters_run self2 w2 m eta wa ba dws2 dbs2
                HW2 HB2 HdW2 HdB2 ltac:(cbn; congruence) ltac:(cbn; congruence)
                ltac:(cbn; congruence) ltac:(cbn; congruence) Hnd) as Hupd.
  eexists _, self2, _, _, _, _, _. split.
  { rewrite (bind_Ok _ _ _ _ _ _ _ Hfwd), (bind_Ok _ _ _ _ _ _ _ Hbwd).
    rewrite (bind_Ok _ _ _ _ _ _ _ Hupd). reflexivity. }
  cbn [heap set_heap].
  split.
  { rewrite !lookup_insert_other by (cbn; auto).
    eapply lookup_insert_same. exact HW2. }
  split.
  { rewrite !lookup_insert_other by (cbn; auto).
    eapply lookup_insert_same. rewrite lookup_insert_other by (cbn; auto). exact HB2. }
  split.
  { rewrite lookup_insert_other by (cbn; auto).
    eapply lookup_insert_same. rewrite !lookup_insert_other by (cbn; auto). exact HdW2. }
  split.
  { eapply lookup_insert_same. rewrite !lookup_insert_other by (cbn; auto). exact HdB2. }
  split.
  { intros i j Hi Hj. rewrite descended_entry by assumption.
    unfold dws2. cbn. rewrite !bidx_lt by lia. rewrite Hgc. cbn. do 3 f_equal. lra. }
  split.
  { intros i Hi. rewrite descended_entry by lia.
    unfold dbs2. cbn. rewrite !bidx_lt by lia. reflexivity. }
  split; intros i j; reflexivity.
Qed.

Lemma demo_fc_NoDup : NoDup [0; 2; 5; 6].
Proof.
  repeat (apply NoDup_cons;
          split; [intros Hx; apply list_elem_of_In in Hx; cbn in Hx; lia|]).
  apply NoDup_nil_2.
Qed.

(** The layer of the example, the input at location 8 and the gradient at
    location 9, with a batch of one. *)
Lemma fc_training_step_witness :
  exists r self' w' wa',
    (FullyConnectedLayer.forward_propagation 8;;
     r ← FullyConnectedLayer.backward_propagation 9;
     FullyConnectedLayer.update_parameters 1 (1 / 10);;
     mret r) demo_fc demo_world
    = Ok r self' w'
    /\ heap w' !! FullyConnectedLayer.W self' = Some wa'
    /\ elt wa' 1 2 = (6 - 1 / 10 * ((0 + 2 * 2) / INR 1))%R.
Proof.
  destruct (fc_training_step demo_fc demo_world 8 9 1 (1 / 10)
              demo_W demo_B demo_x demo_g (np_zeros 2 3) (np_zeros 2 1)
              eq_refl eq_refl eq_refl eq_refl eq_refl eq_refl
              eq_refl eq_refl eq_refl eq_refl eq_refl eq_refl
              eq_refl eq_refl eq_refl eq_refl
              demo_fc_NoDup ltac:(discriminate) ltac:(discriminate) ltac:(lia))
    as (r & self' & w' & wa' & ba' & dws' & dbs' & Hrun & HW & _ & _ & _ & Hv & _).
  exists r, self', w', wa'. split; [exact Hrun|]. split; [exact HW|].
  apply (Hv 1 2); cbn; lia.
Defined.

(** X4. [update_parameters] clears what it applies: the first call takes
    the step of the sums, [W - eta * (dW_sum / m)] and
    [B - eta * (dB_sum / m)], and a second call right after it leaves the
    contents of [W] and [B] as the first call left them, whatever its
    arguments. *)
Theorem fc_update_parameters_twice
    (self : FullyConnectedLayer.t) (w : world) (m m' : nat) (eta eta' : R)
    (wa ba dws dbs : ndarray) :
  heap w !! FullyConnectedLayer.W self = Some wa ->
  heap w !! FullyConnectedLayer.B self = Some ba ->
  heap w !! FullyConnectedLayer.dW_sum self = Some dws ->
  heap w !! FullyConnectedLayer.dB_sum self = Some dbs ->
  nrows dws = nrows wa -> ncols dws = ncols wa ->
  nrows dbs = nrows ba -> ncols dbs = ncols ba ->
  NoDup [FullyConnectedLayer.W self; FullyConnectedLayer.B self;
         FullyConnectedLayer.dW_sum self; FullyConnectedLayer.dB_sum self] ->
  0 < m -> 0 < m' ->
  exists w1 w2 wa1 ba1 wa2 ba2,
    FullyConnectedLayer.update_parameters m eta self w = Ok tt self w1
    /\ FullyConnectedLayer.update_parameters m' eta' self w1 = Ok tt self w2
    /\ heap w1 !! FullyConnectedLayer.W self = Some wa1
    /\ heap w1 !! FullyConnectedLayer.B self = Some ba1
    /\ heap w2 !! FullyConnectedLayer.W self = Some wa2
    /\ heap w2 !! FullyConnectedLayer.B self = Some ba2
    /\ (forall i j, i < nrows wa -> j < ncols wa ->
          elt wa1 i j = (elt wa i j - eta * (elt dws i j / INR m))%R)
    /\ (forall i j, i < nrows ba -> j < ncols ba ->
          elt ba1 i j = (elt ba i j - eta * (elt dbs i j / INR m))%R)
    /\ (forall i j, i < nrows wa -> j < ncols wa -> elt wa2 i j = elt wa1 i j)
    /\ (forall i j, i < nrows ba -> j < ncols ba -> elt ba2 i j = elt ba1 i j).
Proof.
  intros HW HB HdW HdB Hr1 Hc1 Hr2 Hc2 Hnd Hm Hm'.
  pose proof (NoDup_4 _ _ _ _ Hnd) as (nWB & nWdW & nWdB & nBdW & nBdB & ndWdB).
  pose proof (fc_update_parameters_run self w m eta wa ba dws dbs
                HW HB HdW HdB Hr1 Hc1 Hr2 Hc2 Hnd) as H1.
  match type of H1 with _ = Ok _ _ ?v => set (w1 := v) in * end.
  assert (HW1 : heap w1 !! FullyConnectedLayer.W self = Some (descended wa dws m eta)).
  { cbn. rewrite !lookup_insert_other by auto. eapply lookup_insert_same. exact HW. }
  assert (HB1 : heap w1 !! FullyConnectedLayer.B self = Some (descended ba dbs m eta)).
  { cbn. rewrite !lookup_insert_other by auto. eapply lookup_insert_same.
    rewrite lookup_insert_other by auto. exact HB. }
  assert (HdW1 : heap w1 !! FullyConnectedLayer.dW_sum self = Some (np_fill dws 0)).
  { cbn. rewrite lookup_insert_other by auto. eapply lookup_insert_same.
    rewrite !lookup_insert_other by auto. exact HdW. }
  assert (HdB1 : heap w1 !! FullyConnectedLayer.dB_sum self = Some (np_fill dbs 0)).
  { cbn. eapply lookup_insert_same. rewrite !lookup_insert_other by auto. exact HdB. }
  pose proof (fc_update_parameters_run self w1 m' eta' _ _ _ _
                HW1 HB1 HdW1 HdB1 Hr1 Hc1 Hr2 Hc2 Hnd) as H2.
  match type of H2 with _ = Ok _ _ ?v => set (w2 := v) in * end.
  exists w1, w2, (descended wa dws m eta), (descended ba dbs m eta),
    (descended (descended wa dws m eta) (np_fill dws 0) m' eta'),
    (descended (descended ba dbs m eta) (np_fill dbs 0) m' eta').
  split; [exact H1|]. split; [exact H2|].
  split; [exact HW1|]. split; [exact HB1|].
  split.
  { unfold w2. cbn [heap set_heap]. rewrite !lookup_insert_other by auto.
    eapply lookup_insert_same. exact HW1. }
  split.
  { unfold w2. cbn [heap set_heap]. rewrite !lookup_insert_other by auto.
    eapply lookup_insert_same. rewrite lookup_insert_other by auto. exact HB1. }
  split; [intros i j Hi Hj; apply descended_entry; assumption|].
  split; [intros i j Hi Hj; apply descended_entry; assumption|].
  split.
  - intros i j Hi Hj. rewrite (descended_entry (descended wa dws m eta)) by (cbn; lia).
    cbn [np_fill np_map elt]. unfold Rdiv. ring.
  - intros i j Hi Hj. rewrite (descended_entry (descended ba dbs m eta)) by (cbn; lia).
    cbn [np_fill np_map elt]. unfold Rdiv. ring.
Qed.

(** The layer of the example with sums that are not zero, updated twice:
    the first call moves [W[1][2]] from 6 to 26/5, the second one leaves it
    there. *)
Lemma fc_update_parameters_twice_witness :
  exists w1 w2 wa1 wa2,
    FullyConnectedLayer.update_parameters 2 (1 / 10) demo_fc demo_sums_world
    = Ok tt demo_fc w1
    /\ FullyConnectedLayer.update_parameters 3 (1 / 5) demo_fc w1 = Ok tt demo_fc w2
    /\ heap w1 !! 0 = Some wa1
    /\ heap w2 !! 0 = Some wa2
    /\ elt wa1 1 2 = (26 / 5)%R
    /\ elt wa2 1 2 = elt wa1 1 2.
Proof.
  destruct (fc_update_parameters_twice demo_fc demo_sums_world 2 3 (1 / 10) (1 / 5)
              demo_W demo_B demo_dW_sum demo_dB_sum
              eq_refl eq_refl eq_refl eq_refl eq_refl eq_refl eq_refl eq_refl
              demo_fc_NoDup ltac:(lia) ltac:(lia))
    as (w1 & w2 & wa1 & ba1 & wa2 & ba2 & H1 & H2 & HW1 & _ & HW2 & _ & Hv1 & _ & Hv & _).
  exists w1, w2, wa1, wa2.
  split; [exact H1|]. split; [exact H2|]. split; [exact HW1|]. split; [exact HW2|].
  split.
  - rewrite (Hv1 1 2) by (cbn; lia). cbn. lra.
  - apply Hv; cbn; lia.
Defined.

(* ====================================================================== *)
(** ** What a forward pass returns *)
(* ====================================================================== *)

Section Ensures.
Context {T X : Type} (Q : X -> T -> Prop).

Lemma ensures_bind {Y} (m : M T Y) (k : Y -> M T X) :
  (forall y, ensures Q (k y)) -> ensures Q (m ≫= k).
Proof.
  intros Hk s w x s' w'. rewrite bind_unfold.
  destruct (m s w) as [y s1 w1| |]; [|discriminate|discriminate].
  apply Hk.
Qed.

Lemma ensures_raise (e : exn) : ensures Q (raise e).
Proof. intros s w x s' w' [=]. Qed.

Lemma ensures_py_exit : ensures Q py_exit.
Proof. intros s w x s' w' [=]. Qed.

Lemma ensures_get_self_mret (f : T -> X) :
  (forall s, Q (f s) s) -> ensures Q (self ← get_self; mret (f self)).
Proof. intros H s w x s' w' [= <- <- _]. apply H. Qed.

End Ensures.

Lemma ensures_fc_forward_propagation (x : loc) :
  ensures (fun r self => FullyConnectedLayer.Z self = r)
    (FullyConnectedLayer.forward_propagation x).
Proof.
  unfold FullyConnectedLayer.forward_propagation.
  do 3 (apply ensures_bind; intros ?).
  destruct (negb _).
  - do 2 (apply ensures_bind; intros ?). apply ensures_py_exit.
  - do 6 (apply ensures_bind; intros ?).
    apply ensures_get_self_mret. reflexivity.
Qed.

Lemma layer_forward_propagation_value (x : loc) (self : Layer) (m : M Layer loc) :
  Layer.forward_propagation x self = Some m ->
  ensures (fun r self' => forward_value self' = Some r) m.
Proof.
  destruct self as [l|l|l|l|l]; cbn; intros [= <-]; intros s w r s' w';
    unfold embed.
  - pose proof (ensures_fc_forward_propagation x l w) as H.
    destruct (FullyConnectedLayer.forward_propagation x l w) as [r1 l1 w1| |];
      [|discriminate|discriminate].
    intros [= <- <- <-]. cbn. f_equal. eapply H. reflexivity.
  - unfold SigmoidLayer.forward_propagation, load, mbind, M_bind.
    destruct (heap w !! x); [|discriminate]. cbn. intros [= <- <- <-]. reflexivity.
  - unfold ReluLayer.forward_propagation, load, mbind, M_bind.
    destruct (heap w !! x); [|discriminate]. cbn. intros [= <- <- <-]. reflexivity.
  - unfold SoftmaxLayer.forward_propagation, load, mbind, M_bind.
    destruct (heap w !! x); [|discriminate]. cbn. intros [= <- <- <-]. reflexivity.
Qed.

(** One iteration of the loop of [forward_pass] that returns: the layer at
    that position holds the returned array, and the list has the same
    length. *)
Lemma forward_body_value (output : loc) (layer : nat) (s : Network.t) (w : world)
    (r : loc) (s' : Network.t) (w' : world) :
  forward_body output layer s w = Ok r s' w' ->
  length (Network.layers s') = length (Network.layers s)
  /\ exists l, Network.layers s' !! layer = Some l /\ forward_value l = Some r.
Proof.
  unfold forward_body. rewrite bind_unfold. unfold Network.layer_index at 1.
  destruct (py_index (length (Network.layers s)) (Z.of_nat layer)) as [k|] eqn:Ek;
    [|discriminate].
  apply py_index_of_nat in Ek as [-> Hlt].
  unfold Network.on_layer.
  destruct (Network.layers s !! layer) as [l0|] eqn:El; [|discriminate].
  unfold embed, Layer.invoke.
  destruct (Layer.forward_propagation output l0) as [m|] eqn:Em; [|discriminate].
  rewrite bind_unfold. cbn [record_call].
  pose proof (layer_forward_propagation_value output l0 m Em) as Hm.
  match goal with
  | |- context [m l0 ?w1] =>
      specialize (Hm l0 w1); destruct (m l0 w1) as [r1 l1 w2| |];
      [|discriminate|discriminate]
  end.
  intros [= <- <- <-]. cbn. split.
  - apply length_insert.
  - exists l1. split; [|eapply Hm; reflexivity].
    apply list_lookup_insert_eq. exact Hlt.
Qed.

Lemma forward_loop_value (m a : nat) :
  forall (output : loc) (s : Network.t) (w : world) r s' w',
    for_each (seq a (S m)) forward_body output s w = Ok r s' w' ->
    length (Network.layers s') = length (Network.layers s)
    /\ exists l, Network.layers s' !! (a + m) = Some l /\ forward_value l = Some r.
Proof.
  revert a. induction m as [|m IH]; intros a output s w r s' w'.
  - cbn [seq for_each]. rewrite bind_unfold.
    destruct (forward_body output a s w) as [r1 s1 w1| |] eqn:E;
      [|discriminate|discriminate].
    intros [= <- <- <-]. rewrite Nat.add_0_r. eapply forward_body_value; eauto.
  - change (seq a (S (S m))) with (a :: seq (S a) (S m)). cbn [for_each].
    rewrite bind_unfold.
    destruct (forward_body output a s w) as [r1 s1 w1| |] eqn:E;
      [|discriminate|discriminate].
    intros H. apply IH in H as [Hlen (l & Hl & Hv)].
    apply forward_body_value in E as [Hlen1 _].
    split; [congruence|]. exists l. split; [|exact Hv].
    replace (a + S m) with (S a + m) by lia. exact Hl.
Qed.

Lemma forward_pass_unfold (input_data : loc) (net : Network.t) (w : world) (l0 : Layer) :
  Network.layers net !! 0 = Some l0 ->
  let net0 :=
    Network.set_layers
      (<[0 := match l0 with
              | FullyConnected l =>
                  FullyConnected (FullyConnectedLayer.set_activation input_data l)
              | Sigmoid l => Sigmoid (SigmoidLayer.set_activation input_data l)
              | Relu l => Relu (ReluLayer.set_activation input_data l)
              | Softmax l => Softmax (SoftmaxLayer.set_activation input_data l)
              | Input l => Input (InputLayer.set_activation input_data l)
              end]> (Network.layers net)) net in
  Network.forward_pass input_data net w
  = for_each (seq 1 (length (Network.layers net) - 1)) forward_body input_data net0 w.
Proof.
  intros H0 net0. unfold Network.forward_pass.
  rewrite bind_unfold. unfold Network.layer_index at 1.
  assert (Hlen : 0 < length (Network.layers net)).
  { apply lookup_lt_Some in H0. exact H0. }
  replace (py_index (length (Network.layers net)) 0) with (Some 0); cycle 1.
  { unfold py_index. cbn. destruct (Z.ltb_spec 0 (Z.of_nat (length (Network.layers net))));
      [reflexivity | lia]. }
  rewrite bind_unfold. unfold Network.on_layer at 1. rewrite H0.
  unfold embed, Layer.set_activation, modify_self. rewrite bind_get_self.
  fold net0. replace (length (Network.layers net0)) with (length (Network.layers net))
    by (unfold net0; cbn; rewrite length_insert; reflexivity).
  reflexivity.
Qed.

Lemma forward_pass_empty (input_data : loc) (net : Network.t) (w : world) :
  Network.layers net = [] ->
  Network.forward_pass input_data net w = Raise IndexError net w.
Proof.
  intros H. unfold Network.forward_pass. rewrite bind_unfold.
  unfold Network.layer_index. rewrite H. reflexivity.
Qed.

(** X10. A [forward_pass] that returns keeps the number of layers; on a
    network of the input layer alone it returns its argument; and what it
    returns is the array the last layer holds: its [activation], which
    [backward_pass] reads as [self.layers[-1].activation], or its [Z] when
    the last layer is fully connected. *)
Theorem forward_pass_returns_last_activation
    (input_data : loc) (net : Network.t) (w : world)
    (r : loc) (net' : Network.t) (w' : world) :
  Network.forward_pass input_data net w = Ok r net' w' ->
  length (Network.layers net') = length (Network.layers net)
  /\ (length (Network.layers net) = 1 -> r = input_data)
  /\ exists layer,
       last (Network.layers net') = Some layer
       /\ match layer with
          | FullyConnected fc =>
              1 < length (Network.layers net) -> FullyConnectedLayer.Z fc = r
          | _ => Layer.get_activation layer w' = Ok r layer w'
          end.
Proof.
  intros Hrun.
  destruct (Network.layers net !! 0) as [l0|] eqn:H0; cycle 1.
  { apply lookup_ge_None in H0.
    rewrite forward_pass_empty in Hrun; [discriminate|].
    destruct (Network.layers net); [reflexivity | cbn in H0; lia]. }
  rewrite (forward_pass_unfold input_data net w l0 H0) in Hrun. cbv zeta in Hrun.
  pose proof (lookup_lt_Some _ _ _ H0) as Hlen.
  destruct (length (Network.layers net) - 1) as [|m] eqn:Em.
  - cbn in Hrun. injection Hrun as <- <- <-. cbn.
    rewrite length_insert. split; [reflexivity|]. split; [reflexivity|].
    destruct (Network.layers net) as [|x [|y ls]] eqn:El; cbn in *; try lia.
    injection H0 as ->. eexists. split; [reflexivity|].
    destruct l0; cbn; first [reflexivity | lia].
  - apply forward_loop_value in Hrun as [Hl (layer & Hlayer & Hv)].
    cbn in Hl. rewrite length_insert in Hl.
    split; [exact Hl|]. split; [lia|].
    exists layer. split.
    + rewrite last_lookup, Hl. replace (Init.Nat.pred _) with (1 + m) by lia.
      exact Hlayer.
    + destruct layer as [fc|l|l|l|l]; cbn in Hv |- *;
        [intros _; congruence | | | | discriminate];
        injection Hv as ->; reflexivity.
Qed.

(** The network of the example. *)
Lemma forward_pass_returns_last_activation_witness :
  exists r net' w' layer,
    Network.forward_pass 0 demo_net demo_net_world = Ok r net' w'
    /\ length (Network.layers net') = 3
    /\ last (Network.layers net') = Some layer.
Proof.
  assert (Hst : exists r, status_of (Network.forward_pass 0 demo_net demo_net_world)
                          = Returned r).
  { eexists. vm_compute. reflexivity. }
  destruct Hst as [r0 Hst].
  destruct (Network.forward_pass 0 demo_net demo_net_world) as [r net' w'| |] eqn:E;
    [|discriminate Hst|discriminate Hst].
  destruct (forward_pass_returns_last_activation 0 demo_net demo_net_world r net' w' E)
    as (Hlen & _ & layer & Hlast & _).
  exists r, net', w', layer. split; [reflexivity|]. split; [exact Hlen | exact Hlast].
Defined.

(* ====================================================================== *)
(** ** A network has to end in an activation layer *)
(* ====================================================================== *)

Lemma py_index_last (len : nat) : 0 < len -> py_index len (-1) = Some (len - 1).
Proof.
  intros H. unfold py_index. cbn.
  destruct (Z.leb_spec (- Z.of_nat len) (-1)); [|lia]. f_equal. lia.
Qed.

Lemma stable_iadd {T A} (proj : T -> A) (t s : loc) : stable proj (iadd t s).
Proof.
  intros self w. unfold iadd, mbind, M_bind, load, np, store.
  destruct (heap w !! t) as [ta|] eqn:Et; [|reflexivity].
  destruct (heap w !! s); [|reflexivity].
  destruct (np_iadd ta _); cbn; [|reflexivity]. rewrite Et. reflexivity.
Qed.

Lemma stable_isub_value {T A} (proj : T -> A) (t : loc) (v : ndarray) :
  stable proj (isub_value t v).
Proof.
  intros self w. unfold isub_value, mbind, M_bind, load, np, store.
  destruct (heap w !! t) as [ta|] eqn:Et; [|reflexivity].
  destruct (np_isub ta v); cbn; [|reflexivity]. rewrite Et. reflexivity.
Qed.

Lemma stable_fill {T A} (proj : T -> A) (t : loc) (v : R) : stable proj (fill t v).
Proof.
  intros self w. unfold fill, mbind, M_bind, load, store.
  destruct (heap w !! t) as [ta|] eqn:Et; [|reflexivity]. rewrite Et. reflexivity.
Qed.

Lemma stable_py_exit {T A X} (proj : T -> A) : stable proj (py_exit (X := X)).
Proof. intros s w. reflexivity. Qed.

(** X9. [backward_pass] on a network whose last layer is a fully connected
    layer, which has no [activation] attribute (no method of the class
    assigns one, see [fc_activation_never_assigned]), raises AttributeError
    at [self.layers[-1].activation], in either mode, before anything is
    changed. *)
Theorem backward_pass_needs_activation_layer
    (net : Network.t) (w : world) (expected_output : loc)
    (fc : FullyConnectedLayer.t) :
  last (Network.layers net) = Some (FullyConnected fc) ->
  FullyConnectedLayer.activation fc = None ->
  Network.backward_pass expected_output net w = Raise AttributeError net w.
Proof.
  intros Hlast Hnone.
  rewrite last_lookup in Hlast.
  assert (Hlen : 0 < length (Network.layers net)).
  { apply lookup_lt_Some in Hlast.
    destruct (Network.layers net); cbn in *; lia. }
  replace (Init.Nat.pred (length (Network.layers net)))
    with (length (Network.layers net) - 1) in Hlast by lia.
  assert (H : Network.first_upstream_gradient expected_output net w
              = Raise AttributeError net w).
  { unfold Network.first_upstream_gradient. rewrite bind_get_self.
    rewrite bind_unfold. unfold Network.layer_index at 1.
    rewrite (py_index_last _ Hlen). rewrite bind_unfold.
    unfold Network.on_layer. rewrite Hlast. unfold embed, Layer.get_activation.
    rewrite Hnone. rewrite set_layers_id by exact Hlast. reflexivity. }
  unfold Network.backward_pass. rewrite bind_get_self.
  destruct (negb (Network.is_SM_CE net)); rewrite bind_unfold, H; reflexivity.
Qed.

(** An input layer and the fully connected layer of the example. *)
Lemma backward_pass_needs_activation_layer_witness :
  Network.backward_pass 9 demo_open_net demo_world
  = Raise AttributeError demo_open_net demo_world.
Proof.
  apply (backward_pass_needs_activation_layer demo_open_net demo_world 9 demo_fc);
    reflexivity.
Defined.

Lemma fc_activation_never_assigned :
  (forall n p rW rB (s : unit) w,
      exists l w', FullyConnectedLayer.init n p rW rB s w = Ok l s w'
                   /\ FullyConnectedLayer.activation l = None)
  /\ (forall x, stable FullyConnectedLayer.activation
                  (FullyConnectedLayer.forward_propagation x))
  /\ (forall g, stable FullyConnectedLayer.activation
                  (FullyConnectedLayer.backward_propagation g))
  /\ (forall m eta, stable FullyConnectedLayer.activation
                      (FullyConnectedLayer.update_parameters m eta)).
Proof.
  split; [|split; [|split]].
  - intros. eexists _, _. split; reflexivity.
  - intros x. unfold FullyConnectedLayer.forward_propagation.
    repeat first
      [ apply stable_bind; [|intros ?]
      | apply stable_mret | apply stable_get_self | apply stable_print
      | apply stable_alloc | apply stable_load | apply stable_np
      | apply stable_py_exit
      | apply stable_modify_self; intros ?; reflexivity
      | match goal with |- stable _ (if ?b then _ else _) => destruct b end ].
  - intros g. unfold FullyConnectedLayer.backward_propagation.
    repeat first
      [ apply stable_iadd
      | apply stable_bind; [|intros ?]
      | apply stable_mret | apply stable_get_self
      | apply stable_alloc | apply stable_load | apply stable_np
      | apply stable_modify_self; intros ?; reflexivity ].
  - intros m eta. unfold FullyConnectedLayer.update_parameters.
    repeat first
      [ apply stable_isub_value | apply stable_fill
      | apply stable_bind; [|intros ?]
      | apply stable_get_self | apply stable_load ].
Qed.

(* ====================================================================== *)
(** ** What a run appends to the trace and to the output *)
(* ====================================================================== *)

Section Appends.
Context {T E : Type} (proj : world -> list E).
Hypothesis proj_heap : forall h w, proj (set_heap h w) = proj w.

Lemma appends_weaken {X} (Q Q' : list E -> Prop) (m : M T X) :
  (forall ev, Q ev -> Q' ev) -> appends proj Q m -> appends proj Q' m.
Proof.
  intros HQ Hm s w x s' w' H. destruct (Hm _ _ _ _ _ H) as (ev & E1 & E2).
  exists ev. auto.
Qed.

Lemma appends_bind {X Y} (Q1 Q2 Q : list E -> Prop) (m : M T X) (k : X -> M T Y) :
  appends proj Q1 m -> (forall x, appends proj Q2 (k x)) ->
  (forall e1 e2, Q1 e1 -> Q2 e2 -> Q (e1 ++ e2)) ->
  appends proj Q (m ≫= k).
Proof.
  intros Hm Hk HQ s w y s' w'. rewrite bind_unfold.
  destruct (m s w) as [x s1 w1| |] eqn:Em; [|discriminate|discriminate].
  intros H. destruct (Hm _ _ _ _ _ Em) as (e1 & E1 & Q1e).
  destruct (Hk x _ _ _ _ _ H) as (e2 & E2 & Q2e).
  exists (e1 ++ e2). split; [|auto]. rewrite E2, E1, app_assoc. reflexivity.
Qed.

Lemma silent_intro {X} (m : M T X) :
  (forall s w x s' w', m s w = Ok x s' w' -> proj w' = proj w) -> silent proj m.
Proof.
  intros H s w x s' w' Hm. exists []. rewrite app_nil_r. split; [eauto | reflexivity].
Qed.

Lemma silent_elim {X} (m : M T X) s w x s' w' :
  silent proj m -> m s w = Ok x s' w' -> proj w' = proj w.
Proof.
  intros H Hm. destruct (H _ _ _ _ _ Hm) as (ev & E1 & ->).
  rewrite app_nil_r in E1. exact E1.
Qed.

Lemma silent_bind {X Y} (m : M T X) (k : X -> M T Y) :
  silent proj m -> (forall x, silent proj (k x)) -> silent proj (m ≫= k).
Proof.
  intros Hm Hk. eapply appends_bind; [exact Hm | exact Hk |].
  intros e1 e2 -> ->. reflexivity.
Qed.

Lemma silent_then {X Y} (Q : list E -> Prop) (m : M T X) (k : X -> M T Y) :
  silent proj m -> (forall x, appends proj Q (k x)) -> appends proj Q (m ≫= k).
Proof.
  intros Hm Hk. eapply appends_bind; [exact Hm | exact Hk |].
  intros e1 e2 -> H. exact H.
Qed.

Lemma appends_then_silent {X Y} (Q : list E -> Prop) (m : M T X) (k : X -> M T Y) :
  appends proj Q m -> (forall x, silent proj (k x)) -> appends proj Q (m ≫= k).
Proof.
  intros Hm Hk. eapply appends_bind; [exact Hm | exact Hk |].
  intros e1 e2 H ->. rewrite app_nil_r. exact H.
Qed.

Lemma silent_mret {X} (x : X) : silent proj (mret x : M T X).
Proof. apply silent_intro. intros s w y s' w' H; inversion H; subst; reflexivity. Qed.

Lemma silent_raise {X} (e : exn) : silent proj (raise e : M T X).
Proof. intros s w y s' w' [=]. Qed.

Lemma silent_py_exit {X} : silent proj (py_exit : M T X).
Proof. intros s w y s' w' [=]. Qed.

Lemma silent_get_self : silent proj (get_self : M T T).
Proof. apply silent_intro. intros s w y s' w' H; inversion H; subst; reflexivity. Qed.

Lemma silent_modify_self (f : T -> T) : silent proj (modify_self f).
Proof. apply silent_intro. intros s w y s' w' H; inversion H; subst; reflexivity. Qed.

Lemma silent_alloc (a : ndarray) : silent proj (alloc a : M T loc).
Proof using proj_heap.
  apply silent_intro. intros s w y s' w' H; inversion H; subst; apply proj_heap.
Qed.

Lemma silent_load (l : loc) : silent proj (load l : M T ndarray).
Proof.
  apply silent_intro. intros s w y s' w'. unfold load.
  destruct (heap w !! l); [|discriminate]. intros H; inversion H; subst; reflexivity.
Qed.

Lemma silent_store (l : loc) (a : ndarray) : silent proj (store l a : M T unit).
Proof using proj_heap.
  apply silent_intro. intros s w y s' w'. unfold store.
  destruct (heap w !! l); [|discriminate]. intros H; inversion H; subst; apply proj_heap.
Qed.

Lemma silent_np {X} (r : option X) : silent proj (np r : M T X).
Proof. destruct r; [apply silent_mret | apply silent_raise]. Qed.

Lemma silent_iadd (t s : loc) : silent proj (iadd t s : M T unit).
Proof using proj_heap.
  unfold iadd. repeat (apply silent_bind; [|intros ?]);
    first [apply silent_load | apply silent_np | apply silent_store].
Qed.

Lemma silent_isub_value (t : loc) (v : ndarray) : silent proj (isub_value t v : M T unit).
Proof using proj_heap.
  unfold isub_value. repeat (apply silent_bind; [|intros ?]);
    first [apply silent_load | apply silent_np | apply silent_store].
Qed.

Lemma silent_fill (t : loc) (v : R) : silent proj (fill t v : M T unit).
Proof using proj_heap.
  unfold fill. apply silent_bind; [apply silent_load | intros ?; apply silent_store].
Qed.

Lemma silent_for_each {A B} (l : list A) (body : B -> A -> M T B) :
  (forall b a, silent proj (body b a)) -> forall b, silent proj (for_each l body b).
Proof.
  intros Hbody. induction l as [|a l IH]; intros b; cbn [for_each].
  - apply silent_mret.
  - apply silent_bind; [apply Hbody | apply IH].
Qed.

(** A loop whose iteration for [a] appends exactly [f a]. *)
Lemma appends_for_each {A B} (f : A -> list E) (l : list A) (body : B -> A -> M T B) :
  (forall b a, appends proj (eq (f a)) (body b a)) ->
  forall b, appends proj (eq (l ≫= f)) (for_each l body b).
Proof.
  intros Hbody. induction l as [|a l IH]; intros b; cbn [for_each].
  - eapply appends_weaken; [|apply silent_mret]. intros ev ->. reflexivity.
  - eapply appends_bind; [apply Hbody | apply IH |].
    intros e1 e2 <- <-. reflexivity.
Qed.

(** A loop whose iterations each append [n] entries. *)
Lemma appends_for_each_length {A B} (n : nat) (l : list A) (body : B -> A -> M T B) :
  (forall b a, appends proj (fun ev => length ev = n) (body b a)) ->
  forall b, appends proj (fun ev => length ev = length l * n) (for_each l body b).
Proof.
  intros Hbody. induction l as [|a l IH]; intros b; cbn [for_each].
  - eapply appends_weaken; [|apply silent_mret]. intros ev ->. reflexivity.
  - eapply appends_bind; [apply Hbody | apply IH |].
    intros e1 e2 H1 H2. rewrite length_app, H1, H2. cbn. lia.
Qed.

End Appends.

Lemma silent_embed {U T X E} (proj : world -> list E) (inj : U -> T) (m : M U X) (u : U) :
  silent proj m -> silent proj (embed inj m u).
Proof.
  intros Hm. apply silent_intro. intros s w x s' w'. unfold embed.
  destruct (m u w) as [x1 u1 w1| |] eqn:Em; [|discriminate|discriminate].
  intros H; inversion H; subst. eapply silent_elim; eauto.
Qed.

Lemma appends_embed {U T X E} (proj : world -> list E) Q (inj : U -> T) (m : M U X) (u : U) :
  appends proj Q m -> appends proj Q (embed inj m u).
Proof.
  intros Hm s w x s' w'. unfold embed.
  destruct (m u w) as [x1 u1 w1| |] eqn:Em; [|discriminate|discriminate].
  intros H; inversion H; subst. eapply Hm; eauto.
Qed.

Lemma calls_set_heap (h : list ndarray) (w : world) : calls (set_heap h w) = calls w.
Proof. reflexivity. Qed.

Lemma stdout_set_heap (h : list ndarray) (w : world) : stdout (set_heap h w) = stdout w.
Proof. reflexivity. Qed.

Lemma silent_calls_print {T} (o : out) : silent calls (print o : M T unit).
Proof. apply silent_intro. intros s w y s' w' H; inversion H; subst; reflexivity. Qed.

Lemma silent_stdout_record_call {T} (c : call) : silent stdout (record_call c : M T unit).
Proof. apply silent_intro. intros s w y s' w' H; inversion H; subst; reflexivity. Qed.

Lemma appends_record_call {T} (c : call) : appends calls (eq [c]) (record_call c : M T unit).
Proof. intros s w y s' w' H; inversion H; subst. exists [c]. split; reflexivity. Qed.

Lemma appends_print {T} (o : out) : appends stdout (eq [o]) (print o : M T unit).
Proof. intros s w y s' w' H; inversion H; subst. exists [o]. split; reflexivity. Qed.

(** The steps of a proof that a method appends nothing. *)
Ltac silent_tac :=
  repeat first
    [ apply silent_iadd; intros ? ?; reflexivity
    | apply silent_isub_value; intros ? ?; reflexivity
    | apply silent_fill; intros ? ?; reflexivity
    | apply silent_bind; [|intros ?]
    | apply silent_mret
    | apply silent_raise
    | apply silent_py_exit
    | apply silent_get_self
    | apply silent_modify_self
    | apply silent_alloc; intros ? ?; reflexivity
    | apply silent_load
    | apply silent_store; intros ? ?; reflexivity
    | apply silent_np
    | apply silent_calls_print
    | apply silent_stdout_record_call
    | match goal with |- silent _ (if ?b then _ else _) => destruct b end ].

Lemma silent_calls_fc_forward_propagation (x : loc) :
  silent calls (FullyConnectedLayer.forward_propagation x).
Proof. unfold FullyConnectedLayer.forward_propagation. silent_tac. Qed.

(** The diagnostic is printed on the path that ends in [exit()] only. *)
Lemma silent_stdout_fc_forward_propagation (x : loc) :
  silent stdout (FullyConnectedLayer.forward_propagation x).
Proof.
  unfold FullyConnectedLayer.forward_propagation.
  do 3 (apply silent_bind; [silent_tac | intros ?]).
  destruct (negb _); [|silent_tac].
  intros s w y s' w' [=].
Qed.

Lemma silent_fc_backward_propagation {E} (proj : world -> list E) (g : loc) :
  (forall h w, proj (set_heap h w) = proj w) ->
  silent proj (FullyConnectedLayer.backward_propagation g).
Proof.
  intros H. unfold FullyConnectedLayer.backward_propagation.
  repeat first
    [ apply silent_iadd; exact H
    | apply silent_bind; [|intros ?]
    | apply silent_get_self | apply silent_modify_self | apply silent_load
    | apply silent_np | apply silent_alloc; exact H ].
Qed.

Lemma silent_fc_update_parameters {E} (proj : world -> list E) (m : nat) (eta : R) :
  (forall h w, proj (set_heap h w) = proj w) ->
  silent proj (FullyConnectedLayer.update_parameters m eta).
Proof.
  intros H. unfold FullyConnectedLayer.update_parameters.
  repeat first
    [ apply silent_isub_value; exact H
    | apply silent_fill; exact H
    | apply silent_bind; [|intros ?]
    | apply silent_get_self | apply silent_load ].
Qed.

(* ====================================================================== *)
(** ** What a run may write to *)
(* ====================================================================== *)

Lemma keeps_weaken {T X} (key : T -> T) (S S' : list loc) (P : call -> Prop) (k0 : T)
    (m : M T X) :
  (forall l, l ∈ S -> l ∈ S') -> keeps key S P k0 m -> keeps key S' P k0 m.
Proof.
  intros Hsub Hm s w Hs. destruct (Hm s w Hs) as [H1 H2].
  split; [exact H1 | eapply world_step_weaken; eauto].
Qed.

(** A method that keeps a finer part keeps a coarser one. *)
Lemma keeps_coarsen {T X} (key f : T -> T) (S : list loc) (P : call -> Prop) (k1 : T)
    (m : M T X) :
  (forall k0, f k0 = k1 -> keeps key S P k0 m) ->
  keeps (fun s => f (key s)) S P k1 m.
Proof.
  intros H s w Hs. destruct (H (key s) Hs s w eq_refl) as [H1 H2].
  split; [rewrite H1; exact Hs | exact H2].
Qed.

Lemma keeps_isub_value {T} (key : T -> T) S P k0 (target : loc) (v : ndarray) :
  target ∈ S -> keeps key S P k0 (isub_value target v).
Proof.
  intros Hin s w Hk. unfold isub_value, mbind, M_bind, load, np, store.
  destruct (heap w !! target) as [ta|] eqn:Et; [|split; [exact Hk | apply world_step_refl]].
  destruct (np_isub ta v) as [r|] eqn:Er; cbn;
    [|split; [exact Hk | apply world_step_refl]].
  rewrite Et. cbn. split; [exact Hk|].
  destruct (np_inplace_shape _ _ _ _ Er) as [Hr Hc].
  eapply world_step_set_heap_insert; eauto.
Qed.

Lemma keeps_fill {T} (key : T -> T) S P k0 (target : loc) (v : R) :
  target ∈ S -> keeps key S P k0 (fill target v).
Proof.
  intros Hin s w Hk. unfold fill, mbind, M_bind, load, store.
  destruct (heap w !! target) as [ta|] eqn:Et; [|split; [exact Hk | apply world_step_refl]].
  rewrite Et. cbn. split; [exact Hk|].
  eapply world_step_set_heap_insert; eauto.
Qed.

Section Frame_layers.
Context (P : call -> Prop).

Lemma keeps_fc_forward_propagation_nil (x : loc) (k0 : FullyConnectedLayer.t) :
  keeps fc_skeleton [] P k0 (FullyConnectedLayer.forward_propagation x).
Proof. unfold FullyConnectedLayer.forward_propagation. keeps_tac. Qed.

(** [forward_propagation] of any layer writes to no existing array. *)
Lemma keeps_layer_forward_propagation_nil (x : loc) (self : Layer) (m : M Layer loc) :
  Layer.forward_propagation x self = Some m ->
  keeps skeleton [] P (skeleton self) m.
Proof.
  destruct self as [l|l|l|l|l]; cbn; intros [= <-].
  - eapply (keeps_embed fc_skeleton skeleton); [reflexivity| |].
    + apply (keeps_fc_forward_propagation_nil x (fc_skeleton l)).
    + intros u' Hu. cbn. rewrite Hu. reflexivity.
  - eapply (keeps_embed (fun l => SigmoidLayer.mk (SigmoidLayer.N l) 0) skeleton);
      [reflexivity | apply keeps_sigmoid_forward_propagation |].
    intros u' Hu. cbn. rewrite Hu. reflexivity.
  - eapply (keeps_embed (fun l => ReluLayer.mk (ReluLayer.N l) 0) skeleton);
      [reflexivity | apply keeps_relu_forward_propagation |].
    intros u' Hu. cbn. rewrite Hu. reflexivity.
  - eapply (keeps_embed (fun l => SoftmaxLayer.mk (SoftmaxLayer.N l) 0) skeleton);
      [reflexivity | apply keeps_softmax_forward_propagation |].
    intros u' Hu. cbn. rewrite Hu. reflexivity.
Qed.

Lemma keeps_fc_update_parameters (m : nat) (eta : R) (k0 : FullyConnectedLayer.t) :
  keeps fc_skeleton (owned (FullyConnected k0)) P k0
    (FullyConnectedLayer.update_parameters m eta).
Proof.
  unfold FullyConnectedLayer.update_parameters.
  apply keeps_get_self_bind. intros s0 Hs0.
  assert (HW : FullyConnectedLayer.W s0 = FullyConnectedLayer.W k0) by (rewrite <- Hs0; reflexivity).
  assert (HB : FullyConnectedLayer.B s0 = FullyConnectedLayer.B k0) by (rewrite <- Hs0; reflexivity).
  assert (HdW : FullyConnectedLayer.dW_sum s0 = FullyConnectedLayer.dW_sum k0)
    by (rewrite <- Hs0; reflexivity).
  assert (HdB : FullyConnectedLayer.dB_sum s0 = FullyConnectedLayer.dB_sum k0)
    by (rewrite <- Hs0; reflexivity).
  rewrite HW, HB, HdW, HdB. cbn [owned].
  apply keeps_bind; [apply keeps_load | intros ?].
  apply keeps_bind; [apply keeps_isub_value; repeat constructor | intros ?].
  apply keeps_bind; [apply keeps_load | intros ?].
  apply keeps_bind; [apply keeps_isub_value; repeat constructor | intros ?].
  apply keeps_bind; [apply keeps_fill; repeat constructor | intros ?].
  apply keeps_fill; repeat constructor.
Qed.

Lemma owned_skeleton (l : Layer) : owned (skeleton l) = owned l.
Proof. destruct l; reflexivity. Qed.

(** [update_parameters] of a layer writes to the layer's own arrays only. *)
Lemma keeps_layer_update_parameters (n : nat) (eta : R) (self : Layer) (m : M Layer unit) :
  Layer.update_parameters n eta self = Some m ->
  keeps skeleton (owned self) P (skeleton self) m.
Proof.
  destruct self as [l|l|l|l|l]; cbn [Layer.update_parameters]; intros [= <-].
  - eapply (keeps_embed fc_skeleton skeleton); [reflexivity| |].
    + apply (keeps_fc_update_parameters n eta (fc_skeleton l)).
    + intros u' Hu. cbn. rewrite Hu. reflexivity.
  - eapply (keeps_embed (fun l => SigmoidLayer.mk (SigmoidLayer.N l) 0) skeleton);
      [reflexivity | apply keeps_mret |].
    intros u' Hu. cbn. rewrite Hu. reflexivity.
  - eapply (keeps_embed (fun l => ReluLayer.mk (ReluLayer.N l) 0) skeleton);
      [reflexivity | apply keeps_mret |].
    intros u' Hu. cbn. rewrite Hu. reflexivity.
  - eapply (keeps_embed (fun l => SoftmaxLayer.mk (SoftmaxLayer.N l) 0) skeleton);
      [reflexivity | apply keeps_mret |].
    intros u' Hu. cbn. rewrite Hu. reflexivity.
  - eapply (keeps_embed (fun l => InputLayer.mk (InputLayer.N l) 0) skeleton);
      [reflexivity | apply keeps_mret |].
    intros u' Hu. cbn. rewrite Hu. reflexivity.
Qed.

End Frame_layers.

(** The driver, for a choice [sel] of the arrays a layer method may write
    to and a set [S] that has them all. *)
Section Frame_driver.
Context (P : call -> Prop) (sel : Layer -> list loc) (S : list loc) (k0 : Network.t).
Hypothesis sel_skeleton : forall l, sel (skeleton l) = sel l.
Hypothesis sel_S : forall l x, l ∈ Network.layers k0 -> x ∈ sel l -> x ∈ S.

Lemma frame_on_layer {X} (i : nat) (m : M Layer X) :
  (forall kl, keeps skeleton (sel kl) P kl m) ->
  keeps net_skeleton S P k0 (Network.on_layer i m).
Proof using sel_skeleton sel_S.
  intros H s w Hs. unfold Network.on_layer.
  destruct (Network.layers s !! i) as [layer|] eqn:E;
    [|split; [exact Hs | apply world_step_refl]].
  unfold embed. destruct (H (skeleton layer) layer w eq_refl) as [Hk Hw].
  assert (Hnet : forall layer', skeleton layer' = skeleton layer ->
            net_skeleton
              (Network.set_layers (<[i := layer']> (Network.layers s)) s) = k0).
  { intros layer' Hl. unfold net_skeleton. cbn.
    rewrite list_fmap_insert, Hl, list_insert_id.
    - exact Hs.
    - rewrite list_lookup_fmap, E. reflexivity. }
  assert (Hstep : forall w', world_step (sel (skeleton layer)) P w w' ->
            world_step S P w w').
  { intros w'. apply world_step_weaken. intros l Hl.
    apply (sel_S (skeleton layer)); [|exact Hl].
    rewrite (net_skeleton_layers k0 s Hs).
    apply list_elem_of_fmap. exists layer. split; [reflexivity|].
    eapply list_elem_of_lookup_2; eauto. }
  destruct (m layer w); cbn in *; split; auto.
Qed.

Lemma frame_layer_index_bind {X} (i : Z) (cont : nat -> M Network.t X) :
  (forall k, py_index (length (Network.layers k0)) i = Some k ->
     keeps net_skeleton S P k0 (cont k)) ->
  keeps net_skeleton S P k0 (Network.layer_index i ≫= cont).
Proof.
  intros H s w Hs. rewrite bind_unfold. unfold Network.layer_index.
  rewrite (net_skeleton_length k0 s Hs).
  destruct (py_index (length (Network.layers k0)) i) as [k|] eqn:E.
  - apply (H k); [reflexivity | assumption].
  - split; [exact Hs | apply world_step_refl].
Qed.

Lemma frame_invoke {X} (ev : call) (method : Layer -> option (M Layer X)) (kl : Layer) :
  P ev ->
  (forall self m, method self = Some m ->
     keeps skeleton (sel self) P (skeleton self) m) ->
  keeps skeleton (sel kl) P kl (Layer.invoke ev method).
Proof using sel_skeleton.
  intros Hev Hm s w Hs. unfold Layer.invoke.
  destruct (method s) as [m|] eqn:E; [|split; [exact Hs | apply world_step_refl]].
  specialize (Hm s m E). rewrite Hs in Hm.
  rewrite <- sel_skeleton, Hs in Hm.
  apply (keeps_bind skeleton (sel kl) P kl (record_call ev) (fun _ => m));
    [apply keeps_record_call; exact Hev | intros _; exact Hm | exact Hs].
Qed.

End Frame_driver.

Section Frame_forward.
Context (P : call -> Prop) (S : list loc) (k0 : Network.t).
Hypothesis P_forward : forall k, P (Call_forward k).

Lemma frame_forward_pass (input_data : loc) :
  keeps net_skeleton S P k0 (Network.forward_pass input_data).
Proof using P_forward.
  assert (Hsel : forall l x, l ∈ Network.layers k0 -> x ∈ @nil loc -> x ∈ S).
  { intros l x _ Hx. inversion Hx. }
  unfold Network.forward_pass.
  apply frame_layer_index_bind. intros k _.
  apply keeps_bind.
  { apply (frame_on_layer P (fun _ => []) S k0 ltac:(reflexivity) Hsel).
    intros kl. unfold Layer.set_activation. apply keeps_modify_self. intros []; reflexivity. }
  intros _. apply keeps_get_self_bind. intros s0 _.
  apply keeps_for_each. intros output layer _.
  apply frame_layer_index_bind. intros k' _.
  apply (frame_on_layer P (fun _ => []) S k0 ltac:(reflexivity) Hsel).
  intros kl. apply (frame_invoke P (fun _ => [])); [reflexivity | apply P_forward |].
  intros self m Hm. apply (keeps_layer_forward_propagation_nil P _ _ _ Hm).
Qed.

Lemma frame_total_cost (data : list sample) :
  keeps net_skeleton S P k0 (Network.total_cost data).
Proof using P_forward.
  unfold Network.total_cost. apply keeps_for_each. intros c [input output] _.
  apply keeps_bind; [apply frame_forward_pass | intros a]. keeps_tac.
Qed.

Lemma frame_mean_cost (c : R) (data : list sample) :
  keeps net_skeleton S P k0 (Network.mean_cost c data).
Proof. unfold Network.mean_cost. keeps_tac. Qed.

Lemma frame_test_network (data : list sample) :
  keeps net_skeleton S P k0 (Network.test_network data).
Proof using P_forward.
  unfold Network.test_network. apply keeps_bind.
  - apply keeps_for_each. intros c [input output] _.
    apply keeps_bind; [apply frame_forward_pass | intros a]. keeps_tac.
  - intros results. apply keeps_for_each. intros c [max_index output] _.
    unfold Network.hit. keeps_tac.
Qed.

End Frame_forward.

Lemma all_sums_owned (s : Network.t) (x : loc) : x ∈ all_sums s -> x ∈ all_owned s.
Proof.
  unfold all_sums, all_owned. rewrite !list_elem_of_bind.
  intros (l & Hx & Hl). exists l. split; [|exact Hl].
  destruct l; cbn in *; try exact Hx.
  unfold fc_sums in Hx. apply list_elem_of_In in Hx. apply list_elem_of_In.
  cbn in *. tauto.
Qed.

Section Frame_training.
Context (P : call -> Prop) (S : list loc) (k0 : Network.t).
Hypothesis P_all : forall c, P c.
Hypothesis owned_S : forall x, x ∈ all_owned k0 -> x ∈ S.

Lemma frame_pass_samples (mini_batch : list sample) :
  keeps net_skeleton S P k0 (Network.pass_samples mini_batch).
Proof using P_all owned_S.
  eapply keeps_weaken; [|apply keeps_pass_samples; intros; apply P_all].
  intros l Hl. apply owned_S, all_sums_owned, Hl.
Qed.

Lemma frame_update_layers (n : nat) (eta : R) :
  keeps net_skeleton S P k0 (Network.update_layers n eta).
Proof using P_all owned_S.
  assert (Hsel : forall l x, l ∈ Network.layers k0 -> x ∈ owned l -> x ∈ S).
  { intros l x Hl Hx. apply owned_S. unfold all_owned.
    apply list_elem_of_bind. exists l. auto. }
  unfold Network.update_layers.
  apply keeps_get_self_bind. intros s0 _.
  apply keeps_for_each. intros [] layer _.
  apply frame_layer_index_bind. intros k _.
  apply (frame_on_layer P owned S k0 owned_skeleton Hsel).
  intros kl. apply (frame_invoke P owned); [apply owned_skeleton | apply P_all |].
  intros self m Hm. apply (keeps_layer_update_parameters P _ _ _ _ Hm).
Qed.

Lemma frame_mini_batch_pass (eta : R) (mini_batch : list sample) :
  keeps net_skeleton S P k0 (Network.mini_batch_pass eta mini_batch).
Proof using P_all owned_S.
  unfold Network.mini_batch_pass.
  apply keeps_bind; [apply frame_pass_samples | intros _; apply frame_update_layers].
Qed.

End Frame_training.

(* ====================================================================== *)
(** ** The order of the calls in a pass *)
(* ====================================================================== *)

Lemma silent_layer_forward_propagation {E} (proj : world -> list E) (x : loc)
    (self : Layer) (m : M Layer loc) :
  (forall h w, proj (set_heap h w) = proj w) ->
  silent proj (FullyConnectedLayer.forward_propagation x) ->
  Layer.forward_propagation x self = Some m -> silent proj m.
Proof.
  intros H Hfc. destruct self as [l|l|l|l|l]; cbn; intros [= <-];
    apply silent_embed; [exact Hfc | | |].
  - unfold SigmoidLayer.forward_propagation.
    repeat first [ apply silent_bind; [|intros ?] | apply silent_load
                 | apply silent_alloc; exact H | apply silent_modify_self
                 | apply silent_get_self | apply silent_mret ].
  - unfold ReluLayer.forward_propagation.
    repeat first [ apply silent_bind; [|intros ?] | apply silent_load
                 | apply silent_alloc; exact H | apply silent_modify_self
                 | apply silent_get_self | apply silent_mret ].
  - unfold SoftmaxLayer.forward_propagation.
    repeat first [ apply silent_bind; [|intros ?] | apply silent_load
                 | apply silent_alloc; exact H | apply silent_modify_self
                 | apply silent_get_self | apply silent_mret ].
Qed.

Lemma silent_layer_backward_propagation {E} (proj : world -> list E) (g : loc)
    (self : Layer) (m : M Layer loc) :
  (forall h w, proj (set_heap h w) = proj w) ->
  Layer.backward_propagation g self = Some m -> silent proj m.
Proof.
  intros H. destruct self as [l|l|l|l|l]; cbn; intros [= <-]; apply silent_embed.
  - apply silent_fc_backward_propagation. exact H.
  - unfold SigmoidLayer.backward_propagation.
    repeat first [ apply silent_bind; [|intros ?] | apply silent_load | apply silent_np
                 | apply silent_alloc; exact H | apply silent_get_self ].
  - unfold ReluLayer.backward_propagation.
    repeat first [ apply silent_bind; [|intros ?] | apply silent_load | apply silent_np
                 | apply silent_alloc; exact H | apply silent_get_self ].
  - apply silent_mret.
Qed.

Lemma silent_layer_update_parameters {E} (proj : world -> list E) (n : nat) (eta : R)
    (self : Layer) (m : M Layer unit) :
  (forall h w, proj (set_heap h w) = proj w) ->
  Layer.update_parameters n eta self = Some m -> silent proj m.
Proof.
  intros H. destruct self as [l|l|l|l|l]; cbn [Layer.update_parameters]; intros [= <-];
    apply silent_embed; try apply silent_mret.
  apply silent_fc_update_parameters. exact H.
Qed.

(** A method call appends its record to the trace and nothing to the
    output. *)
Lemma appends_invoke {X} (c : call) (method : Layer -> option (M Layer X)) :
  (forall self m, method self = Some m -> silent calls m) ->
  appends calls (eq [c]) (Layer.invoke c method).
Proof.
  intros Hm s w x s' w'. unfold Layer.invoke.
  destruct (method s) as [m|] eqn:E; [|discriminate].
  apply (appends_then_silent calls (eq [c]) (record_call c) (fun _ => m)).
  - apply appends_record_call.
  - intros _. eapply Hm; eauto.
Qed.

Lemma silent_stdout_invoke {X} (c : call) (method : Layer -> option (M Layer X)) :
  (forall self m, method self = Some m -> silent stdout m) ->
  silent stdout (Layer.invoke c method).
Proof.
  intros Hm s w x s' w'. unfold Layer.invoke.
  destruct (method s) as [m|] eqn:E; [|discriminate].
  apply (silent_bind stdout (record_call c) (fun _ => m)).
  - apply silent_stdout_record_call.
  - intros _. eapply Hm; eauto.
Qed.

Lemma appends_on_layer {X E} (proj : world -> list E) Q (k : nat) (m : M Layer X) :
  appends proj Q m -> appends proj Q (Network.on_layer k m).
Proof.
  intros Hm s w x s' w'. unfold Network.on_layer.
  destruct (Network.layers s !! k) as [layer|]; [|discriminate].
  apply appends_embed. exact Hm.
Qed.

Lemma silent_layer_index {E} (proj : world -> list E) (i : Z) :
  silent proj (Network.layer_index i).
Proof.
  apply silent_intro. intros s w x s' w'. unfold Network.layer_index.
  destruct (py_index _ i); [|discriminate]. intros H; inversion H; subst; reflexivity.
Qed.

Lemma silent_layer_get_activation {E} (proj : world -> list E) :
  silent proj Layer.get_activation.
Proof.
  apply silent_intro. intros s w x s' w'. unfold Layer.get_activation.
  destruct s as [l| | | |]; try (intros H; inversion H; subst; reflexivity).
  destruct (FullyConnectedLayer.activation l); [|discriminate].
  intros H; inversion H; subst; reflexivity.
Qed.

Lemma silent_layer_set_activation {E} (proj : world -> list E) (a : loc) :
  silent proj (Layer.set_activation a).
Proof. unfold Layer.set_activation. apply silent_modify_self. Qed.

(** *** The trace of a forward pass *)

Lemma forward_body_calls (output : loc) (layer : nat) :
  appends calls (eq [Call_forward layer]) (forward_body output layer).
Proof.
  intros s w x s' w'. unfold forward_body. rewrite bind_unfold.
  unfold Network.layer_index at 1.
  destruct (py_index (length (Network.layers s)) (Z.of_nat layer)) as [k|] eqn:Ek;
    [|discriminate].
  apply py_index_of_nat in Ek as [-> _].
  apply appends_on_layer, appends_invoke.
  intros self m Hm.
  eapply silent_layer_forward_propagation;
    [intros; reflexivity | apply silent_calls_fc_forward_propagation | exact Hm].
Qed.

Lemma forward_body_stdout (output : loc) (layer : nat) :
  silent stdout (forward_body output layer).
Proof.
  unfold forward_body.
  apply silent_bind; [apply silent_layer_index | intros k].
  apply appends_on_layer, silent_stdout_invoke.
  intros self m Hm.
  eapply silent_layer_forward_propagation;
    [intros; reflexivity | apply silent_stdout_fc_forward_propagation | exact Hm].
Qed.

Lemma bind_singleton_fmap {A B} (f : A -> B) (l : list A) :
  l ≫= (fun a => [f a]) = f <$> l.
Proof. induction l as [|a l IH]; [reflexivity|]. cbn. congruence. Qed.

Lemma forward_pass_calls (input_data : loc) (s : Network.t) (w : world) r s' w' :
  Network.forward_pass input_data s w = Ok r s' w' ->
  calls w' = calls w ++ (Call_forward <$> seq 1 (length (Network.layers s) - 1)).
Proof.
  unfold Network.forward_pass. rewrite bind_unfold.
  destruct (Network.layer_index 0 s w) as [k s1 w1| |] eqn:Ek; [|discriminate|discriminate].
  pose proof (silent_elim calls _ _ _ _ _ _ (silent_layer_index calls 0) Ek) as Hc1.
  assert (s1 = s).
  { unfold Network.layer_index in Ek. destruct (py_index _ 0); [|discriminate].
    inversion Ek; reflexivity. }
  subst s1. rewrite bind_unfold.
  destruct (Network.on_layer k (Layer.set_activation input_data) s w1)
    as [[] s2 w2| |] eqn:Eset; [|discriminate|discriminate].
  pose proof (silent_elim calls _ _ _ _ _ _
                (appends_on_layer calls _ k _ (silent_layer_set_activation calls input_data))
                Eset) as Hc2.
  assert (Hlen : length (Network.layers s2) = length (Network.layers s)).
  { unfold Network.on_layer in Eset. destruct (Network.layers s !! k); [|discriminate].
    unfold embed, Layer.set_activation, modify_self in Eset. inversion Eset.
    cbn. apply length_insert. }
  rewrite bind_get_self, Hlen. intros Hloop.
  destruct (appends_for_each calls (fun layer => [Call_forward layer])
              (seq 1 (length (Network.layers s) - 1)) forward_body
              forward_body_calls input_data s2 w2 r s' w' Hloop) as (ev & E1 & <-).
  rewrite E1, Hc2, Hc1, bind_singleton_fmap. reflexivity.
Qed.

Lemma forward_pass_stdout (input_data : loc) :
  silent stdout (Network.forward_pass input_data).
Proof.
  unfold Network.forward_pass.
  apply silent_bind; [apply silent_layer_index | intros k].
  apply silent_bind;
    [apply appends_on_layer, silent_layer_set_activation | intros _].
  apply silent_bind; [apply silent_get_self | intros self].
  apply silent_for_each. intros output layer. apply forward_body_stdout.
Qed.

(** X11. A [forward_pass] that returns has called [forward_propagation]
    once on each of the layers 1, 2, ..., [len - 1] in this order and no
    other method; it has printed nothing, changed no existing array, and
    kept the layers' classes, sizes and parameter arrays. *)
Theorem forward_pass_visits_layers_in_order
    (input_data : loc) (net : Network.t) (w : world)
    (r : loc) (net' : Network.t) (w' : world) :
  Network.forward_pass input_data net w = Ok r net' w' ->
  calls w' = calls w ++ (Call_forward <$> seq 1 (length (Network.layers net) - 1))
  /\ stdout w' = stdout w
  /\ (forall l a, heap w !! l = Some a -> heap w' !! l = Some a)
  /\ net_skeleton net' = net_skeleton net.
Proof.
  intros Hrun. split; [eapply forward_pass_calls; eauto|].
  split; [eapply silent_elim; [apply forward_pass_stdout | exact Hrun]|].
  destruct (frame_forward_pass (fun _ => True) [] (net_skeleton net) (fun _ => I)
              input_data net w eq_refl) as [Hsk [[_ Hkeep] _]].
  rewrite Hrun in Hsk, Hkeep. cbn in Hsk, Hkeep.
  split; [|exact Hsk]. intros l a. apply Hkeep. intros Hin. inversion Hin.
Qed.

(** The network of the example: two calls. *)
Lemma forward_pass_visits_layers_in_order_witness :
  exists r net' w',
    Network.forward_pass 0 demo_net demo_net_world = Ok r net' w'
    /\ calls w' = [Call_forward 1; Call_forward 2]
    /\ stdout w' = [].
Proof.
  assert (Hst : exists r, status_of (Network.forward_pass 0 demo_net demo_net_world)
                          = Returned r).
  { eexists. vm_compute. reflexivity. }
  destruct Hst as [r0 Hst].
  destruct (Network.forward_pass 0 demo_net demo_net_world) as [r net' w'| |] eqn:E;
    [|discriminate Hst|discriminate Hst].
  destruct (forward_pass_visits_layers_in_order 0 demo_net demo_net_world r net' w' E)
    as (Hcalls & Hout & _).
  exists r, net', w'. split; [reflexivity|]. split; [exact Hcalls | exact Hout].
Defined.

(** *** The trace of a backward pass *)

Lemma backward_body_calls (g : loc) (layer : nat) (s : Network.t) (w : world) r s' w' :
  0 < layer ->
  backward_body g layer s w = Ok r s' w' ->
  length (Network.layers s') = length (Network.layers s)
  /\ calls w' = calls w ++ [Call_backward (length (Network.layers s) - layer)].
Proof.
  intros Hpos. unfold backward_body. rewrite bind_unfold.
  unfold Network.layer_index at 1.
  destruct (py_index (length (Network.layers s)) (- Z.of_nat layer)) as [k|] eqn:Ek;
    [|discriminate].
  apply py_index_neg in Ek as [-> _]; [|exact Hpos].
  intros Hrun. split.
  - unfold Network.on_layer in Hrun.
    destruct (Network.layers s !! _); [|discriminate].
    unfold embed in Hrun. destruct (Layer.invoke _ _ _ _); inversion Hrun.
    cbn. apply length_insert.
  - assert (Ha : appends calls (eq [Call_backward (length (Network.layers s) - layer)])
                   (Network.on_layer (length (Network.layers s) - layer)
                      (Layer.invoke (Call_backward (length (Network.layers s) - layer))
                         (Layer.backward_propagation g)))).
    { apply appends_on_layer, appends_invoke. intros self m Hm.
      eapply silent_layer_backward_propagation; [intros; reflexivity | exact Hm]. }
    destruct (Ha _ _ _ _ _ Hrun) as (ev & E1 & <-). exact E1.
Qed.

Lemma backward_loop_calls (l : list nat) :
  forall (g : loc) (s : Network.t) (w : world) r s' w',
    Forall (fun layer => 0 < layer) l ->
    for_each l backward_body g s w = Ok r s' w' ->
    length (Network.layers s') = length (Network.layers s)
    /\ calls w' = calls w
                  ++ ((fun layer => Call_backward (length (Network.layers s) - layer)) <$> l).
Proof.
  induction l as [|layer l IH]; intros g s w r s' w' Hpos.
  - cbn. intros H; inversion H; subst. rewrite app_nil_r. auto.
  - cbn [for_each]. rewrite bind_unfold.
    destruct (backward_body g layer s w) as [g1 s1 w1| |] eqn:E;
      [|discriminate|discriminate].
    apply Forall_cons in Hpos as [Hlayer Hpos].
    apply backward_body_calls in E as [Hlen1 Hc1]; [|exact Hlayer].
    intros H. apply IH in H as [Hlen2 Hc2]; [|exact Hpos].
    split; [congruence|]. rewrite Hc2, Hc1, Hlen1, <- app_assoc. reflexivity.
Qed.

(** The positions [len - layer] for [layer] in [range(first, len)] are
    [len - first], ..., 2, 1. *)
Lemma backward_positions (len first n : nat) :
  first + n <= len ->
  (fun layer => len - layer) <$> seq first n = rev (seq (len - first - n + 1) n).
Proof.
  revert first. induction n as [|n IH]; intros first H; [reflexivity|].
  replace (len - first - S n + 1) with (len - first - n) by lia.
  rewrite (seq_S n (len - first - n)), rev_app_distr.
  change (seq first (S n)) with (first :: seq (S first) n).
  rewrite fmap_cons, IH by lia. cbn [rev app].
  replace (len - first - n + n) with (len - first) by lia.
  replace (len - S first - n + 1) with (len - first - n) by lia. reflexivity.
Qed.

Lemma first_upstream_gradient_quiet {E} (proj : world -> list E) (e : loc) :
  (forall h w, proj (set_heap h w) = proj w) ->
  silent proj (Network.first_upstream_gradient e).
Proof.
  intros H. unfold Network.first_upstream_gradient.
  apply silent_bind; [apply silent_get_self | intros self].
  apply silent_bind; [apply silent_layer_index | intros k].
  apply silent_bind; [apply appends_on_layer, silent_layer_get_activation | intros a].
  repeat first [ apply silent_bind; [|intros ?] | apply silent_load | apply silent_np
               | apply silent_alloc; exact H ].
Qed.

Lemma first_upstream_gradient_self (e : loc) (s : Network.t) (w : world) g s' w' :
  Network.first_upstream_gradient e s w = Ok g s' w' -> s' = s.
Proof.
  intros H.
  unfold Network.first_upstream_gradient in H. rewrite bind_get_self in H.
  rewrite bind_unfold in H. unfold Network.layer_index at 1 in H.
  destruct (py_index _ (-1)) as [k|]; [|discriminate].
  rewrite bind_unfold in H.
  destruct (Network.on_layer k Layer.get_activation s w) as [a s1 w1| |] eqn:Ea;
    [|discriminate|discriminate].
  assert (s1 = s).
  { unfold Network.on_layer in Ea. destruct (Network.layers s !! k) as [l|] eqn:El;
      [|discriminate].
    unfold embed, Layer.get_activation in Ea.
    destruct l as [fc| | | |]; try (inversion Ea; apply set_layers_id; exact El).
    destruct (FullyConnectedLayer.activation fc); inversion Ea.
    apply set_layers_id; exact El. }
  subst s1. unfold mbind, M_bind, load, np, alloc in H.
  destruct (heap w1 !! e); [|discriminate].
  destruct (heap w1 !! a); [|discriminate].
  destruct (Network.cost_prime s _ _); cbn in H; inversion H. reflexivity.
Qed.

Lemma backward_pass_calls (e : loc) (net : Network.t) (w : world) net' w' :
  Network.backward_pass e net w = Ok tt net' w' ->
  let first := if Network.is_SM_CE net then 2 else 1 in
  calls w' = calls w
             ++ (Call_backward <$> rev (seq 1 (length (Network.layers net) - first))).
Proof.
  intros Hrun first.
  assert (Hloop : exists g w1 r,
            Network.first_upstream_gradient e net w = Ok g net w1
            /\ for_each (seq first (length (Network.layers net) - first))
                 backward_body g net w1 = Ok r net' w').
  { unfold Network.backward_pass in Hrun. rewrite bind_get_self in Hrun.
    unfold first.
    destruct (Network.is_SM_CE net); cbn [negb] in Hrun;
      rewrite bind_unfold in Hrun;
      destruct (Network.first_upstream_gradient e net w) as [g s1 w1| |] eqn:Eg;
      try discriminate;
      pose proof (first_upstream_gradient_self _ _ _ _ _ _ Eg) as ->;
      rewrite bind_unfold in Hrun;
      unfold Network.backward_loop in Hrun; rewrite bind_get_self in Hrun;
      match type of Hrun with
      | match ?loop with _ => _ end = _ =>
          destruct loop as [r s2 w2| |] eqn:El; try discriminate
      end;
      inversion Hrun; subst; exists g, w1, r; (split; [reflexivity | exact El]). }
  destruct Hloop as (g & w1 & r & Hg & Hl).
  pose proof (silent_elim calls _ _ _ _ _ _
                (first_upstream_gradient_quiet calls e ltac:(reflexivity)) Hg) as Hc1.
  apply backward_loop_calls in Hl as [_ Hc2].
  - rewrite Hc2, Hc1. f_equal.
    set (len := length (Network.layers net)).
    rewrite (list_fmap_compose (fun layer => len - layer) Call_backward).
    f_equal.
    destruct (Nat.le_gt_cases first len) as [Hle|Hgt].
    + rewrite backward_positions by lia. do 2 f_equal. lia.
    + replace (len - first) with 0 by lia. reflexivity.
  - apply Forall_forall. intros x Hx. apply elem_of_seq in Hx.
    unfold first in Hx. destruct (Network.is_SM_CE net); lia.
Qed.

Lemma backward_body_stdout (g : loc) (layer : nat) :
  silent stdout (backward_body g layer).
Proof.
  unfold backward_body.
  apply silent_bind; [apply silent_layer_index | intros k].
  apply appends_on_layer, silent_stdout_invoke.
  intros self m Hm.
  eapply silent_layer_backward_propagation; [intros; reflexivity | exact Hm].
Qed.

Lemma backward_pass_stdout (e : loc) : silent stdout (Network.backward_pass e).
Proof.
  unfold Network.backward_pass.
  apply silent_bind; [apply silent_get_self | intros self].
  destruct (negb (Network.is_SM_CE self)).
  - apply silent_bind;
      [apply first_upstream_gradient_quiet; intros; reflexivity | intros g].
    apply silent_bind; [|intros _; apply silent_mret].
    unfold Network.backward_loop.
    apply silent_bind; [apply silent_get_self | intros s0].
    apply silent_for_each. intros g0 layer. apply backward_body_stdout.
  - apply silent_bind;
      [apply first_upstream_gradient_quiet; intros; reflexivity | intros g].
    apply silent_bind; [|intros _; apply silent_mret].
    unfold Network.backward_loop.
    apply silent_bind; [apply silent_get_self | intros s0].
    apply silent_for_each. intros g0 layer. apply backward_body_stdout.
Qed.

Lemma all_sums_skeleton (s : Network.t) : all_sums (net_skeleton s) = all_sums s.
Proof.
  unfold all_sums. cbn. induction (Network.layers s) as [|l ls IH]; [reflexivity|].
  cbn. rewrite sums_of_skeleton. f_equal. exact IH.
Qed.

(** X12. A [backward_pass] that returns has called [backward_propagation]
    once on each of the layers [len - 1], ..., 2, 1 in this order, the last
    layer left out in the combined mode, and never on the input layer; it
    has printed nothing and written to no existing array but the sums
    [dW_sum] and [dB_sum] of the fully connected layers. *)
Theorem backward_pass_visits_layers_in_reverse
    (expected_output : loc) (net : Network.t) (w : world)
    (net' : Network.t) (w' : world) :
  Network.backward_pass expected_output net w = Ok tt net' w' ->
  let first := if Network.is_SM_CE net then 2 else 1 in
  calls w' = calls w
             ++ (Call_backward <$> rev (seq 1 (length (Network.layers net) - first)))
  /\ stdout w' = stdout w
  /\ (forall l a, l ∉ all_sums net -> heap w !! l = Some a -> heap w' !! l = Some a)
  /\ net_skeleton net' = net_skeleton net.
Proof.
  intros Hrun first. split; [apply (backward_pass_calls _ _ _ _ _ Hrun)|].
  split; [eapply silent_elim; [apply backward_pass_stdout | exact Hrun]|].
  destruct (keeps_backward_pass (fun _ => True) (net_skeleton net) expected_output
              (fun _ => I) net w eq_refl) as [Hsk [[_ Hkeep] _]].
  rewrite all_sums_skeleton in Hkeep.
  rewrite Hrun in Hsk, Hkeep. cbn [final_self final_world] in Hsk, Hkeep.
  split; [exact Hkeep | exact Hsk].
Qed.

(** The network of the example in the plain mode: the softmax layer first. *)
Lemma backward_pass_visits_layers_in_reverse_witness :
  exists net' w',
    Network.backward_pass 10 (with_is_SM_CE false demo_net) demo_net_world
    = Ok tt net' w'
    /\ calls w' = [Call_backward 2; Call_backward 1].
Proof.
  assert (Hst : status_of (Network.backward_pass 10 (with_is_SM_CE false demo_net)
                             demo_net_world)
                = Returned tt).
  { vm_compute. reflexivity. }
  destruct (Network.backward_pass 10 (with_is_SM_CE false demo_net) demo_net_world)
    as [[] net' w'| |] eqn:E; [|discriminate Hst|discriminate Hst].
  destruct (backward_pass_visits_layers_in_reverse 10 (with_is_SM_CE false demo_net)
              demo_net_world net' w' E) as (Hcalls & _).
  exists net', w'. split; [reflexivity | exact Hcalls].
Defined.

(* ====================================================================== *)
(** ** Network.test_network *)
(* ====================================================================== *)

Lemma ensures_mret {T X} (Q : X -> T -> Prop) (x : X) :
  (forall s, Q x s) -> ensures Q (mret x).
Proof. intros H s w y s' w' E. inversion E; subst. apply H. Qed.

Lemma ensures_bind_post {T X Y} (Q1 : Y -> T -> Prop) (Q : X -> T -> Prop)
    (m : M T Y) (k : Y -> M T X) :
  ensures Q1 m -> (forall y s1, Q1 y s1 -> ensures Q (k y)) -> ensures Q (m ≫= k).
Proof.
  intros Hm Hk s w x s' w'. rewrite bind_unfold.
  destruct (m s w) as [y s1 w1| |] eqn:E; [|discriminate|discriminate].
  apply (Hk y s1). eapply Hm; eauto.
Qed.

Lemma hit_at_most_one (output : ndarray) (max_index : nat) :
  ensures (fun h _ => h <= 1) (Network.hit output max_index).
Proof.
  unfold Network.hit. intros s w h s' w'.
  destruct (negb _); [discriminate|]. destruct (negb _); [discriminate|].
  intros E. inversion E. destruct (Req_dec_T _ _); lia.
Qed.

(** A loop whose iterations raise a measure of the loop variable by at
    least [lo] and at most [hi]. *)
Lemma ensures_for_each_measure {T A B} (mu : B -> nat) (lo hi : nat)
    (l : list A) (body : B -> A -> M T B) :
  (forall b a, ensures (fun b' _ => mu b + lo <= mu b' <= mu b + hi) (body b a)) ->
  forall b,
    ensures (fun b' _ => mu b + length l * lo <= mu b' <= mu b + length l * hi)
      (for_each l body b).
Proof.
  intros Hbody. induction l as [|a l IH]; intros b s w b' s' w'; cbn [for_each].
  - intros E. inversion E; subst. cbn. lia.
  - rewrite bind_unfold.
    destruct (body b a s w) as [b1 s1 w1| |] eqn:E1; [|discriminate|discriminate].
    intros E2. apply Hbody in E1. apply IH in E2. cbn [length]. nia.
Qed.

(** X13. [test_network] returns at most the number of samples it is
    given, and 0 on an empty list; however it ends, it has changed no
    existing array, no cost list, and nothing of the layers but their
    activations. *)
Theorem test_network_counts_at_most_all
    (test_data : list sample) (net : Network.t) (w : world) :
  let o := Network.test_network test_data net w in
  (forall correct net' w', o = Ok correct net' w' -> correct <= length test_data)
  /\ (test_data = [] -> o = Ok 0 net w)
  /\ net_skeleton (final_self o) = net_skeleton net
  /\ Network.cost_points (final_self o) = Network.cost_points net
  /\ (forall l a, heap w !! l = Some a -> heap (final_world o) !! l = Some a).
Proof.
  intros o. split; [|split; [|split; [|split]]].
  - intros correct net' w' Hrun. unfold o, Network.test_network in Hrun.
    rewrite bind_unfold in Hrun.
    match type of Hrun with
    | match ?loop with _ => _ end = _ =>
        destruct loop as [results s1 w1| |] eqn:E1; [|discriminate|discriminate]
    end.
    apply (ensures_for_each_measure (@length (nat * loc)) 1 1) in E1; cycle 1.
    { intros b [input output].
      do 3 (apply ensures_bind; intros ?). apply ensures_mret.
      intros _. rewrite length_app. cbn. lia. }
    apply (ensures_for_each_measure (fun n : nat => n) 0 1) in Hrun; cycle 1.
    { intros total [max_index output].
      apply ensures_bind; intros ?.
      eapply ensures_bind_post; [apply hit_at_most_one|]. intros h sh Hh.
      cbv beta in Hh. apply ensures_mret. intros _. cbv beta. lia. }
    cbn in E1, Hrun. nia.
  - intros ->. reflexivity.
  - apply (frame_test_network (fun _ => True) [] (net_skeleton net) (fun _ => I)
             test_data net w eq_refl).
  - apply (stable_test_network Network.cost_points ltac:(reflexivity) test_data net w).
  - destruct (frame_test_network (fun _ => True) [] (net_skeleton net) (fun _ => I)
                test_data net w eq_refl) as [_ [[_ Hkeep] _]].
    intros l a. apply Hkeep. intros Hin. inversion Hin.
Qed.

(* ====================================================================== *)
(** ** The frame of stochastic_gradient_descent *)
(* ====================================================================== *)

(** [range(0, n, step)] is empty for a negative step. *)
Lemma mini_batches_negative (training_data : list sample) (n : nat) (mini_batch_size : Z) :
  (mini_batch_size < 0)%Z ->
  mini_batches training_data n mini_batch_size = Some [].
Proof.
  intros H. unfold mini_batches, py_range.
  destruct (Z.eqb_spec mini_batch_size 0) as [E|_]; [lia|].
  destruct (Z.ltb_spec 0 mini_batch_size) as [E|_]; [lia|].
  assert (Hq : ((0 - Z.of_nat n - mini_batch_size - 1) / - mini_batch_size < 1)%Z).
  { apply Z.div_lt_upper_bound; lia. }
  replace (Z.to_nat ((0 - Z.of_nat n - mini_batch_size - 1) / - mini_batch_size)) with 0
    by lia.
  reflexivity.
Qed.

Lemma mini_batches_zero (training_data : list sample) (n : nat) :
  mini_batches training_data n 0 = None.
Proof. reflexivity. Qed.

Lemma net_core_layers (s k1 : Network.t) :
  net_core s = k1 -> Network.layers k1 = skeleton <$> Network.layers s.
Proof. intros <-. reflexivity. Qed.

Lemma all_owned_skeleton (s : Network.t) :
  (skeleton <$> Network.layers s) ≫= owned = all_owned s.
Proof.
  unfold all_owned. induction (Network.layers s) as [|l ls IH]; [reflexivity|].
  cbn. rewrite owned_skeleton. f_equal. exact IH.
Qed.

Section Frame_sgd.
Context (P : call -> Prop) (S : list loc) (k1 : Network.t) (mini_batch_size : Z).
Hypothesis P_forward : forall k, P (Call_forward k).
Hypothesis P_all : (0 < mini_batch_size)%Z -> forall c, P c.
Hypothesis owned_S : (0 < mini_batch_size)%Z -> forall x, x ∈ all_owned k1 -> x ∈ S.

Lemma frame_core {X} (m : M Network.t X) :
  (forall k0, keeps net_skeleton S P k0 m) -> keeps net_core S P k1 m.
Proof.
  intros H. apply (keeps_coarsen net_skeleton blank_costs S P k1 m). intros k0 _. apply H.
Qed.

Lemma frame_core_mini_batch_pass (eta : R) (mini_batch : list sample) :
  (0 < mini_batch_size)%Z ->
  keeps net_core S P k1 (Network.mini_batch_pass eta mini_batch).
Proof using P_all owned_S.
  intros Hpos. apply (keeps_coarsen net_skeleton blank_costs S P k1). intros k0 Hk0.
  apply frame_mini_batch_pass; [apply P_all; exact Hpos|].
  intros x Hx. apply owned_S; [exact Hpos|].
  unfold all_owned in *. rewrite <- Hk0. exact Hx.
Qed.

Lemma frame_report (j : nat) (test_data : option (list sample))
    (training_data : list sample) (cost_amount : R) :
  keeps net_core S P k1 (Network.report j test_data training_data cost_amount).
Proof using P_forward.
  unfold Network.report. destruct (truthy test_data); [|apply keeps_print].
  apply keeps_bind; [apply frame_core; intros; apply frame_total_cost; exact P_forward|].
  intros c.
  apply keeps_bind; [apply frame_core; intros; apply frame_mean_cost | intros tc].
  apply keeps_bind; [apply keeps_modify_self; intros ?; reflexivity | intros _].
  apply keeps_bind; [apply frame_core; intros; apply frame_test_network; exact P_forward|].
  intros correct.
  apply keeps_bind; [apply frame_core; intros; apply frame_mean_cost | intros c1].
  apply keeps_bind; [apply frame_core; intros; apply frame_mean_cost | intros c2].
  apply keeps_print.
Qed.

Lemma frame_epoch (shuffle : nat -> list sample -> list sample) (n : nat) (eta : R)
    (test_data : option (list sample)) (training_data : list sample) (j : nat) :
  keeps net_core S P k1
    (Network.epoch shuffle n mini_batch_size eta test_data training_data j).
Proof using P_forward P_all owned_S.
  unfold Network.epoch. cbv zeta.
  destruct (mini_batches (shuffle j training_data) n mini_batch_size) as [batches|] eqn:E;
    cycle 1.
  { intros s w Hs. split; [exact Hs | apply world_step_refl]. }
  intros s w Hs. rewrite bind_np_Some. revert s w Hs.
  change (keeps net_core S P k1
    (for_each batches (fun _ mini_batch => Network.mini_batch_pass eta mini_batch) tt;;
     cost_amount ← Network.total_cost (shuffle j training_data);
     train_cost ← Network.mean_cost cost_amount (shuffle j training_data);
     modify_self
       (fun self =>
          Network.set_cost_points (Network.cost_points self ++ [train_cost]) self);;
     Network.report j test_data (shuffle j training_data) cost_amount;;
     mret (shuffle j training_data))).
  apply keeps_bind.
  { destruct (Z.lt_trichotomy mini_batch_size 0) as [Hneg|[H0|Hpos]].
    - rewrite (mini_batches_negative _ _ _ Hneg) in E. injection E as <-.
      apply keeps_mret.
    - subst mini_batch_size. discriminate E.
    - apply keeps_for_each. intros [] b _. apply frame_core_mini_batch_pass. exact Hpos. }
  intros _.
  apply keeps_bind; [apply frame_core; intros; apply frame_total_cost; exact P_forward|].
  intros c.
  apply keeps_bind; [apply frame_core; intros; apply frame_mean_cost | intros tc].
  apply keeps_bind; [apply keeps_modify_self; intros ?; reflexivity | intros _].
  apply keeps_bind; [apply frame_report | intros _]. apply keeps_mret.
Qed.

Lemma frame_stochastic_gradient_descent (shuffle : nat -> list sample -> list sample)
    (training_data : list sample) (epochs : Z) (eta : R)
    (test_data : option (list sample)) :
  keeps net_core S P k1
    (Network.stochastic_gradient_descent shuffle training_data epochs mini_batch_size
       eta test_data).
Proof using P_forward P_all owned_S.
  unfold Network.stochastic_gradient_descent. cbv zeta.
  apply keeps_for_each. intros td j _. apply frame_epoch.
Qed.

End Frame_sgd.

(** X14. However [stochastic_gradient_descent] ends, the network has the
    layers it had (their number, classes and sizes, and the same [W], [B],
    [dW_sum] and [dB_sum] objects), the same cost functions and flag; every
    array that existed still exists with its shape; and an array that is
    not one of those four of a fully connected layer, such as the input or
    the expected output of a sample, has the content it had. *)
Theorem stochastic_gradient_descent_frame
    (shuffle : nat -> list sample -> list sample)
    (training_data : list sample) (epochs mini_batch_size : Z) (eta : R)
    (test_data : option (list sample)) (net : Network.t) (w : world) :
  let o := Network.stochastic_gradient_descent shuffle training_data epochs
             mini_batch_size eta test_data net w in
  net_core (final_self o) = net_core net
  /\ length (Network.layers (final_self o)) = length (Network.layers net)
  /\ (forall l a, heap w !! l = Some a ->
        exists a', heap (final_world o) !! l = Some a'
                   /\ nrows a' = nrows a /\ ncols a' = ncols a)
  /\ (forall l a, l ∉ all_owned net -> heap w !! l = Some a ->
        heap (final_world o) !! l = Some a).
Proof.
  intros o.
  assert (Hown : (0 < mini_batch_size)%Z ->
                 forall x, x ∈ all_owned (net_core net) -> x ∈ all_owned net).
  { intros _ x Hx. unfold all_owned in Hx. cbn in Hx.
    rewrite all_owned_skeleton in Hx. exact Hx. }
  destruct (frame_stochastic_gradient_descent (fun _ => True) (all_owned net)
              (net_core net) mini_batch_size (fun _ => I) (fun _ _ => I) Hown
              shuffle training_data epochs eta test_data net w eq_refl)
    as [Hcore [[Hshape Hkeep] _]].
  fold o in Hcore, Hshape, Hkeep.
  split; [exact Hcore|]. split.
  { apply (f_equal Network.layers) in Hcore. cbn in Hcore.
    apply (f_equal length) in Hcore. rewrite !length_fmap in Hcore. exact Hcore. }
  split; [exact Hshape | exact Hkeep].
Qed.

(** X17. With a negative [mini_batch_size], [range(0, n, mini_batch_size)]
    is empty: [stochastic_gradient_descent] makes no [mini_batch_pass]. It
    calls [forward_propagation] only, and every existing array, the weights
    and biases among them, keeps its content. *)
Theorem stochastic_gradient_descent_without_batches
    (shuffle : nat -> list sample -> list sample)
    (training_data : list sample) (epochs mini_batch_size : Z) (eta : R)
    (test_data : option (list sample)) (net : Network.t) (w : world) :
  (mini_batch_size < 0)%Z ->
  let o := Network.stochastic_gradient_descent shuffle training_data epochs
             mini_batch_size eta test_data net w in
  (forall l a, heap w !! l = Some a -> heap (final_world o) !! l = Some a)
  /\ exists ev, calls (final_world o) = calls w ++ ev /\ Forall is_forward ev.
Proof.
  intros Hneg o.
  assert (Hall : (0 < mini_batch_size)%Z -> forall c, is_forward c) by (intros; lia).
  assert (Hown : (0 < mini_batch_size)%Z ->
                 forall x, x ∈ all_owned (net_core net) -> x ∈ @nil loc) by (intros; lia).
  destruct (frame_stochastic_gradient_descent is_forward [] (net_core net)
              mini_batch_size (fun _ => I) Hall Hown
              shuffle training_data epochs eta test_data net w eq_refl)
    as [_ [[_ Hkeep] Htrace]].
  fold o in Hkeep, Htrace. split; [|exact Htrace].
  intros l a. apply Hkeep. intros Hin. inversion Hin.
Qed.

(** Two epochs with mini-batches of size -1: the weights are what they were. *)
Lemma stochastic_gradient_descent_without_batches_witness :
  let o := Network.stochastic_gradient_descent demo_shuffle demo_training_data 2 (-1)
             (1 / 10) None demo_net demo_net_world in
  heap (final_world o) !! 1 = Some (of_rows 2 2 [[1; 0]; [0; 1]]%R)
  /\ exists ev, calls (final_world o) = ev /\ Forall is_forward ev.
Proof.
  destruct (stochastic_gradient_descent_without_batches demo_shuffle
              demo_training_data 2 (-1) (1 / 10) None demo_net demo_net_world
              ltac:(lia)) as [Hheap (ev & Hev & Hfwd)].
  split; [apply Hheap; reflexivity|].
  exists ev. split; [exact Hev | exact Hfwd].
Defined.

(* ====================================================================== *)
(** ** The records of stochastic_gradient_descent *)
(* ====================================================================== *)

Section Grows.
Context {T E : Type} (proj : T -> list E).

Lemma grows_bind {X Y} (Q1 Q2 Q : list E -> Prop) (m : M T X) (k : X -> M T Y) :
  grows proj Q1 m -> (forall x, grows proj Q2 (k x)) ->
  (forall e1 e2, Q1 e1 -> Q2 e2 -> Q (e1 ++ e2)) ->
  grows proj Q (m ≫= k).
Proof.
  intros Hm Hk HQ s w y s' w'. rewrite bind_unfold.
  destruct (m s w) as [x s1 w1| |] eqn:Em; [|discriminate|discriminate].
  intros H. destruct (Hm _ _ _ _ _ Em) as (e1 & E1 & Q1e).
  destruct (Hk x _ _ _ _ _ H) as (e2 & E2 & Q2e).
  exists (e1 ++ e2). split; [|auto]. rewrite E2, E1, app_assoc. reflexivity.
Qed.

Lemma grows_weaken {X} (Q Q' : list E -> Prop) (m : M T X) :
  (forall ev, Q ev -> Q' ev) -> grows proj Q m -> grows proj Q' m.
Proof.
  intros HQ Hm s w x s' w' H. destruct (Hm _ _ _ _ _ H) as (ev & E1 & E2).
  exists ev. auto.
Qed.

Lemma grows_stable {X} (m : M T X) : stable proj m -> grows proj (eq []) m.
Proof.
  intros Hm s w x s' w' H. exists []. split; [|reflexivity].
  specialize (Hm s w). rewrite H in Hm. cbn in Hm. rewrite app_nil_r. exact Hm.
Qed.

Lemma grows_stable_then {X Y} (Q : list E -> Prop) (m : M T X) (k : X -> M T Y) :
  stable proj m -> (forall x, grows proj Q (k x)) -> grows proj Q (m ≫= k).
Proof.
  intros Hm Hk. eapply grows_bind; [apply grows_stable, Hm | exact Hk |].
  intros e1 e2 <- H. exact H.
Qed.

Lemma grows_then_stable {X Y} (Q : list E -> Prop) (m : M T X) (k : X -> M T Y) :
  grows proj Q m -> (forall x, stable proj (k x)) -> grows proj Q (m ≫= k).
Proof.
  intros Hm Hk. eapply grows_bind; [exact Hm | intros x; apply grows_stable, Hk |].
  intros e1 e2 H <-. rewrite app_nil_r. exact H.
Qed.

Lemma grows_for_each_length {A B} (n : nat) (l : list A) (body : B -> A -> M T B) :
  (forall b a, grows proj (fun ev => length ev = n) (body b a)) ->
  forall b, grows proj (fun ev => length ev = length l * n) (for_each l body b).
Proof.
  intros Hbody. induction l as [|a l IH]; intros b; cbn [for_each].
  - intros s w x s' w' H. inversion H; subst. exists []. rewrite app_nil_r. auto.
  - eapply grows_bind; [apply Hbody | apply IH |].
    intros e1 e2 H1 H2. rewrite length_app, H1, H2. cbn. lia.
Qed.

End Grows.

(** *** What a training run prints *)

Lemma update_layers_stdout (n : nat) (eta : R) : silent stdout (Network.update_layers n eta).
Proof.
  unfold Network.update_layers.
  apply silent_bind; [apply silent_get_self | intros self].
  apply silent_for_each. intros [] layer.
  apply silent_bind; [apply silent_layer_index | intros k].
  apply appends_on_layer, silent_stdout_invoke. intros l m Hm.
  eapply silent_layer_update_parameters; [intros; reflexivity | exact Hm].
Qed.

Lemma mini_batch_pass_stdout (eta : R) (mini_batch : list sample) :
  silent stdout (Network.mini_batch_pass eta mini_batch).
Proof.
  unfold Network.mini_batch_pass, Network.pass_samples.
  apply silent_bind; [|intros _; apply update_layers_stdout].
  apply silent_for_each. intros [] [input output].
  apply silent_bind; [apply forward_pass_stdout | intros _; apply backward_pass_stdout].
Qed.

Lemma total_cost_stdout (data : list sample) : silent stdout (Network.total_cost data).
Proof.
  unfold Network.total_cost. apply silent_for_each. intros c [input output].
  apply silent_bind; [apply forward_pass_stdout | intros a].
  silent_tac.
Qed.

Lemma mean_cost_stdout (c : R) (data : list sample) :
  silent stdout (Network.mean_cost c data).
Proof. unfold Network.mean_cost. silent_tac. Qed.

Lemma test_network_stdout (data : list sample) : silent stdout (Network.test_network data).
Proof.
  unfold Network.test_network. apply silent_bind.
  - apply silent_for_each. intros c [input output].
    apply silent_bind; [apply forward_pass_stdout | intros a]. silent_tac.
  - intros results. apply silent_for_each. intros c [max_index output].
    unfold Network.hit. silent_tac.
Qed.

Lemma report_stdout (j : nat) (test_data : option (list sample))
    (training_data : list sample) (cost_amount : R) :
  appends stdout (fun ev => length ev = 1)
    (Network.report j test_data training_data cost_amount).
Proof.
  unfold Network.report. destruct (truthy test_data) eqn:Et.
  - apply silent_then; [apply total_cost_stdout | intros c].
    apply silent_then; [apply mean_cost_stdout | intros tc].
    apply silent_then; [apply silent_modify_self | intros _].
    apply silent_then; [apply test_network_stdout | intros correct].
    apply silent_then; [apply mean_cost_stdout | intros c1].
    apply silent_then; [apply mean_cost_stdout | intros c2].
    eapply appends_weaken; [|apply appends_print]. intros ev <-. reflexivity.
  - eapply appends_weaken; [|apply appends_print]. intros ev <-. reflexivity.
Qed.

Lemma report_stdout_no_test (j : nat) (training_data : list sample) (cost_amount : R)
    (test_data : option (list sample)) :
  truthy test_data = false ->
  appends stdout (eq [Print_epoch_complete j])
    (Network.report j test_data training_data cost_amount).
Proof. intros Ht. unfold Network.report. rewrite Ht. apply appends_print. Qed.

Lemma epoch_stdout (shuffle : nat -> list sample -> list sample) (n : nat)
    (mini_batch_size : Z) (eta : R) (test_data : option (list sample))
    (training_data : list sample) (j : nat) :
  appends stdout (fun ev => length ev = 1)
    (Network.epoch shuffle n mini_batch_size eta test_data training_data j).
Proof.
  unfold Network.epoch. cbv zeta.
  apply silent_then; [apply silent_np | intros batches].
  apply silent_then.
  { apply silent_for_each. intros [] b. apply mini_batch_pass_stdout. }
  intros _.
  apply silent_then; [apply total_cost_stdout | intros c].
  apply silent_then; [apply mean_cost_stdout | intros tc].
  apply silent_then; [apply silent_modify_self | intros _].
  apply appends_then_silent; [apply report_stdout | intros _; apply silent_mret].
Qed.

Lemma epoch_stdout_no_test (shuffle : nat -> list sample -> list sample) (n : nat)
    (mini_batch_size : Z) (eta : R) (test_data : option (list sample))
    (training_data : list sample) (j : nat) :
  truthy test_data = false ->
  appends stdout (eq [Print_epoch_complete j])
    (Network.epoch shuffle n mini_batch_size eta test_data training_data j).
Proof.
  intros Ht. unfold Network.epoch. cbv zeta.
  apply silent_then; [apply silent_np | intros batches].
  apply silent_then.
  { apply silent_for_each. intros [] b. apply mini_batch_pass_stdout. }
  intros _.
  apply silent_then; [apply total_cost_stdout | intros c].
  apply silent_then; [apply mean_cost_stdout | intros tc].
  apply silent_then; [apply silent_modify_self | intros _].
  apply appends_then_silent;
    [apply report_stdout_no_test; exact Ht | intros _; apply silent_mret].
Qed.

(** *** The cost lists *)

Lemma report_cost_points_test (j : nat) (test_data : option (list sample))
    (training_data : list sample) (cost_amount : R) :
  grows Network.cost_points_test
    (fun ev => length ev = if truthy test_data then 1 else 0)
    (Network.report j test_data training_data cost_amount).
Proof.
  unfold Network.report. destruct (truthy test_data).
  - apply grows_stable_then; [apply stable_total_cost; reflexivity | intros c].
    apply grows_stable_then; [apply stable_mean_cost | intros tc].
    apply grows_then_stable.
    + intros s w x s' w' H. inversion H; subst. exists [tc]. split; reflexivity.
    + intros _.
      apply stable_bind; [apply stable_test_network; reflexivity | intros correct].
      apply stable_bind; [apply stable_mean_cost | intros c1].
      apply stable_bind; [apply stable_mean_cost | intros c2].
      apply stable_print.
  - eapply grows_weaken; [|apply grows_stable, stable_print].
    intros ev <-. reflexivity.
Qed.

Lemma stable_batches {A} (proj : Network.t -> A) (eta : R) (batches : list (list sample)) :
  (forall ls s, proj (Network.set_layers ls s) = proj s) ->
  stable proj
    (for_each batches (fun _ mini_batch => Network.mini_batch_pass eta mini_batch) tt).
Proof.
  intros H. apply stable_for_each. intros [] b. apply stable_mini_batch_pass. exact H.
Qed.

Lemma epoch_cost_points (shuffle : nat -> list sample -> list sample) (n : nat)
    (mini_batch_size : Z) (eta : R) (test_data : option (list sample))
    (training_data : list sample) (j : nat) :
  grows Network.cost_points (fun ev => length ev = 1)
    (Network.epoch shuffle n mini_batch_size eta test_data training_data j).
Proof.
  unfold Network.epoch. cbv zeta.
  apply grows_stable_then; [apply stable_np | intros batches].
  apply grows_stable_then; [apply stable_batches; reflexivity | intros _].
  apply grows_stable_then; [apply stable_total_cost; reflexivity | intros c].
  apply grows_stable_then; [apply stable_mean_cost | intros tc].
  apply grows_then_stable.
  - intros s w x s' w' H. inversion H; subst. exists [tc]. split; reflexivity.
  - intros _. apply stable_bind; [apply stable_report_cost_points | intros _].
    apply stable_mret.
Qed.

Lemma epoch_cost_points_test (shuffle : nat -> list sample -> list sample) (n : nat)
    (mini_batch_size : Z) (eta : R) (test_data : option (list sample))
    (training_data : list sample) (j : nat) :
  grows Network.cost_points_test
    (fun ev => length ev = if truthy test_data then 1 else 0)
    (Network.epoch shuffle n mini_batch_size eta test_data training_data j).
Proof.
  unfold Network.epoch. cbv zeta.
  apply grows_stable_then; [apply stable_np | intros batches].
  apply grows_stable_then; [apply stable_batches; reflexivity | intros _].
  apply grows_stable_then; [apply stable_total_cost; reflexivity | intros c].
  apply grows_stable_then; [apply stable_mean_cost | intros tc].
  apply grows_stable_then; [apply stable_modify_self; reflexivity | intros _].
  apply grows_then_stable; [apply report_cost_points_test | intros _; apply stable_mret].
Qed.

(** X15. A [stochastic_gradient_descent] that returns has appended one
    entry per epoch to [cost_points], one per epoch to [cost_points_test] if
    test data was given and none otherwise, and has printed one line per
    epoch: without test data, the lines [Epoch j complete] for
    [j = 0, 1, ...]. *)
Theorem stochastic_gradient_descent_records_each_epoch
    (shuffle : nat -> list sample -> list sample)
    (training_data : list sample) (epochs mini_batch_size : Z) (eta : R)
    (test_data : option (list sample)) (net : Network.t) (w : world)
    (training_data' : list sample) (net' : Network.t) (w' : world) :
  Network.stochastic_gradient_descent shuffle training_data epochs mini_batch_size
    eta test_data net w
  = Ok training_data' net' w' ->
  (exists costs,
      Network.cost_points net' = Network.cost_points net ++ costs
      /\ length costs = Z.to_nat epochs)
  /\ (exists costs,
        Network.cost_points_test net' = Network.cost_points_test net ++ costs
        /\ length costs = if truthy test_data then Z.to_nat epochs else 0)
  /\ (exists lines,
        stdout w' = stdout w ++ lines /\ length lines = Z.to_nat epochs)
  /\ (truthy test_data = false ->
      stdout w' = stdout w ++ (Print_epoch_complete <$> seq 0 (Z.to_nat epochs))).
Proof.
  intros Hrun. unfold Network.stochastic_gradient_descent in Hrun. cbv zeta in Hrun.
  split; [|split; [|split]].
  - destruct (grows_for_each_length Network.cost_points 1 (seq 0 (Z.to_nat epochs)) _
                (epoch_cost_points shuffle _ mini_batch_size eta test_data)
                _ _ _ _ _ _ Hrun) as (ev & E1 & E2).
    exists ev. split; [exact E1|]. rewrite E2, length_seq. lia.
  - destruct (grows_for_each_length Network.cost_points_test
                (if truthy test_data then 1 else 0) (seq 0 (Z.to_nat epochs)) _
                (epoch_cost_points_test shuffle _ mini_batch_size eta test_data)
                _ _ _ _ _ _ Hrun) as (ev & E1 & E2).
    exists ev. split; [exact E1|]. rewrite E2, length_seq.
    destruct (truthy test_data); lia.
  - destruct (appends_for_each_length stdout 1 (seq 0 (Z.to_nat epochs)) _
                (epoch_stdout shuffle _ mini_batch_size eta test_data)
                _ _ _ _ _ _ Hrun) as (ev & E1 & E2).
    exists ev. split; [exact E1|]. rewrite E2, length_seq. lia.
  - intros Ht.
    destruct (appends_for_each stdout (fun j => [Print_epoch_complete j])
                (seq 0 (Z.to_nat epochs)) _
                (fun td j => epoch_stdout_no_test shuffle _ mini_batch_size eta test_data
                               td j Ht)
                _ _ _ _ _ _ Hrun) as (ev & E1 & <-).
    rewrite E1, bind_singleton_fmap. reflexivity.
Qed.

(** Two epochs on the network of the example, without test data. *)
Lemma stochastic_gradient_descent_records_each_epoch_witness :
  exists training_data' net' w',
    Network.stochastic_gradient_descent demo_shuffle demo_training_data 2 2 (1 / 10)
      None demo_net demo_net_world
    = Ok training_data' net' w'
    /\ length (Network.cost_points net') = 2
    /\ Network.cost_points_test net' = []
    /\ stdout w' = [Print_epoch_complete 0; Print_epoch_complete 1].
Proof.
  assert (Hst : exists td,
            status_of (Network.stochastic_gradient_descent demo_shuffle
                         demo_training_data 2 2 (1 / 10) None demo_net demo_net_world)
            = Returned td).
  { eexists. vm_compute. reflexivity. }
  destruct Hst as [td0 Hst].
  destruct (Network.stochastic_gradient_descent demo_shuffle demo_training_data 2 2
              (1 / 10) None demo_net demo_net_world)
    as [training_data' net' w'| |] eqn:E; [|discriminate Hst|discriminate Hst].
  destruct (stochastic_gradient_descent_records_each_epoch demo_shuffle
              demo_training_data 2 2 (1 / 10) None demo_net demo_net_world
              training_data' net' w' E)
    as ((costs & Hc & Hlen) & (tcosts & Ht & Htlen) & _ & Hout).
  exists training_data', net', w'. split; [reflexivity|].
  split; [rewrite Hc; cbn; exact Hlen|].
  split.
  { rewrite Ht. cbn in Htlen |- *. destruct tcosts; [reflexivity | discriminate]. }
  apply Hout. reflexivity.
Defined.

Lemma mini_batches_empty (mini_batch_size : Z) :
  mini_batch_size <> 0%Z -> mini_batches [] 0 mini_batch_size = Some [].
Proof.
  intros H. destruct (Z.lt_trichotomy mini_batch_size 0) as [Hneg|[H0|Hpos]].
  - apply mini_batches_negative. exact Hneg.
  - contradiction.
  - unfold mini_batches, py_range.
    destruct (Z.eqb_spec mini_batch_size 0) as [E|_]; [lia|].
    destruct (Z.ltb_spec 0 mini_batch_size) as [_|E]; [|lia].
    assert (Hq : ((Z.of_nat 0 - 0 + mini_batch_size - 1) / mini_batch_size < 1)%Z).
    { apply Z.div_lt_upper_bound; lia. }
    replace (Z.to_nat ((Z.of_nat 0 - 0 + mini_batch_size - 1) / mini_batch_size)) with 0
      by lia.
    reflexivity.
Qed.

(** X16. The degenerate arguments of [stochastic_gradient_descent]. With
    no epoch to run it returns at once. Otherwise a [mini_batch_size] of
    zero raises the ValueError of [range] in the first epoch, and an empty
    training set raises ZeroDivisionError at the mean cost of the first
    epoch; in both cases the network and the arrays are as before. *)
Theorem stochastic_gradient_descent_degenerate_arguments
    (shuffle : nat -> list sample -> list sample)
    (training_data : list sample) (epochs mini_batch_size : Z) (eta : R)
    (test_data : option (list sample)) (net : Network.t) (w : world) :
  let run := Network.stochastic_gradient_descent shuffle training_data epochs
               mini_batch_size eta test_data net w in
  ((epochs <= 0)%Z -> run = Ok training_data net w)
  /\ ((0 < epochs)%Z -> mini_batch_size = 0%Z -> run = Raise ValueError net w)
  /\ ((0 < epochs)%Z -> mini_batch_size <> 0%Z ->
      training_data = [] -> shuffle 0 [] = [] ->
      run = Raise ZeroDivisionError net w).
Proof.
  intros run. unfold run, Network.stochastic_gradient_descent. cbv zeta.
  split; [|split].
  - intros H. replace (Z.to_nat epochs) with 0 by lia. reflexivity.
  - intros H ->. destruct (Z.to_nat epochs) as [|n] eqn:E; [lia|].
    cbn [seq for_each]. rewrite bind_unfold. reflexivity.
  - intros H Hm -> Hs. destruct (Z.to_nat epochs) as [|n] eqn:E; [lia|].
    cbn [seq for_each length]. rewrite bind_unfold.
    unfold Network.epoch. cbv zeta. rewrite Hs, (mini_batches_empty _ Hm).
    reflexivity.
Qed.

(** A loop whose iterations move the loop variable along a preorder. *)
Lemma ensures_for_each_rel {T A B} (R : B -> B -> Prop) (l : list A)
    (body : B -> A -> M T B) :
  (forall b, R b b) -> (forall a b c, R a b -> R b c -> R a c) ->
  (forall b a, a ∈ l -> ensures (fun b' _ => R b b') (body b a)) ->
  forall b, ensures (fun b' _ => R b b') (for_each l body b).
Proof.
  intros Hrefl Htrans. induction l as [|a l IH]; intros Hbody b s w b' s' w';
    cbn [for_each].
  - intros E. inversion E; subst. apply Hrefl.
  - rewrite bind_unfold.
    destruct (body b a s w) as [b1 s1 w1| |] eqn:E1; [|discriminate|discriminate].
    intros E2. apply Hbody in E1; [|left].
    apply IH in E2; [|intros b0 a0 Hin; apply Hbody; right; exact Hin].
    eapply Htrans; eauto.
Qed.

Lemma epoch_returns_shuffled (shuffle : nat -> list sample -> list sample) (n : nat)
    (mini_batch_size : Z) (eta : R) (test_data : option (list sample))
    (training_data : list sample) (j : nat) :
  ensures (fun td' _ => td' = shuffle j training_data)
    (Network.epoch shuffle n mini_batch_size eta test_data training_data j).
Proof.
  unfold Network.epoch. cbv zeta.
  do 6 (apply ensures_bind; intros ?). apply ensures_mret. reflexivity.
Qed.

(** X19. If [random.shuffle] permutes, a [stochastic_gradient_descent] that
    returns leaves the training list with the samples it had, in another
    order. *)
Theorem stochastic_gradient_descent_permutes_training_data
    (shuffle : nat -> list sample -> list sample)
    (training_data : list sample) (epochs mini_batch_size : Z) (eta : R)
    (test_data : option (list sample)) (net : Network.t) (w : world)
    (training_data' : list sample) (net' : Network.t) (w' : world) :
  (forall j l, (j < Z.to_nat epochs)%nat -> Permutation (shuffle j l) l) ->
  Network.stochastic_gradient_descent shuffle training_data epochs mini_batch_size
    eta test_data net w
  = Ok training_data' net' w' ->
  Permutation training_data' training_data
  /\ length training_data' = length training_data.
Proof.
  intros Hperm Hrun.
  assert (H : Permutation training_data training_data').
  { unfold Network.stochastic_gradient_descent in Hrun. cbv zeta in Hrun.
    revert Hrun.
    apply (ensures_for_each_rel (@Permutation sample) (seq 0 (Z.to_nat epochs))).
    - intros b. reflexivity.
    - intros a b c. apply Permutation_trans.
    - intros td j Hj s0 w0 td' s1 w1 E. apply elem_of_seq in Hj.
      apply epoch_returns_shuffled in E. subst td'.
      symmetry. apply Hperm. lia. }
  split; [symmetry; exact H | symmetry; apply Permutation_length; exact H].
Qed.

(** Two epochs on the network of the example. *)
Lemma stochastic_gradient_descent_permutes_training_data_witness :
  exists training_data' net' w',
    Network.stochastic_gradient_descent demo_shuffle demo_training_data 2 2 (1 / 10)
      None demo_net demo_net_world
    = Ok training_data' net' w'
    /\ length training_data' = 3.
Proof.
  assert (Hst : exists td,
            status_of (Network.stochastic_gradient_descent demo_shuffle
                         demo_training_data 2 2 (1 / 10) None demo_net demo_net_world)
            = Returned td).
  { eexists. vm_compute. reflexivity. }
  destruct Hst as [td0 Hst].
  destruct (Network.stochastic_gradient_descent demo_shuffle demo_training_data 2 2
              (1 / 10) None demo_net demo_net_world)
    as [training_data' net' w'| |] eqn:E; [|discriminate Hst|discriminate Hst].
  destruct (stochastic_gradient_descent_permutes_training_data demo_shuffle
              demo_training_data 2 2 (1 / 10) None demo_net demo_net_world
              training_data' net' w'
              (fun j l _ => Permutation_sym (Permutation_rev l)) E) as [_ Hlen].
  exists training_data', net', w'. split; [reflexivity | exact Hlen].
Defined.

(* ====================================================================== *)
(** ** Layer sizes and the forward pass *)
(* ====================================================================== *)

(** One iteration of the loop of [forward_pass], on the layer it finds. *)
Lemma forward_body_unfold (output : loc) (layer : nat) (s : Network.t) (w : world)
    (l : Layer) :
  Network.layers s !! layer = Some l ->
  forward_body output layer s w
  = embed (fun l' => Network.set_layers (<[layer := l']> (Network.layers s)) s)
      (Layer.invoke (Call_forward layer) (Layer.forward_propagation output)) l s w.
Proof.
  intros Hl. unfold forward_body.
  rewrite (bind_Ok _ _ _ _ _ _ _
             (layer_index_of_nat s w layer (lookup_lt_Some _ _ _ Hl))).
  unfold Network.on_layer. rewrite Hl. reflexivity.
Qed.

(** An elementwise layer takes an input of any shape. *)
Lemma elementwise_forward_run (al : Layer) (c : call) (output : loc) (xa : ndarray)
    (w : world) :
  elementwise al -> heap w !! output = Some xa ->
  exists al' a,
    Layer.invoke c (Layer.forward_propagation output) al w
    = Ok (length (heap w)) al' (set_heap (heap w ++ [a]) (with_call c w))
    /\ skeleton al' = skeleton al
    /\ nrows a = nrows xa /\ ncols a = ncols xa.
Proof.
  intros Hal Hx.
  assert (Hx' : heap (with_call c w) !! output = Some xa) by exact Hx.
  destruct al as [l|l|l|l|l]; try contradiction; unfold Layer.invoke;
    cbn [Layer.forward_propagation]; rewrite bind_unfold; cbn [record_call];
    fold (with_call c w); unfold embed.
  - unfold SigmoidLayer.forward_propagation.
    rewrite (bind_Ok _ _ _ _ _ _ _ (load_Ok _ _ _ _ Hx')).
    rewrite (bind_Ok _ _ _ _ _ _ _ (alloc_Ok _ _ _)).
    eexists _, _. split; [reflexivity|]. repeat split.
  - unfold ReluLayer.forward_propagation.
    rewrite (bind_Ok _ _ _ _ _ _ _ (load_Ok _ _ _ _ Hx')).
    rewrite (bind_Ok _ _ _ _ _ _ _ (alloc_Ok _ _ _)).
    eexists _, _. split; [reflexivity|]. repeat split.
  - unfold SoftmaxLayer.forward_propagation.
    rewrite (bind_Ok _ _ _ _ _ _ _ (load_Ok _ _ _ _ Hx')).
    rewrite (bind_Ok _ _ _ _ _ _ _ (alloc_Ok _ _ _)).
    eexists _, _. split; [reflexivity|]. repeat split.
Qed.

(** X20. What an activation layer of the wrong size does. The builder gives
    the next fully connected layer as many weight columns as the activation
    layer was declared with; if that is not the size of the fully connected
    layer before it, a forward pass on a conforming input goes through the
    first two layers and ends in [exit()] at the third, with the
    diagnostic of the two numbers. *)
Theorem mismatched_activation_size_halts_forward_pass
    (net : Network.t) (w : world) (x : loc) (xa : ndarray)
    (il : InputLayer.t) (fc1 fc2 : FullyConnectedLayer.t) (al : Layer) :
  Network.layers net = [Input il; FullyConnected fc1; al; FullyConnected fc2] ->
  elementwise al ->
  fc_shapes w fc1 -> fc_shapes w fc2 ->
  FullyConnectedLayer.N_p fc2 = width al ->
  heap w !! x = Some xa ->
  nrows xa = FullyConnectedLayer.N_p fc1 -> ncols xa = 1 ->
  width al <> FullyConnectedLayer.N fc1 ->
  exists net' w',
    Network.forward_pass x net w = Exit net' w'
    /\ stdout w'
       = stdout w ++ mismatch_report (width al) (FullyConnectedLayer.N fc1)
    /\ calls w' = calls w ++ [Call_forward 1; Call_forward 2; Call_forward 3].
Proof.
  intros Hls Hal (HW1 & HB1 & _ & _) (HW2 & _ & _ & _) HNp Hx Hxr Hxc Hne.
  destruct HW1 as (wa1 & HW1 & Hw1r & Hw1c).
  destruct HB1 as (ba1 & HB1 & Hb1r & Hb1c).
  destruct HW2 as (wa2 & HW2 & Hw2r & Hw2c).
  rewrite (forward_pass_unfold x net w (Input il)) by (rewrite Hls; reflexivity).
  cbv zeta. rewrite Hls. cbn [length Nat.sub seq for_each list_insert insert].
  set (net0 := Network.set_layers _ net).
  (* the first fully connected layer *)
  set (w0 := with_call (Call_forward 1) w).
  pose proof (fc_forward_propagation_run fc1 w0 x wa1 ba1 xa HW1 HB1 Hx
                ltac:(congruence) ltac:(congruence) ltac:(congruence)) as H1.
  match type of H1 with _ = Ok _ ?s ?v => set (fc1' := s) in *; set (w1 := v) in * end.
  rewrite bind_unfold.
  rewrite (forward_body_unfold x 1 net0 w (FullyConnected fc1) eq_refl).
  unfold embed at 1, Layer.invoke. cbn [Layer.forward_propagation].
  rewrite bind_unfold. cbn [record_call].
  change (mk_world (heap w) (stdout w) (calls w ++ [Call_forward 1])) with w0.
  unfold embed at 1. rewrite H1.
  set (net1 := Network.set_layers _ net0).
  (* the elementwise layer *)
  assert (Hz : heap w1 !! length (heap w0) = Some
                 (mk_ndarray (nrows wa1) (ncols xa)
                    (fun i j =>
                       (sum_upto (ncols wa1)
                          (fun k => elt wa1 (bidx (nrows wa1) i) k
                                    * elt xa k (bidx (ncols xa) j))
                        + elt ba1 (bidx (nrows wa1) i) (bidx (ncols xa) j))%R))).
  { apply lookup_alloc_new. }
  destruct (elementwise_forward_run al (Call_forward 2) (length (heap w0)) _ w1 Hal Hz)
    as (al' & a2 & H2 & _ & Ha2r & Ha2c).
  rewrite bind_unfold.
  rewrite (forward_body_unfold (length (heap w0)) 2 net1 w1 al eq_refl).
  unfold embed at 1. rewrite H2.
  set (net2 := Network.set_layers _ net1).
  set (w2 := set_heap _ (with_call (Call_forward 2) w1)).
  (* the second fully connected layer *)
  set (w3 := with_call (Call_forward 3) w2).
  assert (HW2' : heap w3 !! FullyConnectedLayer.W fc2 = Some wa2).
  { cbn. apply lookup_alloc_old, lookup_alloc_old. exact HW2. }
  assert (Ha2 : heap w3 !! length (heap w1) = Some a2).
  { cbn. apply lookup_alloc_new. }
  pose proof (forward_propagation_mismatch fc2 w3 (length (heap w1)) wa2 a2 HW2' Ha2
                ltac:(cbn in *; congruence)) as H3.
  rewrite bind_unfold.
  rewrite (forward_body_unfold (length (heap w1)) 3 net2 w2 (FullyConnected fc2) eq_refl).
  unfold embed at 1, Layer.invoke. cbn [Layer.forward_propagation].
  rewrite bind_unfold. cbn [record_call].
  change (mk_world (heap w2) (stdout w2) (calls w2 ++ [Call_forward 3])) with w3.
  unfold embed at 1. rewrite H3.
  eexists _, _. split; [reflexivity|]. split.
  - cbn. rewrite Hw2c, HNp, Ha2r. cbn. rewrite Hw1r. reflexivity.
  - cbn. rewrite <- !app_assoc. reflexivity.
Qed.

(** A sigmoid layer declared with five neurons after a layer of two. *)
Lemma mismatched_activation_size_halts_forward_pass_witness :
  exists net' w',
    Network.forward_pass 8 demo_mismatch_net demo_mismatch_world = Exit net' w'
    /\ stdout w' = mismatch_report 5 2.
Proof.
  assert (H1 : fc_shapes demo_mismatch_world demo_fc).
  { repeat split; eexists; (split; [reflexivity | split; reflexivity]). }
  assert (H2 : fc_shapes demo_mismatch_world demo_mismatch_fc).
  { repeat split; eexists; (split; [reflexivity | split; reflexivity]). }
  destruct (mismatched_activation_size_halts_forward_pass demo_mismatch_net
              demo_mismatch_world 8 demo_x (InputLayer.mk 3 8) demo_fc demo_mismatch_fc
              (Sigmoid (SigmoidLayer.mk 5 11)) eq_refl I H1 H2 eq_refl eq_refl
              eq_refl eq_refl ltac:(discriminate))
    as (net' & w' & Hrun & Hout & _).
  exists net', w'. split; [exact Hrun | exact Hout].
Defined.

Lemma width_skeleton (l : Layer) : width (skeleton l) = width l.
Proof. destruct l; reflexivity. Qed.

Lemma input_width_skeleton (l : Layer) : input_width (skeleton l) = input_width l.
Proof. destruct l; reflexivity. Qed.

(** One iteration of the loop of [forward_pass] on a layer that is given
    an array of the width it takes. *)
Lemma forward_body_conforming (output : loc) (layer : nat) (s : Network.t) (w : world)
    (l : Layer) (arr : ndarray) :
  Network.layers s !! layer = Some l ->
  (forall il, l <> Input il) ->
  (forall fc, l = FullyConnected fc -> fc_shapes w fc) ->
  heap w !! output = Some arr ->
  nrows arr = input_width l -> ncols arr = 1 ->
  exists l' arr',
    forward_body output layer s w
    = Ok (length (heap w))
        (Network.set_layers (<[layer := l']> (Network.layers s)) s)
        (set_heap (heap w ++ [arr']) (with_call (Call_forward layer) w))
    /\ skeleton l' = skeleton l
    /\ nrows arr' = width l /\ ncols arr' = 1.
Proof.
  intros Hl Hin Hfc Hout Hr Hc.
  rewrite (forward_body_unfold output layer s w l Hl).
  destruct l as [fc|sl|rl|ml|il].
  - destruct (Hfc fc eq_refl) as ((wa & HW & Hwr & Hwc) & (ba & HB & Hbr & Hbc) & _).
    pose proof (fc_forward_propagation_run fc (with_call (Call_forward layer) w)
                  output wa ba arr HW HB Hout ltac:(cbn in Hr; congruence)
                  ltac:(congruence) ltac:(congruence)) as Hrun.
    unfold embed at 1, Layer.invoke. cbn [Layer.forward_propagation].
    rewrite bind_unfold. cbn [record_call].
    change (mk_world (heap w) (stdout w) (calls w ++ [Call_forward layer]))
      with (with_call (Call_forward layer) w).
    unfold embed at 1. rewrite Hrun.
    eexists _, _. split; [reflexivity|].
    split; [reflexivity|]. cbn. split; assumption.
  - destruct (elementwise_forward_run (Sigmoid sl) (Call_forward layer) output arr w I Hout)
      as (al' & a & Hrun & Hsk & Har & Hac).
    unfold embed at 1. rewrite Hrun.
    exists al', a. split; [reflexivity|]. split; [exact Hsk|].
    cbn in Hr |- *. split; congruence.
  - destruct (elementwise_forward_run (Relu rl) (Call_forward layer) output arr w I Hout)
      as (al' & a & Hrun & Hsk & Har & Hac).
    unfold embed at 1. rewrite Hrun.
    exists al', a. split; [reflexivity|]. split; [exact Hsk|].
    cbn in Hr |- *. split; congruence.
  - destruct (elementwise_forward_run (Softmax ml) (Call_forward layer) output arr w I Hout)
      as (al' & a & Hrun & Hsk & Har & Hac).
    unfold embed at 1. rewrite Hrun.
    exists al', a. split; [reflexivity|]. split; [exact Hsk|].
    cbn in Hr |- *. split; congruence.
  - exfalso. eapply Hin. reflexivity.
Qed.

Lemma fc_shapes_alloc (w : world) (c : call) (a : ndarray) (fc : FullyConnectedLayer.t) :
  fc_shapes w fc -> fc_shapes (set_heap (heap w ++ [a]) (with_call c w)) fc.
Proof.
  intros (H1 & H2 & H3 & H4).
  repeat split;
    match goal with
    | H : holds w ?l ?r ?k |- holds _ ?l ?r ?k =>
        destruct H as (b & Hb & Hr & Hc); exists b; cbn;
        split; [apply lookup_alloc_old; exact Hb | split; assumption]
    end.
Qed.

Lemma net_skeleton_insert (s : Network.t) (i : nat) (l l' : Layer) :
  Network.layers s !! i = Some l -> skeleton l' = skeleton l ->
  net_skeleton (Network.set_layers (<[i := l']> (Network.layers s)) s) = net_skeleton s.
Proof.
  intros Hl Hsk. unfold net_skeleton. cbn.
  rewrite list_fmap_insert, Hsk, list_insert_id; [reflexivity|].
  rewrite list_lookup_fmap, Hl. reflexivity.
Qed.

(** The loop of [forward_pass] over layers that take what the layer before
    gives. *)
Lemma forward_loop_conforming (m : nat) :
  forall (a : nat) (out : loc) (s : Network.t) (w : world) (arr : ndarray),
    a + m <= length (Network.layers s) ->
    (forall i l il, a <= i < a + m -> Network.layers s !! i = Some l -> l <> Input il) ->
    (forall i fc, a <= i < a + m -> Network.layers s !! i = Some (FullyConnected fc) ->
       fc_shapes w fc) ->
    (forall i l l', a <= i -> S i < a + m ->
       Network.layers s !! i = Some l -> Network.layers s !! S i = Some l' ->
       input_width l' = width l) ->
    heap w !! out = Some arr -> ncols arr = 1 ->
    (forall l, 0 < m -> Network.layers s !! a = Some l -> input_width l = nrows arr) ->
    exists r s' w' arr',
      for_each (seq a m) forward_body out s w = Ok r s' w'
      /\ heap w' !! r = Some arr' /\ ncols arr' = 1
      /\ net_skeleton s' = net_skeleton s
      /\ (forall l, 0 < m -> Network.layers s !! (a + m - 1) = Some l ->
            nrows arr' = width l)
      /\ (m = 0 -> r = out).
Proof.
  induction m as [|m IH]; intros a out s w arr Hlen Hin Hfc Hch Hout Hc Hfirst.
  - exists out, s, w, arr. cbn.
    split; [reflexivity|]. split; [exact Hout|]. split; [exact Hc|].
    split; [reflexivity|]. split; [intros; lia | reflexivity].
  - destruct (lookup_lt_is_Some_2 (Network.layers s) a ltac:(lia)) as [l Hl].
    destruct (forward_body_conforming out a s w l arr Hl
                (fun il => Hin a l il ltac:(lia) Hl)
                (fun fc E => Hfc a fc ltac:(lia) ltac:(rewrite Hl, E; reflexivity))
                Hout (eq_sym (Hfirst l ltac:(lia) Hl)) Hc)
      as (l' & arr1 & Hrun & Hsk & Hr1 & Hc1).
    set (s1 := Network.set_layers (<[a := l']> (Network.layers s)) s) in *.
    set (w1 := set_heap (heap w ++ [arr1]) (with_call (Call_forward a) w)) in *.
    assert (Hother : forall i, i <> a -> Network.layers s1 !! i = Network.layers s !! i).
    { intros i Hi. cbn. apply list_lookup_insert_ne. auto. }
    assert (Hout1 : heap w1 !! length (heap w) = Some arr1).
    { cbn. apply lookup_alloc_new. }
    destruct (IH (S a) (length (heap w)) s1 w1 arr1) as
      (r & s' & w' & arr' & Hloop & Hr & Hrc & Hsk' & Hw & H0).
    + cbn. rewrite length_insert. lia.
    + intros i x il Hi Hx. rewrite Hother in Hx by lia. eapply Hin; [|exact Hx]. lia.
    + intros i fc Hi Hx. rewrite Hother in Hx by lia.
      apply fc_shapes_alloc. eapply Hfc; [|exact Hx]. lia.
    + intros i x x' Hi HSi Hx Hx'. rewrite Hother in Hx, Hx' by lia.
      eapply Hch; [| |exact Hx|exact Hx']; lia.
    + exact Hout1.
    + exact Hc1.
    + intros x Hm Hx. rewrite Hother in Hx by lia.
      rewrite (Hch a l x ltac:(lia) ltac:(lia) Hl Hx). symmetry. exact Hr1.
    + exists r, s', w', arr'. split.
      { cbn [seq for_each]. rewrite (bind_Ok _ _ _ _ _ _ _ Hrun). exact Hloop. }
      split; [exact Hr|]. split; [exact Hrc|]. split.
      { rewrite Hsk'. apply (net_skeleton_insert s a l l' Hl Hsk). }
      split; [|intros; lia].
      intros x _ Hx. destruct m as [|m].
      * rewrite (H0 eq_refl) in Hr.
        assert (Hw' : w' = w1).
        { cbn in Hloop. inversion Hloop. reflexivity. }
        rewrite Hw', Hout1 in Hr. injection Hr as <-.
        replace (a + 1 - 1) with a in Hx by lia.
        rewrite Hl in Hx. injection Hx as <-. exact Hr1.
      * apply Hw; [lia|]. rewrite Hother by lia.
        replace (S a + S m - 1) with (a + S (S m) - 1) by lia. exact Hx.
Qed.

(** X22. On a network whose layers each take what the layer before gives,
    with the arrays of the fully connected layers in their shapes, a
    forward pass on a column vector of the input layer's size returns, never
    reaching the [exit()] of a fully connected layer; what it returns is a
    column vector of the size of the last layer, and nothing is printed. *)
Theorem forward_pass_succeeds_on_chained_network
    (net : Network.t) (w : world) (x : loc) (xa : ndarray)
    (il : InputLayer.t) (rest : list Layer) :
  Network.layers net = Input il :: rest ->
  (forall l il', l ∈ rest -> l <> Input il') ->
  widths_chained (Network.layers net) ->
  (forall i fc, Network.layers net !! i = Some (FullyConnected fc) -> fc_shapes w fc) ->
  heap w !! x = Some xa ->
  nrows xa = InputLayer.N il -> ncols xa = 1 ->
  exists r net' w' a last_layer,
    Network.forward_pass x net w = Ok r net' w'
    /\ heap w' !! r = Some a
    /\ last (Network.layers net) = Some last_layer
    /\ nrows a = width last_layer /\ ncols a = 1
    /\ stdout w' = stdout w.
Proof.
  intros Hls Hrest Hch Hfc Hx Hxr Hxc.
  rewrite (forward_pass_unfold x net w (Input il)) by (rewrite Hls; reflexivity).
  cbv zeta.
  set (net0 := Network.set_layers _ net).
  assert (Hother : forall i, i <> 0 -> Network.layers net0 !! i = Network.layers net !! i).
  { intros i Hi. cbn. apply list_lookup_insert_ne. auto. }
  assert (Hlen : length (Network.layers net) = S (length rest)).
  { rewrite Hls. reflexivity. }
  destruct (forward_loop_conforming (length (Network.layers net) - 1) 1 x net0 w xa)
    as (r & s' & w' & arr' & Hloop & Hr & Hrc & Hsk & Hw & H0).
  - cbn. rewrite length_insert. lia.
  - intros i l il' Hi Hl. rewrite Hother in Hl by lia. rewrite Hls in Hl.
    destruct i as [|i]; [lia|]. cbn in Hl.
    apply (Hrest l il'). eapply list_elem_of_lookup_2. exact Hl.
  - intros i fc Hi Hl. rewrite Hother in Hl by lia. eapply Hfc. exact Hl.
  - intros i l l' Hi HSi Hl Hl'. rewrite Hother in Hl, Hl' by lia.
    eapply Hch; eauto.
  - exact Hx.
  - exact Hxc.
  - intros l Hm Hl. rewrite Hother in Hl by lia.
    rewrite (Hch 0 (Input il) l ltac:(rewrite Hls; reflexivity) Hl). cbn. congruence.
  - destruct (last (Network.layers net)) as [last_layer|] eqn:Hlast; cycle 1.
    { rewrite Hls in Hlast. apply last_None in Hlast. discriminate. }
    exists r, s', w', arr', last_layer. split; [exact Hloop|]. split; [exact Hr|].
    split; [reflexivity|].
    assert (Hout : stdout w' = stdout w).
    { eapply (silent_elim stdout); [|exact Hloop].
      apply silent_for_each. intros out layer. apply forward_body_stdout. }
    rewrite last_lookup, Hlen in Hlast. cbn [Init.Nat.pred] in Hlast.
    destruct rest as [|l1 rest'] eqn:Erest.
    + rewrite Hlen in Hloop, H0. cbn in Hloop. inversion Hloop; subst.
      rewrite Hx in Hr. injection Hr as <-.
      rewrite Hls in Hlast. cbn in Hlast. injection Hlast as <-.
      cbn. repeat split; assumption.
    + split; [|split; assumption].
      apply Hw; [rewrite Hlen; cbn; lia|].
      rewrite Hother by (rewrite Hlen; cbn; lia).
      rewrite Hlen. cbn [length]. replace (1 + (S (S (length rest')) - 1) - 1)
        with (length (l1 :: rest')) by (cbn; lia).
      exact Hlast.
Qed.

Lemma demo_net_chained : widths_chained (Network.layers demo_net).
Proof.
  intros i a b Ha Hb. destruct i as [|[|i]]; cbn in Ha, Hb.
  - injection Ha as <-. injection Hb as <-. reflexivity.
  - injection Ha as <-. injection Hb as <-. reflexivity.
  - destruct i; discriminate.
Qed.

(** The network of the example. *)
Lemma forward_pass_succeeds_on_chained_network_witness :
  exists r net' w' a,
    Network.forward_pass 0 demo_net demo_net_world = Ok r net' w'
    /\ heap w' !! r = Some a
    /\ nrows a = 2 /\ ncols a = 1.
Proof.
  destruct (forward_pass_succeeds_on_chained_network demo_net demo_net_world 0
              (of_rows 2 1 [[1]; [2]]%R) (InputLayer.mk 2 0)
              [FullyConnected demo_net_fc; Softmax (SoftmaxLayer.mk 2 9)] eq_refl)
    as (r & net' & w' & a & last_layer & Hrun & Hr & Hlast & Hrows & Hcols & _).
  - intros l il' Hl E. subst l. apply list_elem_of_In in Hl. cbn in Hl.
    destruct Hl as [Hl|[Hl|[]]]; discriminate.
  - exact demo_net_chained.
  - exact (proj1 demo_net_wf).
  - reflexivity.
  - reflexivity.
  - reflexivity.
  - exists r, net', w', a. split; [exact Hrun|]. split; [exact Hr|].
    cbn in Hlast. injection Hlast as <-. split; [exact Hrows | exact Hcols].
Defined.

(* ====================================================================== *)
(** ** The calls of a mini-batch pass *)
(* ====================================================================== *)

(** The calls of one sample of a mini-batch. *)
Lemma sample_calls (input output : loc) (s : Network.t) (w : world) s' w' :
  (Network.forward_pass input;; Network.backward_pass output) s w = Ok tt s' w' ->
  net_skeleton s' = net_skeleton s
  /\ calls w' = calls w ++ sample_trace s.
Proof.
  rewrite bind_unfold.
  destruct (Network.forward_pass input s w) as [r s1 w1| |] eqn:Ef;
    [|discriminate|discriminate].
  intros Eb.
  destruct (keeps_forward_pass (fun _ => True) (net_skeleton s) input (fun _ => I)
              s w eq_refl) as [Hsk1 _].
  rewrite Ef in Hsk1. cbn in Hsk1.
  destruct (keeps_backward_pass (fun _ => True) (net_skeleton s1) output (fun _ => I)
              s1 w1 eq_refl) as [Hsk2 _].
  rewrite Eb in Hsk2. cbn in Hsk2.
  split; [congruence|].
  rewrite (backward_pass_calls _ _ _ _ _ Eb), (forward_pass_calls _ _ _ _ _ _ Ef).
  rewrite <- app_assoc. unfold sample_trace.
  rewrite (net_skeleton_length (net_skeleton s) s1 Hsk1).
  rewrite (net_skeleton_length (net_skeleton s) s eq_refl).
  replace (Network.is_SM_CE s1) with (Network.is_SM_CE s); [reflexivity|].
  apply (f_equal Network.is_SM_CE) in Hsk1. exact (eq_sym Hsk1).
Qed.

Lemma sample_trace_skeleton (s s' : Network.t) :
  net_skeleton s' = net_skeleton s -> sample_trace s' = sample_trace s.
Proof.
  intros H. unfold sample_trace.
  rewrite (net_skeleton_length (net_skeleton s) s' H).
  rewrite (net_skeleton_length (net_skeleton s) s eq_refl).
  apply (f_equal Network.is_SM_CE) in H. cbn in H. rewrite H. reflexivity.
Qed.

Lemma pass_samples_calls (mini_batch : list sample) :
  forall (s : Network.t) (w : world) s' w',
    Network.pass_samples mini_batch s w = Ok tt s' w' ->
    net_skeleton s' = net_skeleton s
    /\ calls w' = calls w ++ (mini_batch ≫= fun _ => sample_trace s).
Proof.
  unfold Network.pass_samples.
  induction mini_batch as [|[input output] l IH]; intros s w s' w'; cbn [for_each].
  - intros E. inversion E; subst. cbn. rewrite app_nil_r. auto.
  - rewrite bind_unfold.
    destruct ((Network.forward_pass input;; Network.backward_pass output) s w)
      as [[] s1 w1| |] eqn:E1; [|discriminate|discriminate].
    intros E2. apply sample_calls in E1 as [Hsk1 Hc1].
    apply IH in E2 as [Hsk2 Hc2].
    split; [congruence|].
    rewrite (sample_trace_skeleton s s1 Hsk1) in Hc2.
    rewrite Hc2, Hc1, <- app_assoc. reflexivity.
Qed.

Lemma update_body_calls (n : nat) (eta : R) (u : unit) (layer : nat) :
  appends calls (eq [Call_update layer n eta]) (update_body n eta u layer).
Proof.
  intros s w x s' w'. unfold update_body. rewrite bind_unfold.
  unfold Network.layer_index at 1.
  destruct (py_index (length (Network.layers s)) (Z.of_nat layer)) as [k|] eqn:Ek;
    [|discriminate].
  apply py_index_of_nat in Ek as [-> _].
  apply appends_on_layer, appends_invoke.
  intros self m Hm.
  eapply silent_layer_update_parameters; [intros; reflexivity | exact Hm].
Qed.

(** X21. The layer-method calls of a [mini_batch_pass] that returns, in
    full: for each sample the forward pass through the layers 1, 2, ...,
    then the backward pass through the layers [len - first], ..., 1, and
    after the last sample one [update_parameters(len(mini_batch), eta)] for
    each of the layers 1, 2, .... *)
Theorem mini_batch_pass_call_sequence
    (eta : R) (mini_batch : list sample) (net : Network.t) (w : world)
    (net' : Network.t) (w' : world) :
  Network.mini_batch_pass eta mini_batch net w = Ok tt net' w' ->
  let len := length (Network.layers net) in
  let first := if Network.is_SM_CE net then 2 else 1 in
  calls w'
  = calls w
    ++ (mini_batch ≫= fun _ =>
          (Call_forward <$> seq 1 (len - 1))
          ++ (Call_backward <$> rev (seq 1 (len - first))))
    ++ ((fun k => Call_update k (length mini_batch) eta) <$> seq 1 (len - 1)).
Proof.
  intros Hrun len first. unfold Network.mini_batch_pass in Hrun.
  rewrite bind_unfold in Hrun.
  destruct (Network.pass_samples mini_batch net w) as [[] s1 w1| |] eqn:E1;
    [|discriminate|discriminate].
  apply pass_samples_calls in E1 as [Hsk Hc1].
  unfold Network.update_layers in Hrun. rewrite bind_get_self in Hrun.
  rewrite (net_skeleton_length (net_skeleton net) s1 Hsk) in Hrun.
  destruct (appends_for_each calls (fun layer => [Call_update layer (length mini_batch) eta])
              (seq 1 (length (Network.layers (net_skeleton net)) - 1))
              (update_body (length mini_batch) eta)
              (update_body_calls (length mini_batch) eta) tt s1 w1 tt net' w' Hrun)
    as (ev & E2 & <-).
  rewrite E2, Hc1, bind_singleton_fmap, <- app_assoc.
  cbn [net_skeleton Network.set_layers Network.layers]. rewrite length_fmap.
  reflexivity.
Qed.

(** Two samples through the network of the example. *)
Lemma mini_batch_pass_call_sequence_witness :
  exists net' w',
    Network.mini_batch_pass (1 / 10) [(0, 10); (0, 10)] demo_net demo_net_world
    = Ok tt net' w'
    /\ calls w'
       = [Call_forward 1; Call_forward 2; Call_backward 1;
          Call_forward 1; Call_forward 2; Call_backward 1;
          Call_update 1 2 (1 / 10); Call_update 2 2 (1 / 10)].
Proof.
  assert (Hst : status_of (Network.mini_batch_pass (1 / 10) [(0, 10); (0, 10)]
                             demo_net demo_net_world)
                = Returned tt).
  { vm_compute. reflexivity. }
  destruct (Network.mini_batch_pass (1 / 10) [(0, 10); (0, 10)] demo_net demo_net_world)
    as [[] net' w'| |] eqn:E; [|discriminate Hst|discriminate Hst].
  exists net', w'. split; [reflexivity|].
  exact (mini_batch_pass_call_sequence (1 / 10) [(0, 10); (0, 10)] demo_net
           demo_net_world net' w' E).
Defined.

(* ====================================================================== *)
(** ** Runs that return *)
(* ====================================================================== *)

Lemma shapes_kept_refl (w : world) : shapes_kept w w.
Proof. intros l r c H. exact H. Qed.

Lemma shapes_kept_trans (w1 w2 w3 : world) :
  shapes_kept w1 w2 -> shapes_kept w2 w3 -> shapes_kept w1 w3.
Proof. intros H1 H2 l r c H. apply H2, H1, H. Qed.

Lemma shapes_kept_heap (w w' : world) : heap w' = heap w -> shapes_kept w w'.
Proof. intros E l r c (a & Ha & Hr & Hc). exists a. rewrite E. auto. Qed.

Lemma shapes_kept_alloc (w : world) (a : ndarray) :
  shapes_kept w (set_heap (heap w ++ [a]) w).
Proof. intros l r c H. apply holds_alloc_old, H. Qed.

Lemma shapes_kept_store (w : world) (t : loc) (old new : ndarray) :
  heap w !! t = Some old -> nrows new = nrows old -> ncols new = ncols old ->
  shapes_kept w (set_heap (<[t := new]> (heap w)) w).
Proof. intros Ht Hr Hc l r c H. eapply holds_insert; eauto. Qed.

Lemma fc_shapes_kept (w w' : world) (fc : FullyConnectedLayer.t) :
  shapes_kept w w' -> fc_shapes w fc -> fc_shapes w' fc.
Proof. intros Hk (H1 & H2 & H3 & H4). repeat split; apply Hk; assumption. Qed.

Lemma layer_ready_kept (w w' : world) (l : Layer) :
  shapes_kept w w' -> layer_ready w l -> layer_ready w' l.
Proof. intros Hk H. destruct l; apply Hk, H. Qed.

Section Returns.
Context {T : Type}.

Lemma returns_weaken {X} (m : M T X) (s : T) (w : world)
    (Q Q' : X -> T -> world -> Prop) :
  returns m s w Q ->
  (forall x s' w', shapes_kept w w' -> Q x s' w' -> Q' x s' w') ->
  returns m s w Q'.
Proof.
  intros (x & s' & w' & E & Hk & HQ) H. exists x, s', w'. auto.
Qed.

Lemma returns_mret {X} (x : X) (s : T) (w : world) (Q : X -> T -> world -> Prop) :
  Q x s w -> returns (mret x) s w Q.
Proof. intros H. exists x, s, w. split; [reflexivity|]. split; [apply shapes_kept_refl|exact H]. Qed.

Lemma returns_bind {X Y} (m : M T X) (k : X -> M T Y) (s : T) (w : world)
    (Q : Y -> T -> world -> Prop) :
  returns m s w (fun x s1 w1 => returns (k x) s1 w1 Q) ->
  returns (m ≫= k) s w Q.
Proof.
  intros (x & s1 & w1 & E & Hk & y & s2 & w2 & E2 & Hk2 & HQ).
  exists y, s2, w2. split; [rewrite (bind_Ok _ _ _ _ _ _ _ E); exact E2|].
  split; [eapply shapes_kept_trans; eassumption | exact HQ].
Qed.

Lemma returns_get_self (s : T) (w : world) (Q : T -> T -> world -> Prop) :
  Q s s w -> returns get_self s w Q.
Proof. intros H. exists s, s, w. split; [reflexivity|]. split; [apply shapes_kept_refl|exact H]. Qed.

Lemma returns_modify_self (f : T -> T) (s : T) (w : world)
    (Q : unit -> T -> world -> Prop) :
  Q tt (f s) w -> returns (modify_self f) s w Q.
Proof. intros H. exists tt, (f s), w. split; [reflexivity|]. split; [apply shapes_kept_refl|exact H]. Qed.

Lemma returns_np {X} (o : option X) (x : X) (s : T) (w : world)
    (Q : X -> T -> world -> Prop) :
  o = Some x -> Q x s w -> returns (np o) s w Q.
Proof. intros -> H. apply (returns_mret x), H. Qed.

Lemma returns_load (l : loc) (r c : nat) (s : T) (w : world)
    (Q : ndarray -> T -> world -> Prop) :
  holds w l r c ->
  (forall a, nrows a = r -> ncols a = c -> Q a s w) ->
  returns (load l) s w Q.
Proof.
  intros (a & Ha & Hr & Hc) H. exists a, s, w.
  split; [apply load_Ok, Ha|]. split; [apply shapes_kept_refl | apply H; assumption].
Qed.

Lemma returns_alloc (a : ndarray) (s : T) (w : world) (Q : loc -> T -> world -> Prop) :
  (forall l w', shapes_kept w w' -> holds w' l (nrows a) (ncols a) -> Q l s w') ->
  returns (alloc a) s w Q.
Proof.
  intros H. exists (length (heap w)), s, (set_heap (heap w ++ [a]) w).
  split; [reflexivity|]. split; [apply shapes_kept_alloc|].
  apply H; [apply shapes_kept_alloc|].
  exists a. split; [apply lookup_alloc_new | split; reflexivity].
Qed.

Lemma returns_record_call (c : call) (s : T) (w : world)
    (Q : unit -> T -> world -> Prop) :
  (forall w', shapes_kept w w' -> Q tt s w') -> returns (record_call c) s w Q.
Proof.
  intros H. eexists tt, s, _. split; [reflexivity|].
  split; [|apply H]; apply shapes_kept_heap; reflexivity.
Qed.

Lemma returns_print (o : out) (s : T) (w : world) (Q : unit -> T -> world -> Prop) :
  (forall w', shapes_kept w w' -> Q tt s w') -> returns (print o) s w Q.
Proof.
  intros H. eexists tt, s, _. split; [reflexivity|].
  split; [|apply H]; apply shapes_kept_heap; reflexivity.
Qed.

Lemma returns_store (l : loc) (a : ndarray) (s : T) (w : world)
    (Q : unit -> T -> world -> Prop) :
  holds w l (nrows a) (ncols a) ->
  (forall w', shapes_kept w w' -> Q tt s w') -> returns (store l a) s w Q.
Proof.
  intros (old & Ho & Hr & Hc) H.
  exists tt, s, (set_heap (<[l := a]> (heap w)) w).
  split; [eapply store_Ok, Ho|].
  assert (Hk : shapes_kept w (set_heap (<[l := a]> (heap w)) w)).
  { eapply shapes_kept_store; eauto. }
  split; [exact Hk | apply H, Hk].
Qed.

(** target += source, for two arrays of one shape *)
Lemma returns_iadd (target source : loc) (r c : nat) (s : T) (w : world)
    (Q : unit -> T -> world -> Prop) :
  holds w target r c -> holds w source r c ->
  (forall w', shapes_kept w w' -> Q tt s w') -> returns (iadd target source) s w Q.
Proof.
  intros Ht Hs H. unfold iadd.
  apply returns_bind, (returns_load _ _ _ _ _ _ Ht). intros ta Htr Htc.
  apply returns_bind, (returns_load _ _ _ _ _ _ Hs). intros sa Hsr Hsc.
  apply returns_bind.
  eapply returns_np; [apply np_inplace_same_shape; congruence|].
  apply returns_store; [|exact H]. cbn. rewrite Htr, Htc. exact Ht.
Qed.

Lemma returns_isub_value (target : loc) (v : ndarray) (s : T) (w : world)
    (Q : unit -> T -> world -> Prop) :
  holds w target (nrows v) (ncols v) ->
  (forall w', shapes_kept w w' -> Q tt s w') -> returns (isub_value target v) s w Q.
Proof.
  intros Ht H. unfold isub_value.
  apply returns_bind, (returns_load _ _ _ _ _ _ Ht). intros ta Htr Htc.
  apply returns_bind.
  eapply returns_np; [apply np_inplace_same_shape; congruence|].
  apply returns_store; [|exact H]. cbn. rewrite Htr, Htc. exact Ht.
Qed.

Lemma returns_fill (target : loc) (x : R) (r c : nat) (s : T) (w : world)
    (Q : unit -> T -> world -> Prop) :
  holds w target r c ->
  (forall w', shapes_kept w w' -> Q tt s w') -> returns (fill target x) s w Q.
Proof.
  intros Ht H. unfold fill.
  apply returns_bind, (returns_load _ _ _ _ _ _ Ht). intros ta Htr Htc.
  apply returns_store; [|exact H]. cbn. rewrite Htr, Htc. exact Ht.
Qed.

(** A loop with an invariant that depends on the number of iterations
    made. *)
Lemma returns_for_each {A B} (l : list A) (body : B -> A -> M T B) :
  forall (I : nat -> B -> T -> world -> Prop) (b : B) (s : T) (w : world),
    I 0 b s w ->
    (forall i a b s w, l !! i = Some a -> I i b s w ->
       returns (body b a) s w (I (S i))) ->
    returns (for_each l body b) s w (I (length l)).
Proof.
  induction l as [|a l IH]; intros I b s w H0 Hbody; cbn [for_each length].
  - apply returns_mret, H0.
  - apply returns_bind.
    eapply returns_weaken; [apply (Hbody 0 a b s w eq_refl H0)|].
    intros b1 s1 w1 _ H1. cbv beta.
    apply (IH (fun i => I (S i)) b1 s1 w1 H1).
    intros i a' b' s' w' Hi. apply (Hbody (S i)). exact Hi.
Qed.

Lemma returns_embed {U X} (inj : U -> T) (m : M U X) (u : U) (s : T) (w : world)
    (Q : X -> T -> world -> Prop) :
  returns m u w (fun x u' w' => Q x (inj u') w') -> returns (embed inj m u) s w Q.
Proof.
  intros (x & u' & w' & E & Hk & HQ). exists x, (inj u'), w'.
  split; [unfold embed; rewrite E; reflexivity | auto].
Qed.

End Returns.

Lemma returns_invoke {X} (c : call) (method : Layer -> option (M Layer X))
    (m : M Layer X) (self : Layer) (w : world) (Q : X -> Layer -> world -> Prop) :
  method self = Some m ->
  (forall w', shapes_kept w w' -> returns m self w' Q) ->
  returns (Layer.invoke c method) self w Q.
Proof.
  intros Hm H.
  assert (E : Layer.invoke c method self w = (record_call c;; m) self w).
  { unfold Layer.invoke. rewrite Hm. reflexivity. }
  unfold returns. rewrite E.
  apply returns_bind, returns_record_call. intros w' Hk. apply H, Hk.
Qed.

Lemma returns_layer_index (i : Z) (k : nat) (s : Network.t) (w : world)
    (Q : nat -> Network.t -> world -> Prop) :
  py_index (length (Network.layers s)) i = Some k ->
  Q k s w -> returns (Network.layer_index i) s w Q.
Proof.
  intros Hi H. exists k, s, w. split; [|split; [apply shapes_kept_refl | exact H]].
  unfold Network.layer_index. rewrite Hi. reflexivity.
Qed.

Lemma returns_on_layer {X} (k : nat) (m : M Layer X) (l : Layer) (s : Network.t)
    (w : world) (Q : X -> Network.t -> world -> Prop) :
  Network.layers s !! k = Some l ->
  returns m l w
    (fun x l' w' => Q x (Network.set_layers (<[k := l']> (Network.layers s)) s) w') ->
  returns (Network.on_layer k m) s w Q.
Proof.
  intros Hl H.
  assert (E : Network.on_layer k m s w
              = embed (fun l' => Network.set_layers (<[k := l']> (Network.layers s)) s)
                  m l s w).
  { unfold Network.on_layer. rewrite Hl. reflexivity. }
  unfold returns. rewrite E. apply returns_embed, H.
Qed.

(* ---------------------------------------------------------------------- *)
(** *** The methods of the layers return *)

Lemma fc_forward_propagation_returns (fc : FullyConnectedLayer.t) (x : loc) (w : world) :
  fc_shapes w fc -> holds w x (FullyConnectedLayer.N_p fc) 1 ->
  returns (FullyConnectedLayer.forward_propagation x) fc w
    (fun r fc' w' =>
       fc_skeleton fc' = fc_skeleton fc
       /\ holds w' r (FullyConnectedLayer.N fc) 1
       /\ holds w' (FullyConnectedLayer.previous_layer_activations fc')
            (FullyConnectedLayer.N_p fc') 1).
Proof.
  intros ((wa & HW & Hwr & Hwc) & (ba & HB & Hbr & Hbc) & _) (xa & Hx & Hxr & Hxc).
  eexists _, _, _. split.
  { apply (fc_forward_propagation_run fc w x wa ba xa HW HB Hx); congruence. }
  split; [apply shapes_kept_alloc|].
  split; [reflexivity|]. split.
  - eexists. cbn. split; [apply lookup_alloc_new|]. cbn. split; congruence.
  - cbn. exists xa. cbn. split; [apply lookup_alloc_old, Hx | split; assumption].
Qed.

Lemma fc_backward_propagation_returns (fc : FullyConnectedLayer.t) (g : loc) (w : world) :
  fc_shapes w fc ->
  holds w (FullyConnectedLayer.previous_layer_activations fc)
    (FullyConnectedLayer.N_p fc) 1 ->
  holds w g (FullyConnectedLayer.N fc) 1 ->
  returns (FullyConnectedLayer.backward_propagation g) fc w
    (fun r fc' w' =>
       fc_skeleton fc' = fc_skeleton fc
       /\ holds w' r (FullyConnectedLayer.N_p fc) 1
       /\ FullyConnectedLayer.previous_layer_activations fc'
          = FullyConnectedLayer.previous_layer_activations fc).
Proof.
  intros (HW & HB & HdW & HdB) Hp Hg.
  unfold FullyConnectedLayer.backward_propagation.
  apply returns_bind, returns_get_self.
  apply returns_bind, (returns_load _ _ _ _ _ _ Hg). intros ga Hgr Hgc.
  apply returns_bind, (returns_load _ _ _ _ _ _ Hp). intros pa Hpr Hpc.
  apply returns_bind.
  eapply returns_np; [apply np_dot_conforming; cbn; congruence|].
  apply returns_bind, returns_alloc. intros ldW w1 Hk1 HldW. cbn in HldW.
  apply returns_bind, returns_modify_self.
  apply returns_bind.
  eapply (returns_iadd _ _ (FullyConnectedLayer.N fc) (FullyConnectedLayer.N_p fc)).
  { apply Hk1, HdW. }
  { rewrite Hgr, Hpr in HldW. exact HldW. }
  intros w2 Hk2.
  apply returns_bind, returns_modify_self.
  apply returns_bind.
  eapply (returns_iadd _ _ (FullyConnectedLayer.N fc) 1).
  { apply Hk2, Hk1, HdB. }
  { apply Hk2, Hk1, Hg. }
  intros w3 Hk3. cbn [FullyConnectedLayer.W FullyConnectedLayer.set_dB
                      FullyConnectedLayer.set_dW].
  apply returns_bind.
  eapply (returns_load _ _ _ _ _ _ (Hk3 _ _ _ (Hk2 _ _ _ (Hk1 _ _ _ HW)))).
  intros wa Hwr Hwc.
  apply returns_bind.
  eapply (returns_load _ _ _ _ _ _ (Hk3 _ _ _ (Hk2 _ _ _ (Hk1 _ _ _ Hg)))).
  intros ga' Hgr' Hgc'.
  apply returns_bind.
  eapply returns_np; [apply np_dot_conforming; cbn; congruence|].
  apply returns_alloc. intros r w4 Hk4 Hr. cbn in Hr.
  split; [reflexivity|]. split; [|reflexivity].
  rewrite Hwc, Hgc' in Hr. exact Hr.
Qed.

Lemma fc_update_parameters_returns (fc : FullyConnectedLayer.t) (m : nat) (eta : R)
    (w : world) :
  fc_shapes w fc ->
  returns (FullyConnectedLayer.update_parameters m eta) fc w (fun _ fc' _ => fc' = fc).
Proof.
  intros (HW & HB & HdW & HdB).
  unfold FullyConnectedLayer.update_parameters.
  apply returns_bind, returns_get_self.
  apply returns_bind, (returns_load _ _ _ _ _ _ HdW). intros sa Hsr Hsc.
  apply returns_bind, returns_isub_value.
  { cbn. rewrite Hsr, Hsc. exact HW. }
  intros w1 Hk1.
  apply returns_bind, (returns_load _ _ _ _ _ _ (Hk1 _ _ _ HdB)). intros sb Hbr Hbc.
  apply returns_bind, returns_isub_value.
  { cbn. rewrite Hbr, Hbc. apply Hk1, HB. }
  intros w2 Hk2.
  apply returns_bind, (returns_fill _ _ _ _ _ _ _ (Hk2 _ _ _ (Hk1 _ _ _ HdW))).
  intros w3 Hk3.
  apply (returns_fill _ _ _ _ _ _ _ (Hk3 _ _ _ (Hk2 _ _ _ (Hk1 _ _ _ HdB)))).
  intros w4 Hk4. reflexivity.
Qed.

(** [forward_propagation] of a layer other than the input layer, on a
    column of the size the layer takes. *)
Lemma layer_forward_propagation_returns (l : Layer) (x : loc) (w : world) :
  (forall il, l <> Input il) ->
  (forall fc, l = FullyConnected fc -> fc_shapes w fc) ->
  holds w x (input_width l) 1 ->
  exists m,
    Layer.forward_propagation x l = Some m
    /\ forall w1, shapes_kept w w1 ->
         returns m l w1
           (fun r l' w' =>
              skeleton l' = skeleton l /\ holds w' r (width l) 1 /\ layer_ready w' l').
Proof.
  intros Hin Hfc Hx.
  destruct l as [fc|sl|rl|ml|il]; [| | | |exfalso; eapply Hin; reflexivity];
    cbn [Layer.forward_propagation]; (eexists; split; [reflexivity|]);
    intros w1 Hk1; apply returns_embed.
  - eapply returns_weaken.
    + apply fc_forward_propagation_returns;
        [eapply fc_shapes_kept; [exact Hk1 | apply Hfc; reflexivity] | apply Hk1, Hx].
    + intros r fc' w' _ (Hsk & Hr & Hp). cbn. rewrite Hsk. auto.
  - unfold SigmoidLayer.forward_propagation.
    apply returns_bind, (returns_load _ _ _ _ _ _ (Hk1 _ _ _ Hx)). intros xa Hr Hc.
    apply returns_bind, returns_alloc. intros r w2 Hk2 Hr2. cbn in Hr2.
    apply returns_bind, returns_modify_self.
    apply returns_bind, returns_get_self. apply returns_mret.
    cbn in Hr, Hr2 |- *. rewrite Hr, Hc in Hr2. auto.
  - unfold ReluLayer.forward_propagation.
    apply returns_bind, (returns_load _ _ _ _ _ _ (Hk1 _ _ _ Hx)). intros xa Hr Hc.
    apply returns_bind, returns_alloc. intros r w2 Hk2 Hr2. cbn in Hr2.
    apply returns_bind, returns_modify_self.
    apply returns_bind, returns_get_self. apply returns_mret.
    cbn in Hr, Hr2 |- *. rewrite Hr, Hc in Hr2. auto.
  - unfold SoftmaxLayer.forward_propagation.
    apply returns_bind, (returns_load _ _ _ _ _ _ (Hk1 _ _ _ Hx)). intros xa Hr Hc.
    apply returns_bind, returns_alloc. intros r w2 Hk2 Hr2. cbn in Hr2.
    apply returns_bind, returns_modify_self.
    apply returns_bind, returns_get_self. apply returns_mret.
    cbn in Hr, Hr2 |- *. rewrite Hr, Hc in Hr2. auto.
Qed.

(** [backward_propagation] of a layer other than the input layer, after a
    forward pass, on a column of the layer's size. *)
Lemma layer_backward_propagation_returns (l : Layer) (g : loc) (w : world) :
  (forall il, l <> Input il) ->
  (forall fc, l = FullyConnected fc -> fc_shapes w fc) ->
  layer_ready w l ->
  holds w g (width l) 1 ->
  exists m,
    Layer.backward_propagation g l = Some m
    /\ forall w1, shapes_kept w w1 ->
         returns m l w1
           (fun r l' w' =>
              skeleton l' = skeleton l /\ holds w' r (input_width l) 1
              /\ forall w'', layer_ready w'' l -> layer_ready w'' l').
Proof.
  intros Hin Hfc Hready Hg.
  destruct l as [fc|sl|rl|ml|il]; [| | | |exfalso; eapply Hin; reflexivity];
    cbn [Layer.backward_propagation]; (eexists; split; [reflexivity|]);
    intros w1 Hk1; apply returns_embed; cbn in Hready, Hg.
  - eapply returns_weaken.
    + apply fc_backward_propagation_returns;
        [eapply fc_shapes_kept; [exact Hk1 | apply Hfc; reflexivity]
        | apply Hk1, Hready | apply Hk1, Hg].
    + intros r fc' w' _ (Hsk & Hr & Hp). cbn. rewrite Hsk.
      split; [reflexivity|]. split; [exact Hr|].
      intros w'' H. injection Hsk as _ HNp _ _ _ _. rewrite Hp, HNp. exact H.
  - unfold SigmoidLayer.backward_propagation.
    apply returns_bind, returns_get_self.
    apply returns_bind, (returns_load _ _ _ _ _ _ (Hk1 _ _ _ Hready)). intros a Har Hac.
    apply returns_bind.
    eapply returns_np; [apply np_binop_same_shape; reflexivity|].
    apply returns_bind, (returns_load _ _ _ _ _ _ (Hk1 _ _ _ Hg)). intros ga Hgr Hgc.
    apply returns_bind.
    eapply returns_np; [apply np_binop_same_shape; cbn; congruence|].
    apply returns_alloc. intros r w2 Hk2 Hr. cbn in Hr |- *.
    rewrite Har, Hac in Hr. auto.
  - unfold ReluLayer.backward_propagation.
    apply returns_bind, returns_get_self.
    apply returns_bind, (returns_load _ _ _ _ _ _ (Hk1 _ _ _ Hready)). intros a Har Hac.
    apply returns_bind, (returns_load _ _ _ _ _ _ (Hk1 _ _ _ Hg)). intros ga Hgr Hgc.
    apply returns_bind.
    eapply returns_np; [apply np_binop_same_shape; cbn; congruence|].
    apply returns_alloc. intros r w2 Hk2 Hr. cbn in Hr |- *.
    rewrite Har, Hac in Hr. auto.
  - unfold SoftmaxLayer.backward_propagation. apply returns_mret.
    cbn. split; [reflexivity|]. split; [apply Hk1, Hg | auto].
Qed.

Lemma layer_update_parameters_returns (l : Layer) (m : nat) (eta : R) (w : world) :
  (forall fc, l = FullyConnected fc -> fc_shapes w fc) ->
  exists mm,
    Layer.update_parameters m eta l = Some mm
    /\ forall w1, shapes_kept w w1 -> returns mm l w1 (fun _ l' _ => l' = l).
Proof.
  intros Hfc. destruct l as [fc|sl|rl|ml|il]; cbn [Layer.update_parameters];
    (eexists; split; [reflexivity|]); intros w1 Hk1; apply returns_embed.
  - eapply returns_weaken.
    + apply fc_update_parameters_returns.
      eapply fc_shapes_kept; [exact Hk1 | apply Hfc; reflexivity].
    + intros _ fc' _ _ ->. reflexivity.
  - apply returns_mret. reflexivity.
  - apply returns_mret. reflexivity.
  - apply returns_mret. reflexivity.
  - apply returns_mret. reflexivity.
Qed.

(* ====================================================================== *)
(** ** Training a trainable network *)
(* ====================================================================== *)

(* ---------------------------------------------------------------------- *)
(** *** What stays of a trainable network *)

Lemma net_core_inv (s s' : Network.t) :
  net_core s' = net_core s ->
  skeleton <$> Network.layers s' = skeleton <$> Network.layers s
  /\ Network.cost s' = Network.cost s
  /\ Network.cost_prime s' = Network.cost_prime s
  /\ Network.is_SM_CE s' = Network.is_SM_CE s.
Proof. unfold net_core, blank_costs, net_skeleton. cbn. intros [=]. auto. Qed.

Lemma net_core_length (s s' : Network.t) :
  net_core s' = net_core s -> length (Network.layers s') = length (Network.layers s).
Proof.
  intros H. apply net_core_inv in H as (H & _).
  apply (f_equal length) in H. rewrite !length_fmap in H. exact H.
Qed.

Lemma net_core_lookup (s s' : Network.t) (i : nat) (l' : Layer) :
  net_core s' = net_core s -> Network.layers s' !! i = Some l' ->
  exists l, Network.layers s !! i = Some l /\ skeleton l' = skeleton l.
Proof.
  intros H Hl. apply net_core_inv in H as (H & _).
  apply (f_equal (fun ls => ls !! i)) in H. rewrite !list_lookup_fmap, Hl in H.
  destruct (Network.layers s !! i) as [l|]; [|discriminate].
  exists l. split; [reflexivity|]. cbn in H. congruence.
Qed.

Lemma net_core_insert (s : Network.t) (i : nat) (l l' : Layer) :
  Network.layers s !! i = Some l -> skeleton l' = skeleton l ->
  net_core (Network.set_layers (<[i := l']> (Network.layers s)) s) = net_core s.
Proof.
  intros Hl Hsk. unfold net_core. rewrite (net_skeleton_insert s i l l' Hl Hsk).
  reflexivity.
Qed.

Lemma skeleton_width (l l' : Layer) : skeleton l' = skeleton l -> width l' = width l.
Proof. intros H. rewrite <- (width_skeleton l'), H. apply width_skeleton. Qed.

Lemma skeleton_input_width (l l' : Layer) :
  skeleton l' = skeleton l -> input_width l' = input_width l.
Proof. intros H. rewrite <- (input_width_skeleton l'), H. apply input_width_skeleton. Qed.

Lemma skeleton_input (l : Layer) (il : InputLayer.t) :
  skeleton l = skeleton (Input il) -> exists il', l = Input il'.
Proof. destruct l; cbn; intros [=]. eauto. Qed.

Lemma fc_shapes_skeleton (w : world) (fc fc' : FullyConnectedLayer.t) :
  fc_skeleton fc' = fc_skeleton fc -> fc_shapes w fc -> fc_shapes w fc'.
Proof.
  unfold fc_skeleton, fc_shapes. intros [=]. intros H.
  repeat match goal with E : _ = _ |- _ => rewrite E; clear E end. exact H.
Qed.

Lemma trainable_kept (s s' : Network.t) (w w' : world) :
  net_core s' = net_core s -> shapes_kept w w' -> trainable s w -> trainable s' w'.
Proof.
  intros Hc Hk ((il & rest & Hls & Hrest) & Hch & Hfc & Hlast & Hcp).
  pose proof (net_core_length _ _ Hc) as Hlen.
  split; [|split; [|split; [|split]]].
  - destruct (Network.layers s') as [|l0 rest'] eqn:E.
    { rewrite Hls in Hlen. discriminate. }
    destruct (net_core_lookup s s' 0 l0 Hc) as (l & Hl & Hsk).
    { rewrite E. reflexivity. }
    rewrite Hls in Hl. injection Hl as <-.
    destruct (skeleton_input _ _ Hsk) as (il' & ->).
    exists il', rest'. split; [reflexivity|].
    intros l il'' Hin ->. apply list_elem_of_lookup in Hin as (i & Hi).
    destruct (net_core_lookup s s' (S i) (Input il'') Hc) as (l & Hl & Hsk').
    { rewrite E. exact Hi. }
    symmetry in Hsk'. destruct (skeleton_input _ _ Hsk') as (il0 & ->).
    rewrite Hls in Hl. cbn in Hl.
    eapply (Hrest (Input il0) il0); [|reflexivity].
    eapply list_elem_of_lookup_2. exact Hl.
  - intros i a b Ha Hb.
    destruct (net_core_lookup s s' i a Hc Ha) as (a0 & Ha0 & Hska).
    destruct (net_core_lookup s s' (S i) b Hc Hb) as (b0 & Hb0 & Hskb).
    rewrite (skeleton_input_width _ _ Hskb), (skeleton_width _ _ Hska).
    eapply Hch; eassumption.
  - intros i fc Hi.
    destruct (net_core_lookup s s' i _ Hc Hi) as (l & Hl & Hsk).
    symmetry in Hsk. destruct (skeleton_fc_inv _ _ Hsk) as (fc0 & -> & Hsk0).
    eapply fc_shapes_kept; [exact Hk|].
    eapply fc_shapes_skeleton; [symmetry; exact Hsk0|]. eapply Hfc. exact Hl.
  - intros fc Hl. rewrite last_lookup in Hl.
    destruct (net_core_lookup s s' _ _ Hc Hl) as (l & Hl0 & Hsk).
    symmetry in Hsk. destruct (skeleton_fc_inv _ _ Hsk) as (fc0 & -> & Hsk0).
    apply (Hlast fc0). rewrite last_lookup, <- Hlen. exact Hl0.
  - apply net_core_inv in Hc as (_ & _ & -> & _). exact Hcp.
Qed.

Lemma conforming_kept (s s' : Network.t) (w w' : world) (smp : sample) :
  net_core s' = net_core s -> shapes_kept w w' ->
  conforming s w smp -> conforming s' w' smp.
Proof.
  intros Hc Hk (l0 & ll & H0 & Hl & Hx & Hy).
  pose proof (net_core_length _ _ Hc) as Hlen.
  rewrite head_lookup in H0. rewrite last_lookup in Hl.
  assert (H0' : is_Some (Network.layers s' !! 0)).
  { apply lookup_lt_is_Some. apply lookup_lt_Some in H0. lia. }
  assert (Hl' : is_Some (Network.layers s' !! pred (length (Network.layers s')))).
  { apply lookup_lt_is_Some. apply lookup_lt_Some in H0. lia. }
  destruct H0' as (l0' & H0'), Hl' as (ll' & Hl').
  destruct (net_core_lookup s s' _ _ Hc H0') as (a & Ha & Hska).
  destruct (net_core_lookup s s' _ _ Hc Hl') as (b & Hb & Hskb).
  rewrite Hlen in Hb. rewrite H0 in Ha. rewrite Hl in Hb.
  injection Ha as <-. injection Hb as <-.
  exists l0', ll'. rewrite head_lookup, last_lookup.
  split; [exact H0'|]. split; [exact Hl'|].
  rewrite (skeleton_width _ _ Hska), (skeleton_width _ _ Hskb).
  split; apply Hk; assumption.
Qed.

Lemma trainable_not_input (s : Network.t) (w : world) (i : nat) (l : Layer) :
  trainable s w -> Network.layers s !! S i = Some l -> forall il, l <> Input il.
Proof.
  intros ((il & rest & Hls & Hrest) & _) Hl il'. rewrite Hls in Hl. cbn in Hl.
  apply Hrest. eapply list_elem_of_lookup_2. exact Hl.
Qed.

Lemma trainable_fc_shapes (s : Network.t) (w : world) (i : nat) (l : Layer) :
  trainable s w -> Network.layers s !! i = Some l ->
  forall fc, l = FullyConnected fc -> fc_shapes w fc.
Proof. intros (_ & _ & Hfc & _) Hl fc ->. eapply Hfc. exact Hl. Qed.

Lemma trainable_chain (s : Network.t) (w : world) (i : nat) (a b : Layer) :
  trainable s w -> Network.layers s !! i = Some a -> Network.layers s !! S i = Some b ->
  input_width b = width a.
Proof. intros (_ & Hch & _). apply Hch. Qed.

Lemma py_index_nat (len k : nat) : k < len -> py_index len (Z.of_nat k) = Some k.
Proof.
  intros H. unfold py_index.
  destruct (Z.leb_spec 0 (Z.of_nat k)); [|lia].
  destruct (Z.ltb_spec (Z.of_nat k) (Z.of_nat len)); [|lia].
  rewrite Nat2Z.id. reflexivity.
Qed.

Lemma py_index_from_end (len k : nat) :
  0 < k <= len -> py_index len (- Z.of_nat k) = Some (len - k).
Proof.
  intros H. unfold py_index.
  destruct (Z.leb_spec 0 (- Z.of_nat k)); [lia|].
  destruct (Z.leb_spec (- Z.of_nat len) (- Z.of_nat k)); [|lia].
  f_equal. lia.
Qed.

(* ---------------------------------------------------------------------- *)
(** *** The passes return *)

Lemma forward_body_returns (out : loc) (k : nat) (l : Layer) (s : Network.t) (w : world) :
  Network.layers s !! k = Some l ->
  (forall il, l <> Input il) ->
  (forall fc, l = FullyConnected fc -> fc_shapes w fc) ->
  holds w out (input_width l) 1 ->
  returns (forward_body out k) s w
    (fun r s' w' =>
       exists l', s' = Network.set_layers (<[k := l']> (Network.layers s)) s
                  /\ skeleton l' = skeleton l
                  /\ holds w' r (width l) 1 /\ layer_ready w' l').
Proof.
  intros Hl Hin Hfc Hout. unfold forward_body.
  apply returns_bind.
  apply (returns_layer_index _ k); [apply py_index_nat; eapply lookup_lt_Some, Hl|].
  apply (returns_on_layer k _ l); [exact Hl|].
  destruct (layer_forward_propagation_returns l out w Hin Hfc Hout) as (m & Hm & Hrun).
  apply (returns_invoke _ _ m); [exact Hm|].
  intros w1 Hk1. eapply returns_weaken; [apply Hrun, Hk1|].
  intros r l' w' _ (Hsk & Hr & Hready). exists l'. auto.
Qed.

Lemma forward_pass_returns (x : loc) (s : Network.t) (w : world) :
  trainable s w ->
  (exists l0, head (Network.layers s) = Some l0 /\ holds w x (width l0) 1) ->
  returns (Network.forward_pass x) s w
    (fun r s' w' =>
       net_core s' = net_core s /\ net_ready s' w'
       /\ exists ll, last (Network.layers s') = Some ll /\ holds w' r (width ll) 1).
Proof.
  intros Htr (l0 & H0 & Hx).
  pose proof Htr as ((il & rest & Hls & Hrest) & _).
  rewrite Hls in H0. injection H0 as <-. cbn in Hx.
  unfold returns.
  rewrite (forward_pass_unfold x s w (Input il)) by (rewrite Hls; reflexivity).
  cbv zeta.
  set (s0 := Network.set_layers _ s).
  assert (Hc0 : net_core s0 = net_core s).
  { apply (net_core_insert s 0 (Input il)); [rewrite Hls|]; reflexivity. }
  set (len := length (Network.layers s)).
  assert (Hlen0 : len = S (length rest)) by (unfold len; rewrite Hls; reflexivity).
  pose (I := fun (i : nat) (out : loc) (s1 : Network.t) (w1 : world) =>
               net_core s1 = net_core s /\ shapes_kept w w1
               /\ (forall j l, j <= i -> Network.layers s1 !! j = Some l -> layer_ready w1 l)
               /\ exists l, Network.layers s1 !! i = Some l /\ holds w1 out (width l) 1).
  assert (Hloop : returns (for_each (seq 1 (len - 1)) forward_body x) s0 w
                    (I (length (seq 1 (len - 1))))).
  { apply returns_for_each.
    - split; [exact Hc0|]. split; [apply shapes_kept_refl|].
      assert (Hs0 : Network.layers s0 !! 0
                    = Some (Input (InputLayer.set_activation x il))).
      { unfold s0. cbn. rewrite Hls. reflexivity. }
      split.
      + intros j l Hj Hl. replace j with 0 in Hl by lia. rewrite Hs0 in Hl.
        injection Hl as <-. exact Hx.
      + eexists. split; [exact Hs0|]. exact Hx.
    - intros i a out s1 w1 Ha (Hc1 & Hk1 & Hready & l & Hl & Hout).
      apply lookup_seq in Ha as (-> & Hi).
      pose proof (trainable_kept _ _ _ _ Hc1 Hk1 Htr) as Htr1.
      assert (Hlen1 : length (Network.layers s1) = len) by apply (net_core_length _ _ Hc1).
      destruct (lookup_lt_is_Some_2 (Network.layers s1) (S i) ltac:(lia)) as [lS HlS].
      eapply returns_weaken.
      + apply (forward_body_returns out (1 + i) lS s1 w1 HlS).
        * eapply trainable_not_input; eassumption.
        * eapply trainable_fc_shapes; eassumption.
        * rewrite (trainable_chain s1 w1 i l lS Htr1 Hl HlS). exact Hout.
      + intros r s2 w2 Hk2 (l' & -> & Hsk & Hr & Hrd).
        split; [rewrite <- Hc1; apply (net_core_insert s1 (1 + i) lS l' HlS Hsk)|].
        split; [eapply shapes_kept_trans; eassumption|].
        split.
        * intros j lj Hj Hlj. cbn in Hlj.
          destruct (decide (j = S i)) as [->|Hne].
          -- rewrite list_lookup_insert_eq in Hlj by (eapply lookup_lt_Some, HlS).
             injection Hlj as <-. exact Hrd.
          -- rewrite list_lookup_insert_ne in Hlj by auto.
             eapply layer_ready_kept; [exact Hk2|]. eapply Hready; [|exact Hlj]. lia.
        * exists l'. cbn.
          rewrite list_lookup_insert_eq by (eapply lookup_lt_Some, HlS).
          split; [reflexivity|]. rewrite (skeleton_width _ _ Hsk). exact Hr. }
  destruct Hloop as (r & s' & w' & E & Hk & Hc & Hk' & Hready & l & Hl & Hr).
  rewrite length_seq in Hready, Hl.
  exists r, s', w'. split; [exact E|]. split; [exact Hk|].
  split; [exact Hc|].
  pose proof (net_core_length _ _ Hc) as Hlen'. fold len in Hlen'.
  split.
  - intros j lj Hlj. eapply Hready; [|exact Hlj]. apply lookup_lt_Some in Hlj. lia.
  - exists l. split; [|exact Hr]. rewrite last_lookup, Hlen'.
    replace (pred len) with (len - 1) by lia. exact Hl.
Qed.

Lemma returns_get_activation (l : Layer) (w : world) (Q : loc -> Layer -> world -> Prop) :
  (forall fc, l <> FullyConnected fc) -> layer_ready w l ->
  (forall a, holds w a (width l) 1 -> Q a l w) ->
  returns Layer.get_activation l w Q.
Proof.
  intros Hfc Hready H.
  destruct l as [fc|sl|rl|ml|il]; [exfalso; eapply Hfc; reflexivity| | | |];
    (eexists _, _, _; split; [reflexivity|]; split; [apply shapes_kept_refl|]);
    apply H, Hready.
Qed.

Lemma first_upstream_gradient_returns (y : loc) (s : Network.t) (w : world) (ll : Layer) :
  trainable s w -> net_ready s w ->
  last (Network.layers s) = Some ll -> holds w y (width ll) 1 ->
  returns (Network.first_upstream_gradient y) s w
    (fun g s' w' => s' = s /\ holds w' g (width ll) 1).
Proof.
  intros Htr Hready Hlast Hy.
  pose proof Htr as (_ & _ & _ & Hnfc & Hcp).
  rewrite last_lookup in Hlast.
  assert (Hpos : 0 < length (Network.layers s)) by (apply lookup_lt_Some in Hlast; lia).
  unfold Network.first_upstream_gradient.
  apply returns_bind, returns_get_self.
  apply returns_bind.
  apply (returns_layer_index _ (length (Network.layers s) - 1));
    [apply py_index_last, Hpos|].
  replace (pred (length (Network.layers s))) with (length (Network.layers s) - 1)
    in Hlast by lia.
  apply returns_bind.
  apply (returns_on_layer _ _ ll); [exact Hlast|].
  apply returns_get_activation.
  { intros fc ->. apply (Hnfc fc). rewrite last_lookup.
    replace (pred (length (Network.layers s))) with (length (Network.layers s) - 1) by lia.
    exact Hlast. }
  { eapply Hready, Hlast. }
  intros a Ha. rewrite (set_layers_id s _ ll Hlast).
  apply returns_bind, (returns_load _ _ _ _ _ _ Hy). intros ea Her Hec.
  apply returns_bind, (returns_load _ _ _ _ _ _ Ha). intros aa Har Hac.
  destruct (Hcp ea aa ltac:(congruence) ltac:(congruence)) as (g & Hg & Hgr & Hgc).
  apply returns_bind. eapply returns_np; [exact Hg|].
  apply returns_alloc. intros r w' Hk Hr.
  split; [reflexivity|]. rewrite Hgr, Hgc, Har, Hac in Hr. exact Hr.
Qed.

Lemma backward_body_returns (g : loc) (layer k : nat) (l : Layer) (s : Network.t)
    (w : world) :
  0 < layer <= length (Network.layers s) ->
  k = length (Network.layers s) - layer ->
  Network.layers s !! k = Some l ->
  (forall il, l <> Input il) ->
  (forall fc, l = FullyConnected fc -> fc_shapes w fc) ->
  layer_ready w l ->
  holds w g (width l) 1 ->
  returns (backward_body g layer) s w
    (fun r s' w' =>
       exists l', s' = Network.set_layers (<[k := l']> (Network.layers s)) s
                  /\ skeleton l' = skeleton l
                  /\ holds w' r (input_width l) 1
                  /\ forall w'', layer_ready w'' l -> layer_ready w'' l').
Proof.
  intros Hlayer -> Hl Hin Hfc Hready Hg. unfold backward_body.
  apply returns_bind.
  apply (returns_layer_index _ (length (Network.layers s) - layer));
    [apply py_index_from_end, Hlayer|].
  apply (returns_on_layer _ _ l); [exact Hl|].
  destruct (layer_backward_propagation_returns l g w Hin Hfc Hready Hg)
    as (m & Hm & Hrun).
  apply (returns_invoke _ _ m); [exact Hm|].
  intros w1 Hk1. eapply returns_weaken; [apply Hrun, Hk1|].
  intros r l' w' _ (Hsk & Hr & Hrd). exists l'. auto.
Qed.

Lemma backward_loop_returns (first : nat) (g : loc) (s : Network.t) (w : world)
    (l : Layer) :
  0 < first ->
  trainable s w -> net_ready s w ->
  Network.layers s !! (length (Network.layers s) - first) = Some l ->
  holds w g (width l) 1 ->
  returns (Network.backward_loop first g) s w
    (fun _ s' w' => net_core s' = net_core s /\ net_ready s' w').
Proof.
  intros Hfirst Htr Hready Hl Hg.
  unfold Network.backward_loop. apply returns_bind, returns_get_self.
  set (len := length (Network.layers s)) in *.
  pose (I := fun (i : nat) (g1 : loc) (s1 : Network.t) (w1 : world) =>
               net_core s1 = net_core s /\ shapes_kept w w1 /\ net_ready s1 w1
               /\ exists l1, Network.layers s1 !! (len - first - i) = Some l1
                             /\ holds w1 g1 (width l1) 1).
  eapply returns_weaken.
  - apply (returns_for_each (seq first (len - first)) backward_body I).
    + split; [reflexivity|]. split; [apply shapes_kept_refl|]. split; [exact Hready|].
      exists l. rewrite Nat.sub_0_r. auto.
    + intros i a g1 s1 w1 Ha (Hc1 & Hk1 & Hrd1 & l1 & Hl1 & Hg1).
      apply lookup_seq in Ha as (-> & Hi).
      pose proof (trainable_kept _ _ _ _ Hc1 Hk1 Htr) as Htr1.
      assert (Hlen1 : length (Network.layers s1) = len) by apply (net_core_length _ _ Hc1).
      destruct (len - first - i) as [|k'] eqn:Ek; [lia|].
      destruct (lookup_lt_is_Some_2 (Network.layers s1) k') as [lp Hlp].
      { apply lookup_lt_Some in Hl1. lia. }
      eapply returns_weaken.
      * apply (backward_body_returns g1 (first + i) (S k') l1 s1 w1);
          [lia | lia | exact Hl1 | | | | exact Hg1].
        -- eapply trainable_not_input; eassumption.
        -- eapply trainable_fc_shapes; eassumption.
        -- eapply Hrd1, Hl1.
      * intros r s2 w2 Hk2 (l' & -> & Hsk & Hr & Hrd).
        split; [rewrite <- Hc1; apply (net_core_insert s1 (S k') l1 l' Hl1 Hsk)|].
        split; [eapply shapes_kept_trans; eassumption|].
        split.
        -- intros j lj Hlj. cbn in Hlj.
           destruct (decide (j = S k')) as [->|Hne].
           ++ rewrite list_lookup_insert_eq in Hlj by (eapply lookup_lt_Some, Hl1).
              injection Hlj as <-. apply Hrd. eapply layer_ready_kept; [exact Hk2|].
              eapply Hrd1, Hl1.
           ++ rewrite list_lookup_insert_ne in Hlj by auto.
              eapply layer_ready_kept; [exact Hk2|]. eapply Hrd1, Hlj.
        -- exists lp. replace (len - first - S i) with k' by lia. cbn.
           rewrite list_lookup_insert_ne by lia.
           split; [exact Hlp|].
           rewrite <- (trainable_chain s1 w1 k' lp l1 Htr1 Hlp Hl1). exact Hr.
  - intros g' s' w' _ (Hc & _ & Hrd & _). auto.
Qed.

Lemma backward_pass_returns (y : loc) (s : Network.t) (w : world) (ll : Layer) :
  trainable s w -> net_ready s w ->
  last (Network.layers s) = Some ll -> holds w y (width ll) 1 ->
  returns (Network.backward_pass y) s w
    (fun _ s' w' => net_core s' = net_core s /\ net_ready s' w').
Proof.
  intros Htr Hready Hlast Hy.
  assert (Hrest : forall first, 0 < first <= 2 ->
            returns (upstream_gradient ← Network.first_upstream_gradient y;
                     Network.backward_loop first upstream_gradient;; mret tt) s w
              (fun _ s' w' => net_core s' = net_core s /\ net_ready s' w')).
  { intros first Hfirst. apply returns_bind.
    eapply returns_weaken;
      [apply (first_upstream_gradient_returns y s w ll Htr Hready Hlast Hy)|].
    intros g s1 w1 Hk1 (-> & Hg).
    pose proof Hlast as Hlast'. rewrite last_lookup in Hlast'.
    assert (Hpos : 0 < length (Network.layers s))
      by (apply lookup_lt_Some in Hlast'; lia).
    assert (Hl : exists l, Network.layers s !! (length (Network.layers s) - first) = Some l
                           /\ width l = width ll).
    { destruct (decide (length (Network.layers s) - first
                        = pred (length (Network.layers s)))) as [E|E].
      - rewrite E. eauto.
      - assert (E2 : S (length (Network.layers s) - first)
                     = pred (length (Network.layers s))) by lia.
        destruct (lookup_lt_is_Some_2 (Network.layers s)
                    (length (Network.layers s) - first) ltac:(lia)) as [l Hl].
        exists l. split; [exact Hl|]. rewrite <- E2 in Hlast'.
        rewrite <- (trainable_chain s w _ l ll Htr Hl Hlast').
        destruct Htr as (_ & _ & _ & Hnfc & _).
        destruct ll as [fc| | | |]; [|reflexivity..].
        exfalso. apply (Hnfc fc). exact Hlast. }
    destruct Hl as (l & Hl & Hw).
    apply returns_bind. eapply returns_weaken.
    - apply (backward_loop_returns first g s w1 l); [lia | | | exact Hl | ].
      + eapply trainable_kept; [reflexivity | exact Hk1 | exact Htr].
      + intros i li Hli. eapply layer_ready_kept; [exact Hk1|]. eapply Hready, Hli.
      + rewrite Hw. exact Hg.
    - intros g' s2 w2 Hk2 H. apply returns_mret. exact H. }
  unfold Network.backward_pass. apply returns_bind, returns_get_self.
  destruct (Network.is_SM_CE s); cbn [negb]; apply Hrest; lia.
Qed.

Lemma update_layers_returns (m : nat) (eta : R) (s : Network.t) (w : world) :
  (forall i fc, Network.layers s !! i = Some (FullyConnected fc) -> fc_shapes w fc) ->
  returns (Network.update_layers m eta) s w (fun _ s' _ => s' = s).
Proof.
  intros Hfc. unfold Network.update_layers. apply returns_bind, returns_get_self.
  pose (I := fun (i : nat) (_ : unit) (s1 : Network.t) (w1 : world) =>
               s1 = s /\ shapes_kept w w1).
  eapply returns_weaken.
  - apply (returns_for_each (seq 1 (length (Network.layers s) - 1)) _ I).
    + split; [reflexivity | apply shapes_kept_refl].
    + intros i a u s1 w1 Ha (-> & Hk1). apply lookup_seq in Ha as (-> & Hi).
      destruct (lookup_lt_is_Some_2 (Network.layers s) (1 + i) ltac:(lia)) as [l Hl].
      apply returns_bind.
      apply (returns_layer_index _ (1 + i)); [apply py_index_nat; lia|].
      apply (returns_on_layer _ _ l); [exact Hl|].
      destruct (layer_update_parameters_returns l m eta w1) as (mm & Hmm & Hrun).
      { intros fc ->. eapply fc_shapes_kept; [exact Hk1|]. eapply Hfc, Hl. }
      apply (returns_invoke _ _ mm); [exact Hmm|].
      intros w2 Hk2. eapply returns_weaken; [apply Hrun, Hk2|].
      intros u' l' w3 Hk3 ->. split; [apply (set_layers_id s _ l Hl)|].
      eapply shapes_kept_trans; [exact Hk1|].
      eapply shapes_kept_trans; [exact Hk2 | exact Hk3].
  - intros u' s' w' Hk' (-> & _). reflexivity.
Qed.

(** A forward and a backward pass for one sample. *)
Lemma sample_pass_returns (x y : loc) (s : Network.t) (w : world) :
  trainable s w -> conforming s w (x, y) ->
  returns (Network.forward_pass x;; Network.backward_pass y) s w
    (fun _ s' _ => net_core s' = net_core s).
Proof.
  intros Htr (l0 & ll & H0 & Hl & Hx & Hy). cbn in Hx, Hy.
  apply returns_bind. eapply returns_weaken.
  - apply (forward_pass_returns x s w Htr). eauto.
  - intros r s1 w1 Hk1 (Hc1 & Hrd1 & ll1 & Hl1 & Hr).
    pose proof (trainable_kept _ _ _ _ Hc1 Hk1 Htr) as Htr1.
    eapply returns_weaken.
    + apply (backward_pass_returns y s1 w1 ll1 Htr1 Hrd1 Hl1).
      rewrite last_lookup in Hl, Hl1.
      rewrite (net_core_length _ _ Hc1) in Hl1.
      destruct (net_core_lookup s s1 _ _ Hc1 Hl1) as (b & Hb & Hsk).
      rewrite Hl in Hb. injection Hb as <-.
      rewrite (skeleton_width _ _ Hsk). apply Hk1, Hy.
    + intros u' s2 w2 Hk2 (Hc2 & _). congruence.
Qed.

Lemma pass_samples_returns (mini_batch : list sample) (s : Network.t) (w : world) :
  trainable s w -> (forall smp, smp ∈ mini_batch -> conforming s w smp) ->
  returns (Network.pass_samples mini_batch) s w (fun _ s' _ => net_core s' = net_core s).
Proof.
  intros Htr Hconf. unfold Network.pass_samples.
  pose (I := fun (i : nat) (_ : unit) (s1 : Network.t) (w1 : world) =>
               net_core s1 = net_core s /\ shapes_kept w w1).
  eapply returns_weaken.
  - apply (returns_for_each mini_batch _ I).
    + split; [reflexivity | apply shapes_kept_refl].
    + intros i [x y] u s1 w1 Ha (Hc1 & Hk1).
      eapply returns_weaken.
      * apply (sample_pass_returns x y s1 w1).
        -- eapply trainable_kept; eassumption.
        -- eapply conforming_kept; [exact Hc1 | exact Hk1|].
           apply Hconf. eapply list_elem_of_lookup_2, Ha.
      * intros u' s2 w2 Hk2 Hc2. split; [congruence|].
        eapply shapes_kept_trans; eassumption.
  - intros u' s' w' Hk' (Hc & _). exact Hc.
Qed.

Lemma mini_batch_pass_returns (eta : R) (mini_batch : list sample) (s : Network.t)
    (w : world) :
  trainable s w -> (forall smp, smp ∈ mini_batch -> conforming s w smp) ->
  returns (Network.mini_batch_pass eta mini_batch) s w
    (fun _ s' _ => net_core s' = net_core s).
Proof.
  intros Htr Hconf. unfold Network.mini_batch_pass.
  apply returns_bind. eapply returns_weaken; [apply pass_samples_returns; assumption|].
  intros u1 s1 w1 Hk1 Hc1.
  pose proof (trainable_kept _ _ _ _ Hc1 Hk1 Htr) as (_ & _ & Hfc & _).
  eapply returns_weaken; [apply update_layers_returns, Hfc|].
  intros u2 s2 w2 Hk2 ->. exact Hc1.
Qed.

(* ---------------------------------------------------------------------- *)
(** *** The example is trainable *)

(** The cost functions of the source and their derivatives are defined on
    arrays of one shape. *)
Lemma quadratic_cost_defined : cost_defined quadratic_cost.
Proof.
  intros e a Hr Hc. unfold quadratic_cost, np_subtract.
  rewrite (np_binop_same_shape Rminus e a) by congruence. cbn. eauto.
Qed.

Lemma cross_entropy_cost_defined : cost_defined cross_entropy_cost.
Proof.
  intros e a Hr Hc. unfold cross_entropy_cost, np_multiply.
  rewrite (np_binop_same_shape Rmult e (np_log a)) by (cbn; congruence). cbn. eauto.
Qed.

Lemma quadratic_cost_prime_shaped : gradient_shaped quadratic_cost_prime.
Proof.
  intros e a Hr Hc. unfold quadratic_cost_prime, np_subtract.
  rewrite (np_binop_same_shape Rminus a e) by congruence.
  eexists. split; [reflexivity|]. split; reflexivity.
Qed.

Lemma cross_entropy_cost_prime_SM_shaped : gradient_shaped cross_entropy_cost_prime_SM.
Proof. exact quadratic_cost_prime_shaped. Qed.

Lemma demo_net_trainable : trainable demo_net demo_net_world.
Proof.
  split; [|split; [|split; [|split]]].
  - eexists _, _. split; [reflexivity|].
    intros l il' Hl ->. repeat (apply elem_of_cons in Hl as [Hl|Hl]; [discriminate|]).
    apply elem_of_nil in Hl. exact Hl.
  - exact demo_net_chained.
  - exact (proj1 demo_net_wf).
  - intros fc. discriminate.
  - exact cross_entropy_cost_prime_SM_shaped.
Qed.

Lemma demo_sample_conforming : conforming demo_net demo_net_world (0, 10).
Proof.
  eexists _, _. split; [reflexivity|]. split; [reflexivity|].
  split; eexists; (split; [reflexivity|]); split; reflexivity.
Qed.

Lemma demo_training_data_conforming (smp : sample) :
  smp ∈ demo_training_data -> conforming demo_net demo_net_world smp.
Proof.
  intros H. unfold demo_training_data in H.
  repeat (apply elem_of_cons in H as [->|H]; [exact demo_sample_conforming|]).
  apply elem_of_nil in H. contradiction.
Qed.

(** X23. A mini-batch pass on a trainable network returns. On a network
    whose layers each take what the layer before gives, whose fully
    connected layers hold arrays of their shapes and whose last layer is
    not a fully connected one, [mini_batch_pass] on samples whose input and
    expected output are columns of the sizes of the first and of the last
    layer raises nothing and does not exit: every forward pass, backward
    pass and parameter update goes through. Afterwards the network is
    trainable again, and the samples still conform. *)
Theorem mini_batch_pass_returns_on_trainable_network
    (eta : R) (mini_batch : list sample) (net : Network.t) (w : world) :
  trainable net w ->
  (forall smp, smp ∈ mini_batch -> conforming net w smp) ->
  exists net' w',
    Network.mini_batch_pass eta mini_batch net w = Ok tt net' w'
    /\ trainable net' w'
    /\ forall smp, conforming net w smp -> conforming net' w' smp.
Proof.
  intros Htr Hconf.
  destruct (mini_batch_pass_returns eta mini_batch net w Htr Hconf)
    as ([] & net' & w' & E & Hk & Hc).
  exists net', w'. split; [exact E|]. split.
  - eapply trainable_kept; eassumption.
  - intros smp. apply conforming_kept; assumption.
Qed.

(** Two samples through the network of the example. *)
Lemma mini_batch_pass_returns_on_trainable_network_witness :
  exists net' w',
    Network.mini_batch_pass 1 [(0, 10); (0, 10)] demo_net demo_net_world = Ok tt net' w'
    /\ trainable net' w'.
Proof.
  destruct (mini_batch_pass_returns_on_trainable_network 1 [(0, 10); (0, 10)]
              demo_net demo_net_world demo_net_trainable)
    as (net' & w' & E & Htr & _).
  - intros smp H.
    repeat (apply elem_of_cons in H as [->|H]; [exact demo_sample_conforming|]).
    apply elem_of_nil in H. contradiction.
  - exists net', w'. split; assumption.
Defined.

(* ---------------------------------------------------------------------- *)
(** *** The training loop returns *)

Lemma py_slice_elem_of {A} (l : list A) (lo hi : Z) (x : A) :
  x ∈ py_slice l lo hi -> x ∈ l.
Proof.
  unfold py_slice. cbv zeta. intros H.
  apply subseteq_take in H. apply subseteq_drop in H. exact H.
Qed.

Lemma mini_batches_defined (training_data : list sample) (n : nat) (mini_batch_size : Z) :
  mini_batch_size <> 0%Z ->
  exists batches,
    mini_batches training_data n mini_batch_size = Some batches
    /\ forall b smp, b ∈ batches -> smp ∈ b -> smp ∈ training_data.
Proof.
  intros Hm. unfold mini_batches, py_range.
  destruct (Z.eqb_spec mini_batch_size 0) as [|_]; [contradiction|].
  cbn [mbind option_bind]. eexists. split; [reflexivity|].
  intros b smp Hb Hsmp. apply list_elem_of_fmap in Hb as (k & -> & _).
  eapply py_slice_elem_of, Hsmp.
Qed.

Lemma net_core_last_width (s s' : Network.t) (ll ll' : Layer) :
  net_core s' = net_core s ->
  last (Network.layers s) = Some ll -> last (Network.layers s') = Some ll' ->
  width ll' = width ll.
Proof.
  intros Hc Hl Hl'. rewrite last_lookup in Hl, Hl'.
  rewrite (net_core_length _ _ Hc) in Hl'.
  destruct (net_core_lookup s s' _ _ Hc Hl') as (b & Hb & Hsk).
  rewrite Hl in Hb. injection Hb as <-. apply skeleton_width, Hsk.
Qed.

Lemma total_cost_returns (data : list sample) (s : Network.t) (w : world) :
  trainable s w -> cost_defined (Network.cost s) ->
  (forall smp, smp ∈ data -> conforming s w smp) ->
  returns (Network.total_cost data) s w (fun _ s' _ => net_core s' = net_core s).
Proof.
  intros Htr Hcost Hconf. unfold Network.total_cost.
  pose (I := fun (i : nat) (_ : R) (s1 : Network.t) (w1 : world) =>
               net_core s1 = net_core s /\ shapes_kept w w1).
  eapply returns_weaken.
  - apply (returns_for_each data _ I).
    + split; [reflexivity | apply shapes_kept_refl].
    + intros i [x y] amount s1 w1 Ha (Hc1 & Hk1).
      pose proof (trainable_kept _ _ _ _ Hc1 Hk1 Htr) as Htr1.
      assert (Hsmp : conforming s1 w1 (x, y)).
      { eapply conforming_kept; [exact Hc1 | exact Hk1|].
        apply Hconf. eapply list_elem_of_lookup_2, Ha. }
      destruct Hsmp as (l0 & ll & H0 & Hl & Hx & Hy). cbn in Hx, Hy.
      apply returns_bind. eapply returns_weaken.
      * apply (forward_pass_returns x s1 w1 Htr1). eauto.
      * intros r s2 w2 Hk2 (Hc2 & _ & ll2 & Hl2 & Hr).
        apply returns_bind, returns_get_self.
        apply returns_bind, (returns_load _ _ _ _ _ _ (Hk2 _ _ _ Hy)). intros ea Her Hec.
        apply returns_bind, (returns_load _ _ _ _ _ _ Hr). intros aa Har Hac.
        pose proof (net_core_last_width _ _ _ _ Hc2 Hl Hl2) as Hw.
        assert (Hcs : Network.cost s2 = Network.cost s).
        { apply net_core_inv in Hc2 as (_ & E2 & _).
          apply net_core_inv in Hc1 as (_ & E1 & _). congruence. }
        destruct (Hcost ea aa ltac:(congruence) ltac:(congruence)) as (c & Hcv).
        apply returns_bind. eapply returns_np; [rewrite Hcs; exact Hcv|].
        apply returns_mret. split; [congruence|].
        eapply shapes_kept_trans; eassumption.
  - intros c s' w' Hk' (Hc & _). exact Hc.
Qed.

Lemma mean_cost_returns (cost_amount : R) (data : list sample) (s : Network.t)
    (w : world) (Q : R -> Network.t -> world -> Prop) :
  data <> [] -> (forall c, Q c s w) -> returns (Network.mean_cost cost_amount data) s w Q.
Proof.
  intros Hd H. unfold Network.mean_cost.
  destruct data as [|smp data]; [contradiction|]. cbn [length Nat.eqb].
  apply returns_mret, H.
Qed.

Lemma net_core_set_cost_points (ps : list R) (s : Network.t) :
  net_core (Network.set_cost_points ps s) = net_core s.
Proof. reflexivity. Qed.

Lemma net_core_set_cost_points_test (ps : list R) (s : Network.t) :
  net_core (Network.set_cost_points_test ps s) = net_core s.
Proof. reflexivity. Qed.

Lemma report_returns (j : nat) (test_data : option (list sample))
    (training_data : list sample) (cost_amount : R) (s : Network.t) (w : world) :
  truthy test_data = false ->
  returns (Network.report j test_data training_data cost_amount) s w
    (fun _ s' _ => net_core s' = net_core s).
Proof.
  intros Ht. unfold Network.report. rewrite Ht.
  apply returns_print. intros w' Hk. reflexivity.
Qed.

Lemma epoch_returns (shuffle : nat -> list sample -> list sample) (n : nat)
    (mini_batch_size : Z) (eta : R) (test_data : option (list sample))
    (training_data : list sample) (j : nat) (s : Network.t) (w : world) :
  trainable s w -> cost_defined (Network.cost s) ->
  Permutation (shuffle j training_data) training_data ->
  training_data <> [] -> mini_batch_size <> 0%Z ->
  (forall smp, smp ∈ training_data -> conforming s w smp) ->
  truthy test_data = false ->
  returns (Network.epoch shuffle n mini_batch_size eta test_data training_data j) s w
    (fun td' s' _ => td' = shuffle j training_data /\ net_core s' = net_core s).
Proof.
  intros Htr Hcost Hperm Htd Hm Hconf Ht. unfold Network.epoch. cbv zeta.
  set (td := shuffle j training_data) in *.
  assert (Hconf' : forall smp, smp ∈ td -> conforming s w smp).
  { intros smp Hin. apply Hconf. rewrite <- Hperm. exact Hin. }
  assert (Htd' : td <> []).
  { intros E. rewrite E in Hperm. apply Permutation_nil in Hperm. contradiction. }
  destruct (mini_batches_defined td n mini_batch_size Hm) as (batches & Hb & Hsub).
  apply returns_bind. eapply returns_np; [exact Hb|].
  pose (I := fun (i : nat) (_ : unit) (s1 : Network.t) (w1 : world) =>
               net_core s1 = net_core s /\ shapes_kept w w1).
  apply returns_bind. eapply returns_weaken.
  { apply (returns_for_each batches _ I).
    - split; [reflexivity | apply shapes_kept_refl].
    - intros i b u s1 w1 Hi (Hc1 & Hk1).
      eapply returns_weaken.
      + apply mini_batch_pass_returns.
        * eapply trainable_kept; eassumption.
        * intros smp Hin. eapply conforming_kept; [exact Hc1 | exact Hk1|].
          apply Hconf'. eapply Hsub; [eapply list_elem_of_lookup_2, Hi | exact Hin].
      + intros u' s2 w2 Hk2 Hc2. split; [congruence|].
        eapply shapes_kept_trans; eassumption. }
  intros u s1 w1 Hk1 (Hc1 & _).
  pose proof (trainable_kept _ _ _ _ Hc1 Hk1 Htr) as Htr1.
  assert (Hcost1 : cost_defined (Network.cost s1)).
  { apply net_core_inv in Hc1 as (_ & -> & _). exact Hcost. }
  apply returns_bind. eapply returns_weaken.
  { apply total_cost_returns; [exact Htr1 | exact Hcost1|].
    intros smp Hin. eapply conforming_kept; [exact Hc1 | exact Hk1 | apply Hconf', Hin]. }
  intros amount s2 w2 Hk2 Hc2.
  apply returns_bind, mean_cost_returns; [exact Htd'|]. intros train_cost.
  apply returns_bind, returns_modify_self.
  set (s3 := Network.set_cost_points _ s2).
  assert (Hc3 : net_core s3 = net_core s).
  { unfold s3. rewrite net_core_set_cost_points. congruence. }
  apply returns_bind. eapply returns_weaken.
  { apply report_returns. exact Ht. }
  intros u4 s4 w4 Hk4 Hc4. apply returns_mret. split; [reflexivity | congruence].
Qed.

(** X24. Training without test data returns. The training loop of
    [stochastic_gradient_descent] on a trainable network runs to its end,
    whatever the number of epochs, when no test data is given ([test_data]
    is [None] or empty), the cost is defined on arrays of one shape, the
    shuffle permutes, the training set is not empty, [mini_batch_size] is
    not zero and the training samples conform. The network is trainable
    again afterwards. *)
Theorem stochastic_gradient_descent_returns_on_trainable_network
    (shuffle : nat -> list sample -> list sample)
    (training_data : list sample) (epochs mini_batch_size : Z) (eta : R)
    (test_data : option (list sample)) (net : Network.t) (w : world) :
  trainable net w -> cost_defined (Network.cost net) ->
  (forall j l, j < Z.to_nat epochs -> Permutation (shuffle j l) l) ->
  training_data <> [] -> mini_batch_size <> 0%Z ->
  (forall smp, smp ∈ training_data -> conforming net w smp) ->
  truthy test_data = false ->
  exists training_data' net' w',
    Network.stochastic_gradient_descent shuffle training_data epochs mini_batch_size
      eta test_data net w
    = Ok training_data' net' w'
    /\ trainable net' w'.
Proof.
  intros Htr Hcost Hperm Htd Hm Hconf Ht.
  unfold Network.stochastic_gradient_descent. cbv zeta.
  pose (I := fun (i : nat) (td : list sample) (s1 : Network.t) (w1 : world) =>
               net_core s1 = net_core net /\ shapes_kept w w1
               /\ Permutation td training_data).
  destruct (returns_for_each (seq 0 (Z.to_nat epochs))
              (Network.epoch shuffle (length training_data) mini_batch_size eta test_data)
              I training_data net w)
    as (td' & net' & w' & E & Hk & Hc & _ & _).
  - split; [reflexivity|]. split; [apply shapes_kept_refl | reflexivity].
  - intros i j td s1 w1 Hj (Hc1 & Hk1 & Hp1). apply lookup_seq in Hj as (-> & Hi).
    cbn [Nat.add].
    eapply returns_weaken.
    + apply epoch_returns.
      * eapply trainable_kept; eassumption.
      * apply net_core_inv in Hc1 as (_ & -> & _). exact Hcost.
      * apply Hperm, Hi.
      * intros ->. apply Permutation_nil in Hp1. contradiction.
      * exact Hm.
      * intros smp Hin. eapply conforming_kept; [exact Hc1 | exact Hk1|].
        apply Hconf. rewrite <- Hp1. exact Hin.
      * exact Ht.
    + intros td2 s2 w2 Hk2 (-> & Hc2).
      split; [congruence|]. split; [eapply shapes_kept_trans; eassumption|].
      etransitivity; [apply Hperm, Hi | exact Hp1].
  - exists td', net', w'. split; [exact E|]. eapply trainable_kept; eassumption.
Qed.

(** Two epochs on the network of the example, without test data. *)
Lemma stochastic_gradient_descent_returns_on_trainable_network_witness :
  exists training_data' net' w',
    Network.stochastic_gradient_descent demo_shuffle demo_training_data 2 2 1
      None demo_net demo_net_world
    = Ok training_data' net' w'
    /\ trainable net' w'.
Proof.
  apply (stochastic_gradient_descent_returns_on_trainable_network
           demo_shuffle demo_training_data 2 2 1 None
           demo_net demo_net_world demo_net_trainable quadratic_cost_defined).
  - intros j l _. symmetry. apply Permutation_rev.
  - discriminate.
  - discriminate.
  - exact demo_training_data_conforming.
  - reflexivity.
Defined.

(* ---------------------------------------------------------------------- *)
(** *** The builder makes trainable networks *)

Lemma builder_calls_cost_prime (cs : list builder_call) :
  forall (net : Network.t) (w : world) (net' : Network.t) (w' : world),
    for_each cs (fun _ c => run_builder_call c) tt net w = Ok tt net' w' ->
    Network.cost_prime net' = Network.cost_prime net.
Proof.
  induction cs as [|c cs IH]; intros net w net' w' E; cbn [for_each] in E.
  - inversion E. reflexivity.
  - destruct (run_builder_call_appends c net w) as (l & w1 & Hrun & _).
    rewrite (bind_Ok _ _ _ _ _ _ _ Hrun) in E. apply IH in E. exact E.
Qed.

Lemma built_by_not_input (c : builder_call) (l : Layer) :
  built_by c l -> forall il, l <> Input il.
Proof. intros H il ->. destruct c; exact H. Qed.

Lemma built_by_input_width (c : builder_call) (l : Layer) :
  built_by c l -> is_activation_call c -> input_width l = width l.
Proof. destruct c, l; cbn; intros H H'; try contradiction; reflexivity. Qed.

Lemma built_by_fc (c : builder_call) (l : Layer) :
  built_by c l -> ~ is_activation_call c -> exists fc, l = FullyConnected fc.
Proof. destruct c, l; cbn; intros H H'; try contradiction; eauto; exfalso; auto. Qed.

(** X25. The builder makes trainable networks. If every activation layer is
    added with the size of the layer before it, and the last layer added is
    an activation layer, then the network the constructor and the
    [add_..._layer] calls make is trainable, for a derivative of the cost
    that keeps the shape. *)
Theorem build_makes_trainable_network
    (input_size : nat)
    (cost : ndarray -> ndarray -> option R)
    (cost_prime : ndarray -> ndarray -> option ndarray)
    (is_SM_CE : bool) (cs : list builder_call) (w : world) :
  activation_sizes_match input_size cs ->
  (forall c, last cs = Some c -> is_activation_call c) ->
  gradient_shaped cost_prime ->
  exists net w',
    build input_size cost cost_prime is_SM_CE cs tt w = Ok net tt w'
    /\ trainable net w'.
Proof.
  intros Hsizes Hlast Hcp.
  set (il := InputLayer.mk input_size (length (heap w))).
  set (net0 := Network.mk cost cost_prime [] [] is_SM_CE [Input il] input_size).
  set (w0 := set_heap (heap w ++ [np_zeros input_size 1]) w).
  assert (Hinv : builder_invariant net0).
  { split.
    - exists (Input il). split; reflexivity.
    - intros i a fc Hi HSi. destruct i; discriminate. }
  assert (Hwf : net_wf net0 w0).
  { split.
    - intros [|i] fc Hi; discriminate.
    - apply NoDup_nil_2. }
  destruct (builder_calls_append cs net0 w0 Hinv)
    as (net' & w' & new & Hrun & (_ & Hch) & Hls & Hall).
  destruct (builder_calls_wf cs net0 w0 Hwf ltac:(constructor))
    as (net2 & w2 & Hrun2 & Hfc & _).
  rewrite Hrun in Hrun2. injection Hrun2 as <- <-.
  pose proof (builder_calls_cost_prime cs _ _ _ _ Hrun) as Hcp'.
  exists net', w'. split.
  { unfold build.
    rewrite (bind_Ok _ _ tt w net0 tt w0) by reflexivity.
    unfold embed. rewrite (bind_Ok _ _ _ _ _ _ _ Hrun). reflexivity. }
  cbn in Hls.
  assert (Hw0 : forall i l, Network.layers net' !! i = Some l ->
                  (input_size :: (call_size <$> cs)) !! i = Some (width l)).
  { intros [|i] l Hl; rewrite Hls in Hl; cbn in Hl.
    - injection Hl as <-. reflexivity.
    - destruct (Forall2_lookup_r _ _ _ _ _ Hall Hl) as (c & Hc & _ & Hw).
      change ((call_size <$> cs) !! i = Some (width l)).
      rewrite list_lookup_fmap, Hc. cbn. congruence. }
  split; [|split; [|split; [|split]]].
  - exists il, new. split; [exact Hls|].
    intros l il' Hin. apply list_elem_of_lookup in Hin as (i & Hi).
    destruct (Forall2_lookup_r _ _ _ _ _ Hall Hi) as (c & _ & Hb & _).
    eapply built_by_not_input, Hb.
  - intros i a b Ha Hb.
    assert (Hb' : new !! i = Some b) by (rewrite Hls in Hb; exact Hb).
    destruct (Forall2_lookup_r _ _ _ _ _ Hall Hb') as (c & Hc & Hby & Hw).
    destruct c as [n rW rB|n|n|n].
    + destruct (built_by_fc _ _ Hby ltac:(cbn; tauto)) as (fc & ->).
      cbn. eapply Hch; eassumption.
    + rewrite (built_by_input_width _ _ Hby I), Hw.
      pose proof (Hsizes i _ Hc I) as E. rewrite (Hw0 i a Ha) in E. congruence.
    + rewrite (built_by_input_width _ _ Hby I), Hw.
      pose proof (Hsizes i _ Hc I) as E. rewrite (Hw0 i a Ha) in E. congruence.
    + rewrite (built_by_input_width _ _ Hby I), Hw.
      pose proof (Hsizes i _ Hc I) as E. rewrite (Hw0 i a Ha) in E. congruence.
  - exact Hfc.
  - intros fc Hl. rewrite Hls in Hl.
    destruct new as [|l0 new'] using rev_ind.
    + discriminate.
    + rewrite app_comm_cons, last_snoc in Hl. injection Hl as ->.
      apply Forall2_app_inv_r in Hall as (cs1 & cs2 & Hall1 & Hall2 & ->).
      inversion Hall2 as [|c ? ? ? (Hby & _) Hnil]; subst.
      inversion Hnil; subst.
      specialize (Hlast c (last_snoc _ _)).
      destruct c; try contradiction; exact Hby.
  - rewrite Hcp'. exact Hcp.
Qed.

(** Two fully connected layers, a sigmoid and a softmax layer. *)
Lemma build_makes_trainable_network_witness :
  exists net w',
    build 2 quadratic_cost quadratic_cost_prime false
      [Add_fc 3 (fun _ _ => 0%R) (fun _ _ => 0%R); Add_sigmoid 3;
       Add_fc 2 (fun _ _ => 0%R) (fun _ _ => 0%R); Add_softmax 2]
      tt (mk_world [] [] [])
    = Ok net tt w'
    /\ trainable net w'.
Proof.
  apply build_makes_trainable_network.
  - intros [|[|[|[|i]]]] c Hc Ha; cbn in Hc; try discriminate;
      injection Hc as <-; try contradiction; reflexivity.
  - intros c [= <-]. exact I.
  - exact quadratic_cost_prime_shaped.
Defined.

(* ====================================================================== *)
(** ** The cross-entropy cost *)
(* ====================================================================== *)

Lemma np_sum_zeros (r c : nat) : np_sum (np_zeros r c) = 0%R.
Proof.
  unfold np_sum. apply sum_upto_zero. intros i _. apply sum_upto_zero. reflexivity.
Qed.

(** X26. [cross_entropy_cost] on an expected output without negative
    entries and an activation with entries in (0, 1], of one shape, is
    defined and not negative; for a one-hot expected output it is minus
    the logarithm of the activation of the labelled class. *)
Theorem cross_entropy_cost_properties (expected_output activation : ndarray) :
  nrows expected_output = nrows activation ->
  ncols expected_output = ncols activation ->
  (forall i j, i < nrows activation -> j < ncols activation ->
     (0 <= elt expected_output i j)%R) ->
  (forall i j, i < nrows activation -> j < ncols activation ->
     (0 < elt activation i j <= 1)%R) ->
  exists c,
    cross_entropy_cost expected_output activation = Some c
    /\ (0 <= c)%R
    /\ forall k l, k < nrows activation -> l < ncols activation ->
         elt expected_output k l = 1%R ->
         (forall i j, i < nrows activation -> j < ncols activation -> (i, j) <> (k, l) ->
            elt expected_output i j = 0%R) ->
         c = (- ln (elt activation k l))%R.
Proof.
  intros Hr Hc He Ha. unfold cross_entropy_cost, np_multiply.
  rewrite (np_binop_same_shape Rmult expected_output (np_log activation))
    by (cbn; congruence).
  cbn [mbind option_bind]. eexists. split; [reflexivity|].
  set (p := mk_ndarray _ _ _).
  assert (Hp : forall i j, i < nrows activation -> j < ncols activation ->
             elt p i j = (elt expected_output i j * ln (elt activation i j))%R).
  { intros i j Hi Hj. unfold p. cbn.
    rewrite !bidx_lt by congruence. reflexivity. }
  split.
  - unfold np_sum. rewrite <- sum_upto_opp. apply sum_upto_nonneg. intros i Hi.
    rewrite <- sum_upto_opp. apply sum_upto_nonneg. intros j Hj.
    change (nrows p) with (nrows expected_output) in Hi.
    change (ncols p) with (ncols expected_output) in Hj.
    rewrite Hp by congruence.
    specialize (He i j ltac:(congruence) ltac:(congruence)).
    destruct (Ha i j ltac:(congruence) ltac:(congruence)) as (Hpos & Hle).
    assert (Hln : (ln (elt activation i j) <= 0)%R).
    { rewrite <- ln_1. destruct Hle as [Hlt|Heq]; [|rewrite Heq; lra].
      apply Rlt_le, ln_increasing; assumption. }
    nra.
  - intros k l Hk Hl H1 H0.
    rewrite (np_sum_update (np_zeros (nrows p) (ncols p)) p k l);
      try reflexivity; try (cbn; congruence).
    + rewrite np_sum_zeros, Hp, H1 by assumption. cbn. lra.
    + intros i j Hi Hj Hne. cbn in Hi, Hj.
      change (elt p i j = 0%R).
      rewrite Hp, H0 by congruence. lra.
Qed.

(** A one-hot expected output and a distribution over two classes. *)
Lemma cross_entropy_cost_properties_witness :
  exists c,
    cross_entropy_cost demo_one_hot (of_rows 2 1 [[1 / 4]; [3 / 4]]%R) = Some c
    /\ (0 <= c)%R
    /\ c = (- ln (3 / 4))%R.
Proof.
  destruct (cross_entropy_cost_properties demo_one_hot (of_rows 2 1 [[1 / 4]; [3 / 4]]%R)
              eq_refl eq_refl) as (c & E & Hpos & Hhot).
  - intros [|[|i]] [|j] Hi Hj; cbn in Hi, Hj; try lia; cbn; lra.
  - intros [|[|i]] [|j] Hi Hj; cbn in Hi, Hj; try lia; cbn; lra.
  - exists c. split; [exact E|]. split; [exact Hpos|].
    apply (Hhot 1 0); cbn; try lia; try reflexivity.
    intros [|[|i]] [|j] Hi Hj Hne; cbn in Hi, Hj; try lia; try reflexivity.
    contradiction Hne. reflexivity.
Defined.


(* ====================================================================== *)
(** ** What a network computes *)
(* ====================================================================== *)

(** The heap of [w'] has the arrays of [w], with their contents. *)
Lemma layer_function_mono (w w' : world) (l : Layer) (x a : ndarray) :
  (forall k b, heap w !! k = Some b -> heap w' !! k = Some b) ->
  layer_function w l x = Some a -> layer_function w' l x = Some a.
Proof.
  intros Hext. destruct l as [fc| | | |]; cbn; try (intros H; exact H).
  destruct (heap w !! FullyConnectedLayer.W fc) as [wa|] eqn:HW; [|discriminate].
  destruct (heap w !! FullyConnectedLayer.B fc) as [ba|] eqn:HB; [|discriminate].
  rewrite (Hext _ _ HW), (Hext _ _ HB). intros H. exact H.
Qed.

Lemma layer_function_skeleton (w : world) (l l' : Layer) (x : ndarray) :
  skeleton l' = skeleton l -> layer_function w l' x = layer_function w l x.
Proof.
  destruct l as [fc| | | |], l' as [fc'| | | |]; cbn; intros H; try discriminate;
    try reflexivity.
  injection H as _ _ EW EB _ _. rewrite EW, EB. reflexivity.
Qed.

Lemma network_function_cons (w : world) (l : Layer) (ls : list Layer) (x a : ndarray) :
  layer_function w l x = Some a ->
  network_function w (l :: ls) x = network_function w ls a.
Proof. intros H. unfold network_function. cbn. rewrite H. reflexivity. Qed.

Lemma network_function_None (w : world) (ls : list Layer) :
  foldl (fun acc l => acc ≫= layer_function w l) None ls = None.
Proof. induction ls as [|l ls IH]; cbn; [reflexivity | exact IH]. Qed.

Lemma network_function_cons_inv (w : world) (l : Layer) (ls : list Layer) (x r : ndarray) :
  network_function w (l :: ls) x = Some r ->
  exists a, layer_function w l x = Some a /\ network_function w ls a = Some r.
Proof.
  unfold network_function. cbn.
  destruct (layer_function w l x) as [a|]; [eauto|].
  rewrite network_function_None. discriminate.
Qed.

Lemma network_function_mono (w w' : world) (ls : list Layer) :
  (forall k b, heap w !! k = Some b -> heap w' !! k = Some b) ->
  forall x a, network_function w ls x = Some a -> network_function w' ls x = Some a.
Proof.
  intros Hext. induction ls as [|l ls IH]; intros x a H; [exact H|].
  apply network_function_cons_inv in H as (b & Hl & Hrest).
  rewrite (network_function_cons w' l ls x b (layer_function_mono _ _ _ _ _ Hext Hl)).
  apply IH, Hrest.
Qed.

Lemma network_function_skeleton (w : world) (ls ls' : list Layer) (x : ndarray) :
  skeleton <$> ls' = skeleton <$> ls -> network_function w ls' x = network_function w ls x.
Proof.
  revert ls' x. induction ls as [|l ls IH]; intros [|l' ls'] x; cbn; intros [=];
    [reflexivity|].
  unfold network_function. cbn.
  rewrite (layer_function_skeleton w l l' x) by assumption.
  destruct (layer_function w l x) as [a|].
  - apply (IH ls' a). assumption.
  - rewrite !network_function_None. reflexivity.
Qed.

(** A call of [forward_propagation] that returns has put the value of the
    layer's function in a new array, and has returned that array. *)
Lemma layer_forward_function (l : Layer) (c : call) (out : loc) (w : world)
    (r : loc) (l' : Layer) (w' : world) (xa : ndarray) :
  Layer.invoke c (Layer.forward_propagation out) l w = Ok r l' w' ->
  heap w !! out = Some xa ->
  exists a,
    layer_function w l xa = Some a
    /\ heap w' = heap w ++ [a] /\ r = length (heap w)
    /\ skeleton l' = skeleton l.
Proof.
  intros Hrun Hout. unfold Layer.invoke in Hrun.
  set (w1 := mk_world (heap w) (stdout w) (calls w ++ [c])).
  assert (Hout1 : heap w1 !! out = Some xa) by exact Hout.
  destruct l as [fc|sl|rl|ml|il]; cbn [Layer.forward_propagation] in Hrun;
    [| | | |discriminate];
    rewrite bind_unfold in Hrun; cbn [record_call] in Hrun; fold w1 in Hrun;
    unfold embed in Hrun.
  - unfold FullyConnectedLayer.forward_propagation in Hrun.
    rewrite bind_get_self, bind_unfold in Hrun. unfold load at 1 in Hrun.
    destruct (heap w1 !! FullyConnectedLayer.W fc) as [wa|] eqn:HW; [|discriminate].
    rewrite (bind_Ok _ _ _ _ _ _ _ (load_Ok _ _ _ _ Hout1)) in Hrun.
    destruct (negb (ncols wa =? nrows xa)) eqn:Hm.
    { exfalso. revert Hrun. unfold mbind, M_bind, print, py_exit. cbn. discriminate. }
    rewrite bind_unfold in Hrun.
    destruct (np_dot wa xa) as [wx|] eqn:Hdot; [|discriminate]. cbn [np mret M_ret] in Hrun.
    rewrite bind_unfold in Hrun. unfold load at 1 in Hrun.
    destruct (heap w1 !! FullyConnectedLayer.B fc) as [ba|] eqn:HB; [|discriminate].
    rewrite bind_unfold in Hrun.
    destruct (np_add wx ba) as [z|] eqn:Hadd; [|discriminate]. cbn in Hrun.
    injection Hrun as <- <- <-.
    exists z. cbn. change (heap w1) with (heap w) in HW, HB.
    rewrite HW, HB. cbn. rewrite Hdot. cbn. rewrite Hadd. auto.
  - unfold SigmoidLayer.forward_propagation in Hrun.
    rewrite (bind_Ok _ _ _ _ _ _ _ (load_Ok _ _ _ _ Hout1)) in Hrun. cbn in Hrun.
    injection Hrun as <- <- <-. eexists. cbn. auto.
  - unfold ReluLayer.forward_propagation in Hrun.
    rewrite (bind_Ok _ _ _ _ _ _ _ (load_Ok _ _ _ _ Hout1)) in Hrun. cbn in Hrun.
    injection Hrun as <- <- <-. eexists. cbn. auto.
  - unfold SoftmaxLayer.forward_propagation in Hrun.
    rewrite (bind_Ok _ _ _ _ _ _ _ (load_Ok _ _ _ _ Hout1)) in Hrun. cbn in Hrun.
    injection Hrun as <- <- <-. eexists. cbn. auto.
Qed.

Lemma forward_body_function (out : loc) (k : nat) (s : Network.t) (w : world)
    (r : loc) (s' : Network.t) (w' : world) (xa : ndarray) :
  forward_body out k s w = Ok r s' w' ->
  heap w !! out = Some xa ->
  exists l l' a,
    Network.layers s !! k = Some l
    /\ layer_function w l xa = Some a
    /\ heap w' = heap w ++ [a] /\ r = length (heap w)
    /\ Network.layers s' = <[k := l']> (Network.layers s)
    /\ skeleton l' = skeleton l.
Proof.
  intros Hrun Hout. unfold forward_body in Hrun. rewrite bind_unfold in Hrun.
  unfold Network.layer_index at 1 in Hrun.
  destruct (py_index (length (Network.layers s)) (Z.of_nat k)) as [k'|] eqn:Ek;
    [|discriminate].
  apply py_index_of_nat in Ek as [-> Hlt].
  unfold Network.on_layer in Hrun.
  destruct (Network.layers s !! k) as [l|] eqn:El; [|discriminate].
  unfold embed in Hrun.
  destruct (Layer.invoke (Call_forward k) (Layer.forward_propagation out) l w)
    as [r1 l1 w1| |] eqn:E; [|discriminate|discriminate].
  injection Hrun as <- <- <-.
  destruct (layer_forward_function l _ out w r1 l1 w1 xa E Hout)
    as (a & Hf & Hh & Hr & Hsk).
  exists l, l1, a. repeat split; assumption || reflexivity.
Qed.

Lemma forward_loop_function (m : nat) :
  forall (a : nat) (out : loc) (s : Network.t) (w : world) r s' w' (xa : ndarray),
    for_each (seq a m) forward_body out s w = Ok r s' w' ->
    heap w !! out = Some xa ->
    exists res,
      heap w' !! r = Some res
      /\ network_function w' (take m (drop a (Network.layers s))) xa = Some res
      /\ (forall k b, heap w !! k = Some b -> heap w' !! k = Some b)
      /\ skeleton <$> Network.layers s' = skeleton <$> Network.layers s.
Proof.
  induction m as [|m IH]; intros a out s w r s' w' xa Hrun Hout.
  - cbn in Hrun. injection Hrun as <- <- <-. exists xa. cbn. auto.
  - cbn [seq for_each] in Hrun. rewrite bind_unfold in Hrun.
    destruct (forward_body out a s w) as [r1 s1 w1| |] eqn:E; [|discriminate|discriminate].
    destruct (forward_body_function out a s w r1 s1 w1 xa E Hout)
      as (l & l' & a1 & Hl & Hf & Hh & Hr & Hls & Hsk).
    assert (Hext1 : forall k b, heap w !! k = Some b -> heap w1 !! k = Some b).
    { intros k b Hk. rewrite Hh. apply lookup_app_l_Some, Hk. }
    assert (Hr1 : heap w1 !! r1 = Some a1).
    { rewrite Hh, Hr. apply lookup_alloc_new. }
    destruct (IH (S a) r1 s1 w1 r s' w' a1 Hrun Hr1) as (res & Hres & Hnf & Hext & Hsks).
    exists res. split; [exact Hres|]. split; [|split].
    + rewrite (drop_S _ _ _ Hl). cbn [take].
      rewrite (network_function_cons w' l _ xa a1).
      * rewrite Hls, drop_insert_lt in Hnf by lia. exact Hnf.
      * eapply layer_function_mono; [|exact Hf]. intros k b Hk. apply Hext, Hext1, Hk.
    + intros k b Hk. apply Hext, Hext1, Hk.
    + rewrite Hsks, Hls, list_fmap_insert, Hsk. apply list_insert_id.
      rewrite list_lookup_fmap, Hl. reflexivity.
Qed.

(** The same, for the whole pass. *)
Lemma forward_pass_function (x : loc) (net : Network.t) (w : world)
    (r : loc) (net' : Network.t) (w' : world) (xa : ndarray) :
  Network.forward_pass x net w = Ok r net' w' ->
  heap w !! x = Some xa ->
  exists a,
    heap w' !! r = Some a
    /\ network_function w' (tail (Network.layers net)) xa = Some a
    /\ (forall k b, heap w !! k = Some b -> heap w' !! k = Some b)
    /\ skeleton <$> Network.layers net' = skeleton <$> Network.layers net.
Proof.
  intros Hrun Hx.
  destruct (Network.layers net) as [|l0 rest] eqn:Hls.
  { exfalso. revert Hrun. unfold Network.forward_pass. rewrite bind_unfold.
    unfold Network.layer_index at 1. rewrite Hls. cbn. discriminate. }
  rewrite (forward_pass_unfold x net w l0) in Hrun by (rewrite Hls; reflexivity).
  cbv zeta in Hrun.
  apply (forward_loop_function _ _ _ _ _ _ _ _ xa) in Hrun as (a & Ha & Hnf & Hext & Hsk);
    [|exact Hx].
  exists a. split; [exact Ha|]. split; [|split; [exact Hext|]].
  - cbn in Hnf. rewrite Hls in Hnf. cbn in Hnf.
    rewrite Nat.sub_0_r, firstn_all in Hnf. exact Hnf.
  - rewrite Hsk. cbn. rewrite Hls. cbn. f_equal. destruct l0; reflexivity.
Qed.

(** With the parameter arrays there from the start, the function is the
    same in the larger heap. *)
Lemma network_function_back (w w' : world) (ls : list Layer) :
  (forall k b, heap w !! k = Some b -> heap w' !! k = Some b) ->
  (forall fc, FullyConnected fc ∈ ls ->
     is_Some (heap w !! FullyConnectedLayer.W fc)
     /\ is_Some (heap w !! FullyConnectedLayer.B fc)) ->
  forall y, network_function w' ls y = network_function w ls y.
Proof.
  intros Hext. induction ls as [|l ls IH]; intros Hin y; [reflexivity|].
  assert (Hl : layer_function w' l y = layer_function w l y).
  { destruct l as [fc| | | |]; try reflexivity.
    destruct (Hin fc ltac:(left)) as ((wa & HW) & (ba & HB)).
    cbn. rewrite (Hext _ _ HW), (Hext _ _ HB), HW, HB. reflexivity. }
  unfold network_function. cbn. rewrite Hl.
  destruct (layer_function w l y) as [c|].
  - apply IH. intros fc Hfc. apply Hin. right. exact Hfc.
  - rewrite !network_function_None. reflexivity.
Qed.

Lemma valid_parameters_tail (w : world) (ls : list Layer) :
  (forall i fc, ls !! i = Some (FullyConnected fc) ->
     is_Some (heap w !! FullyConnectedLayer.W fc)
     /\ is_Some (heap w !! FullyConnectedLayer.B fc)) ->
  forall fc, FullyConnected fc ∈ tail ls ->
    is_Some (heap w !! FullyConnectedLayer.W fc)
    /\ is_Some (heap w !! FullyConnectedLayer.B fc).
Proof.
  intros Hvalid fc Hin. apply list_elem_of_lookup in Hin as (i & Hi).
  destruct ls as [|l0 rest]; [discriminate|].
  apply (Hvalid (S i) fc). exact Hi.
Qed.

Lemma valid_parameters_skeleton (w : world) (ls ls1 : list Layer) :
  skeleton <$> ls1 = skeleton <$> ls ->
  (forall fc, FullyConnected fc ∈ ls ->
     is_Some (heap w !! FullyConnectedLayer.W fc)
     /\ is_Some (heap w !! FullyConnectedLayer.B fc)) ->
  forall fc, FullyConnected fc ∈ ls1 ->
    is_Some (heap w !! FullyConnectedLayer.W fc)
    /\ is_Some (heap w !! FullyConnectedLayer.B fc).
Proof.
  intros Hsk Hvalid fc Hin.
  assert (Hin' : skeleton (FullyConnected fc) ∈ skeleton <$> ls1).
  { apply list_elem_of_fmap. eauto. }
  rewrite Hsk in Hin'. apply list_elem_of_fmap in Hin' as (l & Hl & Hin').
  symmetry in Hl. apply skeleton_fc_inv in Hl as (fc0 & -> & Hfc0).
  unfold fc_skeleton in Hfc0. injection Hfc0 as _ _ EW EB _ _.
  rewrite <- EW, <- EB. apply Hvalid, Hin'.
Qed.

(** X27. What a forward pass computes. A [forward_pass] that returns has
    returned an array holding the value of the functions of the layers
    1, 2, ... applied one after the other to the input, with the weights
    and biases as they were at the call: [W.x + B] for a fully connected
    layer, the sigmoid, the rectifier or the softmax for the others. *)
Theorem forward_pass_computes_network_function
    (x : loc) (net : Network.t) (w : world) (r : loc) (net' : Network.t) (w' : world)
    (xa : ndarray) :
  Network.forward_pass x net w = Ok r net' w' ->
  heap w !! x = Some xa ->
  (forall i fc, Network.layers net !! i = Some (FullyConnected fc) ->
     is_Some (heap w !! FullyConnectedLayer.W fc)
     /\ is_Some (heap w !! FullyConnectedLayer.B fc)) ->
  exists a,
    heap w' !! r = Some a
    /\ network_function w (tail (Network.layers net)) xa = Some a.
Proof.
  intros Hrun Hx Hvalid.
  destruct (forward_pass_function x net w r net' w' xa Hrun Hx)
    as (a & Ha & Hnf & Hext & _).
  exists a. split; [exact Ha|].
  rewrite <- (network_function_back w w' _ Hext (valid_parameters_tail w _ Hvalid)).
  exact Hnf.
Qed.

(** The network of the example. *)
Lemma forward_pass_computes_network_function_witness :
  exists r net' w' a,
    Network.forward_pass 0 demo_net demo_net_world = Ok r net' w'
    /\ heap w' !! r = Some a
    /\ network_function demo_net_world
         [FullyConnected demo_net_fc; Softmax (SoftmaxLayer.mk 2 9)]
         (of_rows 2 1 [[1]; [2]]%R)
       = Some a.
Proof.
  assert (Hst : exists r, status_of (Network.forward_pass 0 demo_net demo_net_world)
                          = Returned r).
  { eexists. vm_compute. reflexivity. }
  destruct Hst as [r0 Hst].
  destruct (Network.forward_pass 0 demo_net demo_net_world) as [r net' w'| |] eqn:E;
    [|discriminate Hst|discriminate Hst].
  destruct (forward_pass_computes_network_function 0 demo_net demo_net_world r net' w'
              (of_rows 2 1 [[1]; [2]]%R) E eq_refl) as (a & Ha & Hf).
  - intros [|[|[|i]]] fc; cbn; intros [=]. subst fc.
    split; eexists; reflexivity.
  - exists r, net', w', a. split; [reflexivity|]. split; [exact Ha | exact Hf].
Defined.

(** X28. A forward pass can be repeated: a second [forward_pass] on the
    same input, right after a first one, returns an array with the content
    of the first. What a pass leaves in the layers has no effect on the
    next. *)
Theorem forward_pass_repeatable
    (x : loc) (net : Network.t) (w : world) (xa : ndarray)
    (r1 : loc) (net1 : Network.t) (w1 : world)
    (r2 : loc) (net2 : Network.t) (w2 : world) :
  heap w !! x = Some xa ->
  Network.forward_pass x net w = Ok r1 net1 w1 ->
  Network.forward_pass x net1 w1 = Ok r2 net2 w2 ->
  exists a, heap w1 !! r1 = Some a /\ heap w2 !! r2 = Some a.
Proof.
  intros Hx Hrun1 Hrun2.
  destruct (forward_pass_function x net w r1 net1 w1 xa Hrun1 Hx)
    as (a & Ha & Hnf & Hext & Hsk).
  destruct (forward_pass_function x net1 w1 r2 net2 w2 xa Hrun2 (Hext _ _ Hx))
    as (a' & Ha' & Hnf' & Hext' & _).
  exists a. split; [exact Ha|].
  rewrite (network_function_skeleton w2 (tail (Network.layers net))
             (tail (Network.layers net1))) in Hnf'.
  - rewrite (network_function_mono w1 w2 _ Hext' _ _ Hnf) in Hnf'. congruence.
  - rewrite !fmap_tail. f_equal. exact Hsk.
Qed.

(** Two passes through the network of the example. *)
Lemma forward_pass_repeatable_witness :
  exists r1 net1 w1 r2 net2 w2 a,
    Network.forward_pass 0 demo_net demo_net_world = Ok r1 net1 w1
    /\ Network.forward_pass 0 net1 w1 = Ok r2 net2 w2
    /\ heap w1 !! r1 = Some a /\ heap w2 !! r2 = Some a.
Proof.
  assert (Hin : forall net w, trainable net w -> conforming net w (0, 10) ->
            exists l0, head (Network.layers net) = Some l0 /\ holds w 0 (width l0) 1).
  { intros net w _ (l0 & _ & H0 & _ & Hx & _). eauto. }
  destruct (forward_pass_returns 0 demo_net demo_net_world demo_net_trainable
              (Hin _ _ demo_net_trainable demo_sample_conforming))
    as (r1 & net1 & w1 & E1 & Hk1 & Hc1 & _).
  pose proof (trainable_kept _ _ _ _ Hc1 Hk1 demo_net_trainable) as Htr1.
  pose proof (conforming_kept _ _ _ _ _ Hc1 Hk1 demo_sample_conforming) as Hcf1.
  destruct (forward_pass_returns 0 net1 w1 Htr1 (Hin _ _ Htr1 Hcf1))
    as (r2 & net2 & w2 & E2 & _).
  destruct (forward_pass_repeatable 0 demo_net demo_net_world (of_rows 2 1 [[1]; [2]]%R)
              r1 net1 w1 r2 net2 w2 eq_refl E1 E2) as (a & Ha1 & Ha2).
  exists r1, net1, w1, r2, net2, w2, a. auto.
Defined.

(* ====================================================================== *)
(** ** What the training cost is *)
(* ====================================================================== *)

Lemma sample_cost_stable (w w1 : world) (cost : ndarray -> ndarray -> option R)
    (ls ls1 : list Layer) (smp : sample) :
  (forall k b, heap w !! k = Some b -> heap w1 !! k = Some b) ->
  (forall fc, FullyConnected fc ∈ ls ->
     is_Some (heap w !! FullyConnectedLayer.W fc)
     /\ is_Some (heap w !! FullyConnectedLayer.B fc)) ->
  skeleton <$> ls1 = skeleton <$> ls ->
  is_Some (heap w !! smp.1) -> is_Some (heap w !! smp.2) ->
  sample_cost w1 cost ls1 smp = sample_cost w cost ls smp.
Proof.
  intros Hext Hvalid Hsk (xa & Hx) (ya & Hy). unfold sample_cost.
  rewrite (Hext _ _ Hx), (Hext _ _ Hy), Hx, Hy. cbn.
  rewrite (network_function_skeleton w1 ls ls1 xa Hsk).
  rewrite (network_function_back w w1 ls Hext Hvalid). reflexivity.
Qed.

Lemma data_cost_stable (w w1 : world) (cost : ndarray -> ndarray -> option R)
    (ls ls1 : list Layer) (data : list sample) :
  (forall k b, heap w !! k = Some b -> heap w1 !! k = Some b) ->
  (forall fc, FullyConnected fc ∈ ls ->
     is_Some (heap w !! FullyConnectedLayer.W fc)
     /\ is_Some (heap w !! FullyConnectedLayer.B fc)) ->
  skeleton <$> ls1 = skeleton <$> ls ->
  (forall smp, smp ∈ data -> is_Some (heap w !! smp.1) /\ is_Some (heap w !! smp.2)) ->
  data_cost w1 cost ls1 data = data_cost w cost ls data.
Proof.
  intros Hext Hvalid Hsk Hdata. unfold data_cost. f_equal.
  apply list_fmap_ext. intros i smp Hi.
  destruct (Hdata smp) as (Hx & Hy); [eapply list_elem_of_lookup_2, Hi|].
  rewrite (sample_cost_stable w w1 cost ls ls1 smp); auto.
Qed.

(** The cost loop of [stochastic_gradient_descent] adds up the costs of
    the samples. *)
Lemma total_cost_loop (data : list sample) :
  forall (amount : R) (s : Network.t) (w : world) c s' w',
    for_each data
      (fun cost_amount '(input, output) =>
         activation ← Network.forward_pass input;
         self ← get_self;
         expected ← load output;
         a ← load activation;
         c ← np (Network.cost self expected a);
         mret (cost_amount + c)%R)
      amount s w
    = Ok c s' w' ->
    (forall smp, smp ∈ data -> is_Some (heap w !! smp.1) /\ is_Some (heap w !! smp.2)) ->
    (forall fc, FullyConnected fc ∈ tail (Network.layers s) ->
       is_Some (heap w !! FullyConnectedLayer.W fc)
       /\ is_Some (heap w !! FullyConnectedLayer.B fc)) ->
    c = (amount + data_cost w (Network.cost s) (tail (Network.layers s)) data)%R
    /\ (forall smp, smp ∈ data ->
          is_Some (sample_cost w (Network.cost s) (tail (Network.layers s)) smp))
    /\ (forall k b, heap w !! k = Some b -> heap w' !! k = Some b)
    /\ skeleton <$> Network.layers s' = skeleton <$> Network.layers s
    /\ Network.cost s' = Network.cost s.
Proof.
  induction data as [|[x y] data IH]; intros amount s w c s' w' Hrun Hdata Hvalid.
  - cbn in Hrun. injection Hrun as <- <- <-. unfold data_cost. cbn.
    split; [lra|]. split; [|auto].
    intros smp Hin. apply elem_of_nil in Hin. contradiction.
  - cbn [for_each] in Hrun. rewrite bind_unfold in Hrun.
    rewrite bind_unfold in Hrun.
    destruct (Network.forward_pass x s w) as [act s1 w1| |] eqn:E;
      [|discriminate|discriminate].
    destruct (Hdata (x, y) ltac:(left)) as ((xa & Hxa) & (ya & Hya)). cbn in Hxa, Hya.
    destruct (forward_pass_function x s w act s1 w1 xa E Hxa)
      as (a & Ha & Hnf & Hext & Hsk).
    pose proof (stable_forward_pass Network.cost ltac:(reflexivity) x s w) as Hcost.
    rewrite E in Hcost. cbn in Hcost.
    rewrite bind_get_self in Hrun.
    rewrite (bind_Ok _ _ _ _ _ _ _ (load_Ok _ _ _ _ (Hext _ _ Hya))) in Hrun.
    rewrite (bind_Ok _ _ _ _ _ _ _ (load_Ok _ _ _ _ Ha)) in Hrun.
    rewrite bind_unfold in Hrun.
    destruct (Network.cost s1 ya a) as [c1|] eqn:Hc1; [|discriminate].
    cbn [np mret M_ret] in Hrun.
    assert (Hsk' : skeleton <$> tail (Network.layers s1)
                   = skeleton <$> tail (Network.layers s)).
    { rewrite !fmap_tail. f_equal. exact Hsk. }
    assert (Hs : sample_cost w (Network.cost s) (tail (Network.layers s)) (x, y)
                 = Some c1).
    { unfold sample_cost. cbn. rewrite Hxa, Hya. cbn.
      rewrite <- (network_function_back w w1 _ Hext Hvalid), Hnf. cbn.
      rewrite <- Hcost. exact Hc1. }
    apply IH in Hrun as (-> & Hsome & Hext' & Hsk2 & Hcost2).
    + split; [|split; [|split; [intros k b Hk; apply Hext', Hext, Hk | split; congruence]]].
      * rewrite Hcost.
        rewrite (data_cost_stable w w1 (Network.cost s) _ _ data Hext Hvalid Hsk')
          by (intros smp Hin; apply Hdata; right; exact Hin).
        unfold data_cost at 2. cbn [fmap list_fmap foldr].
        fold (data_cost w (Network.cost s) (tail (Network.layers s)) data).
        rewrite Hs. cbn. lra.
      * intros smp Hin. apply elem_of_cons in Hin as [->|Hin]; [rewrite Hs; eauto|].
        destruct (Hdata smp ltac:(right; exact Hin)) as (Hvx & Hvy).
        rewrite <- (sample_cost_stable w w1 (Network.cost s) _ _ smp Hext Hvalid Hsk'
                      Hvx Hvy), <- Hcost.
        apply Hsome, Hin.
    + intros smp Hin. destruct (Hdata smp ltac:(right; exact Hin)) as ((b & Hb) & (d & Hd)).
      split; eexists; apply Hext; eassumption.
    + intros fc Hin.
      destruct (valid_parameters_skeleton w _ _ Hsk' Hvalid fc Hin) as ((wa & HW) & (ba & HB)).
      split; eexists; apply Hext; eassumption.
Qed.

Lemma heap_frame_valid (S : list loc) (w w' : world) (l : loc) :
  heap_frame S w w' -> is_Some (heap w !! l) -> is_Some (heap w' !! l).
Proof. intros [H _] (a & Ha). destruct (H l a Ha) as (a' & Ha' & _). eauto. Qed.

Lemma valid_parameters_core (s s' : Network.t) (w w' : world) (S : list loc) :
  net_core s' = net_core s -> heap_frame S w w' ->
  (forall fc, FullyConnected fc ∈ tail (Network.layers s) ->
     is_Some (heap w !! FullyConnectedLayer.W fc)
     /\ is_Some (heap w !! FullyConnectedLayer.B fc)) ->
  forall fc, FullyConnected fc ∈ tail (Network.layers s') ->
    is_Some (heap w' !! FullyConnectedLayer.W fc)
    /\ is_Some (heap w' !! FullyConnectedLayer.B fc).
Proof.
  intros Hc Hf Hvalid fc Hin.
  apply net_core_inv in Hc as (Hsk & _).
  assert (Hsk' : skeleton <$> tail (Network.layers s')
                 = skeleton <$> tail (Network.layers s)).
  { rewrite !fmap_tail. f_equal. exact Hsk. }
  destruct (valid_parameters_skeleton w _ _ Hsk' Hvalid fc Hin) as (HW & HB).
  split; eapply heap_frame_valid; eassumption.
Qed.

(** An epoch that returns has recorded the mean cost of the network it
    leaves. *)
Lemma epoch_last_cost_point (shuffle : nat -> list sample -> list sample) (n : nat)
    (mini_batch_size : Z) (eta : R) (test_data : option (list sample))
    (training_data : list sample) (j : nat) (s : Network.t) (w : world)
    (td' : list sample) (s' : Network.t) (w' : world) :
  Network.epoch shuffle n mini_batch_size eta test_data training_data j s w
  = Ok td' s' w' ->
  (forall smp, smp ∈ shuffle j training_data ->
     is_Some (heap w !! smp.1) /\ is_Some (heap w !! smp.2)) ->
  (forall fc, FullyConnected fc ∈ tail (Network.layers s) ->
     is_Some (heap w !! FullyConnectedLayer.W fc)
     /\ is_Some (heap w !! FullyConnectedLayer.B fc)) ->
  last (Network.cost_points s')
  = Some (data_cost w' (Network.cost s') (tail (Network.layers s')) td'
          / INR (length td'))%R
  /\ forall smp, smp ∈ td' ->
       is_Some (sample_cost w' (Network.cost s') (tail (Network.layers s')) smp).
Proof.
  intros Hrun Hdata Hvalid.
  unfold Network.epoch in Hrun. cbv zeta in Hrun.
  set (td := shuffle j training_data) in *.
  rewrite bind_unfold in Hrun.
  destruct (mini_batches td n mini_batch_size) as [batches|]; [|discriminate].
  cbn [np mret M_ret] in Hrun.
  rewrite bind_unfold in Hrun.
  pose proof (keeps_for_each net_core (all_owned (net_core s)) (fun _ => True)
                (net_core s) batches
                (fun _ mini_batch => Network.mini_batch_pass eta mini_batch)
                (fun _ b _ =>
                   frame_core_mini_batch_pass (fun _ => True) _ (net_core s) 1
                     (fun _ _ => I) (fun _ x H => H) eta b ltac:(lia))
                tt s w eq_refl) as (Hc2 & Hf2 & _).
  destruct (for_each batches _ tt s w) as [[] s2 w2| |]; [|discriminate|discriminate].
  cbn [final_self final_world] in Hc2, Hf2.
  rewrite bind_unfold in Hrun.
  destruct (Network.total_cost td s2 w2) as [c s3 w3| |] eqn:E3;
    [|discriminate|discriminate].
  unfold Network.total_cost in E3.
  apply total_cost_loop in E3 as (-> & Hsome3 & Hext3 & Hsk3 & Hcost3); cycle 1.
  { intros smp Hin. destruct (Hdata smp Hin).
    split; eapply heap_frame_valid; eassumption. }
  { eapply valid_parameters_core; eassumption. }
  rewrite bind_unfold in Hrun. unfold Network.mean_cost at 1 in Hrun.
  destruct (length td =? 0); [discriminate|]. cbn [mret M_ret] in Hrun.
  rewrite bind_modify_self in Hrun.
  rewrite bind_unfold in Hrun.
  match type of Hrun with
  | context [Network.report j test_data td ?c _ w3] => set (amount := c) in *
  end.
  match type of Hrun with
  | context [Network.report j test_data td amount ?v w3] => set (s4 := v) in *
  end.
  pose proof (frame_report (fun _ => True) [] (net_core s4) (fun _ => I)
                j test_data td amount s4 w3 eq_refl) as (Hc5 & (_ & Hf5) & _).
  pose proof (stable_report_cost_points j test_data td amount s4 w3) as Hcp.
  destruct (Network.report j test_data td amount s4 w3) as [[] s5 w5| |];
    [|discriminate|discriminate].
  cbn [final_self final_world] in Hc5, Hf5, Hcp.
  change (Ok td s5 w5 = Ok td' s' w') in Hrun.
  injection Hrun as <- <- <-.
  assert (Hext5 : forall k b, heap w2 !! k = Some b -> heap w5 !! k = Some b).
  { intros k b Hk. apply Hf5; [apply not_elem_of_nil|]. apply Hext3, Hk. }
  apply net_core_inv in Hc5 as (Hsk5 & Hcost5 & _).
  assert (Hvalid2 : forall fc, FullyConnected fc ∈ tail (Network.layers s2) ->
            is_Some (heap w2 !! FullyConnectedLayer.W fc)
            /\ is_Some (heap w2 !! FullyConnectedLayer.B fc)).
  { eapply valid_parameters_core; eassumption. }
  assert (Hdata2 : forall smp, smp ∈ td ->
            is_Some (heap w2 !! smp.1) /\ is_Some (heap w2 !! smp.2)).
  { intros smp Hin. destruct (Hdata smp Hin).
    split; eapply heap_frame_valid; eassumption. }
  assert (Hsk52 : skeleton <$> tail (Network.layers s5)
                  = skeleton <$> tail (Network.layers s2)).
  { rewrite !fmap_tail. f_equal. rewrite Hsk5.
    change (Network.layers s4) with (Network.layers s3). exact Hsk3. }
  assert (Hcost52 : Network.cost s5 = Network.cost s2).
  { rewrite Hcost5. change (Network.cost s4) with (Network.cost s3). exact Hcost3. }
  split.
  - rewrite Hcp. unfold s4. cbn [Network.cost_points Network.set_cost_points].
    rewrite last_snoc. f_equal. f_equal.
    unfold amount. rewrite Rplus_0_l, Hcost52. symmetry.
    apply data_cost_stable; assumption.
  - intros smp Hin. destruct (Hdata2 smp Hin) as (Hvx & Hvy).
    rewrite Hcost52.
    rewrite (sample_cost_stable w2 w5 (Network.cost s2) _ _ smp Hext5 Hvalid2 Hsk52
               Hvx Hvy).
    apply Hsome3, Hin.
Qed.

(** X30. What the training cost sequence ends with. After a
    [stochastic_gradient_descent] of at least one epoch that returns, the
    last entry of [cost_points] is the mean, over the training samples, of
    the cost of what the returned network computes for the sample, with the
    weights and biases it has at the end; the cost of every sample is
    defined. *)
Theorem stochastic_gradient_descent_records_final_cost
    (shuffle : nat -> list sample -> list sample)
    (training_data : list sample) (epochs mini_batch_size : Z) (eta : R)
    (test_data : option (list sample)) (net : Network.t) (w : world)
    (training_data' : list sample) (net' : Network.t) (w' : world) :
  Network.stochastic_gradient_descent shuffle training_data epochs mini_batch_size
    eta test_data net w
  = Ok training_data' net' w' ->
  (0 < epochs)%Z ->
  (forall j l, j < Z.to_nat epochs -> Permutation (shuffle j l) l) ->
  (forall smp, smp ∈ training_data ->
     is_Some (heap w !! smp.1) /\ is_Some (heap w !! smp.2)) ->
  (forall i fc, Network.layers net !! i = Some (FullyConnected fc) ->
     is_Some (heap w !! FullyConnectedLayer.W fc)
     /\ is_Some (heap w !! FullyConnectedLayer.B fc)) ->
  last (Network.cost_points net')
  = Some (data_cost w' (Network.cost net') (tail (Network.layers net')) training_data'
          / INR (length training_data'))%R
  /\ forall smp, smp ∈ training_data' ->
       is_Some (sample_cost w' (Network.cost net') (tail (Network.layers net')) smp).
Proof.
  intros Hrun Hpos Hperm Hdata Hvalid.
  unfold Network.stochastic_gradient_descent in Hrun. cbv zeta in Hrun.
  destruct (Z.to_nat epochs) as [|n] eqn:En; [lia|].
  rewrite seq_S, for_each_app, bind_unfold in Hrun. cbn [Nat.add] in Hrun.
  set (body := Network.epoch shuffle (length training_data) mini_batch_size eta test_data)
    in *.
  pose proof (keeps_for_each net_core (all_owned (net_core net)) (fun _ => True)
                (net_core net) (seq 0 n) body
                (fun td j _ =>
                   frame_epoch (fun _ => True) _ (net_core net) mini_batch_size
                     (fun _ => I) (fun _ _ => I) (fun _ x H => H)
                     shuffle (length training_data) eta test_data td j)
                training_data net w eq_refl) as (Hc1 & Hf1 & _).
  pose proof (ensures_for_each_rel (@Permutation sample) (seq 0 n) body
                (fun b => Permutation_refl b)
                (fun a b c => @Permutation_trans _ a b c)) as Hp1.
  destruct (for_each (seq 0 n) body training_data net w) as [td1 s1 w1| |] eqn:E1;
    [|discriminate|discriminate].
  cbn [final_self final_world] in Hc1, Hf1.
  assert (Hperm1 : Permutation training_data td1).
  { eapply Hp1; [|exact E1].
    intros td j Hj s0 w0 td2 s2 w2 E. apply elem_of_seq in Hj.
    apply epoch_returns_shuffled in E. subst td2. symmetry. apply Hperm. lia. }
  cbn [for_each] in Hrun. rewrite bind_unfold in Hrun.
  destruct (body td1 n s1 w1) as [td2 s2 w2| |] eqn:E2; [|discriminate|discriminate].
  change (Ok td2 s2 w2 = Ok training_data' net' w') in Hrun.
  injection Hrun as <- <- <-.
  apply (epoch_last_cost_point _ _ _ _ _ _ _ _ _ _ _ _ E2).
  - intros smp Hin. rewrite (Hperm n td1 ltac:(lia)), <- Hperm1 in Hin.
    destruct (Hdata smp Hin). split; eapply heap_frame_valid; eassumption.
  - eapply valid_parameters_core; [exact Hc1 | exact Hf1|].
    apply valid_parameters_tail, Hvalid.
Qed.

(** Two epochs on the network of the example. *)
Lemma stochastic_gradient_descent_records_final_cost_witness :
  exists training_data' net' w',
    Network.stochastic_gradient_descent demo_shuffle demo_training_data 2 2 (1 / 10)
      None demo_net demo_net_world
    = Ok training_data' net' w'
    /\ last (Network.cost_points net')
       = Some (data_cost w' (Network.cost net') (tail (Network.layers net'))
                 training_data'
               / INR (length training_data'))%R.
Proof.
  assert (Hst : exists td,
            status_of (Network.stochastic_gradient_descent demo_shuffle
                         demo_training_data 2 2 (1 / 10) None demo_net demo_net_world)
            = Returned td).
  { eexists. vm_compute. reflexivity. }
  destruct Hst as [td0 Hst].
  destruct (Network.stochastic_gradient_descent demo_shuffle demo_training_data 2 2
              (1 / 10) None demo_net demo_net_world)
    as [training_data' net' w'| |] eqn:E; [|discriminate Hst|discriminate Hst].
  destruct (stochastic_gradient_descent_records_final_cost demo_shuffle
              demo_training_data 2 2 (1 / 10) None demo_net demo_net_world
              training_data' net' w' E ltac:(lia)
              (fun j l _ => Permutation_sym (Permutation_rev l))) as [Hlast _].
  - intros smp Hin. unfold demo_training_data in Hin.
    repeat (apply elem_of_cons in Hin as [->|Hin]; [split; eexists; reflexivity|]).
    apply elem_of_nil in Hin. contradiction.
  - intros [|[|[|i]]] fc; cbn; intros [=]. subst fc.
    split; eexists; reflexivity.
  - exists training_data', net', w'. split; [reflexivity | exact Hlast].
Defined.

(* ====================================================================== *)
(** ** One epoch of stochastic_gradient_descent, with its cost *)
(* ====================================================================== *)

(** The cost loop makes one forward pass for each sample and calls nothing
    else. *)
Lemma total_cost_calls (data : list sample) :
  forall (amount : R) (s : Network.t) (w : world) c s' w',
    for_each data
      (fun cost_amount '(input, output) =>
         activation ← Network.forward_pass input;
         self ← get_self;
         expected ← load output;
         a ← load activation;
         c ← np (Network.cost self expected a);
         mret (cost_amount + c)%R)
      amount s w
    = Ok c s' w' ->
    calls w'
    = calls w
      ++ (data ≫= fun _ => Call_forward <$> seq 1 (length (Network.layers s) - 1)).
Proof.
  induction data as [|[x y] data IH]; intros amount s w c s' w' Hrun.
  - cbn in Hrun. injection Hrun as <- <- <-. cbn. rewrite app_nil_r. reflexivity.
  - cbn [for_each] in Hrun. rewrite bind_unfold in Hrun.
    rewrite bind_unfold in Hrun.
    destruct (Network.forward_pass x s w) as [act s1 w1| |] eqn:E;
      [|discriminate|discriminate].
    pose proof (forward_pass_calls x s w act s1 w1 E) as Hc1.
    destruct (keeps_forward_pass (fun _ => True) (net_skeleton s) x (fun _ => I)
                s w eq_refl) as [Hsk1 _].
    rewrite E in Hsk1. cbn in Hsk1.
    rewrite bind_get_self, bind_unfold in Hrun. unfold load at 1 in Hrun.
    destruct (heap w1 !! y) as [ya|]; [|discriminate].
    rewrite bind_unfold in Hrun. unfold load at 1 in Hrun.
    destruct (heap w1 !! act) as [a|]; [|discriminate].
    rewrite bind_unfold in Hrun.
    destruct (Network.cost s1 ya a) as [c1|]; [|discriminate].
    cbn [np mret M_ret] in Hrun.
    apply IH in Hrun. rewrite Hrun, Hc1, <- app_assoc.
    rewrite (net_skeleton_length (net_skeleton s) s1 Hsk1).
    rewrite (net_skeleton_length (net_skeleton s) s eq_refl).
    reflexivity.
Qed.

(** C6. An epoch that returns has partitioned the shuffled training data
    into the consecutive chunks [training_data[k:k+mini_batch_size]] for
    [k = 0, mini_batch_size, ...], each of [mini_batch_size] samples but
    possibly the last, which holds the rest; has run [mini_batch_pass] on
    the chunks in order, without touching the cost sequence; has then, from
    the state the last chunk left, made a forward pass for every training
    sample and nothing else, adding up the costs; and has appended that
    amount divided by the number of samples to the training cost sequence.
    When the samples and the layers' parameters are arrays, the amount is
    the sum, over the shuffled training samples, of the cost function on
    the expected output and on what the network computes for the input
    with the weights and biases the last chunk left, each of these costs
    being defined: the value appended is their mean. *)
Theorem epoch_spec
    (shuffle : nat -> list sample -> list sample)
    (training_data : list sample) (j : nat) (mini_batch_size : Z) (eta : R)
    (test_data : option (list sample))
    (net : Network.t) (w : world)
    (training_data' : list sample) (net' : Network.t) (w' : world) :
  (0 < mini_batch_size)%Z ->
  Permutation (shuffle j training_data) training_data ->
  Network.epoch shuffle (length training_data) mini_batch_size eta test_data
    training_data j net w
  = Ok training_data' net' w' ->
  let m := Z.to_nat mini_batch_size in
  let n := length training_data in
  exists batches net1 w1 cost_amount net2 w2,
    training_data' = shuffle j training_data
    /\ length training_data' = n /\ 0 < n
    (* the chunks *)
    /\ mini_batches training_data' n mini_batch_size = Some batches
    /\ concat batches = training_data'
    /\ length batches = (n + m - 1) / m
    /\ (forall i, i < length batches ->
          batches !! i = Some (firstn m (skipn (i * m) training_data')))
    /\ (forall i b, batches !! i = Some b ->
          0 < length b <= m /\ (S i < length batches -> length b = m))
    /\ (forall b, last batches = Some b ->
          length b = if n mod m =? 0 then m else n mod m)
    (* a mini_batch_pass for each chunk, in order *)
    /\ for_each batches (fun _ mini_batch => Network.mini_batch_pass eta mini_batch) tt
         net w
       = Ok tt net1 w1
    /\ Network.cost_points net1 = Network.cost_points net
    (* then the forward passes over the training data *)
    /\ Network.total_cost training_data' net1 w1 = Ok cost_amount net2 w2
    /\ Network.cost_points net'
       = Network.cost_points net ++ [(cost_amount / INR n)%R]
    (* one forward pass for each sample *)
    /\ calls w2
       = calls w1
         ++ (training_data'
               ≫= fun _ => Call_forward <$> seq 1 (length (Network.layers net) - 1))
    (* the amount is the sum of the costs of the samples *)
    /\ ((forall smp, smp ∈ training_data ->
           is_Some (heap w !! smp.1) /\ is_Some (heap w !! smp.2)) ->
        (forall fc, FullyConnected fc ∈ tail (Network.layers net) ->
           is_Some (heap w !! FullyConnectedLayer.W fc)
           /\ is_Some (heap w !! FullyConnectedLayer.B fc)) ->
        cost_amount
        = data_cost w1 (Network.cost net1) (tail (Network.layers net1)) training_data'
        /\ forall smp, smp ∈ training_data' ->
             is_Some (sample_cost w1 (Network.cost net1) (tail (Network.layers net1))
                        smp)).
Proof.
  intros Hpos Hperm Hrun m n.
  assert (Hlen : length (shuffle j training_data) = n).
  { apply Permutation_length. exact Hperm. }
  destruct (mini_batches_partition (shuffle j training_data) mini_batch_size Hpos)
    as (batches & Hb & Hconcat & Hcount & Hith & Hsizes & Hlast).
  rewrite Hlen in Hb, Hcount, Hlast. fold m in Hcount, Hith, Hsizes, Hlast.
  unfold Network.epoch in Hrun. cbv zeta in Hrun. fold n in Hrun.
  rewrite Hb, bind_np_Some, bind_unfold in Hrun.
  pose proof (stable_batches_cost_points eta batches net w) as Hcp1.
  pose proof (keeps_for_each net_core (all_owned (net_core net)) (fun _ => True)
                (net_core net) batches
                (fun _ mini_batch => Network.mini_batch_pass eta mini_batch)
                (fun _ b _ =>
                   frame_core_mini_batch_pass (fun _ => True) _ (net_core net) 1
                     (fun _ _ => I) (fun _ x H => H) eta b ltac:(lia))
                tt net w eq_refl) as (Hcore & Hframe & _).
  destruct (for_each batches _ tt net w) as [[] net1 w1| |] eqn:E1;
    [|discriminate|discriminate].
  cbn in Hcp1. cbn [final_self final_world] in Hcore, Hframe.
  rewrite bind_unfold in Hrun.
  pose proof (stable_total_cost Network.cost_points ltac:(reflexivity)
                (shuffle j training_data) net1 w1) as Hcp2.
  destruct (Network.total_cost (shuffle j training_data) net1 w1)
    as [cost_amount net2 w2| |] eqn:E2; [|discriminate|discriminate].
  cbn in Hcp2. rewrite bind_unfold in Hrun. unfold Network.mean_cost at 1 in Hrun.
  rewrite Hlen in Hrun.
  destruct (Nat.eqb_spec n 0) as [Hn0|Hn0]; [discriminate|].
  cbn [mret M_ret] in Hrun. rewrite bind_modify_self, bind_unfold in Hrun.
  match type of Hrun with
  | context [Network.report ?a ?b ?c ?d ?s ?w0] =>
      pose proof (stable_report_cost_points a b c d s w0) as Hcp3;
      destruct (Network.report a b c d s w0) as [[] net3 w3| |];
      [|discriminate|discriminate]
  end.
  cbn in Hcp3, Hrun. injection Hrun as <- <- <-.
  exists batches, net1, w1, cost_amount, net2, w2.
  split; [reflexivity|]. split; [exact Hlen|]. split; [lia|].
  split; [exact Hb|]. split; [exact Hconcat|]. split; [exact Hcount|].
  split; [exact Hith|]. split; [exact Hsizes|]. split; [exact Hlast|].
  split; [exact E1|]. split; [exact Hcp1|]. split; [exact E2|].
  split; [rewrite Hcp3, Hcp2, Hcp1; reflexivity|].
  split.
  - unfold Network.total_cost in E2. apply total_cost_calls in E2.
    rewrite E2, (net_core_length net net1 Hcore). reflexivity.
  - intros Hdata Hvalid.
    unfold Network.total_cost in E2.
    apply total_cost_loop in E2 as (-> & Hsome & _).
    + split; [lra | exact Hsome].
    + intros smp Hin.
      destruct (Hdata smp) as (Hx & Hy).
      { rewrite <- Hperm. exact Hin. }
      split; eapply heap_frame_valid; eassumption.
    + eapply valid_parameters_core; eassumption.
Qed.

(** The network of the example trained for one epoch on three samples in
    mini-batches of two, with the learning rate [1/10]. The shuffled data
    are cut in the chunks [[sample_b; sample_a]] and [[sample_a]]; they
    leave the weights [[39/50; -3/25]] and the bias [-17/100], with which
    the costs of the three samples are [1521/20000], [2401/20000] and
    [2401/20000]. The cost point appended is their mean, and the cost loop
    called the forward propagation of the two layers once for each
    sample. *)
Lemma epoch_spec_witness :
  exists training_data' net' w' net1 w1 cost_amount net2 w2,
    Network.epoch demo_shuffle 3 2 (1 / 10) None [sample_a; sample_a; sample_b] 0
      demo_train_net demo_train_world
    = Ok training_data' net' w'
    /\ training_data' = [sample_b; sample_a; sample_a]
    /\ for_each [[sample_b; sample_a]; [sample_a]]
         (fun _ mini_batch => Network.mini_batch_pass (1 / 10) mini_batch) tt
         demo_train_net demo_train_world
       = Ok tt net1 w1
    /\ Network.total_cost training_data' net1 w1 = Ok cost_amount net2 w2
    /\ calls w2
       = calls w1
         ++ [Call_forward 1; Call_forward 2; Call_forward 1; Call_forward 2;
             Call_forward 1; Call_forward 2]
    /\ cost_amount = (31615 / 100000)%R
    /\ Network.cost_points net' = [(31615 / 100000 / 3)%R].
Proof.
  assert (Hst : status_of
                  (Network.epoch demo_shuffle 3 2 (1 / 10) None
                     [sample_a; sample_a; sample_b] 0 demo_train_net demo_train_world)
                = Returned [sample_b; sample_a; sample_a]).
  { vm_compute. reflexivity. }
  assert (Hcost :
            let r := for_each [[sample_b; sample_a]; [sample_a]]
                       (fun _ mini_batch => Network.mini_batch_pass (1 / 10) mini_batch)
                       tt demo_train_net demo_train_world in
            data_cost (final_world r) (Network.cost (final_self r))
              (tail (Network.layers (final_self r))) [sample_b; sample_a; sample_a]
            = (31615 / 100000)%R).
  { cbv zeta. settle_reals. }
  destruct (Network.epoch demo_shuffle 3 2 (1 / 10) None [sample_a; sample_a; sample_b] 0
              demo_train_net demo_train_world) as [training_data' net' w'| |] eqn:E;
    [|discriminate Hst|discriminate Hst].
  destruct (epoch_spec demo_shuffle [sample_a; sample_a; sample_b] 0 2 (1 / 10) None
              demo_train_net demo_train_world training_data' net' w' ltac:(lia)
              (Permutation_sym (Permutation_rev [sample_a; sample_a; sample_b])) E)
    as (batches & net1 & w1 & c & net2 & w2 & Htd & _ & _ & Hb & _ & _ & _ & _
        & _ & Hrun & _ & Htotal & Hcp & Hcalls & Hamount).
  subst training_data'.
  assert (Hbatches : batches = [[sample_b; sample_a]; [sample_a]]).
  { vm_compute in Hb. injection Hb as <-. reflexivity. }
  subst batches.
  change (for_each [[sample_b; sample_a]; [sample_a]]
            (fun _ mini_batch => Network.mini_batch_pass (1 / 10) mini_batch) tt
            demo_train_net demo_train_world
          = Ok tt net1 w1) in Hrun.
  cbv zeta in Hcost. rewrite Hrun in Hcost. cbn [final_self final_world] in Hcost.
  destruct Hamount as [Hsum _].
  { intros smp Hin.
    repeat (apply elem_of_cons in Hin as [->|Hin]);
      [| | |apply elem_of_nil in Hin; contradiction];
      split; eexists; reflexivity. }
  { intros fc Hin. cbn in Hin.
    repeat (apply elem_of_cons in Hin as [Hin|Hin]);
      [injection Hin as -> | discriminate Hin | apply elem_of_nil in Hin; contradiction].
    split; eexists; reflexivity. }
  exists (demo_shuffle 0 [sample_a; sample_a; sample_b]), net', w', net1, w1, c, net2, w2.
  split; [reflexivity|]. split; [reflexivity|]. split; [exact Hrun|].
  split; [exact Htotal|]. split; [exact Hcalls|].
  split; [rewrite Hsum; exact Hcost|].
  rewrite Hcp, Hsum. change (demo_shuffle 0 [sample_a; sample_a; sample_b])
    with [sample_b; sample_a; sample_a].
  rewrite Hcost. cbn. f_equal. f_equal. lra.
Defined.
